(** * Key recovery engine of the translation exporter: model and verification

    A shallow embedding of [KeyWorker] (src/exporters/translation_exporter.cpp)
    and of the lexical utilities it uses (src/utility/common.cpp).

    Conventions of the embedding
    - a Godot [String] is the list of its UTF-32 code points ([char32_t] as
      [N]); a [CharString] (the UTF-8 form of the same text) is identified
      with the [String] it encodes, so [String::utf8] and [utf8()] are the
      identity;
    - [HashMap] and [HashSet] of the engine iterate in insertion order: they
      are lists without duplicate keys, new entries appended at the end;
    - machine integers are [Z]; unsigned counters wrap modulo 2^64 where the
      code increments them;
    - what the code prints is collected in the ghost field [console]. *)

From Stdlib Require Import ZArith QArith Lia Ascii String DecimalString.
From Stdlib Require Import Sorting.Sorted Sorting.Permutation.
From Stdlib Require DecimalPos DecimalN.
From stdpp Require Import base decidable option numbers list.

Local Open Scope Z_scope.

(** ** Strings *)

Definition char32 : Type := N.
Definition String : Type := list char32.

(** A string literal of the source as a [String]. *)
Definition lit (s : string) : String :=
  map N_of_ascii (list_ascii_of_string s).

Definition len (s : String) : Z := Z.of_nat (length s).

Definition is_empty (s : String) : bool :=
  match s with [] => true | _ => false end.

(** [String::operator[]]: the terminator (0) is read at index [length]. *)
Definition char_at (s : String) (i : Z) : char32 :=
  nth (Z.to_nat i) s 0%N.

Definition chr (c : char32) : String := [c].

(** [HashSet::has] and [HashSet::insert] on an insertion-ordered set. *)
Definition set_has {A} `{EqDecision A} (s : list A) (x : A) : bool :=
  bool_decide (x ∈ s).

Definition set_insert {A} `{EqDecision A} (s : list A) (x : A) : list A :=
  if set_has s x then s else s ++ [x].

(** ** Lexical utilities (namespace gdre, src/utility/common.cpp) *)

(** [Vector::size] of a byte buffer. *)
Definition len_bytes (b : list Z) : Z := Z.of_nat (length b).

Module gdre.

(** [get_chars_in_set]: every character of [s] that is in [chars] is
    inserted into [ret]. *)
Fixpoint get_chars_in_set (s : String) (chars ret : list char32) : list char32 :=
  match s with
  | [] => ret
  | c :: s' =>
      get_chars_in_set s' chars (if set_has chars c then set_insert ret c else ret)
  end.

Definition string_has_whitespace (s : String) : bool :=
  existsb (fun c => (c =? 32)%N || (c =? 9)%N || (c =? 10)%N) s.

Definition string_is_ascii (s : String) : bool :=
  forallb (fun c => negb (127 <? c)%N) s.

(** The loop of [split_multichar]: [rest] is [s] from index [i] on.  At the
    [break] the index was advanced past the splitter, and the text after it
    becomes [current]. *)
Fixpoint split_multichar_loop (splitters : list char32) (allow_empty : bool)
    (maxsplit : Z) (rest : String) (ret : list String) (current : String)
    : list String * String :=
  match rest with
  | [] => (ret, current)
  | c :: rest' =>
      if set_has splitters c then
        if (0 <? len current) || allow_empty then
          let ret' := ret ++ [current] in
          if (0 <? maxsplit) && (maxsplit - 1 <=? Z.of_nat (length ret'))
          then (ret', rest')
          else split_multichar_loop splitters allow_empty maxsplit rest' ret' []
        else split_multichar_loop splitters allow_empty maxsplit rest' ret current
      else split_multichar_loop splitters allow_empty maxsplit rest' ret (current ++ [c])
  end.

Definition split_multichar (s : String) (splitters : list char32)
    (allow_empty : bool) (maxsplit : Z) : list String :=
  let '(ret, current) := split_multichar_loop splitters allow_empty maxsplit s [] [] in
  if (0 <? len current) || allow_empty then ret ++ [current] else ret.

(** The loop of [rsplit_multichar] scans from the last character: [rrest] is
    the reversed text of [s] up to index [i]. *)
Fixpoint rsplit_multichar_loop (splitters : list char32) (allow_empty : bool)
    (maxsplit : Z) (rrest : String) (ret : list String) (current : String)
    : list String * String :=
  match rrest with
  | [] => (ret, current)
  | c :: rrest' =>
      if set_has splitters c then
        if (0 <? len current) || allow_empty then
          let ret' := ret ++ [current] in
          if (0 <? maxsplit) && (maxsplit - 1 <=? Z.of_nat (length ret'))
          then (ret', rev rrest')
          else rsplit_multichar_loop splitters allow_empty maxsplit rrest' ret' []
        else rsplit_multichar_loop splitters allow_empty maxsplit rrest' ret current
      else rsplit_multichar_loop splitters allow_empty maxsplit rrest' ret (c :: current)
  end.

Definition rsplit_multichar (s : String) (splitters : list char32)
    (allow_empty : bool) (maxsplit : Z) : list String :=
  let '(ret, current) :=
    rsplit_multichar_loop splitters allow_empty maxsplit (rev s) [] [] in
  rev (if (0 <? len current) || allow_empty then ret ++ [current] else ret).

(** The loop shared by [_split_multichar] and [_rsplit_multichar]: the
    splitters are turned into a character set; [None] is the
    [ERR_FAIL_V_MSG] exit on a splitter longer than one character. *)
Fixpoint splitter_chars_of (splitters : list String) (splitter_chars : list char32)
    : option (list char32) :=
  match splitters with
  | [] => Some splitter_chars
  | sp :: rest =>
      if 1 <? len sp then None
      else splitter_chars_of rest (set_insert splitter_chars (char_at sp 0))
  end.

Definition _split_multichar (s : String) (splitters : list String)
    (allow_empty : bool) (maxsplit : Z) : list String :=
  match splitter_chars_of splitters [] with
  | None => []
  | Some splitter_chars => split_multichar s splitter_chars allow_empty maxsplit
  end.

Definition _rsplit_multichar (s : String) (splitters : list String)
    (allow_empty : bool) (maxsplit : Z) : list String :=
  match splitter_chars_of splitters [] with
  | None => []
  | Some splitter_chars => rsplit_multichar s splitter_chars allow_empty maxsplit
  end.

(** [has_chars_in_set]: some character of [s] is in [chars]. *)
Definition has_chars_in_set (s : String) (chars : list char32) : bool :=
  existsb (fun c => set_has chars c) s.

(** [remove_chars] (the overload on a [HashSet]): the characters of [s] that
    are not in [chars], in their order. *)
Definition remove_chars (s : String) (chars : list char32) : String :=
  filter (fun c => negb (set_has chars c)) s.

(** [remove_whitespace]: space, tab, line feed and carriage return go. *)
Definition remove_whitespace (s : String) : String :=
  filter (fun c => negb ((c =? 32)%N || (c =? 9)%N || (c =? 10)%N || (c =? 13)%N)) s.

(** The loop of [check_header] from index [i] on: [buffer] and [header] are
    what is left of the two arrays.  Reading the header beyond its end is
    undefined ([None]). *)
Fixpoint check_header_loop (n : nat) (buffer header : list Z) : option bool :=
  match n with
  | O => Some true
  | S n' =>
      match header with
      | [] => None
      | h :: header' =>
          match buffer with
          | [] => None
          | b :: buffer' =>
              if negb (b =? h) then Some false else check_header_loop n' buffer' header'
          end
      end
  end.

(** [check_header]: the bytes of [p_buffer] and the characters of
    [p_expected_header], each as the [int] it is promoted to for the
    comparison. *)
Definition check_header (p_buffer : list Z) (p_expected_header : list Z)
    (p_expected_len : Z) : option bool :=
  if len_bytes p_buffer <? p_expected_len then Some false
  else check_header_loop (Z.to_nat p_expected_len) p_buffer p_expected_header.

(** *** [detect_utf8] *)

(** The number of continuation bytes that the leading byte [c] announces;
    [None] is the [return false] on an invalid leading byte. *)
Definition utf8_skip (c : Z) : option Z :=
  if Z.land c 128 =? 0 then Some 0
  else if Z.land c 224 =? 192 then Some 1
  else if Z.land c 240 =? 224 then Some 2
  else if Z.land c 248 =? 240 then Some 3
  else if Z.land c 252 =? 248 then Some 4
  else if Z.land c 254 =? 252 then Some 5
  else None.

(** The first loop of [detect_utf8], from [ptrtmp] on: it stops at the end
    of the buffer or at a NUL byte and returns [(cstr_size, str_size)];
    [None] is a [return false]. *)
Fixpoint detect_utf8_scan (bytes : list Z) (skip c_start : Z) (cstr_size str_size : Z)
    : option (Z * Z) :=
  match bytes with
  | [] => Some (cstr_size, str_size)
  | c :: bytes' =>
      if c =? 0 then Some (cstr_size, str_size)
      else if skip =? 0 then
        match utf8_skip c with
        | None => None
        | Some skip' =>
            if (skip' =? 1) && (Z.land c 30 =? 0) then None
            else detect_utf8_scan bytes' skip' c (cstr_size + 1) (str_size + 1)
        end
      else if ((c_start =? 224) && (skip =? 2) && (c <? 160))
              || ((c_start =? 240) && (skip =? 3) && (c <? 144))
              || ((c_start =? 248) && (skip =? 4) && (c <? 136))
              || ((c_start =? 252) && (skip =? 5) && (c <? 132)) then None
      else if (c <? 128) || (191 <? c) then None
      else detect_utf8_scan bytes' (skip - 1) c_start (cstr_size + 1) str_size
  end.

(** The leading byte without its length marker: [(0xff >> n) & c]. *)
Definition utf8_lead_bits (skip c : Z) : Z :=
  if skip =? 0 then 0 else Z.land (Z.shiftr 255 (skip + 2)) c.

(** The second loop of [detect_utf8] over the [cstr_size] bytes counted by
    the first; [unichar] is a [uint32_t]. *)
Fixpoint detect_utf8_decode (bytes : list Z) (skip unichar : Z) : bool :=
  match bytes with
  | [] => true
  | c :: bytes' =>
      if skip =? 0 then
        match utf8_skip c with
        | None => false
        | Some skip' => detect_utf8_decode bytes' skip' (utf8_lead_bits skip' c)
        end
      else if (c <? 128) || (191 <? c) then detect_utf8_decode bytes' 0 unichar
      else
        let unichar := Z.lor (Z.shiftl unichar 6 mod 2 ^ 32) (Z.land c 63) in
        let skip := skip - 1 in
        if skip =? 0 then
          if unichar =? 0 then false
          else if Z.land unichar 4294965248 =? 55296 then false
          else if 1114111 <? unichar then false
          else detect_utf8_decode bytes' skip unichar
        else detect_utf8_decode bytes' skip unichar
  end.

(** [detect_utf8] on the bytes of a [PackedByteArray]. *)
Definition detect_utf8 (p_utf8_buf : list Z) : bool :=
  let p_len := len_bytes p_utf8_buf in
  if p_len =? 0 then true
  else
    let has_bom :=
      (3 <=? p_len) && (nth 0 p_utf8_buf 0 =? 239) && (nth 1 p_utf8_buf 0 =? 187)
      && (nth 2 p_utf8_buf 0 =? 191) in
    let p_utf8 := if has_bom then drop 3 p_utf8_buf else p_utf8_buf in
    match detect_utf8_scan p_utf8 0 0 0 0 with
    | None => false
    | Some (cstr_size, str_size) =>
        if str_size =? 0 then true
        else detect_utf8_decode (take (Z.to_nat cstr_size) p_utf8) 0 0
    end.

End gdre.

(** ** Collaborators that are not part of the sources *)

(** Methods of the engine's [String], [RegEx] and [Vector] whose
    definitions live in the engine: case mapping, stripping and trimming,
    substring tests and replacement, [RegEx::search_all] (the strings of
    every match, for a pattern and a subject), and [Vector::sort_custom]
    instantiated with [StringLengthCompare<true>]. *)
Class Engine : Type := {
  to_upper : String -> String;
  to_lower : String -> String;
  strip_escapes : String -> String;
  strip_edges : String -> String;
  begins_with : String -> String -> bool;
  ends_with : String -> String -> bool;
  trim_prefix : String -> String -> String;
  trim_suffix : String -> String -> String;
  contains : String -> String -> bool;
  replace : String -> String -> String -> String;
  regex_search_all : String -> String -> list (list String);
  sort_custom_length_desc : list String -> list String
}.

(** [OptimizedTranslationExtractor] (compat/optimized_translation_extractor.h):
    the key -> message oracle.  The empty string is the answer for an
    unknown key. *)
Class Translation : Type := {
  get_message_str : String -> String;
  get_message_multipart_str :
    String -> String -> String -> String -> String -> String -> String
}.

(** [Error] values that occur in the engine (core/error/error_list.h). *)
Inductive Error : Type :=
  | OK
  | ERR_TIMEOUT
  | ERR_SKIP
  | ERR_OTHER (code : Z).

#[global] Instance Error_eq_dec : EqDecision Error.
Proof. solve_decision. Defined.

(** Lines printed by [pop_keys]. *)
Inductive LogEvent : Type :=
  | WarnMismatch (matching_key msg matching_message : String)
      (* WARN_PRINT: Found matching key '%s' for message '%s' but key is used for message '%s' *)
  | VerboseDuplicate (matching_key msg : String)
      (* print_verbose: WARNING: Found duplicate key '%s' for message '%s' *)
  | VerboseMissing (msg : String).
      (* print_verbose: Could not find key for message '%s' *)

(** ** Constants of translation_exporter.cpp *)

Definition ALL_PUNCTUATION : list char32 :=
  lit ".!?,;:()[]{}<>/\|`~@#$%^&*-_+='" ++ [34%N; 10%N; 9%N; 32%N].

Definition REMOVABLE_PUNCTUATION : list char32 := lit ".!?,;:%".

Definition STANDARD_SUFFIXES : list String :=
  map lit ["Name"; "Text"; "Title"; "Description"; "Label"; "Button"; "Speech";
           "Tooltip"; "Legend"; "Body"; "Content"]%string.

Definition MISSING_KEY_PREFIX : String := lit "<!MissingKey:".

Definition MAX_FILT_RES_STRINGS : Z := 8000.
Definition MAX_STAGE_TIME : Z := 30 * 1000.

Definition INT_MAX : Z := 2147483647.
Definition wrap64 (x : Z) : Z := x mod 2 ^ 64.

(** ** The state of a [KeyWorker]

    Members that only serve timing diagnostics ([times], [start_time],
    [start_of_multithread]), file names ([path], [default_locale],
    [old_translation_csv_path]: the contents of the files are inputs of
    [run]) and the debug-only sets [successful_prefixes] and
    [successful_suffixes] are left out; [mutex] has no content in a
    sequential replay. *)

#[projections(primitive)]
Record KeyWorker : Type := Build_KeyWorker {
  key_to_message : list (String * String);  (* HashMap<String, String>, in insertion order *)
  resource_strings : list String;
  filtered_resource_strings : list String;
  filtered_resource_strings_t : list String;
  default_messages : list String;  (* const Vector<String>& *)
  previous_keys_found : list String;  (* const HashSet<String> *)
  keys : list String;
  keys_have_whitespace : bool;
  keys_are_all_upper : bool;
  keys_are_all_lower : bool;
  keys_are_all_ascii : bool;
  has_common_prefix : bool;
  do_stage_4 : bool;
  do_stage_5 : bool;
  cancel : bool;
  punctuation : list char32;  (* HashSet<char32_t> *)
  punctuation_str : list String;  (* HashSet<CharString> *)
  keys_that_are_all_upper : Z;  (* std::atomic<size_t> *)
  keys_that_are_all_lower : Z;
  keys_that_are_all_ascii : Z;
  max_key_len : Z;
  common_to_all_prefix : String;
  common_prefixes : list String;
  common_suffixes : list String;
  common_suffixes_t : list String;
  common_prefixes_t : list String;
  word_regex : option String;  (* Ref<RegEx>: the compiled pattern *)
  current_keys_found : Z;  (* std::atomic<uint64_t> *)
  keys_found : list Z;
  current_stage_keys_found : list String;  (* ParallelFlatHashSet<String> *)
  stages_keys_found : list (list String);
  last_completed : Z;  (* std::atomic<uint64_t> *)
  current_stage : String;
  suffix_probes : list (String * bool);  (* ghost: calls of try_key_suffixes as (suffix2, result) *)
  dispatched : list (String * Error);  (* ghost: stages handed to the task manager, with the result *)
  console : list LogEvent  (* ghost: WARN_PRINT and print_verbose lines *)
}.

(** Field updates ([field = v] of the source), one per mutable member. *)
Definition set_key_to_message (v : list (String * String)) (st : KeyWorker) : KeyWorker :=
  let 'Build_KeyWorker _ x1 x2 x3 x4 x5 x6 x7 x8 x9 x10 x11 x12 x13 x14 x15 x16 x17 x18 x19 x20
    x21 x22 x23 x24 x25 x26 x27 x28 x29 x30 x31 x32 x33 x34 x35 := st in
  Build_KeyWorker v x1 x2 x3 x4 x5 x6 x7 x8 x9 x10 x11 x12 x13 x14 x15 x16 x17 x18 x19 x20 x21
    x22 x23 x24 x25 x26 x27 x28 x29 x30 x31 x32 x33 x34 x35.
Definition set_resource_strings (v : list String) (st : KeyWorker) : KeyWorker :=
  let 'Build_KeyWorker x0 _ x2 x3 x4 x5 x6 x7 x8 x9 x10 x11 x12 x13 x14 x15 x16 x17 x18 x19 x20
    x21 x22 x23 x24 x25 x26 x27 x28 x29 x30 x31 x32 x33 x34 x35 := st in
  Build_KeyWorker x0 v x2 x3 x4 x5 x6 x7 x8 x9 x10 x11 x12 x13 x14 x15 x16 x17 x18 x19 x20 x21
    x22 x23 x24 x25 x26 x27 x28 x29 x30 x31 x32 x33 x34 x35.
Definition set_filtered_resource_strings (v : list String) (st : KeyWorker) : KeyWorker :=
  let 'Build_KeyWorker x0 x1 _ x3 x4 x5 x6 x7 x8 x9 x10 x11 x12 x13 x14 x15 x16 x17 x18 x19 x20
    x21 x22 x23 x24 x25 x26 x27 x28 x29 x30 x31 x32 x33 x34 x35 := st in
  Build_KeyWorker x0 x1 v x3 x4 x5 x6 x7 x8 x9 x10 x11 x12 x13 x14 x15 x16 x17 x18 x19 x20 x21
    x22 x23 x24 x25 x26 x27 x28 x29 x30 x31 x32 x33 x34 x35.
Definition set_filtered_resource_strings_t (v : list String) (st : KeyWorker) : KeyWorker :=
  let 'Build_KeyWorker x0 x1 x2 _ x4 x5 x6 x7 x8 x9 x10 x11 x12 x13 x14 x15 x16 x17 x18 x19 x20
    x21 x22 x23 x24 x25 x26 x27 x28 x29 x30 x31 x32 x33 x34 x35 := st in
  Build_KeyWorker x0 x1 x2 v x4 x5 x6 x7 x8 x9 x10 x11 x12 x13 x14 x15 x16 x17 x18 x19 x20 x21
    x22 x23 x24 x25 x26 x27 x28 x29 x30 x31 x32 x33 x34 x35.
Definition set_keys (v : list String) (st : KeyWorker) : KeyWorker :=
  let 'Build_KeyWorker x0 x1 x2 x3 x4 x5 _ x7 x8 x9 x10 x11 x12 x13 x14 x15 x16 x17 x18 x19 x20
    x21 x22 x23 x24 x25 x26 x27 x28 x29 x30 x31 x32 x33 x34 x35 := st in
  Build_KeyWorker x0 x1 x2 x3 x4 x5 v x7 x8 x9 x10 x11 x12 x13 x14 x15 x16 x17 x18 x19 x20 x21
    x22 x23 x24 x25 x26 x27 x28 x29 x30 x31 x32 x33 x34 x35.
Definition set_keys_have_whitespace (v : bool) (st : KeyWorker) : KeyWorker :=
  let 'Build_KeyWorker x0 x1 x2 x3 x4 x5 x6 _ x8 x9 x10 x11 x12 x13 x14 x15 x16 x17 x18 x19 x20
    x21 x22 x23 x24 x25 x26 x27 x28 x29 x30 x31 x32 x33 x34 x35 := st in
  Build_KeyWorker x0 x1 x2 x3 x4 x5 x6 v x8 x9 x10 x11 x12 x13 x14 x15 x16 x17 x18 x19 x20 x21
    x22 x23 x24 x25 x26 x27 x28 x29 x30 x31 x32 x33 x34 x35.
Definition set_keys_are_all_upper (v : bool) (st : KeyWorker) : KeyWorker :=
  let 'Build_KeyWorker x0 x1 x2 x3 x4 x5 x6 x7 _ x9 x10 x11 x12 x13 x14 x15 x16 x17 x18 x19 x20
    x21 x22 x23 x24 x25 x26 x27 x28 x29 x30 x31 x32 x33 x34 x35 := st in
  Build_KeyWorker x0 x1 x2 x3 x4 x5 x6 x7 v x9 x10 x11 x12 x13 x14 x15 x16 x17 x18 x19 x20 x21
    x22 x23 x24 x25 x26 x27 x28 x29 x30 x31 x32 x33 x34 x35.
Definition set_keys_are_all_lower (v : bool) (st : KeyWorker) : KeyWorker :=
  let 'Build_KeyWorker x0 x1 x2 x3 x4 x5 x6 x7 x8 _ x10 x11 x12 x13 x14 x15 x16 x17 x18 x19 x20
    x21 x22 x23 x24 x25 x26 x27 x28 x29 x30 x31 x32 x33 x34 x35 := st in
  Build_KeyWorker x0 x1 x2 x3 x4 x5 x6 x7 x8 v x10 x11 x12 x13 x14 x15 x16 x17 x18 x19 x20 x21
    x22 x23 x24 x25 x26 x27 x28 x29 x30 x31 x32 x33 x34 x35.
Definition set_keys_are_all_ascii (v : bool) (st : KeyWorker) : KeyWorker :=
  let 'Build_KeyWorker x0 x1 x2 x3 x4 x5 x6 x7 x8 x9 _ x11 x12 x13 x14 x15 x16 x17 x18 x19 x20
    x21 x22 x23 x24 x25 x26 x27 x28 x29 x30 x31 x32 x33 x34 x35 := st in
  Build_KeyWorker x0 x1 x2 x3 x4 x5 x6 x7 x8 x9 v x11 x12 x13 x14 x15 x16 x17 x18 x19 x20 x21
    x22 x23 x24 x25 x26 x27 x28 x29 x30 x31 x32 x33 x34 x35.
Definition set_has_common_prefix (v : bool) (st : KeyWorker) : KeyWorker :=
  let 'Build_KeyWorker x0 x1 x2 x3 x4 x5 x6 x7 x8 x9 x10 _ x12 x13 x14 x15 x16 x17 x18 x19 x20
    x21 x22 x23 x24 x25 x26 x27 x28 x29 x30 x31 x32 x33 x34 x35 := st in
  Build_KeyWorker x0 x1 x2 x3 x4 x5 x6 x7 x8 x9 x10 v x12 x13 x14 x15 x16 x17 x18 x19 x20 x21
    x22 x23 x24 x25 x26 x27 x28 x29 x30 x31 x32 x33 x34 x35.
Definition set_do_stage_4 (v : bool) (st : KeyWorker) : KeyWorker :=
  let 'Build_KeyWorker x0 x1 x2 x3 x4 x5 x6 x7 x8 x9 x10 x11 _ x13 x14 x15 x16 x17 x18 x19 x20
    x21 x22 x23 x24 x25 x26 x27 x28 x29 x30 x31 x32 x33 x34 x35 := st in
  Build_KeyWorker x0 x1 x2 x3 x4 x5 x6 x7 x8 x9 x10 x11 v x13 x14 x15 x16 x17 x18 x19 x20 x21
    x22 x23 x24 x25 x26 x27 x28 x29 x30 x31 x32 x33 x34 x35.
Definition set_do_stage_5 (v : bool) (st : KeyWorker) : KeyWorker :=
  let 'Build_KeyWorker x0 x1 x2 x3 x4 x5 x6 x7 x8 x9 x10 x11 x12 _ x14 x15 x16 x17 x18 x19 x20
    x21 x22 x23 x24 x25 x26 x27 x28 x29 x30 x31 x32 x33 x34 x35 := st in
  Build_KeyWorker x0 x1 x2 x3 x4 x5 x6 x7 x8 x9 x10 x11 x12 v x14 x15 x16 x17 x18 x19 x20 x21
    x22 x23 x24 x25 x26 x27 x28 x29 x30 x31 x32 x33 x34 x35.
Definition set_cancel (v : bool) (st : KeyWorker) : KeyWorker :=
  let 'Build_KeyWorker x0 x1 x2 x3 x4 x5 x6 x7 x8 x9 x10 x11 x12 x13 _ x15 x16 x17 x18 x19 x20
    x21 x22 x23 x24 x25 x26 x27 x28 x29 x30 x31 x32 x33 x34 x35 := st in
  Build_KeyWorker x0 x1 x2 x3 x4 x5 x6 x7 x8 x9 x10 x11 x12 x13 v x15 x16 x17 x18 x19 x20 x21
    x22 x23 x24 x25 x26 x27 x28 x29 x30 x31 x32 x33 x34 x35.
Definition set_punctuation (v : list char32) (st : KeyWorker) : KeyWorker :=
  let 'Build_KeyWorker x0 x1 x2 x3 x4 x5 x6 x7 x8 x9 x10 x11 x12 x13 x14 _ x16 x17 x18 x19 x20
    x21 x22 x23 x24 x25 x26 x27 x28 x29 x30 x31 x32 x33 x34 x35 := st in
  Build_KeyWorker x0 x1 x2 x3 x4 x5 x6 x7 x8 x9 x10 x11 x12 x13 x14 v x16 x17 x18 x19 x20 x21
    x22 x23 x24 x25 x26 x27 x28 x29 x30 x31 x32 x33 x34 x35.
Definition set_punctuation_str (v : list String) (st : KeyWorker) : KeyWorker :=
  let 'Build_KeyWorker x0 x1 x2 x3 x4 x5 x6 x7 x8 x9 x10 x11 x12 x13 x14 x15 _ x17 x18 x19 x20
    x21 x22 x23 x24 x25 x26 x27 x28 x29 x30 x31 x32 x33 x34 x35 := st in
  Build_KeyWorker x0 x1 x2 x3 x4 x5 x6 x7 x8 x9 x10 x11 x12 x13 x14 x15 v x17 x18 x19 x20 x21
    x22 x23 x24 x25 x26 x27 x28 x29 x30 x31 x32 x33 x34 x35.
Definition set_keys_that_are_all_upper (v : Z) (st : KeyWorker) : KeyWorker :=
  let 'Build_KeyWorker x0 x1 x2 x3 x4 x5 x6 x7 x8 x9 x10 x11 x12 x13 x14 x15 x16 _ x18 x19 x20
    x21 x22 x23 x24 x25 x26 x27 x28 x29 x30 x31 x32 x33 x34 x35 := st in
  Build_KeyWorker x0 x1 x2 x3 x4 x5 x6 x7 x8 x9 x10 x11 x12 x13 x14 x15 x16 v x18 x19 x20 x21
    x22 x23 x24 x25 x26 x27 x28 x29 x30 x31 x32 x33 x34 x35.
Definition set_keys_that_are_all_lower (v : Z) (st : KeyWorker) : KeyWorker :=
  let 'Build_KeyWorker x0 x1 x2 x3 x4 x5 x6 x7 x8 x9 x10 x11 x12 x13 x14 x15 x16 x17 _ x19 x20
    x21 x22 x23 x24 x25 x26 x27 x28 x29 x30 x31 x32 x33 x34 x35 := st in
  Build_KeyWorker x0 x1 x2 x3 x4 x5 x6 x7 x8 x9 x10 x11 x12 x13 x14 x15 x16 x17 v x19 x20 x21
    x22 x23 x24 x25 x26 x27 x28 x29 x30 x31 x32 x33 x34 x35.
Definition set_keys_that_are_all_ascii (v : Z) (st : KeyWorker) : KeyWorker :=
  let 'Build_KeyWorker x0 x1 x2 x3 x4 x5 x6 x7 x8 x9 x10 x11 x12 x13 x14 x15 x16 x17 x18 _ x20
    x21 x22 x23 x24 x25 x26 x27 x28 x29 x30 x31 x32 x33 x34 x35 := st in
  Build_KeyWorker x0 x1 x2 x3 x4 x5 x6 x7 x8 x9 x10 x11 x12 x13 x14 x15 x16 x17 x18 v x20 x21
    x22 x23 x24 x25 x26 x27 x28 x29 x30 x31 x32 x33 x34 x35.
Definition set_max_key_len (v : Z) (st : KeyWorker) : KeyWorker :=
  let 'Build_KeyWorker x0 x1 x2 x3 x4 x5 x6 x7 x8 x9 x10 x11 x12 x13 x14 x15 x16 x17 x18 x19 _
    x21 x22 x23 x24 x25 x26 x27 x28 x29 x30 x31 x32 x33 x34 x35 := st in
  Build_KeyWorker x0 x1 x2 x3 x4 x5 x6 x7 x8 x9 x10 x11 x12 x13 x14 x15 x16 x17 x18 x19 v x21
    x22 x23 x24 x25 x26 x27 x28 x29 x30 x31 x32 x33 x34 x35.
Definition set_common_to_all_prefix (v : String) (st : KeyWorker) : KeyWorker :=
  let 'Build_KeyWorker x0 x1 x2 x3 x4 x5 x6 x7 x8 x9 x10 x11 x12 x13 x14 x15 x16 x17 x18 x19 x20
    _ x22 x23 x24 x25 x26 x27 x28 x29 x30 x31 x32 x33 x34 x35 := st in
  Build_KeyWorker x0 x1 x2 x3 x4 x5 x6 x7 x8 x9 x10 x11 x12 x13 x14 x15 x16 x17 x18 x19 x20 v
    x22 x23 x24 x25 x26 x27 x28 x29 x30 x31 x32 x33 x34 x35.
Definition set_common_prefixes (v : list String) (st : KeyWorker) : KeyWorker :=
  let 'Build_KeyWorker x0 x1 x2 x3 x4 x5 x6 x7 x8 x9 x10 x11 x12 x13 x14 x15 x16 x17 x18 x19 x20
    x21 _ x23 x24 x25 x26 x27 x28 x29 x30 x31 x32 x33 x34 x35 := st in
  Build_KeyWorker x0 x1 x2 x3 x4 x5 x6 x7 x8 x9 x10 x11 x12 x13 x14 x15 x16 x17 x18 x19 x20 x21
    v x23 x24 x25 x26 x27 x28 x29 x30 x31 x32 x33 x34 x35.
Definition set_common_suffixes (v : list String) (st : KeyWorker) : KeyWorker :=
  let 'Build_KeyWorker x0 x1 x2 x3 x4 x5 x6 x7 x8 x9 x10 x11 x12 x13 x14 x15 x16 x17 x18 x19 x20
    x21 x22 _ x24 x25 x26 x27 x28 x29 x30 x31 x32 x33 x34 x35 := st in
  Build_KeyWorker x0 x1 x2 x3 x4 x5 x6 x7 x8 x9 x10 x11 x12 x13 x14 x15 x16 x17 x18 x19 x20 x21
    x22 v x24 x25 x26 x27 x28 x29 x30 x31 x32 x33 x34 x35.
Definition set_common_suffixes_t (v : list String) (st : KeyWorker) : KeyWorker :=
  let 'Build_KeyWorker x0 x1 x2 x3 x4 x5 x6 x7 x8 x9 x10 x11 x12 x13 x14 x15 x16 x17 x18 x19 x20
    x21 x22 x23 _ x25 x26 x27 x28 x29 x30 x31 x32 x33 x34 x35 := st in
  Build_KeyWorker x0 x1 x2 x3 x4 x5 x6 x7 x8 x9 x10 x11 x12 x13 x14 x15 x16 x17 x18 x19 x20 x21
    x22 x23 v x25 x26 x27 x28 x29 x30 x31 x32 x33 x34 x35.
Definition set_common_prefixes_t (v : list String) (st : KeyWorker) : KeyWorker :=
  let 'Build_KeyWorker x0 x1 x2 x3 x4 x5 x6 x7 x8 x9 x10 x11 x12 x13 x14 x15 x16 x17 x18 x19 x20
    x21 x22 x23 x24 _ x26 x27 x28 x29 x30 x31 x32 x33 x34 x35 := st in
  Build_KeyWorker x0 x1 x2 x3 x4 x5 x6 x7 x8 x9 x10 x11 x12 x13 x14 x15 x16 x17 x18 x19 x20 x21
    x22 x23 x24 v x26 x27 x28 x29 x30 x31 x32 x33 x34 x35.
Definition set_word_regex (v : option String) (st : KeyWorker) : KeyWorker :=
  let 'Build_KeyWorker x0 x1 x2 x3 x4 x5 x6 x7 x8 x9 x10 x11 x12 x13 x14 x15 x16 x17 x18 x19 x20
    x21 x22 x23 x24 x25 _ x27 x28 x29 x30 x31 x32 x33 x34 x35 := st in
  Build_KeyWorker x0 x1 x2 x3 x4 x5 x6 x7 x8 x9 x10 x11 x12 x13 x14 x15 x16 x17 x18 x19 x20 x21
    x22 x23 x24 x25 v x27 x28 x29 x30 x31 x32 x33 x34 x35.
Definition set_current_keys_found (v : Z) (st : KeyWorker) : KeyWorker :=
  let 'Build_KeyWorker x0 x1 x2 x3 x4 x5 x6 x7 x8 x9 x10 x11 x12 x13 x14 x15 x16 x17 x18 x19 x20
    x21 x22 x23 x24 x25 x26 _ x28 x29 x30 x31 x32 x33 x34 x35 := st in
  Build_KeyWorker x0 x1 x2 x3 x4 x5 x6 x7 x8 x9 x10 x11 x12 x13 x14 x15 x16 x17 x18 x19 x20 x21
    x22 x23 x24 x25 x26 v x28 x29 x30 x31 x32 x33 x34 x35.
Definition set_keys_found (v : list Z) (st : KeyWorker) : KeyWorker :=
  let 'Build_KeyWorker x0 x1 x2 x3 x4 x5 x6 x7 x8 x9 x10 x11 x12 x13 x14 x15 x16 x17 x18 x19 x20
    x21 x22 x23 x24 x25 x26 x27 _ x29 x30 x31 x32 x33 x34 x35 := st in
  Build_KeyWorker x0 x1 x2 x3 x4 x5 x6 x7 x8 x9 x10 x11 x12 x13 x14 x15 x16 x17 x18 x19 x20 x21
    x22 x23 x24 x25 x26 x27 v x29 x30 x31 x32 x33 x34 x35.
Definition set_current_stage_keys_found (v : list String) (st : KeyWorker) : KeyWorker :=
  let 'Build_KeyWorker x0 x1 x2 x3 x4 x5 x6 x7 x8 x9 x10 x11 x12 x13 x14 x15 x16 x17 x18 x19 x20
    x21 x22 x23 x24 x25 x26 x27 x28 _ x30 x31 x32 x33 x34 x35 := st in
  Build_KeyWorker x0 x1 x2 x3 x4 x5 x6 x7 x8 x9 x10 x11 x12 x13 x14 x15 x16 x17 x18 x19 x20 x21
    x22 x23 x24 x25 x26 x27 x28 v x30 x31 x32 x33 x34 x35.
Definition set_stages_keys_found (v : list (list String)) (st : KeyWorker) : KeyWorker :=
  let 'Build_KeyWorker x0 x1 x2 x3 x4 x5 x6 x7 x8 x9 x10 x11 x12 x13 x14 x15 x16 x17 x18 x19 x20
    x21 x22 x23 x24 x25 x26 x27 x28 x29 _ x31 x32 x33 x34 x35 := st in
  Build_KeyWorker x0 x1 x2 x3 x4 x5 x6 x7 x8 x9 x10 x11 x12 x13 x14 x15 x16 x17 x18 x19 x20 x21
    x22 x23 x24 x25 x26 x27 x28 x29 v x31 x32 x33 x34 x35.
Definition set_last_completed (v : Z) (st : KeyWorker) : KeyWorker :=
  let 'Build_KeyWorker x0 x1 x2 x3 x4 x5 x6 x7 x8 x9 x10 x11 x12 x13 x14 x15 x16 x17 x18 x19 x20
    x21 x22 x23 x24 x25 x26 x27 x28 x29 x30 _ x32 x33 x34 x35 := st in
  Build_KeyWorker x0 x1 x2 x3 x4 x5 x6 x7 x8 x9 x10 x11 x12 x13 x14 x15 x16 x17 x18 x19 x20 x21
    x22 x23 x24 x25 x26 x27 x28 x29 x30 v x32 x33 x34 x35.
Definition set_current_stage (v : String) (st : KeyWorker) : KeyWorker :=
  let 'Build_KeyWorker x0 x1 x2 x3 x4 x5 x6 x7 x8 x9 x10 x11 x12 x13 x14 x15 x16 x17 x18 x19 x20
    x21 x22 x23 x24 x25 x26 x27 x28 x29 x30 x31 _ x33 x34 x35 := st in
  Build_KeyWorker x0 x1 x2 x3 x4 x5 x6 x7 x8 x9 x10 x11 x12 x13 x14 x15 x16 x17 x18 x19 x20 x21
    x22 x23 x24 x25 x26 x27 x28 x29 x30 x31 v x33 x34 x35.
Definition set_suffix_probes (v : list (String * bool)) (st : KeyWorker) : KeyWorker :=
  let 'Build_KeyWorker x0 x1 x2 x3 x4 x5 x6 x7 x8 x9 x10 x11 x12 x13 x14 x15 x16 x17 x18 x19 x20
    x21 x22 x23 x24 x25 x26 x27 x28 x29 x30 x31 x32 _ x34 x35 := st in
  Build_KeyWorker x0 x1 x2 x3 x4 x5 x6 x7 x8 x9 x10 x11 x12 x13 x14 x15 x16 x17 x18 x19 x20 x21
    x22 x23 x24 x25 x26 x27 x28 x29 x30 x31 x32 v x34 x35.
Definition set_dispatched (v : list (String * Error)) (st : KeyWorker) : KeyWorker :=
  let 'Build_KeyWorker x0 x1 x2 x3 x4 x5 x6 x7 x8 x9 x10 x11 x12 x13 x14 x15 x16 x17 x18 x19 x20
    x21 x22 x23 x24 x25 x26 x27 x28 x29 x30 x31 x32 x33 _ x35 := st in
  Build_KeyWorker x0 x1 x2 x3 x4 x5 x6 x7 x8 x9 x10 x11 x12 x13 x14 x15 x16 x17 x18 x19 x20 x21
    x22 x23 x24 x25 x26 x27 x28 x29 x30 x31 x32 x33 v x35.
Definition set_console (v : list LogEvent) (st : KeyWorker) : KeyWorker :=
  let 'Build_KeyWorker x0 x1 x2 x3 x4 x5 x6 x7 x8 x9 x10 x11 x12 x13 x14 x15 x16 x17 x18 x19 x20
    x21 x22 x23 x24 x25 x26 x27 x28 x29 x30 x31 x32 x33 x34 _ := st in
  Build_KeyWorker x0 x1 x2 x3 x4 x5 x6 x7 x8 x9 x10 x11 x12 x13 x14 x15 x16 x17 x18 x19 x20 x21
    x22 x23 x24 x25 x26 x27 x28 x29 x30 x31 x32 x33 x34 v.

(** [KeyWorker(p_default_translation, default_messages, p_previous_keys_found)]
    with the member initialisers of the struct. *)
Definition KeyWorker_new (default_messages previous_keys_found : list String) : KeyWorker :=
  {| key_to_message := []; resource_strings := []; filtered_resource_strings := [];
     filtered_resource_strings_t := []; default_messages := default_messages;
     previous_keys_found := previous_keys_found; keys := [];
     keys_have_whitespace := false; keys_are_all_upper := true;
     keys_are_all_lower := true; keys_are_all_ascii := true;
     has_common_prefix := false; do_stage_4 := true; do_stage_5 := false;
     cancel := false; punctuation := []; punctuation_str := [];
     keys_that_are_all_upper := 0; keys_that_are_all_lower := 0;
     keys_that_are_all_ascii := 0; max_key_len := 0; common_to_all_prefix := [];
     common_prefixes := []; common_suffixes := []; common_suffixes_t := [];
     common_prefixes_t := []; word_regex := None; current_keys_found := 0;
     keys_found := []; current_stage_keys_found := []; stages_keys_found := [];
     last_completed := 0; current_stage := []; suffix_probes := [];
     dispatched := []; console := [] |}.

(** ** [HashMap<String, V>] as an insertion-ordered association list *)

Definition map_has {V} (m : list (String * V)) (key : String) : bool :=
  bool_decide (key ∈ m.*1).

(** [m[key] = v]: the value is replaced in place, a new key is appended. *)
Fixpoint map_assign {V} (m : list (String * V)) (key : String) (v : V) : list (String * V) :=
  match m with
  | [] => [(key, v)]
  | (k, v0) :: m' =>
      if decide (k = key) then (k, v) :: m' else (k, v0) :: map_assign m' key v
  end.

(** [m[key]] read: the value of the entry, where a missing key is first
    inserted with the default value. *)
Fixpoint map_index {V} (dflt : V) (m : list (String * V)) (key : String)
    : V * list (String * V) :=
  match m with
  | [] => (dflt, [(key, dflt)])
  | (k, v0) :: m' =>
      if decide (k = key) then (v0, m)
      else let '(v, m'') := map_index dflt m' key in (v, (k, v0) :: m'')
  end.

Section KeyTable.
Context `{Engine} `{Translation}.

(** *** Admission into the Key Table *)

Definition _set_key_stuff (key : String) (st : KeyWorker) : KeyWorker :=
  let st := set_current_keys_found (wrap64 (current_keys_found st + 1)) st in
  let st :=
    if negb (keys_have_whitespace st) && gdre.string_has_whitespace key
    then set_keys_have_whitespace true st else st in
  let st :=
    if bool_decide (to_upper key = key)
    then set_keys_that_are_all_upper (wrap64 (keys_that_are_all_upper st + 1)) st
    else set_keys_are_all_upper false st in
  let st :=
    if bool_decide (to_lower key = key)
    then set_keys_that_are_all_lower (wrap64 (keys_that_are_all_lower st + 1)) st
    else set_keys_are_all_lower false st in
  let st :=
    if gdre.string_is_ascii key
    then set_keys_that_are_all_ascii (wrap64 (keys_that_are_all_ascii st + 1)) st
    else set_keys_are_all_ascii false st in
  let st := set_current_stage_keys_found (set_insert (current_stage_keys_found st) key) st in
  let st := set_max_key_len (Z.max (max_key_len st) (len key)) st in
  let st := set_punctuation (gdre.get_chars_in_set key ALL_PUNCTUATION (punctuation st)) st in
  set_punctuation_str
    (fold_left (fun acc p => set_insert acc (chr p)) (punctuation st) (punctuation_str st)) st.

Definition _set_key (key msg : String) (st : KeyWorker) : bool * KeyWorker :=
  if is_empty key then (false, st)
  else if map_has (key_to_message st) key then (true, st)
  else
    let st := _set_key_stuff key st in
    (true, set_key_to_message (map_assign (key_to_message st) key msg) st).

Definition try_key (key : String) (st : KeyWorker) : bool * KeyWorker :=
  if is_empty key then (false, st)
  else
    let msg := get_message_str key in
    if negb (is_empty msg) then _set_key key msg st else (false, st).

Definition combine_string (part1 part2 part3 part4 part5 part6 : String) : String :=
  let str := part1 in
  let str := if negb (is_empty part2) then str ++ part2 else str in
  let str := if negb (is_empty part3) then str ++ part3 else str in
  let str := if negb (is_empty part4) then str ++ part4 else str in
  let str := if negb (is_empty part5) then str ++ part5 else str in
  if negb (is_empty part6) then str ++ part6 else str.

Definition try_key_multipart (part1 part2 part3 part4 part5 part6 : String)
    (st : KeyWorker) : bool * KeyWorker :=
  let msg := get_message_multipart_str part1 part2 part3 part4 part5 part6 in
  if negb (is_empty msg) then
    let key := combine_string part1 part2 part3 part4 part5 part6 in
    let '(_, st) := _set_key key msg st in
    (true, st)
  else (false, st).

(** [for (auto p : punctuation_str) if (probe(p)) return true;].  The set is
    only changed by a successful probe, which leaves the loop, so the loop
    runs over the set as it is when the loop starts. *)
Fixpoint try_each_punctuation (ps : list String)
    (probe : String -> KeyWorker -> bool * KeyWorker) (st : KeyWorker)
    : bool * KeyWorker :=
  match ps with
  | [] => (false, st)
  | p :: ps' =>
      let '(hit, st') := probe p st in
      if hit then (true, st') else try_each_punctuation ps' probe st'
  end.

(** [reg_successful_prefix] and [reg_successful_suffix] do nothing unless
    DEBUG_ENABLED is defined; they are left out. *)
Definition try_key_prefix (prefix suffix : String) (st : KeyWorker) : bool * KeyWorker :=
  let '(hit, st) := try_key_multipart prefix suffix [] [] [] [] st in
  if hit then (true, st)
  else try_each_punctuation (punctuation_str st)
         (fun p => try_key_multipart prefix p suffix [] [] []) st.

Definition try_key_suffix (prefix suffix : String) (st : KeyWorker) : bool * KeyWorker :=
  let '(hit, st) := try_key_multipart prefix suffix [] [] [] [] st in
  if hit then (true, st)
  else try_each_punctuation (punctuation_str st)
         (fun p => try_key_multipart prefix p suffix [] [] []) st.

Definition try_key_suffixes_body (prefix suffix suffix2 : String) (st : KeyWorker)
    : bool * KeyWorker :=
  if is_empty suffix then try_key_suffix prefix suffix2 st
  else
    let '(hit, st) := try_key_multipart prefix suffix suffix2 [] [] [] st in
    if hit then (true, st)
    else try_each_punctuation (punctuation_str st)
           (fun p => try_key_multipart prefix suffix p suffix2 [] []) st.

(** [try_key_suffixes]; the call and its result are recorded in the ghost
    field [suffix_probes]. *)
Definition try_key_suffixes (prefix suffix suffix2 : String) (st : KeyWorker)
    : bool * KeyWorker :=
  let '(hit, st) := try_key_suffixes_body prefix suffix suffix2 st in
  (hit, set_suffix_probes (suffix_probes st ++ [(suffix2, hit)]) st).

Definition try_key_prefix_suffix (prefix key suffix : String) (st : KeyWorker)
    : bool * KeyWorker :=
  let '(hit, st) := try_key_multipart prefix key suffix [] [] [] st in
  if hit then (true, st)
  else try_each_punctuation (punctuation_str st)
         (fun p => try_key_multipart prefix p key p suffix []) st.

(** *** Numeric suffixes *)

(** The decimal digits of a number that is not negative. *)
Definition digits (n : Z) : String :=
  lit (NilEmpty.string_of_uint (N.to_uint (Z.to_N n))).

(** [%0Wlld]: zeros are put before the digits up to the width [w]; a minus
    sign counts for the width and stays in front. *)
Definition zero_pad (w : Z) (num : Z) : String :=
  if num <? 0 then
    lit "-" ++ repeat 48%N (Z.to_nat (w - 1 - len (digits (- num)))) ++ digits (- num)
  else repeat 48%N (Z.to_nat (w - len (digits num))) ++ digits num.

Definition cs_num (num : Z) (zero_prefix_len : Z) : String :=
  if 0 <? zero_prefix_len then
    if zero_prefix_len =? 1 then zero_pad 2 num
    else if zero_prefix_len =? 2 then zero_pad 3 num
    else if zero_prefix_len =? 3 then zero_pad 4 num
    else if zero_prefix_len =? 4 then zero_pad 5 num
    else if zero_prefix_len =? 5 then zero_pad 6 num
    else if zero_prefix_len =? 6 then zero_pad 7 num
    else zero_pad 8 num
  else zero_pad 0 num.

Definition get_magnitude_prefix (magnitude : Z) : String :=
  if (0 <=? magnitude) && (magnitude <=? 10)
  then repeat 48%N (Z.to_nat magnitude) else [].

(** [for (int num = min_num; num < max_num; num++)]: [n] numbers from [num]
    on are tried, the hits are counted. *)
Fixpoint try_numbers (n : nat) (num : Z) (res_s suffix : String) (zero_prefix_len : Z)
    (numbers_found : Z) (st : KeyWorker) : Z * KeyWorker :=
  match n with
  | O => (numbers_found, st)
  | S n' =>
      let '(hit, st) := try_key_suffixes res_s suffix (cs_num num zero_prefix_len) st in
      try_numbers n' (num + 1) res_s suffix zero_prefix_len
        (if hit then numbers_found + 1 else numbers_found) st
  end.

(** [while (found_most)].  [max_num] is an [int]: doubling it past INT_MAX
    is undefined, which is the result [None]; [fuel] bounds the number of
    rounds (30 doublings of a positive [int] always overflow). *)
Fixpoint widen_numbers (fuel : nat) (res_s suffix : String) (zero_prefix_len : Z)
    (min_num max_num : Z) (st : KeyWorker) : option KeyWorker :=
  match fuel with
  | O => None
  | S fuel' =>
      let '(numbers_found, st) :=
        try_numbers (Z.to_nat (max_num - min_num)) min_num res_s suffix
          zero_prefix_len 0 st in
      let found_most := bool_decide (max_num - min_num - 1 ≤ numbers_found) in
      if bool_decide (INT_MAX < max_num * 2) then None
      else if found_most
      then widen_numbers fuel' res_s suffix zero_prefix_len max_num (max_num * 2) st
      else Some st
  end.

Definition try_num_suffix (res_s suffix : String) (skip_magnitude_check : bool)
    (st : KeyWorker) : option KeyWorker :=
  let '(found_num, st) := try_key_suffixes res_s suffix (lit "1") st in
  let '(zero_prefix_len, st) :=
    if negb skip_magnitude_check then
      let '(hit, st) := try_key_suffixes res_s suffix (lit "01") st in
      let zero_prefix_len := if hit then 1 else 0 in
      if negb found_num && (zero_prefix_len =? 0) then
        let '(hit, st) := try_key_suffixes res_s suffix (lit "001") st in
        let zero_prefix_len := if hit then 2 else 0 in
        if zero_prefix_len =? 0 then
          let '(hit, st) := try_key_suffixes res_s suffix (lit "0001") st in
          ((if hit then 3 else 0), st)
        else (zero_prefix_len, st)
      else (zero_prefix_len, st)
    else (0, st) in
  if found_num || (0 <? zero_prefix_len) || skip_magnitude_check then
    let '(_, st) := try_key_suffixes res_s suffix (lit "N") st in
    let '(_, st) := try_key_suffixes res_s suffix (lit "n") st in
    let '(_, st) := try_key_suffixes res_s suffix (lit "0") st in
    let min_num := if skip_magnitude_check then 0 else 2 in
    let max_num := if skip_magnitude_check then 10 else 4 in
    widen_numbers 32 res_s suffix zero_prefix_len min_num max_num st
  else Some st.

End KeyTable.

(** ** Reconciliation *)

Section Reconciliation.

Definition log_line (e : LogEvent) (st : KeyWorker) : KeyWorker :=
  set_console (console st ++ [e]) st.

(** [String(msg).split("\n")[0]]: the text before the first line feed. *)
Fixpoint first_line (msg : String) : String :=
  match msg with
  | [] => []
  | c :: msg' => if (c =? 10)%N then [] else c :: first_line msg'
  end.

Definition missing_key (msg : String) : String :=
  MISSING_KEY_PREFIX ++ first_line msg ++ lit ">".

(** The inner loop of [pop_keys] over the entries of [key_to_message]; the
    result is [(found, has_match, matching_key, keys)]. *)
Fixpoint pop_keys_scan (entries : list (String * String)) (msg : String)
    (keys : list String) (has_match : bool) (matching_key : String)
    : bool * bool * String * list String :=
  match entries with
  | [] => (false, has_match, matching_key, keys)
  | (k, v) :: entries' =>
      if bool_decide (v = msg) then
        if negb (set_has keys k) then (true, true, k, keys ++ [k])
        else pop_keys_scan entries' msg keys true k
      else pop_keys_scan entries' msg keys has_match matching_key
  end.

(** One round of the outer loop of [pop_keys]. *)
Definition pop_keys_step (acc : Z * KeyWorker) (msg : String) : Z * KeyWorker :=
  let '(missing_keys, st) := acc in
  let '(found, has_match, matching_key, keys') :=
    pop_keys_scan (key_to_message st) msg (keys st) false [] in
  let st := set_keys keys' st in
  if found then (missing_keys, st)
  else if has_match then
    let '(matching_message, m) := map_index [] (key_to_message st) matching_key in
    let st := set_key_to_message m st in
    if negb (bool_decide (msg = matching_message)) then
      let st := log_line (WarnMismatch matching_key msg matching_message) st in
      (missing_keys + 1, set_keys (keys st ++ [missing_key msg]) st)
    else
      let st := log_line (VerboseDuplicate matching_key msg) st in
      (missing_keys, set_keys (keys st ++ [matching_key]) st)
  else
    let st := log_line (VerboseMissing msg) st in
    (missing_keys + 1, set_keys (keys st ++ [missing_key msg]) st).

Definition pop_keys (st : KeyWorker) : Z * KeyWorker :=
  fold_left pop_keys_step (default_messages st) (0, set_keys [] st).

End Reconciliation.

(** ** Affix discovery *)

Section AffixDiscovery.
Context `{Engine}.

(** [inc_counts] of [find_common_prefixes_and_suffixes]. *)
Definition inc_counts (counts : list (String * Z)) (part : String) : list (String * Z) :=
  if is_empty part then counts
  else if map_has counts part
  then map_assign counts part (fst (map_index 0 counts part) + 1)
  else map_assign counts part 1.

(** [while (part_start_idx < res_s.length())]: the punctuation that follows
    the prefix in [res_s] is appended to the prefix. *)
Fixpoint take_punctuation_after (fuel : nat) (punct : list char32) (res_s : String)
    (part_start_idx : Z) (prefix : String) : String :=
  match fuel with
  | O => prefix
  | S fuel' =>
      if part_start_idx <? len res_s then
        let chr := char_at res_s part_start_idx in
        if set_has punct chr
        then take_punctuation_after fuel' punct res_s (part_start_idx + 1) (prefix ++ [chr])
        else prefix
      else prefix
  end.

(** [for (int i = 1; i < parts.size() - 1; i++)] over the parts [1 ..
    size - 2], given as a list. *)
Fixpoint count_prefixes (punct : list char32) (res_s : String) (inner : list String)
    (prefix : String) (prefix_counts : list (String * Z)) : list (String * Z) :=
  match inner with
  | [] => prefix_counts
  | part :: inner' =>
      let prefix :=
        take_punctuation_after (length res_s) punct res_s (len prefix) prefix in
      let prefix := prefix ++ part in
      count_prefixes punct res_s inner' prefix (inc_counts prefix_counts prefix)
  end.

Definition is_digit (c : char32) : bool := (48 <=? c)%N && (c <=? 57)%N.

(** [while (suffix.length() > 0)]: trailing digits and punctuation are cut
    off the suffix; the result is the suffix and the number of characters
    cut, [end_pad]. *)
Fixpoint strip_numeric_tail (rsuffix : String) (punct : list char32) (end_pad : Z)
    : String * Z :=
  match rsuffix with
  | [] => ([], end_pad)
  | last_char :: rsuffix' =>
      if is_digit last_char || set_has punct last_char
      then strip_numeric_tail rsuffix' punct (end_pad + 1)
      else (rev rsuffix, end_pad)
  end.

(** [while (part_end_idx > 0)]: the punctuation that precedes the suffix in
    [res_s] is put in front of the suffix. *)
Fixpoint take_punctuation_before (fuel : nat) (punct : list char32) (res_s : String)
    (part_end_idx : Z) (suffix : String) : String :=
  match fuel with
  | O => suffix
  | S fuel' =>
      if 0 <? part_end_idx then
        let chr := char_at res_s part_end_idx in
        if set_has punct chr
        then take_punctuation_before fuel' punct res_s (part_end_idx - 1) (chr :: suffix)
        else suffix
      else suffix
  end.

(** [for (int i = suffix_parts.size() - 2; i > 0; i--)] over the parts
    [size - 2 .. 1], given as a list in that order. *)
Fixpoint count_suffixes (punct : list char32) (res_s : String) (inner_rev : list String)
    (end_pad : Z) (suffix : String) (suffix_counts : list (String * Z))
    : list (String * Z) :=
  match inner_rev with
  | [] => suffix_counts
  | part :: inner_rev' =>
      let part_end_idx := len res_s - (len suffix + end_pad) - 1 in
      let suffix :=
        take_punctuation_before (length res_s) punct res_s part_end_idx suffix in
      let suffix := part ++ suffix in
      count_suffixes punct res_s inner_rev' end_pad suffix (inc_counts suffix_counts suffix)
  end.

(** The parts [1 .. size - 2] of a vector. *)
Definition inner_parts (parts : list String) : list String :=
  removelast (tail parts).

(** The body of the loop over [res_strings]. *)
Definition count_affixes (punct : list char32)
    (counts : list (String * Z) * list (String * Z)) (res_s : String)
    : list (String * Z) * list (String * Z) :=
  let '(prefix_counts, suffix_counts) := counts in
  if is_empty res_s then counts
  else
    let parts := gdre.split_multichar res_s punct false 0 in
    let prefix := hd [] parts in
    let prefix_counts := inc_counts prefix_counts prefix in
    let prefix_counts := count_prefixes punct res_s (inner_parts parts) prefix prefix_counts in
    let suffix_parts := gdre.split_multichar res_s punct false 0 in
    let suffix := List.last suffix_parts [] in
    let suffix_counts := inc_counts suffix_counts suffix in
    if is_empty suffix then (prefix_counts, suffix_counts)
    else
      let last_char := char_at suffix (len suffix - 1) in
      let '(suffix, end_pad, suffix_counts) :=
        if is_digit last_char then
          let '(suffix, end_pad) := strip_numeric_tail (rev suffix) punct 0 in
          (suffix, end_pad, inc_counts suffix_counts suffix)
        else (suffix, 0, suffix_counts) in
      (prefix_counts,
       count_suffixes punct res_s (rev (inner_parts suffix_parts)) end_pad suffix suffix_counts).

(** [for (const auto &E : counts) if (value >= count_threshold &&
    !common.has(key)) common.push_back(key);] *)
Definition retain_common (counts : list (String * Z)) (count_threshold : Z)
    (common : list String) : list String :=
  fold_left
    (fun common E =>
       if bool_decide (count_threshold ≤ E.2) && negb (set_has common E.1)
       then common ++ [E.1] else common)
    counts common.

Definition find_common_prefixes_and_suffixes (res_strings : list String)
    (count_threshold : Z) (clear : bool) (st : KeyWorker) : KeyWorker :=
  let st :=
    if clear then set_common_suffixes [] (set_common_prefixes [] st) else st in
  let '(prefix_counts, suffix_counts) :=
    fold_left (count_affixes (punctuation st)) res_strings ([], []) in
  let st :=
    set_common_prefixes (retain_common prefix_counts count_threshold (common_prefixes st)) st in
  let st :=
    set_common_suffixes (retain_common suffix_counts count_threshold (common_suffixes st)) st in
  let st := set_common_prefixes (sort_custom_length_desc (common_prefixes st)) st in
  set_common_suffixes (sort_custom_length_desc (common_suffixes st)) st.

End AffixDiscovery.

(** ** Candidate filtering and sanitising *)

(** [gdre::vector_to_hashset]; [gdre::hashset_to_vector] is the identity on
    the insertion-ordered set. *)
Definition vector_to_hashset {A} `{EqDecision A} (v : list A) : list A :=
  fold_left set_insert v [].

Section Candidates.
Context `{Engine}.

Definition has_nonspace_and_std_punctuation (st : KeyWorker) (s : String) : bool :=
  existsb
    (fun c => negb (c =? 32)%N && negb (set_has (punctuation st) c)
              && set_has ALL_PUNCTUATION c) s.

(** [String::size()] counts the terminator of a string that is not empty. *)
Definition String_size (s : String) : Z := if is_empty s then 0 else len s + 1.

Definition should_filter (st : KeyWorker) (res_s : String) (ignore_spaces : bool) : bool :=
  if is_empty res_s then true
  else if max_key_len st <? String_size res_s then true
  else if has_nonspace_and_std_punctuation st res_s then true
  else if negb ignore_spaces && negb (keys_have_whitespace st)
          && gdre.string_has_whitespace res_s then true
  else if begins_with res_s (lit "res://") then true
  else if negb (is_empty (common_to_all_prefix st))
          && negb (begins_with res_s (common_to_all_prefix st)) then true
  else if keys_are_all_upper st && negb (bool_decide (to_upper res_s = res_s)) then true
  else if keys_are_all_lower st && negb (bool_decide (to_lower res_s = res_s)) then true
  else if keys_are_all_ascii st && negb (gdre.string_is_ascii res_s) then true
  else false.

(** [filter_things] of [run]. *)
Definition filter_things (res_strings : list String) (st : KeyWorker) : KeyWorker :=
  set_filtered_resource_strings
    (filter (fun res_s => negb (should_filter st res_s false)) res_strings) st.

(** [x / size > 0.9] where both operands are unsigned integers: the
    quotient is the integer quotient, compared as a [double].  The division
    is only evaluated when the flag is not set; a zero divisor is undefined
    ([None]). *)
Definition over_nine_tenths (flag : bool) (count size : Z) : option bool :=
  if flag then Some false
  else if size =? 0 then None
  else Some (negb (Qle_bool (inject_Z (count / size)) (9 # 10)%Q)).

(** The body of [if (filtered_resource_strings.size() > MAX_FILT_RES_STRINGS
    && ...)] in stage 3 of [run], up to the second [filter_things]. *)
Definition force_set_flags (st : KeyWorker) : option KeyWorker :=
  let size := Z.of_nat (length (key_to_message st)) in
  upper ← over_nine_tenths (keys_are_all_upper st) (keys_that_are_all_upper st) size;
  st ← (if upper : bool then Some (set_keys_are_all_upper true st)
        else
          lower ← over_nine_tenths (keys_are_all_lower st) (keys_that_are_all_lower st) size;
          Some (if lower : bool then set_keys_are_all_lower true st else st));
  ascii ← over_nine_tenths (keys_are_all_ascii st) (keys_that_are_all_ascii st) size;
  Some (if ascii : bool then set_keys_are_all_ascii true st else st).

Definition filter_resource_strings (res_strings : list String) (st : KeyWorker)
    : option KeyWorker :=
  let st := filter_things res_strings st in
  if (MAX_FILT_RES_STRINGS <? Z.of_nat (length (filtered_resource_strings st)))
     && (negb (keys_are_all_upper st) || negb (keys_are_all_lower st)
         || negb (keys_are_all_ascii st))
  then st ← force_set_flags st; Some (filter_things res_strings st)
  else Some st.

Definition remove_removable_punct (st : KeyWorker) (s : String) : String :=
  filter (fun c => negb (set_has (punctuation st) c) && set_has REMOVABLE_PUNCTUATION c) s.

Definition trim_punctuation (st : KeyWorker) (s : String) : String :=
  fold_left (fun s ch => trim_prefix (trim_suffix s (chr ch)) (chr ch)) (punctuation st) s.

(** The body of the loop of [get_sanitized_strings]. *)
Definition sanitize_into (st : KeyWorker) (new_strings : list String) (msg : String)
    : list String :=
  let msg_str := strip_edges (strip_escapes (remove_removable_punct st msg)) in
  let msg_str := trim_punctuation st msg_str in
  if has_nonspace_and_std_punctuation st msg_str then new_strings
  else if keys_are_all_ascii st && negb (gdre.string_is_ascii msg_str) then new_strings
  else
    let msg_str :=
      if keys_are_all_upper st then to_upper msg_str
      else if keys_are_all_lower st then to_lower msg_str else msg_str in
    if contains msg_str (lit " ") then
      fold_left (fun acc p => set_insert acc (replace msg_str (lit " ") (chr p)))
        (punctuation st) new_strings
    else set_insert new_strings msg_str.

Definition get_sanitized_strings (st : KeyWorker) (messages : list String) : list String :=
  fold_left (sanitize_into st) messages [].

(** [get_sanitized_message_strings(new_strings)]: the result is the grown
    [new_strings]. *)
Definition get_sanitized_message_strings (st : KeyWorker) (new_strings : list String)
    : list String :=
  snd (fold_left
         (fun '(hshset, new_strings) msg_str =>
            if set_has hshset msg_str then (hshset, new_strings)
            else (hshset ++ [msg_str], new_strings ++ [msg_str]))
         (get_sanitized_strings st (default_messages st))
         (vector_to_hashset (filtered_resource_strings st), new_strings)).

(** [insert_into_hashset] of [extract_middles], on [(hshset, middles)]. *)
Definition insert_into_hashset (acc : list String * list String) (s : String)
    : bool * (list String * list String) :=
  if set_has (fst acc) s then (false, acc)
  else (true, (fst acc ++ [s], snd acc ++ [s])).

Definition extract_middles_of (st : KeyWorker) (acc : list String * list String)
    (res_s : String) : list String * list String :=
  let acc :=
    fold_left
      (fun acc prefix =>
         if negb (len prefix =? len res_s) && begins_with res_s prefix then
           let s := trim_punctuation st (drop (length prefix) res_s) in
           let '(fresh, acc) := insert_into_hashset acc s in
           if negb fresh then acc
           else
             fold_left
               (fun acc suffix =>
                  if negb (len suffix =? len s) && ends_with s suffix then
                    snd (insert_into_hashset acc
                           (trim_punctuation st (take (length s - length suffix) s)))
                  else acc)
               (common_suffixes st) acc
         else acc)
      (common_prefixes st) acc in
  fold_left
    (fun acc suffix =>
       if negb (len suffix =? len res_s) && ends_with res_s suffix then
         snd (insert_into_hashset acc
                (trim_punctuation st (take (length res_s - length suffix) res_s)))
       else acc)
    (common_suffixes st) acc.

Definition extract_middles (st : KeyWorker) (frs middles : list String) : list String :=
  snd (fold_left (extract_middles_of st) frs (vector_to_hashset frs, middles)).

(** [add_to_prefix_func] of [find_common_prefix]: the character to add, if
    there is one. *)
Definition add_to_prefix_func (keys : list String) (i : Z) : option char32 :=
  match list_find (fun s => s ≠ []) keys with
  | None => None
  | Some (_, s) =>
      if len s - 1 <? i then None
      else
        let candidate := char_at s i in
        if (candidate =? 0)%N then None
        else if forallb
                  (fun s => is_empty s
                            || negb ((len s - 1 <? i) || negb (char_at s i =? candidate)%N))
                  keys
        then Some candidate else None
  end.

Fixpoint find_common_prefix_from (n : nat) (i : Z) (keys : list String) (prefix : String)
    : String :=
  match n with
  | O => prefix
  | S n' =>
      match add_to_prefix_func keys i with
      | Some candidate => find_common_prefix_from n' (i + 1) keys (prefix ++ [candidate])
      | None => prefix
      end
  end.

Definition find_common_prefix (key_to_msg : list (String * String)) : String :=
  if (length key_to_msg =? 0)%nat then []
  else find_common_prefix_from 100 0 key_to_msg.*1 [].

(** The loop of [try_strip_numeric_suffix(const CharString &, int &)]; the
    result is [(stripped_last_char, new_len)]. *)
Fixpoint strip_digits (fuel : nat) (p_res_s : String) (new_len : Z) (last_char : char32)
    (stripped_last_char : bool) : bool * Z :=
  match fuel with
  | O => (stripped_last_char, new_len)
  | S fuel' =>
      if is_digit last_char then
        let new_len := new_len - 1 in
        if new_len =? 0 then (false, new_len)
        else strip_digits fuel' p_res_s new_len (char_at p_res_s (new_len - 1)) true
      else (stripped_last_char, new_len)
  end.

Fixpoint leading_zeros (num_str : String) : Z :=
  match num_str with
  | c :: num_str' => if (c =? 48)%N then 1 + leading_zeros num_str' else 0
  | [] => 0
  end.

(** The result is the returned string and the value left in [magnitude]. *)
Definition try_strip_numeric_suffix (p_res_s : String) (magnitude : Z) : String * Z :=
  let res_s_len := String_size p_res_s in
  if res_s_len <? 2 then (p_res_s, magnitude)
  else
    let last_char := char_at p_res_s (res_s_len - 2) in
    let '(stripped_last_char, new_len) :=
      strip_digits (S (length p_res_s)) p_res_s res_s_len last_char false in
    if stripped_last_char
    then (take (Z.to_nat new_len) p_res_s, leading_zeros (drop (Z.to_nat new_len) p_res_s))
    else (p_res_s, -1).

End Candidates.

(** ** Stages *)

(** What the task manager did with one stage
    ([TaskManager::run_multithreaded_group_task], not part of the sources):
    the item indices whose task ran, in the order in which they ran, and the
    [Error] it returned. *)
Record StageRun : Type := { order : list nat; result : Error }.

Section Stages.
Context `{Engine} `{Translation}.

Fixpoint for_each {A} (l : list A) (body : A -> KeyWorker -> option KeyWorker)
    (st : KeyWorker) : option KeyWorker :=
  match l with
  | [] => Some st
  | x :: l' => st' ← body x st; for_each l' body st'
  end.

Definition try_keys (keys : list String) (st : KeyWorker) : KeyWorker :=
  fold_left (fun st key => snd (try_key key st)) keys st.

Definition increment_last_completed (st : KeyWorker) : KeyWorker :=
  set_last_completed (wrap64 (last_completed st + 1)) st.

Definition stage_1 (i : nat) (resource_strings : list String) (st : KeyWorker)
    : option KeyWorker :=
  Some (snd (try_key (nth i resource_strings []) st)).

Definition partial_task (i : nat) (res_strings : list String) (st : KeyWorker)
    : option KeyWorker :=
  if cancel st then Some st
  else
    let res_s := nth i res_strings [] in
    let st :=
      if negb (has_common_prefix st) || contains res_s (common_to_all_prefix st) then
        match word_regex st with
        | Some pattern => try_keys (concat (regex_search_all pattern res_s)) st
        | None => st
        end
      else st in
    Some (increment_last_completed st).

Definition prefix_suffix_task_2 (i : nat) (res_strings : list String) (st : KeyWorker)
    : option KeyWorker :=
  if cancel st then Some st
  else
    let res_s := nth i res_strings [] in
    st ← try_num_suffix res_s [] false st;
    st ← for_each (common_suffixes_t st)
           (fun E st => try_num_suffix res_s E false (snd (try_key_suffix res_s E st))) st;
    st ← for_each (common_prefixes_t st)
           (fun E st => try_num_suffix E res_s false (snd (try_key_prefix E res_s st))) st;
    Some (increment_last_completed st).

Definition stage_3_5_task (i : nat) (res_strings : list (String * Z)) (st : KeyWorker)
    : option KeyWorker :=
  if cancel st then Some st
  else
    let '(res_s_data, magnitude) := nth i res_strings ([], -1) in
    st ← try_num_suffix res_s_data (get_magnitude_prefix magnitude)
           (negb (magnitude =? -1)) st;
    Some (increment_last_completed st).

Definition stage_5_task_2 (i : nat) (res_strings : list String) (st : KeyWorker)
    : option KeyWorker :=
  if cancel st then Some st
  else
    let res_s := nth i res_strings [] in
    let st :=
      fold_left (fun st res_s2 => snd (try_key_suffix res_s res_s2 st))
        (take (length (filtered_resource_strings st)) res_strings) st in
    Some (increment_last_completed st).

Definition end_stage (st : KeyWorker) : KeyWorker :=
  let st := set_last_completed 0 st in
  let st := set_cancel false st in
  let st := set_keys_found (keys_found st ++ [current_keys_found st]) st in
  let st := set_stages_keys_found (stages_keys_found st ++ [current_stage_keys_found st]) st in
  let st := set_current_keys_found 0 st in
  set_current_stage_keys_found [] st.

(** [run_stage]: the next [StageRun] of [pool] says which tasks ran and what
    the task manager returned; without one, every task runs once, in index
    order, and the result is [OK]. *)
Definition run_stage {A} (p_multi_method : nat -> list A -> KeyWorker -> option KeyWorker)
    (p_userdata : list A) (stage_name : String) (pool : list StageRun) (st : KeyWorker)
    : option (Error * list StageRun * KeyWorker) :=
  let st := set_last_completed 0 st in
  let st := set_cancel false st in
  let st := set_current_stage stage_name st in
  let r := hd {| order := seq 0 (length p_userdata); result := OK |} pool in
  st ← for_each (filter (fun i => (i <? length p_userdata)%nat) (order r))
         (fun i => p_multi_method i p_userdata) st;
  let st := set_dispatched (dispatched st ++ [(stage_name, result r)]) st in
  Some (result r, tail pool, end_stage st).

Definition pop_charstr_vectors (st : KeyWorker) : KeyWorker :=
  let st := set_filtered_resource_strings_t (filtered_resource_strings st) st in
  let st := set_common_prefixes_t (common_prefixes st) st in
  set_common_suffixes_t (common_suffixes st) st.

Definition keys_missing (st : KeyWorker) : bool :=
  negb (length (key_to_message st) =? length (default_messages st))%nat.

(** The pattern compiled into [word_regex] for stage 2. *)
Definition word_pattern (st : KeyWorker) : String :=
  let char_re :=
    fold_left (fun char_re p => char_re ++ lit "\" ++ chr p) (punctuation st) (lit "[\w\d")
    ++ lit "]" in
  if negb (keys_have_whitespace st)
  then common_to_all_prefix st ++ char_re ++ lit "+"
  else lit "\b" ++ common_to_all_prefix st ++ char_re ++ lit "+" ++ lit "\b".

(** Stages 2 to 5 of [run] return from the function when a stage fails, so
    each is written with the rest of the function as its continuation
    [next]; [finish] is the end of [run]. *)
Definition finish (st : KeyWorker) : option (Z * KeyWorker) := Some (pop_keys st).

Definition stage_5 (pool : list StageRun) (st : KeyWorker) : option (Z * KeyWorker) :=
  let st :=
    set_do_stage_5
      (do_stage_5 st && keys_missing st
       && (Z.of_nat (length (filtered_resource_strings st)) <=? MAX_FILT_RES_STRINGS)) st in
  if do_stage_5 st then
    '(err, pool, st) ← run_stage stage_5_task_2 (filtered_resource_strings_t st)
                         (lit "Stage 5") pool st;
    finish st
  else finish st.

Definition stage_4 (pool : list StageRun) (st : KeyWorker) : option (Z * KeyWorker) :=
  let st := set_do_stage_4 (do_stage_4 st && keys_missing st) st in
  if do_stage_4 st && keys_missing st then
    let curr_keys := (key_to_message st).*1 in
    let st := find_common_prefixes_and_suffixes curr_keys 3 false st in
    let middle_candidates := extract_middles st (filtered_resource_strings st) [] in
    let str_keys := (key_to_message st).*1 in
    let middle_candidates := extract_middles st str_keys middle_candidates in
    let new_strings := get_sanitized_message_strings st [] in
    let middle_candidates := middle_candidates ++ new_strings in
    let middle_candidates := vector_to_hashset middle_candidates in
    let thingy := vector_to_hashset (filtered_resource_strings st) in
    let st :=
      set_filtered_resource_strings
        (filtered_resource_strings st
         ++ filter (fun middle => negb (set_has thingy middle)) middle_candidates) st in
    let st := pop_charstr_vectors st in
    st ← for_each (common_prefixes_t st)
           (fun prefix st =>
              for_each (common_suffixes_t st)
                (fun suffix st =>
                   try_num_suffix prefix suffix false (snd (try_key_suffix prefix suffix st)))
                st)
           st;
    if Z.of_nat (length (filtered_resource_strings st)) <=? MAX_FILT_RES_STRINGS then
      '(err, pool, st) ← run_stage prefix_suffix_task_2 (filtered_resource_strings_t st)
                           (lit "Stage 4") pool st;
      if bool_decide (err ≠ OK) then finish st else stage_5 pool st
    else finish st
  else finish st.

Definition stage_3_5 (pool : list StageRun) (st : KeyWorker) : option (Z * KeyWorker) :=
  if keys_missing st then
    let stripped_strings := filtered_resource_strings st in
    let stripped_strings_set :=
      fold_left
        (fun set str => set_insert set (try_strip_numeric_suffix str (-1)))
        stripped_strings [] in
    '(err, pool, st) ← run_stage stage_3_5_task stripped_strings_set (lit "Stage 3") pool st;
    if bool_decide (err ≠ OK) then finish st else stage_4 pool st
  else stage_4 pool st.

Definition stage_3 (res_strings : list String) (pool : list StageRun) (st : KeyWorker)
    : option (Z * KeyWorker) :=
  if keys_missing st then
    st ← filter_resource_strings res_strings st;
    let new_strings := get_sanitized_message_strings st [] in
    let st := set_filtered_resource_strings (filtered_resource_strings st ++ new_strings) st in
    let st := set_common_prefixes (get_sanitized_strings st STANDARD_SUFFIXES) st in
    let st := set_common_suffixes (get_sanitized_strings st STANDARD_SUFFIXES) st in
    let st := pop_charstr_vectors st in
    '(err, pool, st) ← run_stage prefix_suffix_task_2 (filtered_resource_strings_t st)
                         (lit "Stage 3") pool st;
    if bool_decide (err ≠ OK) then finish st else stage_3_5 pool st
  else stage_3_5 pool st.

Definition stage_2 (res_strings : list String) (pool : list StageRun) (st : KeyWorker)
    : option (Z * KeyWorker) :=
  if keys_missing st
     && (negb (keys_have_whitespace st) || (length (punctuation st) =? 1)%nat)
  then
    let st := set_word_regex (Some (word_pattern st)) st in
    '(err, pool, st) ← run_stage partial_task (resource_strings st) (lit "Stage 2") pool st;
    if bool_decide (err ≠ OK) then finish st else stage_3 res_strings pool st
  else stage_3 res_strings pool (end_stage st).

(** [run].  Its inputs from the surroundings: the lines of the hint file
    ([None] without a hint file), the lines of the old translation CSV
    ([None] without one), the resource strings of the project, and what the
    task manager does with the stages. *)
Definition run (hint_lines : option (list String))
    (old_csv_lines : option (list (list String))) (res_strings : list String)
    (pool : list StageRun) (st : KeyWorker) : option (Z * KeyWorker) :=
  let st := set_cancel false st in
  let st :=
    try_keys (filter (fun line => negb (is_empty line)) (default [] hint_lines)) st in
  let st :=
    try_keys
      (omap (fun line =>
               match line with
               | key :: _ :: _ => if is_empty key then None else Some key
               | _ => None
               end)
         (default [] old_csv_lines)) st in
  let res_strings := vector_to_hashset res_strings in
  let st := set_resource_strings res_strings st in
  '(err, pool, st) ← run_stage stage_1 (resource_strings st) (lit "Stage 1") pool st;
  if bool_decide (err ≠ OK) then finish st
  else
    let st := try_keys (default_messages st) st in
    let st := if keys_missing st then try_keys (previous_keys_found st) st else st in
    let st := end_stage st in
    let st := set_common_to_all_prefix (find_common_prefix (key_to_message st)) st in
    let st := set_has_common_prefix (negb (is_empty (common_to_all_prefix st))) st in
    stage_2 res_strings pool st.

End Stages.

(** ** Waiting for a group task

    [wait_for_task] is the one function that measures a stage against a
    budget.  No function of the sources calls it: [run_stage] takes its
    [Error] from the task manager. *)

(** What [wait_for_task] does to the thread pool and the clock. *)
Inductive PoolEvent : Type :=
  | DelayUsec (usec : Z)
  | SetCancel
  | WaitForGroupTaskCompletion.

(** The loop of [wait_for_task].  [completed] are the successive answers of
    [is_group_task_completed] and [ticks] the successive values of
    [get_ticks_msec]; the loop asks for one more than the surroundings give
    when either list runs out ([None]). *)
Fixpoint wait_for_task_loop (completed : list bool) (ticks : list Z)
    (start_time max_time next_report : Z) (events : list PoolEvent) (st : KeyWorker)
    : option (Error * list PoolEvent * KeyWorker) :=
  match completed with
  | [] => None
  | true :: _ => Some (OK, events ++ [WaitForGroupTaskCompletion], st)
  | false :: completed' =>
      let events := events ++ [DelayUsec 100000] in
      match ticks with
      | [] => None
      | now :: ticks' =>
          if max_time <? wrap64 (now - start_time) then
            Some (ERR_TIMEOUT, events ++ [SetCancel; WaitForGroupTaskCompletion],
                  set_cancel true st)
          else
            match ticks' with
            | [] => None
            | now' :: ticks'' =>
                let next_report :=
                  if next_report <? wrap64 (now' - start_time)
                  then wrap64 (next_report + 5000) else next_report in
                wait_for_task_loop completed' ticks'' start_time max_time next_report
                  events st
            end
      end
  end.

Definition wait_for_task (completed : list bool) (ticks : list Z) (max_time : Z)
    (st : KeyWorker) : option (Error * list PoolEvent * KeyWorker) :=
  match ticks with
  | [] => None
  | start_time :: ticks' =>
      wait_for_task_loop completed ticks' start_time max_time 5000 [] st
  end.

(** ** The exporter ([TranslationExporter::export_resource])

    The parts of [export_resource] that work on the recovered keys and the
    messages of the translations. *)

(** The loop that removes the empty messages of one translation, for the
    indices below [n], from the last one down.  Reading a [Vector] at an
    index that is out of range stops the program. *)
Fixpoint remove_empty_messages_from (n : nat) (translation_message : list String)
    : option (list String) :=
  match n with
  | O => Some translation_message
  | S i =>
      message ← translation_message !! i;
      remove_empty_messages_from i
        (if is_empty message then delete i translation_message else translation_message)
  end.

(** The same loop when there are keys: a message is removed, with the key at
    its index, when both are empty.  The key is read only when the message
    is empty. *)
Fixpoint remove_empty_rows_from (n : nat) (keys translation_message : list String)
    : option (list String * list String) :=
  match n with
  | O => Some (keys, translation_message)
  | S i =>
      message ← translation_message !! i;
      if is_empty message then
        key ← keys !! i;
        if is_empty key then
          remove_empty_rows_from i (delete i keys) (delete i translation_message)
        else remove_empty_rows_from i keys translation_message
      else remove_empty_rows_from i keys translation_message
  end.

(** The loop over the translations, which share [keys]. *)
Fixpoint remove_empty_rows (keys : list String) (translation_messages : list (list String))
    : option (list String * list (list String)) :=
  match translation_messages with
  | [] => Some (keys, [])
  | translation_message :: rest =>
      '(keys, translation_message) ←
        remove_empty_rows_from (length translation_message) keys translation_message;
      '(keys, rest) ← remove_empty_rows keys rest;
      Some (keys, translation_message :: rest)
  end.

Definition remove_empty_strings (keys : list String)
    (translation_messages : list (list String))
    : option (list String * list (list String)) :=
  match keys with
  | [] =>
      translation_messages ←
        mapM (fun translation_message =>
                remove_empty_messages_from (length translation_message) translation_message)
          translation_messages;
      Some (keys, translation_messages)
  | _ => remove_empty_rows keys translation_messages
  end.

(** The loop that removes duplicate keys, from index [i] on: [kept] are the
    keys before [i], [rest] the keys from [i] on.  [Vector::remove_at] does
    nothing at an index that is out of range. *)
Fixpoint remove_duplicate_keys_from (rest : list String) (i : nat)
    (key_set kept : list String) (translation_messages : list (list String))
    : list String * list (list String) :=
  match rest with
  | [] => (kept, translation_messages)
  | key :: rest' =>
      if negb (set_has key_set key) then
        remove_duplicate_keys_from rest' (S i) (set_insert key_set key) (kept ++ [key])
          translation_messages
      else
        remove_duplicate_keys_from rest' i key_set kept
          (map (delete i) translation_messages)
  end.

Definition remove_duplicate_keys (keys : list String)
    (translation_messages : list (list String)) : list String * list (list String) :=
  remove_duplicate_keys_from keys 0 [] [] translation_messages.

(** One message is appended to every row of [sorted_translation_messages]:
    for each translation the message at index [idx], or the empty string
    when there is no index.  The rows are as many as the translations.
    Reading a [Vector] at an index that is out of range stops the program. *)
Definition append_messages (idx : option nat)
    (translation_messages sorted_translation_messages : list (list String))
    : option (list (list String)) :=
  mapM (fun row : list String * list String =>
          match idx with
          | Some idx => message ← row.2 !! idx; Some (row.1 ++ [message])
          | None => Some (row.1 ++ [[]])
          end)
    (zip sorted_translation_messages translation_messages).

(** The body of the loop over the keys of the old CSV file: a key that is
    found in [keys] takes its messages and is blanked in [keys]. *)
Definition merge_old_key (translation_messages : list (list String))
    (acc : list String * list String * list (list String)) (key : String)
    : option (list String * list String * list (list String)) :=
  let '(keys, sorted_keys, sorted_translation_messages) := acc in
  let idx := fst <$> list_find (fun k => k = key) keys in
  sorted_translation_messages ←
    append_messages idx translation_messages sorted_translation_messages;
  Some (match idx with Some idx => <[idx := []]> keys | None => keys end,
        sorted_keys ++ [key], sorted_translation_messages).

Fixpoint merge_old_keys (translation_messages : list (list String))
    (old_translation_csv_keys : list String)
    (acc : list String * list String * list (list String))
    : option (list String * list String * list (list String)) :=
  match old_translation_csv_keys with
  | [] => Some acc
  | key :: rest =>
      acc ← merge_old_key translation_messages acc key;
      merge_old_keys translation_messages rest acc
  end.

(** The loop over what is left of [keys], from index [idx] on. *)
Fixpoint merge_new_keys (translation_messages : list (list String)) (idx : nat)
    (keys : list String) (acc : list String * list (list String))
    : option (list String * list (list String)) :=
  match keys with
  | [] => Some acc
  | key :: rest =>
      if is_empty key then merge_new_keys translation_messages (S idx) rest acc
      else
        sorted_translation_messages ← append_messages (Some idx) translation_messages acc.2;
        merge_new_keys translation_messages (S idx) rest
          (acc.1 ++ [key], sorted_translation_messages)
  end.

(** The keys and messages of the diff file, before the columns of the old
    file are added: [sorted_keys] and [sorted_translation_messages]. *)
Definition sort_by_old_keys (old_translation_csv_keys keys : list String)
    (translation_messages : list (list String))
    : option (list String * list (list String)) :=
  '(keys, sorted_keys, sorted_translation_messages) ←
    merge_old_keys translation_messages old_translation_csv_keys
      (keys, [], map (fun _ => []) translation_messages);
  merge_new_keys translation_messages 0 keys (sorted_keys, sorted_translation_messages).

(** The columns [is_add], [is_update] and [is_remove] of the diff file for
    the new and the old message of a key. *)
Definition diff_flags (new_message old_message : String) : String * String * String :=
  let is_add :=
    if negb (is_empty new_message) && is_empty old_message then lit "1" else [] in
  let is_update :=
    if negb (is_empty new_message) && negb (is_empty old_message)
       && negb (bool_decide (new_message = old_message))
    then lit "1" else [] in
  let is_remove :=
    if is_empty new_message && negb (is_empty old_message) then lit "1" else [] in
  (is_add, is_update, is_remove).

(** ** A concrete engine and translation, for examples

    ASCII case mapping, the engine's documented [strip_escapes] (characters
    below 32 are removed) and [strip_edges] (characters up to 32 are removed
    at both ends), substring search, no regular expression matches, and an
    insertion sort for [sort_custom]. *)

Module Fixture.

Definition upper_char (c : char32) : char32 :=
  if (97 <=? c)%N && (c <=? 122)%N then (c - 32)%N else c.

Definition lower_char (c : char32) : char32 :=
  if (65 <=? c)%N && (c <=? 90)%N then (c + 32)%N else c.

Fixpoint drop_blank (s : String) : String :=
  match s with
  | [] => []
  | c :: s' => if (c <=? 32)%N then drop_blank s' else s
  end.

Fixpoint is_prefix_of (p s : String) : bool :=
  match p, s with
  | [], _ => true
  | _ :: _, [] => false
  | a :: p', b :: s' => (a =? b)%N && is_prefix_of p' s'
  end.

Fixpoint has_substring (needle s : String) : bool :=
  match s with
  | [] => false
  | _ :: s' => is_prefix_of needle s || has_substring needle s'
  end.

Fixpoint insert_by_length (x : String) (l : list String) : list String :=
  match l with
  | [] => [x]
  | y :: l' =>
      if (length y <? length x)%nat then x :: l else y :: insert_by_length x l'
  end.

Definition sort_by_length (l : list String) : list String :=
  fold_right insert_by_length [] l.

(** [replace] for a key of one character, which is how the engine uses it. *)
Definition replace_chars (s key by_ : String) : String :=
  match key with
  | [k] => concat (map (fun c => if (c =? k)%N then by_ else [c]) s)
  | _ => s
  end.

#[local] Instance engine : Engine := {|
  to_upper := map upper_char;
  to_lower := map lower_char;
  strip_escapes := filter (fun c => (32 ≤ c)%N);
  strip_edges := fun s => rev (drop_blank (rev (drop_blank s)));
  begins_with := fun s p => is_prefix_of p s;
  ends_with := fun s p => is_prefix_of (rev p) (rev s);
  trim_prefix := fun s p =>
    if negb (is_empty p) && is_prefix_of p s then drop (length p) s else s;
  trim_suffix := fun s p =>
    if negb (is_empty p) && is_prefix_of (rev p) (rev s)
    then take (length s - length p) s else s;
  contains := fun s needle => negb (is_empty needle) && has_substring needle s;
  replace := replace_chars;
  regex_search_all := fun _ _ => [];
  sort_custom_length_desc := sort_by_length
|}.

(** A translation given by its table of (key, message) pairs. *)
Definition lookup_message (table : list (String * String)) (key : String) : String :=
  match list_find (fun e => e.1 = key) table with
  | Some (_, e) => e.2
  | None => []
  end.

Definition translation_of (table : list (String * String)) : Translation := {|
  get_message_str := lookup_message table;
  get_message_multipart_str := fun p1 p2 p3 p4 p5 p6 =>
    lookup_message table (p1 ++ p2 ++ p3 ++ p4 ++ p5 ++ p6)
|}.

(** Keys [base ++ digits n] for [n] in [from, from + count), each with the
    message [msg ++ digits n]. *)
Definition numbered (base msg : String) (from : Z) (count : nat) : list (String * String) :=
  map (fun i => (base ++ digits (from + Z.of_nat i), msg ++ digits (from + Z.of_nat i)))
      (seq 0 count).

End Fixture.

(** * Vocabulary of the statements *)

Section Vocabulary.
Context `{Engine} `{Translation}.

(** A sequence of admissions, one [_set_key] per entry. *)
Definition admit_all (entries : list (String * String)) (st : KeyWorker) : KeyWorker :=
  fold_left (fun st e => snd (_set_key e.1 e.2 st)) entries st.

(** Every entry of a Key Table agrees with the default translation and has
    a message that is not empty. *)
Definition table_sound (m : list (String * String)) : Prop :=
  forall key msg, (key, msg) ∈ m -> get_message_str key = msg /\ msg <> [].

(** The multipart lookup of the translation is the lookup of the combined
    key. *)
Definition multipart_consistent : Prop :=
  forall p1 p2 p3 p4 p5 p6,
    get_message_multipart_str p1 p2 p3 p4 p5 p6
    = get_message_str (combine_string p1 p2 p3 p4 p5 p6).

End Vocabulary.

(** The entries of a Key Table whose message is [msg], in table order. *)
Definition entries_for (m : list (String * String)) (msg : String) : list (String * String) :=
  filter (fun e => e.2 = msg) m.

(** The key [pop_keys] is to emit for [msg] on a table [m]: a key of the
    table that maps to [msg] when there is one, the placeholder otherwise. *)
Definition reconciled (m : list (String * String)) (msg key : String) : Prop :=
  if bool_decide (msg ∈ m.*2) then (key, msg) ∈ m else key = missing_key msg.

Definition is_mismatch_warning (e : LogEvent) : bool :=
  match e with WarnMismatch _ _ _ => true | _ => false end.

(** *** The probes of [try_num_suffix], as [(suffix2, result)] pairs *)

(** The number of successful probes of a block. *)
Definition hits (blk : list (String * bool)) : Z :=
  Z.of_nat (length (filter (fun p => p.2 = true) blk)).

(** The tokens of the numeric range [min_num, max_num). *)
Definition range_tokens (zero_prefix_len min_num max_num : Z) : list String :=
  map (fun num => cs_num num zero_prefix_len) (seqZ min_num (max_num - min_num)).

(** Widening: the range [min_num, max_num) is probed; when at most one of
    its numbers missed, the range [max_num, 2 * max_num) follows. *)
Inductive widening (zero_prefix_len : Z) : Z -> Z -> list (String * bool) -> Prop :=
  | widening_stop min_num max_num blk :
      blk.*1 = range_tokens zero_prefix_len min_num max_num ->
      hits blk < max_num - min_num - 1 ->
      widening zero_prefix_len min_num max_num blk
  | widening_more min_num max_num blk rest :
      blk.*1 = range_tokens zero_prefix_len min_num max_num ->
      max_num - min_num - 1 <= hits blk ->
      widening zero_prefix_len max_num (max_num * 2) rest ->
      widening zero_prefix_len min_num max_num (blk ++ rest).

(** The probes after the padding width is settled: [N], [n], [0], then the
    ranges from [0, 10) with the hint and from [2, 4) without. *)
Definition numbered_probes (skip_magnitude_check : bool) (zero_prefix_len : Z)
    (tr : list (String * bool)) : Prop :=
  exists hitN hitn hit0 ranges,
    tr = [(lit "N", hitN); (lit "n", hitn); (lit "0", hit0)] ++ ranges
    /\ widening zero_prefix_len (if skip_magnitude_check then 0 else 2)
         (if skip_magnitude_check then 10 else 4) ranges.

(** All probes of one call of [try_num_suffix]. *)
Definition num_suffix_probes (skip_magnitude_check : bool) (tr : list (String * bool))
    : Prop :=
  exists found_num rest,
    tr = (lit "1", found_num) :: rest
    /\ if skip_magnitude_check then numbered_probes true 0 rest
       else
         exists hit01 rest1,
           rest = (lit "01", hit01) :: rest1
           /\ if found_num || hit01
              then numbered_probes false (if hit01 then 1 else 0) rest1
              else
                exists hit001 rest2,
                  rest1 = (lit "001", hit001) :: rest2
                  /\ if hit001 then numbered_probes false 2 rest2
                     else
                       exists hit0001 rest3,
                         rest2 = (lit "0001", hit0001) :: rest3
                         /\ if hit0001 then numbered_probes false 3 rest3
                            else rest3 = [].

(** *** The fragments counted by the affix discovery *)

(** The prefixes that [count_prefixes] hands to [inc_counts], in order. *)
Fixpoint prefix_steps (punct : list char32) (res_s : String) (inner : list String)
    (prefix : String) : list String :=
  match inner with
  | [] => []
  | part :: inner' =>
      let prefix :=
        take_punctuation_after (length res_s) punct res_s (len prefix) prefix ++ part in
      prefix :: prefix_steps punct res_s inner' prefix
  end.

(** The suffixes that [count_suffixes] hands to [inc_counts], in order. *)
Fixpoint suffix_steps (punct : list char32) (res_s : String) (inner_rev : list String)
    (end_pad : Z) (suffix : String) : list String :=
  match inner_rev with
  | [] => []
  | part :: inner_rev' =>
      let suffix :=
        part ++ take_punctuation_before (length res_s) punct res_s
                  (len res_s - (len suffix + end_pad) - 1) suffix in
      suffix :: suffix_steps punct res_s inner_rev' end_pad suffix
  end.

(** Every fragment that one string of the corpus contributes as a prefix:
    its first part, then the first part extended part by part up to the
    last part but one. *)
Definition prefix_fragments (punct : list char32) (res_s : String) : list String :=
  if is_empty res_s then []
  else
    let parts := gdre.split_multichar res_s punct false 0 in
    hd [] parts :: prefix_steps punct res_s (inner_parts parts) (hd [] parts).

(** Every fragment that one string contributes as a suffix: its last part,
    the last part without its digits when it ends in a digit, then the
    suffix extended part by part down to the second part. *)
Definition suffix_fragments (punct : list char32) (res_s : String) : list String :=
  if is_empty res_s then []
  else
    let parts := gdre.split_multichar res_s punct false 0 in
    let suffix := List.last parts [] in
    if is_empty suffix then [suffix]
    else if is_digit (char_at suffix (len suffix - 1)) then
      let '(stripped, end_pad) := strip_numeric_tail (rev suffix) punct 0 in
      suffix :: stripped
        :: suffix_steps punct res_s (rev (inner_parts parts)) end_pad stripped
    else suffix :: suffix_steps punct res_s (rev (inner_parts parts)) 0 suffix.

(** How often a fragment occurs among the fragments of a corpus. *)
Definition occurrences (f : String) (fragments : list String) : Z :=
  Z.of_nat (length (filter (fun x => x = f) fragments)).

(** The contract of [Vector::sort_custom] with [StringLengthCompare<true>]:
    the same elements, no shorter string before a longer one. *)
Definition sorts_by_length_desc (sort : list String -> list String) : Prop :=
  forall l,
    Permutation (sort l) l
    /\ StronglySorted (fun a b => (length b <= length a)%nat) (sort l).

Definition dialog_corpus : list String :=
  [lit "Dialog_Title"; lit "Dialog_Body"; lit "Dialog_Footer"; lit "Menu_Title"].

(** The counts after a run of [inc_counts]: one entry for each fragment
    that is not empty and was seen, with the number of times it was seen. *)
Definition counts_ok (counts : list (String * Z)) (seen : list String) : Prop :=
  NoDup counts.*1
  /\ forall f c, (f, c) ∈ counts <-> f <> [] /\ c = occurrences f seen /\ 1 <= c.

(** *** The statistics of the Key Table *)

(** Each counter of all-upper, all-lower and all-ASCII keys is at most the
    number of entries, and below it once its flag was taken down. *)
Definition stats_consistent (st : KeyWorker) : Prop :=
  let size := Z.of_nat (length (key_to_message st)) in
  (0 <= keys_that_are_all_upper st <= size
   /\ (keys_are_all_upper st = false -> keys_that_are_all_upper st < size))
  /\ (0 <= keys_that_are_all_lower st <= size
      /\ (keys_are_all_lower st = false -> keys_that_are_all_lower st < size))
  /\ (0 <= keys_that_are_all_ascii st <= size
      /\ (keys_are_all_ascii st = false -> keys_that_are_all_ascii st < size)).

(** Twenty keys, nineteen of them in upper case. *)
Definition mostly_upper_keys : list (String * String) :=
  Fixture.numbered (lit "KEY") (lit "m") 0 19 ++ [(lit "key19", lit "m19")].

(** 8001 candidates that pass [should_filter] for those keys. *)
Definition many_candidates : list String := map digits (seqZ 0 8001).

(** *** The stages that were dispatched *)

(** Every stage but the last one dispatched returned [OK]. *)
Definition stops_at_failure (l : list (String * Error)) : Prop :=
  forall i e, l !! i = Some e -> e.2 <> OK -> S i = length l.

(** A one-message project whose first stage times out. *)
Definition timed_out_pool : list StageRun := [{| order := [0%nat]; result := ERR_TIMEOUT |}].

(** Four messages, two of them behind numbered keys with the same message. *)
Definition shared_message_keys : list (String * String) :=
  [(lit "a1", lit "Play"); (lit "b1", lit "Play");
   (lit "cName", lit "Third"); (lit "dTitle", lit "Fourth")].

(** The task manager runs the four tasks of a stage in index order, or in
    the opposite order, and returns [OK]. *)
Definition in_order : StageRun := {| order := [0; 1; 2; 3]%nat; result := OK |}.
Definition reversed : StageRun := {| order := [3; 2; 1; 0]%nat; result := OK |}.

(** *** Splitting *)

(** The parts of a split put together again, with one separator between
    two parts. *)
Fixpoint interleave (parts : list String) (seps : list char32) : String :=
  match parts, seps with
  | p :: parts', c :: seps' => p ++ c :: interleave parts' seps'
  | p :: _, [] => p
  | [], _ => []
  end.

(** The number of characters of [s] that are in [chars]. *)
Definition count_in (chars : list char32) (s : list char32) : nat :=
  length (filter (fun c => c ∈ chars) s).

(** *** UTF-8 *)

(** The UTF-8 encoding of a code point (Unicode, table 3-6). *)
Definition utf8_encode_char (cp : Z) : list Z :=
  if cp <? 128 then [cp]
  else if cp <? 2048 then [192 + cp / 64; 128 + cp mod 64]
  else if cp <? 65536 then [224 + cp / 4096; 128 + (cp / 64) mod 64; 128 + cp mod 64]
  else [240 + cp / 262144; 128 + (cp / 4096) mod 64; 128 + (cp / 64) mod 64;
        128 + cp mod 64].

Definition utf8_encode (cps : list Z) : list Z := concat (map utf8_encode_char cps).

(** A Unicode scalar value other than NUL. *)
Definition unicode_scalar (cp : Z) : Prop :=
  0 < cp <= 1114111 /\ ~ 55296 <= cp <= 57343.

(** The bytes that no UTF-8 text holds: the leading bytes of the overlong
    two-byte forms, and 0xFE and 0xFF. *)
Definition never_valid (b : Z) : Prop := b = 192 \/ b = 193 \/ b = 254 \/ b = 255.

Definition BOM : list Z := [239; 187; 191].

(** The test for an overlong form in the first loop of [detect_utf8]. *)
Definition announces_overlong (c_start skip c : Z) : Prop :=
  (c_start = 224 /\ skip = 2 /\ c < 160) \/ (c_start = 240 /\ skip = 3 /\ c < 144)
  \/ (c_start = 248 /\ skip = 4 /\ c < 136) \/ (c_start = 252 /\ skip = 5 /\ c < 132).

(** What [detect_utf8] does after the byte order mark. *)
Definition detect_utf8_body (p_utf8 : list Z) : bool :=
  match gdre.detect_utf8_scan p_utf8 0 0 0 0 with
  | None => false
  | Some (cstr_size, str_size) =>
      if str_size =? 0 then true
      else gdre.detect_utf8_decode (take (Z.to_nat cstr_size) p_utf8) 0 0
  end.

Definition has_bom (p_utf8_buf : list Z) : bool :=
  (3 <=? len_bytes p_utf8_buf) && (nth 0 p_utf8_buf 0 =? 239)
  && (nth 1 p_utf8_buf 0 =? 187) && (nth 2 p_utf8_buf 0 =? 191).


(** *** Decimal numbers *)

(** The number that a string of decimal digits denotes ([None] when a
    character is not a digit). *)
Definition to_number (s : String) : option N :=
  d ← NilEmpty.uint_of_string (string_of_list_ascii (map ascii_of_N s));
  Some (N.of_uint d).

(** The width that [cs_num] pads to. *)
Definition cs_num_width (zero_prefix_len : Z) : Z :=
  if 0 <? zero_prefix_len then Z.min (zero_prefix_len + 1) 8 else 0.

(** *** Candidates *)

(** [out] is [start] followed by strings that are new: not in [base], and
    no string twice. *)
Definition grows_fresh (base start out : list String) : Prop :=
  exists added, out = start ++ added /\ NoDup added /\ Forall (fun x => x ∉ base) added.

(** The state of a loop that inserts into a hash set and appends what was
    new. *)
Definition tracks (base start : list String) (acc : list String * list String) : Prop :=
  exists added,
    acc.2 = start ++ added /\ NoDup added /\ Forall (fun x => x ∉ base) added
    /\ forall x, x ∈ acc.1 <-> x ∈ base \/ x ∈ added.

(** *** The exported table *)

(** The first row of each key, in the order of the rows. *)
Definition first_rows {V} (rows : list (String * V)) : list (String * V) :=
  fold_left (fun acc row => if set_has acc.*1 row.1 then acc else acc ++ [row]) rows [].

(** The rows of key and message that the removal of empty strings keeps. *)
Definition kept_rows (rows : list (String * String)) : list (String * String) :=
  filter (fun row => is_empty row.2 && is_empty row.1 = false) rows.

(** The message of a translation at the first index of [key] in [keys], and
    the empty string for a key that is not in [keys]. *)
Definition message_of (keys translation_message : list String) (key : String) : String :=
  match list_find (fun k => k = key) keys with
  | Some (idx, _) => default [] (translation_message !! idx)
  | None => []
  end.

(** [keys] with the keys of [found] blanked. *)
Definition blank (found keys : list String) : list String :=
  map (fun k => if bool_decide (k ∈ found) then [] else k) keys.

(** *** Cancellation and the schedule *)


Section RunVocabulary.
Context `{Engine} `{Translation}.



End RunVocabulary.


(** * Verification *)

(** A closed decidable proposition, settled by evaluation. *)
Ltac by_decide := apply (bool_decide_unpack _); vm_compute; exact I.

(** ** Splitting utilities *)

Module SplitFacts.
Import gdre.

Lemma splitter_chars_of_long (splitters : list String) (acc : list char32) :
  Exists (fun sp => 1 < len sp) splitters -> splitter_chars_of splitters acc = None.
Proof.
  intros Hex. revert acc.
  induction Hex as [sp rest Hlong | sp rest _ IH]; intros acc; simpl.
  - apply Z.ltb_lt in Hlong. now rewrite Hlong.
  - destruct (1 <? len sp); [reflexivity | apply IH].
Qed.

(** With splitters of one character each, the character set is built and
    the string is split. *)
Lemma splitter_chars_of_short (splitters : list String) (acc : list char32) :
  Forall (fun sp => len sp <= 1) splitters ->
  exists chars, splitter_chars_of splitters acc = Some chars.
Proof.
  intros Hall. revert acc.
  induction Hall as [| sp rest Hshort _ IH]; intros acc; simpl.
  - now exists acc.
  - destruct (Z.ltb_spec 1 (len sp)); [lia | apply IH].
Qed.

(** C10. [_split_multichar] and [_rsplit_multichar] return the empty vector
    for every string, [allow_empty] and [maxsplit] as soon as one of the
    splitters is longer than one character. *)
Theorem multichar_splitters_rejected (s : String) (splitters : list String)
    (allow_empty : bool) (maxsplit : Z) :
  Exists (fun sp => 1 < len sp) splitters ->
  _split_multichar s splitters allow_empty maxsplit = []
  /\ _rsplit_multichar s splitters allow_empty maxsplit = [].
Proof.
  intros Hex. unfold _split_multichar, _rsplit_multichar.
  now rewrite (splitter_chars_of_long _ _ Hex).
Qed.

Lemma multichar_splitters_rejected_witness :
  Exists (fun sp => 1 < len sp) [lit "_"; lit "::"]
  /\ _split_multichar (lit "a_b::c") [lit "_"; lit "::"] true 0 = []
  /\ _rsplit_multichar (lit "a_b::c") [lit "_"; lit "::"] true 0 = [].
Proof.
  assert (Hex : Exists (fun sp => 1 < len sp) [lit "_"; lit "::"]).
  { apply Exists_cons_tl, Exists_cons_hd. reflexivity. }
  split; [exact Hex |].
  exact (multichar_splitters_rejected (lit "a_b::c") [lit "_"; lit "::"] true 0 Hex).
Defined.

(** The same call with single-character splitters does split. *)
Example split_single_characters :
  _split_multichar (lit "a_b:c") [lit "_"; lit ":"] true 0 = [lit "a"; lit "b"; lit "c"]
  /\ _rsplit_multichar (lit "a_b:c") [lit "_"; lit ":"] true 2 = [lit "a_b"; lit "c"]
  /\ _split_multichar (lit "a_b:c") [lit "_"; lit ":"] true 2 = [lit "a"; lit "b:c"].
Proof. repeat split; reflexivity. Qed.

End SplitFacts.

(** ** The Key Table *)

Section MapFacts.
Context {V : Type}.
Implicit Types (m : list (String * V)) (key : String).

Lemma map_has_true m key : map_has m key = true <-> key ∈ m.*1.
Proof. unfold map_has. apply bool_decide_eq_true. Qed.

Lemma map_has_false m key : map_has m key = false <-> key ∉ m.*1.
Proof. unfold map_has. apply bool_decide_eq_false. Qed.

Lemma map_assign_fresh m key (v : V) :
  key ∉ m.*1 -> map_assign m key v = m ++ [(key, v)].
Proof.
  induction m as [| [k v0] m IH]; simpl; intros Hnot; [reflexivity |].
  rewrite not_elem_of_cons in Hnot. destruct Hnot as [Hne Hnot].
  destruct (decide (k = key)) as [-> | _]; [done |].
  now rewrite IH.
Qed.

Lemma map_assign_keys m key (v : V) :
  key ∈ m.*1 -> (map_assign m key v).*1 = m.*1.
Proof.
  induction m as [| [k v0] m IH]; simpl; intros Hin; [by apply elem_of_nil in Hin |].
  destruct (decide (k = key)) as [-> | Hne]; [reflexivity |].
  simpl. f_equal. apply IH.
  apply elem_of_cons in Hin. destruct Hin as [-> | Hin]; [done | exact Hin].
Qed.

(** Reading a key that is present returns its value and leaves the map as
    it is. *)
Lemma map_index_present (dflt : V) m key (v : V) :
  NoDup m.*1 -> (key, v) ∈ m -> map_index dflt m key = (v, m).
Proof.
  induction m as [| [k v0] m IH]; simpl; intros Hnd Hin; [by apply elem_of_nil in Hin |].
  apply NoDup_cons in Hnd. destruct Hnd as [Hk Hnd].
  apply elem_of_cons in Hin.
  destruct (decide (k = key)) as [-> | Hne].
  - destruct Hin as [Heq | Hin]; [congruence |].
    exfalso. apply Hk. apply list_elem_of_fmap. now exists (key, v).
  - destruct Hin as [Heq | Hin]; [congruence |].
    now rewrite (IH Hnd Hin).
Qed.

End MapFacts.

Lemma elem_of_set_insert {A} `{EqDecision A} (s : list A) (x c : A) :
  c ∈ set_insert s x <-> c ∈ s \/ c = x.
Proof.
  unfold set_insert, set_has. case_bool_decide as Hx.
  - split; [auto | intros [Hc | ->]; assumption].
  - rewrite elem_of_app, list_elem_of_singleton. reflexivity.
Qed.

Section KeyTableFacts.
Context `{Engine} `{Translation}.
Implicit Types (st : KeyWorker) (key msg : String).

Lemma key_to_message_set (v : list (String * String)) st :
  key_to_message (set_key_to_message v st) = v.
Proof. reflexivity. Qed.

Lemma set_key_stuff_table key st :
  key_to_message (_set_key_stuff key st) = key_to_message st.
Proof. unfold _set_key_stuff. repeat case_match; reflexivity. Qed.

Lemma get_chars_in_set_spec (s : String) (chars ret : list char32) (c : char32) :
  c ∈ gdre.get_chars_in_set s chars ret <-> c ∈ ret \/ (c ∈ s /\ c ∈ chars).
Proof.
  revert ret. induction s as [| a s IH]; intros ret; simpl.
  - split; [auto | intros [? | [Hin _]]; [done | by apply elem_of_nil in Hin]].
  - rewrite IH, elem_of_cons. unfold set_has.
    case_bool_decide as Ha.
    + rewrite elem_of_set_insert. split.
      * intros [[Hc | ->] | [Hc Hc']]; auto.
      * intros [Hc | [[-> | Hc] Hc']]; auto.
    + split.
      * intros [Hc | [Hc Hc']]; auto.
      * intros [Hc | [[-> | Hc] Hc']]; [auto | done | auto].
Qed.

Lemma set_key_entries_kept key msg st k m :
  (k, m) ∈ key_to_message st -> (k, m) ∈ key_to_message (snd (_set_key key msg st)).
Proof.
  intros Hin. unfold _set_key.
  destruct (is_empty key); [exact Hin |].
  destruct (map_has (key_to_message st) key) eqn:Hhas; [exact Hin |].
  apply map_has_false in Hhas. cbn [snd].
  rewrite key_to_message_set, set_key_stuff_table, (map_assign_fresh _ _ _ Hhas).
  apply elem_of_app. now left.
Qed.

Lemma set_key_nodup key msg st :
  NoDup (key_to_message st).*1 ->
  NoDup (key_to_message (snd (_set_key key msg st))).*1.
Proof.
  intros Hnd. unfold _set_key.
  destruct (is_empty key); [exact Hnd |].
  destruct (map_has (key_to_message st) key) eqn:Hhas; [exact Hnd |].
  apply map_has_false in Hhas. cbn [snd].
  rewrite key_to_message_set, set_key_stuff_table, (map_assign_fresh _ _ _ Hhas), fmap_app.
  apply NoDup_app. split; [exact Hnd |]. split.
  - intros k Hk Hin. simpl in Hin. apply list_elem_of_singleton in Hin. now subst.
  - simpl. apply NoDup_singleton.
Qed.

Lemma nodup_functional (m : list (String * String)) k v v' :
  NoDup m.*1 -> (k, v) ∈ m -> (k, v') ∈ m -> v = v'.
Proof.
  intros Hnd Hin Hin'.
  pose proof (map_index_present [] m k v Hnd Hin) as E.
  pose proof (map_index_present [] m k v' Hnd Hin') as E'.
  congruence.
Qed.

(** What [_set_key_stuff] does to the statistics, the flags and the
    punctuation set. *)
Lemma set_key_stuff_spec key st :
  let st' := _set_key_stuff key st in
  keys_have_whitespace st' = keys_have_whitespace st || gdre.string_has_whitespace key
  /\ keys_are_all_upper st' = keys_are_all_upper st && bool_decide (to_upper key = key)
  /\ keys_are_all_lower st' = keys_are_all_lower st && bool_decide (to_lower key = key)
  /\ keys_are_all_ascii st' = keys_are_all_ascii st && gdre.string_is_ascii key
  /\ keys_that_are_all_upper st'
     = (if bool_decide (to_upper key = key)
        then wrap64 (keys_that_are_all_upper st + 1) else keys_that_are_all_upper st)
  /\ keys_that_are_all_lower st'
     = (if bool_decide (to_lower key = key)
        then wrap64 (keys_that_are_all_lower st + 1) else keys_that_are_all_lower st)
  /\ keys_that_are_all_ascii st'
     = (if gdre.string_is_ascii key
        then wrap64 (keys_that_are_all_ascii st + 1) else keys_that_are_all_ascii st)
  /\ max_key_len st' = Z.max (max_key_len st) (len key)
  /\ current_keys_found st' = wrap64 (current_keys_found st + 1)
  /\ punctuation st' = gdre.get_chars_in_set key ALL_PUNCTUATION (punctuation st).
Proof.
  cbv zeta. unfold _set_key_stuff.
  generalize (gdre.string_has_whitespace key) (bool_decide (to_upper key = key))
    (bool_decide (to_lower key = key)) (gdre.string_is_ascii key).
  intros ws up lo asc.
  destruct ws, up, lo, asc; cbn;
    match goal with |- context [negb ?b] => destruct b eqn:Ews end; cbn;
    rewrite ?andb_true_r, ?andb_false_r, ?orb_true_r, ?orb_false_r;
    repeat split; first [reflexivity | exact Ews | symmetry; exact Ews].
Qed.

(** C3. The admission operation [_set_key]: an empty key is refused and
    nothing changes; a key that is present is accepted and nothing changes;
    a new key is appended with its message, and the statistics, the
    classification flags and the punctuation set are updated from the key.
    Entries of the table stay as they are, and keys stay unique. *)
Theorem set_key_contract key msg st :
  (key = [] -> _set_key key msg st = (false, st))
  /\ (key <> [] -> key ∈ (key_to_message st).*1 -> _set_key key msg st = (true, st))
  /\ (key <> [] -> key ∉ (key_to_message st).*1 ->
      let st' := snd (_set_key key msg st) in
      fst (_set_key key msg st) = true
      /\ key_to_message st' = key_to_message st ++ [(key, msg)]
      /\ keys_have_whitespace st'
         = keys_have_whitespace st || gdre.string_has_whitespace key
      /\ keys_are_all_upper st'
         = keys_are_all_upper st && bool_decide (to_upper key = key)
      /\ keys_are_all_lower st'
         = keys_are_all_lower st && bool_decide (to_lower key = key)
      /\ keys_are_all_ascii st' = keys_are_all_ascii st && gdre.string_is_ascii key
      /\ keys_that_are_all_upper st'
         = (if bool_decide (to_upper key = key)
            then wrap64 (keys_that_are_all_upper st + 1) else keys_that_are_all_upper st)
      /\ keys_that_are_all_lower st'
         = (if bool_decide (to_lower key = key)
            then wrap64 (keys_that_are_all_lower st + 1) else keys_that_are_all_lower st)
      /\ keys_that_are_all_ascii st'
         = (if gdre.string_is_ascii key
            then wrap64 (keys_that_are_all_ascii st + 1) else keys_that_are_all_ascii st)
      /\ max_key_len st' = Z.max (max_key_len st) (len key)
      /\ current_keys_found st' = wrap64 (current_keys_found st + 1)
      /\ (forall c, c ∈ punctuation st'
                    <-> c ∈ punctuation st \/ (c ∈ key /\ c ∈ ALL_PUNCTUATION)))
  /\ (forall k m, (k, m) ∈ key_to_message st ->
                  (k, m) ∈ key_to_message (snd (_set_key key msg st)))
  /\ (NoDup (key_to_message st).*1 ->
      NoDup (key_to_message (snd (_set_key key msg st))).*1
      /\ forall k m m', (k, m) ∈ key_to_message st ->
                        (k, m') ∈ key_to_message (snd (_set_key key msg st)) -> m' = m).
Proof.
  split; [| split; [| split; [| split]]].
  - intros ->. reflexivity.
  - intros Hne Hin. unfold _set_key.
    destruct key; [done |]. simpl.
    apply map_has_true in Hin. now rewrite Hin.
  - intros Hne Hnot st'. subst st'. unfold _set_key.
    destruct key as [| c0 key0]; [done |].
    change (is_empty (c0 :: key0)) with false. cbv iota.
    apply map_has_false in Hnot as Hhas. rewrite Hhas. cbn [fst snd].
    split; [reflexivity |].
    split; [rewrite key_to_message_set, set_key_stuff_table; now apply map_assign_fresh |].
    destruct (set_key_stuff_spec (c0 :: key0) st)
      as (Hws & Hup & Hlo & Hasc & Hnup & Hnlo & Hnasc & Hmax & Hcur & Hpunct).
    repeat (split; [assumption |]).
    intros c.
    change (punctuation (set_key_to_message ?v ?s)) with (punctuation s).
    rewrite Hpunct. apply get_chars_in_set_spec.
  - intros k m. apply set_key_entries_kept.
  - intros Hnd. split; [now apply set_key_nodup |].
    intros k m m' Hin Hin'.
    eapply nodup_functional; [apply (set_key_nodup key msg st Hnd) | exact Hin' |].
    now apply set_key_entries_kept.
Qed.

End KeyTableFacts.

(** The three cases of [_set_key] on a table that holds the key PLAY. *)
Lemma set_key_contract_witness :
  let engine := Fixture.engine in
  let tr := Fixture.translation_of [] in
  let st := snd (_set_key (lit "PLAY") (lit "Play") (KeyWorker_new [] [])) in
  _set_key [] (lit "x") st = (false, st)
  /\ _set_key (lit "PLAY") (lit "Other") st = (true, st)
  /\ key_to_message (snd (_set_key (lit "btn quit") (lit "Quit") st))
     = [(lit "PLAY", lit "Play"); (lit "btn quit", lit "Quit")]
  /\ keys_are_all_upper (snd (_set_key (lit "btn quit") (lit "Quit") st)) = false
  /\ keys_have_whitespace (snd (_set_key (lit "btn quit") (lit "Quit") st)) = true.
Proof.
  intros engine tr st.
  pose proof (@set_key_contract engine) as C.
  split; [exact (proj1 (C [] (lit "x") st) eq_refl) |].
  split; [| repeat split; vm_compute; reflexivity].
  apply (proj1 (proj2 (C (lit "PLAY") (lit "Other") st))); [discriminate |].
  vm_compute. apply list_elem_of_singleton. reflexivity.
Defined.


(** ** Reconciliation *)

Section ReconciliationFacts.
Implicit Types (st : KeyWorker) (m entries : list (String * String)) (msg : String).

Lemma map_index_unchanged {V} (dflt : V) (m : list (String * V)) (key : String) :
  key ∈ m.*1 -> snd (map_index dflt m key) = m.
Proof.
  induction m as [| [k v0] m IH]; simpl; intros Hin; [by apply elem_of_nil in Hin |].
  destruct (decide (k = key)) as [-> | Hne]; [reflexivity |].
  apply elem_of_cons in Hin. destruct Hin as [-> | Hin]; [done |].
  specialize (IH Hin). destruct (map_index dflt m key). simpl in *. now subst.
Qed.

Lemma entries_for_elem m msg k v : (k, v) ∈ entries_for m msg <-> (k, v) ∈ m /\ v = msg.
Proof. unfold entries_for. rewrite list_elem_of_filter. simpl. tauto. Qed.

Lemma values_elem m msg : msg ∈ m.*2 <-> exists k, (k, msg) ∈ m.
Proof.
  rewrite list_elem_of_fmap. split.
  - intros ([k v] & -> & Hin). now exists k.
  - intros [k Hin]. now exists (k, msg).
Qed.

Lemma entries_for_nil m msg : entries_for m msg = [] <-> msg ∉ m.*2.
Proof.
  rewrite values_elem. split.
  - intros E [k Hin].
    assert ((k, msg) ∈ entries_for m msg) as Hin' by now apply entries_for_elem.
    rewrite E in Hin'. by apply elem_of_nil in Hin'.
  - intros Hno. destruct (entries_for m msg) as [| [k v] l] eqn:E; [reflexivity |].
    exfalso. apply Hno. exists k.
    assert ((k, v) ∈ entries_for m msg) as Hin by (rewrite E; apply list_elem_of_here).
    apply entries_for_elem in Hin. destruct Hin as [Hin ->]. exact Hin.
Qed.

Lemma entries_for_cons_match m msg k :
  entries_for ((k, msg) :: m) msg = (k, msg) :: entries_for m msg.
Proof. unfold entries_for. rewrite filter_cons. now destruct (decide _). Qed.

Lemma entries_for_cons_other m msg k v :
  v <> msg -> entries_for ((k, v) :: m) msg = entries_for m msg.
Proof. intros Hne. unfold entries_for. rewrite filter_cons. now destruct (decide _). Qed.

(** The scan finds the first entry for [msg] whose key was not emitted yet;
    without one it leaves [keys] alone and remembers the key of the last
    entry for [msg]. *)
Lemma pop_keys_scan_spec entries msg keys has_match matching_key :
  (exists k,
      pop_keys_scan entries msg keys has_match matching_key = (true, true, k, keys ++ [k])
      /\ (k, msg) ∈ entries /\ k ∉ keys)
  \/ (pop_keys_scan entries msg keys has_match matching_key
      = (false,
         has_match || bool_decide (entries_for entries msg <> []),
         default matching_key (last (entries_for entries msg).*1),
         keys)
      /\ forall k, (k, msg) ∈ entries -> k ∈ keys).
Proof.
  revert has_match matching_key.
  induction entries as [| [k v] entries IH]; intros has_match matching_key.
  - right. simpl. rewrite orb_false_r. split; [reflexivity |].
    intros k Hin. by apply elem_of_nil in Hin.
  - cbn [pop_keys_scan]. destruct (decide (v = msg)) as [-> | Hne].
    + rewrite (bool_decide_eq_true_2 (msg = msg) eq_refl), entries_for_cons_match.
      unfold set_has. destruct (decide (k ∈ keys)) as [Hk | Hk].
      * rewrite (bool_decide_eq_true_2 _ Hk). cbn [negb].
        destruct (IH true k) as [(k' & E & Hin & Hnot) | [E Hall]].
        -- left. exists k'. split; [exact E |].
           split; [now apply list_elem_of_further | exact Hnot].
        -- right. split.
           ++ rewrite E.
              rewrite (bool_decide_eq_true_2 (_ :: _ <> [])) by done.
              rewrite orb_true_r. cbn [orb]. f_equal. f_equal.
              rewrite fmap_cons. cbn [fst].
              destruct ((entries_for entries msg).*1) as [| k1 l1] eqn:El; [reflexivity |].
              rewrite last_cons_cons.
              destruct (last (k1 :: l1)) eqn:Hl; [reflexivity | now apply last_None in Hl].
           ++ intros k' Hin. apply elem_of_cons in Hin.
              destruct Hin as [[= ->] | Hin]; [exact Hk | now apply Hall].
      * rewrite (bool_decide_eq_false_2 _ Hk). cbn [negb].
        left. exists k. split; [reflexivity |]. split; [apply list_elem_of_here | exact Hk].
    + rewrite (bool_decide_eq_false_2 _ Hne), (entries_for_cons_other _ _ _ _ Hne).
      destruct (IH has_match matching_key) as [(k' & E & Hin & Hnot) | [E Hall]].
      * left. exists k'. split; [exact E |].
        split; [now apply list_elem_of_further | exact Hnot].
      * right. split; [exact E |].
        intros k' Hin. apply elem_of_cons in Hin.
        destruct Hin as [[= -> ->] | Hin]; [done | now apply Hall].
Qed.

Lemma last_entries_for m msg k :
  last (entries_for m msg).*1 = Some k -> (k, msg) ∈ m.
Proof.
  intros Hl. apply last_Some in Hl. destruct Hl as [l' El].
  assert (k ∈ (entries_for m msg).*1) as Hin.
  { rewrite El. apply elem_of_app. right. apply list_elem_of_here. }
  apply list_elem_of_fmap in Hin. destruct Hin as ([k' v] & -> & Hin).
  apply entries_for_elem in Hin. destruct Hin as [Hin ->]. exact Hin.
Qed.

(** One round of [pop_keys] on a table with unique keys. *)
Lemma pop_keys_step_spec n st msg :
  NoDup (key_to_message st).*1 ->
  let r := pop_keys_step (n, st) msg in
  key_to_message (snd r) = key_to_message st
  /\ default_messages (snd r) = default_messages st
  /\ exists key,
       keys (snd r) = keys st ++ [key]
       /\ reconciled (key_to_message st) msg key
       /\ fst r = (if bool_decide (msg ∈ (key_to_message st).*2) then n else n + 1)
       /\ exists line,
            console (snd r) = console st ++ line
            /\ Forall (fun e => is_mismatch_warning e = false) line.
Proof.
  intros Hnd r. subst r. unfold pop_keys_step, reconciled.
  destruct (pop_keys_scan_spec (key_to_message st) msg (keys st) false [])
    as [(k & E & Hin & Hnot) | [E Hall]]; rewrite E; clear E.
  - cbn. split; [reflexivity |]. split; [reflexivity |].
    exists k. split; [reflexivity |].
    assert (msg ∈ (key_to_message st).*2) as Hv by (apply values_elem; now exists k).
    rewrite (bool_decide_eq_true_2 _ Hv).
    split; [exact Hin |]. split; [reflexivity |].
    exists []. split; [now rewrite app_nil_r | constructor].
  - cbn [orb]. destruct (entries_for (key_to_message st) msg) as [| e0 l0] eqn:El.
    + assert (msg ∉ (key_to_message st).*2) as Hv by now apply entries_for_nil.
      rewrite (bool_decide_eq_false_2 _ Hv). cbn.
      split; [reflexivity |]. split; [reflexivity |].
      exists (missing_key msg). repeat split; try reflexivity.
      exists [VerboseMissing msg]. split; [reflexivity | repeat constructor].
    + destruct (last (e0 :: l0).*1) as [k |] eqn:Hlast;
        [| now apply last_None in Hlast].
      rewrite <- El in Hlast. apply last_entries_for in Hlast.
      assert (msg ∈ (key_to_message st).*2) as Hv by (apply values_elem; now exists k).
      rewrite (bool_decide_eq_true_2 _ Hv).
      rewrite (bool_decide_eq_true_2 (_ :: _ <> [])) by done.
      cbn [default from_option id].
      change (key_to_message (set_keys (keys st) st)) with (key_to_message st).
      rewrite (map_index_present [] _ _ _ Hnd Hlast).
      rewrite (bool_decide_eq_true_2 (msg = msg) eq_refl). cbn.
      split; [reflexivity |]. split; [reflexivity |].
      exists k. repeat split; try reflexivity; try assumption.
      exists [VerboseDuplicate k msg]. split; [reflexivity | repeat constructor].
Qed.

Lemma pop_keys_fold_spec msgs n st :
  NoDup (key_to_message st).*1 ->
  let r := fold_left pop_keys_step msgs (n, st) in
  key_to_message (snd r) = key_to_message st
  /\ default_messages (snd r) = default_messages st
  /\ (exists ks,
        keys (snd r) = keys st ++ ks
        /\ Forall2 (reconciled (key_to_message st)) msgs ks)
  /\ fst r = n + Z.of_nat (length (filter (fun msg => msg ∉ (key_to_message st).*2) msgs))
  /\ exists lines,
       console (snd r) = console st ++ lines
       /\ Forall (fun e => is_mismatch_warning e = false) lines.
Proof.
  revert n st. induction msgs as [| msg msgs IH]; intros n st Hnd; cbn [fold_left].
  - cbn. split; [reflexivity |]. split; [reflexivity |].
    split; [exists []; split; [now rewrite app_nil_r | constructor] |].
    split; [lia |]. exists []. split; [now rewrite app_nil_r | constructor].
  - destruct (pop_keys_step_spec n st msg Hnd)
      as (Ht & Hd & key & Hk & Hrec & Hn & line & Hc & Hline).
    destruct (pop_keys_step (n, st) msg) as [n1 st1] eqn:E1. cbn [fst snd] in *.
    assert (NoDup (key_to_message st1).*1) as Hnd1 by now rewrite Ht.
    destruct (IH n1 st1 Hnd1) as (Ht' & Hd' & (ks & Hks & Hall) & Hn' & lines & Hc' & Hlines).
    rewrite Ht in *.
    split; [exact Ht' |]. split; [congruence |].
    split.
    { exists (key :: ks). split; [rewrite Hks, Hk, <- app_assoc; reflexivity |].
      constructor; assumption. }
    split.
    { rewrite Hn', Hn, filter_cons.
      case_bool_decide as Hv; destruct (decide (msg ∉ (key_to_message st).*2)); try done;
        simpl length; lia. }
    exists (line ++ lines). split; [rewrite Hc', Hc, <- app_assoc; reflexivity |].
    now apply Forall_app.
Qed.

(** C1. [pop_keys] emits one key per message of [default_messages], in
    their order: a key of the table that maps to the message, or, for a
    message with no entry in the table, the placeholder made of
    [<!MissingKey:], the first line of the message and [>]; it returns the
    number of messages with no entry. *)
Theorem pop_keys_reconciles st :
  NoDup (key_to_message st).*1 ->
  length (keys (snd (pop_keys st))) = length (default_messages st)
  /\ Forall2
       (fun msg key =>
          if bool_decide (msg ∈ (key_to_message st).*2)
          then (key, msg) ∈ key_to_message st
          else key = lit "<!MissingKey:" ++ first_line msg ++ lit ">")
       (default_messages st) (keys (snd (pop_keys st)))
  /\ fst (pop_keys st)
     = Z.of_nat (length (filter (fun msg => msg ∉ (key_to_message st).*2)
                                (default_messages st))).
Proof.
  intros Hnd. unfold pop_keys.
  destruct (pop_keys_fold_spec (default_messages st) 0 (set_keys [] st) Hnd)
    as (_ & _ & (ks & Hks & Hall) & Hn & _).
  cbn [keys set_keys app] in Hks.
  change (key_to_message (set_keys [] st)) with (key_to_message st) in *.
  change (default_messages (set_keys [] st)) with (default_messages st).
  rewrite Hks.
  split; [symmetry; eapply Forall2_length, Hall |].
  split; [exact Hall | rewrite Hn; lia].
Qed.

(** The table is left as it is by [pop_keys] (also without unique keys: the
    key whose message is read is a key of the table). *)
Lemma pop_keys_step_table n st msg :
  key_to_message (snd (pop_keys_step (n, st) msg)) = key_to_message st.
Proof.
  unfold pop_keys_step.
  destruct (pop_keys_scan_spec (key_to_message st) msg (keys st) false [])
    as [(k & E & Hin & Hnot) | [E Hall]]; rewrite E; clear E; [reflexivity |].
  cbn [orb]. destruct (entries_for (key_to_message st) msg) as [| e0 l0] eqn:El;
    [reflexivity |].
  destruct (last (e0 :: l0).*1) as [k |] eqn:Hlast; [| now apply last_None in Hlast].
  rewrite <- El in Hlast. apply last_entries_for in Hlast.
  rewrite (bool_decide_eq_true_2 (_ :: _ <> [])) by done.
  cbn [default from_option id].
  change (key_to_message (set_keys (keys st) st)) with (key_to_message st).
  assert (k ∈ (key_to_message st).*1) as Hk.
  { apply list_elem_of_fmap. now exists (k, msg). }
  pose proof (map_index_unchanged [] (key_to_message st) k Hk) as Hm.
  destruct (map_index [] (key_to_message st) k) as [mm m']. cbn [snd] in Hm. subst m'.
  case_bool_decide; reflexivity.
Qed.

Lemma pop_keys_table st : key_to_message (snd (pop_keys st)) = key_to_message st.
Proof.
  unfold pop_keys.
  assert (forall msgs n st0,
            key_to_message (snd (fold_left pop_keys_step msgs (n, st0)))
            = key_to_message st0) as Hfold.
  { induction msgs as [| msg msgs IH]; intros n st0; cbn [fold_left]; [reflexivity |].
    pose proof (pop_keys_step_table n st0 msg) as Hs.
    destruct (pop_keys_step (n, st0) msg) as [n1 st1]. rewrite IH. exact Hs. }
  now rewrite Hfold.
Qed.

(** C4. When every entry of the table for a message has a key that was
    emitted before - for an earlier occurrence of the same text, or, as a
    placeholder, for another text - [pop_keys] emits the key of the last
    such entry again, does not count the message as missing, prints the
    line [WARNING: Found duplicate key] with [print_verbose], and goes on
    with the next message.  The [WARN_PRINT] line of the mismatch branch is
    never printed on a table with unique keys, and every message of the
    pass gets its key. *)
Theorem pop_keys_duplicate_key :
  (forall n st msg,
      NoDup (key_to_message st).*1 ->
      msg ∈ (key_to_message st).*2 ->
      (forall k, (k, msg) ∈ key_to_message st -> k ∈ keys st) ->
      exists k,
        last (entries_for (key_to_message st) msg).*1 = Some k
        /\ (k, msg) ∈ key_to_message st
        /\ pop_keys_step (n, st) msg
           = (n, set_keys (keys st ++ [k]) (log_line (VerboseDuplicate k msg) st)))
  /\ (forall st,
        NoDup (key_to_message st).*1 ->
        length (keys (snd (pop_keys st))) = length (default_messages st)
        /\ exists lines,
             console (snd (pop_keys st)) = console st ++ lines
             /\ Forall (fun e => is_mismatch_warning e = false) lines).
Proof.
  split.
  - intros n st msg Hnd Hv Hall.
    assert (entries_for (key_to_message st) msg <> []) as Hne
      by (intros E; now apply entries_for_nil in E).
    destruct (last (entries_for (key_to_message st) msg).*1) as [k |] eqn:Hlast.
    2: { apply last_None in Hlast. apply fmap_nil_inv in Hlast. contradiction. }
    exists k. split; [reflexivity |].
    pose proof (last_entries_for _ _ _ Hlast) as Hin. split; [exact Hin |].
    unfold pop_keys_step.
    destruct (pop_keys_scan_spec (key_to_message st) msg (keys st) false [])
      as [(k' & E & Hin' & Hnot) | [E _]]; [now apply Hall in Hin' |].
    rewrite E, Hlast. rewrite (bool_decide_eq_true_2 _ Hne).
    cbn [orb default from_option id].
    change (key_to_message (set_keys (keys st) st)) with (key_to_message st).
    rewrite (map_index_present [] _ _ _ Hnd Hin).
    rewrite (bool_decide_eq_true_2 (msg = msg) eq_refl). reflexivity.
  - intros st Hnd. unfold pop_keys.
    destruct (pop_keys_fold_spec (default_messages st) 0 (set_keys [] st) Hnd)
      as (_ & _ & (ks & Hks & Hall) & _ & lines & Hc & Hlines).
    split.
    + rewrite Hks. cbn [keys set_keys app]. symmetry. eapply Forall2_length, Hall.
    + exists lines. split; [exact Hc | exact Hlines].
Qed.

End ReconciliationFacts.

(** A pass over [Play; Quit; Play; New(line feed)Game] with keys for the
    first two messages. *)
Lemma pop_keys_reconciles_witness :
  let st :=
    set_key_to_message [(lit "BTN_PLAY", lit "Play"); (lit "btn_quit", lit "Quit")]
      (KeyWorker_new [lit "Play"; lit "Quit"; lit "Play"; lit "New" ++ [10%N] ++ lit "Game"]
         []) in
  NoDup (key_to_message st).*1
  /\ keys (snd (pop_keys st))
     = [lit "BTN_PLAY"; lit "btn_quit"; lit "BTN_PLAY"; lit "<!MissingKey:New>"]
  /\ fst (pop_keys st) = 1
  /\ length (keys (snd (pop_keys st))) = length (default_messages st).
Proof.
  intros st.
  assert (NoDup (key_to_message st).*1) as Hnd
    by by_decide.
  split; [exact Hnd |].
  split; [vm_compute; reflexivity |].
  split; [vm_compute; reflexivity |].
  exact (proj1 (pop_keys_reconciles st Hnd)).
Defined.

(** Two passes that reach the duplicate branch.  In the first the only
    entry for [bar] has the key that was emitted as the placeholder of
    [foo]; in the second [Play] occurs twice and has one key. *)
Lemma pop_keys_duplicate_key_witness :
  let collide :=
    set_keys [missing_key (lit "foo")]
      (set_key_to_message [(missing_key (lit "foo"), lit "bar")]
         (KeyWorker_new [lit "foo"; lit "bar"] [])) in
  let twice :=
    set_keys [lit "BTN_PLAY"]
      (set_key_to_message [(lit "BTN_PLAY", lit "Play")]
         (KeyWorker_new [lit "Play"; lit "Play"] [])) in
  pop_keys_step (1, collide) (lit "bar")
  = (1, set_keys [missing_key (lit "foo"); missing_key (lit "foo")]
          (log_line (VerboseDuplicate (missing_key (lit "foo")) (lit "bar")) collide))
  /\ pop_keys_step (0, twice) (lit "Play")
     = (0, set_keys [lit "BTN_PLAY"; lit "BTN_PLAY"]
             (log_line (VerboseDuplicate (lit "BTN_PLAY") (lit "Play")) twice)).
Proof.
  intros collide twice.
  pose proof (proj1 pop_keys_duplicate_key) as D.
  split.
  - destruct (D 1 collide (lit "bar")) as (k & Hlast & _ & E).
    + by_decide.
    + by_decide.
    + intros k Hin. apply list_elem_of_singleton in Hin. injection Hin as ->.
      apply list_elem_of_here.
    + vm_compute in Hlast. injection Hlast as <-. exact E.
  - destruct (D 0 twice (lit "Play")) as (k & Hlast & _ & E).
    + by_decide.
    + by_decide.
    + intros k Hin. apply list_elem_of_singleton in Hin. injection Hin as ->.
      apply list_elem_of_here.
    + vm_compute in Hlast. injection Hlast as <-. exact E.
Defined.

(** The whole pass of the first scenario: the placeholder of [foo] is
    emitted twice, one message is counted as missing, and the two lines
    printed are the two [print_verbose] lines. *)
Example pop_keys_placeholder_collision :
  let st :=
    set_key_to_message [(missing_key (lit "foo"), lit "bar")]
      (KeyWorker_new [lit "foo"; lit "bar"] []) in
  fst (pop_keys st) = 1
  /\ keys (snd (pop_keys st)) = [lit "<!MissingKey:foo>"; lit "<!MissingKey:foo>"]
  /\ console (snd (pop_keys st))
     = [VerboseMissing (lit "foo"); VerboseDuplicate (lit "<!MissingKey:foo>") (lit "bar")].
Proof. repeat split; vm_compute; reflexivity. Qed.

(** ** Soundness of the Key Table *)

Section Soundness.
Context {eng : Engine} {tr : Translation}.
Hypothesis multipart : multipart_consistent.
Implicit Types (st : KeyWorker) (key msg : String).

Notation sound st := (table_sound (key_to_message st)).

Lemma sound_new default_messages previous_keys_found :
  sound (KeyWorker_new default_messages previous_keys_found).
Proof. intros key msg Hin. by apply elem_of_nil in Hin. Qed.

Lemma set_key_sound key msg st :
  get_message_str key = msg -> msg <> [] ->
  sound st -> sound (snd (_set_key key msg st)).
Proof.
  intros Hmsg Hne Hs. unfold _set_key.
  destruct (is_empty key); [exact Hs |].
  destruct (map_has (key_to_message st) key) eqn:Hhas; [exact Hs |].
  apply map_has_false in Hhas. cbn [snd].
  rewrite key_to_message_set, set_key_stuff_table, (map_assign_fresh _ _ _ Hhas).
  intros k m Hin. apply elem_of_app in Hin. destruct Hin as [Hin | Hin].
  - now apply Hs.
  - apply list_elem_of_singleton in Hin. injection Hin as -> ->. now split.
Qed.

Lemma is_empty_false (s : String) : is_empty s = false <-> s <> [].
Proof. destruct s; simpl; split; congruence. Qed.

Lemma try_key_sound key st : sound st -> sound (snd (try_key key st)).
Proof.
  intros Hs. unfold try_key.
  destruct (is_empty key); [exact Hs |].
  destruct (is_empty (get_message_str key)) eqn:Hmsg; [exact Hs |].
  apply set_key_sound; [reflexivity | now apply is_empty_false | exact Hs].
Qed.

Lemma try_key_multipart_sound p1 p2 p3 p4 p5 p6 st :
  sound st -> sound (snd (try_key_multipart p1 p2 p3 p4 p5 p6 st)).
Proof.
  intros Hs. unfold try_key_multipart.
  destruct (is_empty (get_message_multipart_str p1 p2 p3 p4 p5 p6)) eqn:Hmsg;
    [exact Hs |].
  cbn [negb].
  pose proof (set_key_sound (combine_string p1 p2 p3 p4 p5 p6)
                (get_message_multipart_str p1 p2 p3 p4 p5 p6) st) as Hset.
  destruct (_set_key _ _ st) as [b st'] eqn:E. cbn [snd] in *.
  apply Hset; [symmetry; apply multipart | now apply is_empty_false | exact Hs].
Qed.

Lemma try_each_punctuation_sound ps (probe : String -> KeyWorker -> bool * KeyWorker) st :
  (forall p st, sound st -> sound (snd (probe p st))) ->
  sound st -> sound (snd (try_each_punctuation ps probe st)).
Proof.
  intros Hprobe. revert st.
  induction ps as [| p ps IH]; intros st Hs; simpl; [exact Hs |].
  pose proof (Hprobe p st Hs) as Hp.
  destruct (probe p st) as [hit st'] eqn:E. cbn [snd] in Hp.
  destruct hit; [exact Hp | now apply IH].
Qed.

Lemma try_key_prefix_sound prefix suffix st :
  sound st -> sound (snd (try_key_prefix prefix suffix st)).
Proof.
  intros Hs. unfold try_key_prefix.
  pose proof (try_key_multipart_sound prefix suffix [] [] [] [] st Hs) as Hp.
  destruct (try_key_multipart prefix suffix [] [] [] [] st) as [hit st'].
  cbn [snd] in Hp. destruct hit; [exact Hp |].
  apply try_each_punctuation_sound; [| exact Hp].
  intros p st0. apply try_key_multipart_sound.
Qed.

Lemma try_key_suffix_sound prefix suffix st :
  sound st -> sound (snd (try_key_suffix prefix suffix st)).
Proof. apply try_key_prefix_sound. Qed.

Lemma try_key_suffixes_sound prefix suffix suffix2 st :
  sound st -> sound (snd (try_key_suffixes prefix suffix suffix2 st)).
Proof.
  intros Hs. unfold try_key_suffixes.
  assert (sound (snd (try_key_suffixes_body prefix suffix suffix2 st))) as Hb.
  { unfold try_key_suffixes_body.
    destruct (is_empty suffix); [now apply try_key_suffix_sound |].
    pose proof (try_key_multipart_sound prefix suffix suffix2 [] [] [] st Hs) as Hp.
    destruct (try_key_multipart prefix suffix suffix2 [] [] [] st) as [hit st'].
    cbn [snd] in Hp. destruct hit; [exact Hp |].
    apply try_each_punctuation_sound; [| exact Hp].
    intros p st0. apply try_key_multipart_sound. }
  destruct (try_key_suffixes_body prefix suffix suffix2 st) as [hit st'].
  exact Hb.
Qed.

Lemma try_key_prefix_suffix_sound prefix key suffix st :
  sound st -> sound (snd (try_key_prefix_suffix prefix key suffix st)).
Proof.
  intros Hs. unfold try_key_prefix_suffix.
  pose proof (try_key_multipart_sound prefix key suffix [] [] [] st Hs) as Hp.
  destruct (try_key_multipart prefix key suffix [] [] [] st) as [hit st'].
  cbn [snd] in Hp. destruct hit; [exact Hp |].
  apply try_each_punctuation_sound; [| exact Hp].
  intros p st0. apply try_key_multipart_sound.
Qed.

Lemma try_numbers_sound n num res_s suffix z found st :
  sound st -> sound (snd (try_numbers n num res_s suffix z found st)).
Proof.
  revert num found st.
  induction n as [| n IH]; intros num found st Hs; simpl; [exact Hs |].
  pose proof (try_key_suffixes_sound res_s suffix (cs_num num z) st Hs) as Hp.
  destruct (try_key_suffixes res_s suffix (cs_num num z) st) as [hit st'].
  now apply IH.
Qed.

Lemma widen_numbers_sound fuel res_s suffix z min_num max_num st st' :
  sound st ->
  widen_numbers fuel res_s suffix z min_num max_num st = Some st' -> sound st'.
Proof.
  revert min_num max_num st.
  induction fuel as [| fuel IH]; intros min_num max_num st Hs; simpl; [discriminate |].
  pose proof (try_numbers_sound (Z.to_nat (max_num - min_num)) min_num res_s suffix z 0
                st Hs) as Hp.
  destruct (try_numbers _ min_num res_s suffix z 0 st) as [found st1].
  cbn [snd] in Hp.
  case_bool_decide; [discriminate |].
  case_bool_decide; [now apply IH |].
  now intros [= <-].
Qed.

Lemma try_num_suffix_sound res_s suffix skip st st' :
  sound st -> try_num_suffix res_s suffix skip st = Some st' -> sound st'.
Proof.
  intros Hs. unfold try_num_suffix.
  pose proof (try_key_suffixes_sound res_s suffix (lit "1") st Hs) as H1.
  destruct (try_key_suffixes res_s suffix (lit "1") st) as [found_num st1].
  cbn [snd] in H1.
  assert (forall z st2, sound st2 ->
            (let '(_, st) := try_key_suffixes res_s suffix (lit "N") st2 in
             let '(_, st) := try_key_suffixes res_s suffix (lit "n") st in
             let '(_, st) := try_key_suffixes res_s suffix (lit "0") st in
             widen_numbers 32 res_s suffix z (if skip then 0 else 2)
               (if skip then 10 else 4) st) = Some st' -> sound st') as Htail.
  { intros z st2 H2.
    pose proof (try_key_suffixes_sound res_s suffix (lit "N") st2 H2) as HN.
    destruct (try_key_suffixes res_s suffix (lit "N") st2) as [? stN]. cbn [snd] in HN.
    pose proof (try_key_suffixes_sound res_s suffix (lit "n") stN HN) as Hn.
    destruct (try_key_suffixes res_s suffix (lit "n") stN) as [? stn]. cbn [snd] in Hn.
    pose proof (try_key_suffixes_sound res_s suffix (lit "0") stn Hn) as H0.
    destruct (try_key_suffixes res_s suffix (lit "0") stn) as [? st0]. cbn [snd] in H0.
    now apply widen_numbers_sound. }
  destruct skip; cbn [negb].
  - rewrite orb_true_r. apply Htail, H1.
  - pose proof (try_key_suffixes_sound res_s suffix (lit "01") st1 H1) as H01.
    destruct (try_key_suffixes res_s suffix (lit "01") st1) as [hit01 st01].
    cbn [snd] in H01.
    destruct found_num, hit01; cbn [negb andb orb Z.eqb Z.ltb Z.compare];
      try (apply Htail, H01).
    pose proof (try_key_suffixes_sound res_s suffix (lit "001") st01 H01) as H001.
    destruct (try_key_suffixes res_s suffix (lit "001") st01) as [hit001 st001].
    cbn [snd] in H001.
    destruct hit001; cbn [negb andb orb Z.eqb Z.ltb Z.compare Pos.compare];
      [apply Htail, H001 |].
    pose proof (try_key_suffixes_sound res_s suffix (lit "0001") st001 H001) as H0001.
    destruct (try_key_suffixes res_s suffix (lit "0001") st001) as [hit0001 st0001].
    cbn [snd] in H0001.
    destruct hit0001; cbn [negb andb orb Z.eqb Z.ltb Z.compare Pos.compare];
      [apply Htail, H0001 | now intros [= <-]].
Qed.

Lemma for_each_sound {A} (l : list A) (body : A -> KeyWorker -> option KeyWorker) st st' :
  (forall x st0 st1, sound st0 -> body x st0 = Some st1 -> sound st1) ->
  sound st -> for_each l body st = Some st' -> sound st'.
Proof.
  intros Hbody. revert st.
  induction l as [| x l IH]; intros st Hs; cbn [for_each].
  - now intros [= <-].
  - destruct (body x st) as [st1 |] eqn:E; cbn; [| discriminate].
    apply IH. eapply Hbody; eassumption.
Qed.

Lemma try_keys_sound keys st : sound st -> sound (try_keys keys st).
Proof.
  unfold try_keys. revert st.
  induction keys as [| key keys IH]; intros st Hs; cbn [fold_left]; [exact Hs |].
  apply IH. now apply try_key_sound.
Qed.

Lemma stage_1_sound i data st st' :
  sound st -> stage_1 i data st = Some st' -> sound st'.
Proof. intros Hs [= <-]. now apply try_key_sound. Qed.

Lemma partial_task_sound i data st st' :
  sound st -> partial_task i data st = Some st' -> sound st'.
Proof.
  intros Hs. unfold partial_task.
  destruct (cancel st); [now intros [= <-] |].
  intros [= <-].
  destruct (negb (has_common_prefix st) || contains (nth i data []) (common_to_all_prefix st));
    [| exact Hs].
  destruct (word_regex st); [| exact Hs].
  now apply (try_keys_sound _ st).
Qed.

Lemma prefix_suffix_task_2_sound i data st st' :
  sound st -> prefix_suffix_task_2 i data st = Some st' -> sound st'.
Proof.
  intros Hs. unfold prefix_suffix_task_2.
  destruct (cancel st); [now intros [= <-] |].
  destruct (try_num_suffix (nth i data []) [] false st) as [st1 |] eqn:E1; cbn;
    [| discriminate].
  pose proof (try_num_suffix_sound _ _ _ _ _ Hs E1) as H1.
  destruct (for_each (common_suffixes_t st1) _ st1) as [st2 |] eqn:E2; cbn;
    [| discriminate].
  assert (sound st2) as H2.
  { eapply for_each_sound; [| exact H1 | exact E2].
    intros E st0 st0' H0 E0. eapply try_num_suffix_sound; [| exact E0].
    now apply try_key_suffix_sound. }
  destruct (for_each (common_prefixes_t st2) _ st2) as [st3 |] eqn:E3; cbn;
    [| discriminate].
  intros [= <-].
  eapply (for_each_sound _ _ st2 st3); [| exact H2 | exact E3].
  intros E st0 st0' H0 E0. eapply try_num_suffix_sound; [| exact E0].
  now apply try_key_prefix_sound.
Qed.

Lemma stage_3_5_task_sound i data st st' :
  sound st -> stage_3_5_task i data st = Some st' -> sound st'.
Proof.
  intros Hs. unfold stage_3_5_task.
  destruct (cancel st); [now intros [= <-] |].
  destruct (nth i data ([], -1)) as [res_s magnitude].
  destruct (try_num_suffix _ _ _ st) as [st1 |] eqn:E1; cbn; [| discriminate].
  intros [= <-]. exact (try_num_suffix_sound _ _ _ _ _ Hs E1).
Qed.

Lemma stage_5_task_2_sound i data st st' :
  sound st -> stage_5_task_2 i data st = Some st' -> sound st'.
Proof.
  intros Hs. unfold stage_5_task_2.
  destruct (cancel st); [now intros [= <-] |].
  intros [= <-].
  change (sound (fold_left (fun st res_s2 => snd (try_key_suffix (nth i data []) res_s2 st))
                   (take (length (filtered_resource_strings st)) data) st)).
  generalize (take (length (filtered_resource_strings st)) data). intros l.
  revert st Hs. induction l as [| x l IH]; intros st Hs; cbn [fold_left]; [exact Hs |].
  apply IH. now apply try_key_suffix_sound.
Qed.

Lemma run_stage_sound {A} (task : nat -> list A -> KeyWorker -> option KeyWorker)
    (data : list A) name pool st err pool' st' :
  (forall i st0 st1, sound st0 -> task i data st0 = Some st1 -> sound st1) ->
  sound st -> run_stage task data name pool st = Some (err, pool', st') -> sound st'.
Proof.
  intros Htask Hs. unfold run_stage.
  destruct (for_each _ _ _) as [st1 |] eqn:E; cbn; [| discriminate].
  intros [= _ _ <-].
  eapply (for_each_sound _ _ _ st1) in E; [exact E | | exact Hs].
  intros i st0 st0'. apply Htask.
Qed.

Lemma finish_sound st n st' : sound st -> finish st = Some (n, st') -> sound st'.
Proof.
  intros Hs. unfold finish. intros [= E].
  pose proof (pop_keys_table st) as Ht. rewrite E in Ht. cbn [snd] in Ht.
  now rewrite Ht.
Qed.

Lemma force_set_flags_table st st' :
  force_set_flags st = Some st' -> key_to_message st' = key_to_message st.
Proof.
  unfold force_set_flags.
  destruct (over_nine_tenths (keys_are_all_upper st) _ _) as [[] |]; cbn;
    [| | discriminate].
  - destruct (over_nine_tenths _ _ _) as [[] |]; cbn; [| | discriminate];
      now intros [= <-].
  - destruct (over_nine_tenths (keys_are_all_lower st) _ _) as [[] |]; cbn;
      [| | discriminate];
      (destruct (over_nine_tenths _ _ _) as [[] |]; cbn; [| | discriminate];
       now intros [= <-]).
Qed.

Lemma filter_resource_strings_table res st st' :
  filter_resource_strings res st = Some st' -> key_to_message st' = key_to_message st.
Proof.
  unfold filter_resource_strings.
  match goal with |- context [if ?c then _ else _] => destruct c end.
  - destruct (force_set_flags (filter_things res st)) as [st1 |] eqn:E; cbn;
      [| discriminate].
    intros [= <-]. now apply force_set_flags_table in E.
  - now intros [= <-].
Qed.

Lemma find_common_prefixes_and_suffixes_table res_strings threshold clear st :
  key_to_message (find_common_prefixes_and_suffixes res_strings threshold clear st)
  = key_to_message st.
Proof.
  unfold find_common_prefixes_and_suffixes.
  destruct (fold_left _ res_strings ([], [])) as [prefix_counts suffix_counts].
  destruct clear; reflexivity.
Qed.

Lemma stage_5_sound pool st n st' :
  sound st -> stage_5 pool st = Some (n, st') -> sound st'.
Proof.
  intros Hs. unfold stage_5.
  match goal with |- context [if ?c then _ else _] => destruct c end;
    [| now apply finish_sound].
  destruct (run_stage _ _ _ _ _) as [[[err pool1] st1] |] eqn:E; cbn; [| discriminate].
  apply finish_sound.
  eapply run_stage_sound; [| | exact E]; [intros i0 s0 s1; apply stage_5_task_2_sound | exact Hs].
Qed.

Lemma stage_4_sound pool st n st' :
  sound st -> stage_4 pool st = Some (n, st') -> sound st'.
Proof.
  intros Hs. unfold stage_4.
  match goal with |- context [if ?c then _ else _] => destruct c end;
    [| now apply finish_sound].
  match goal with |- context [for_each ?l ?body ?s] =>
    assert (sound s) as Hs0;
      [| destruct (for_each l body s) as [st1 |] eqn:E1; cbn; [| discriminate];
         assert (sound st1) as H1]
  end.
  { match goal with |- context [find_common_prefixes_and_suffixes ?ks ?n ?c ?s0] =>
      change (sound (find_common_prefixes_and_suffixes ks n c s0));
      rewrite (find_common_prefixes_and_suffixes_table ks n c s0)
    end.
    exact Hs. }
  { eapply for_each_sound; [| | exact E1]; [| exact Hs0].
    intros prefix st0 st0' H0. apply for_each_sound; [| exact H0].
    intros suffix st2 st2' H2 E2. eapply try_num_suffix_sound; [| exact E2].
    now apply try_key_suffix_sound. }
  match goal with |- context [if ?c then _ else _] => destruct c end;
    [| now apply finish_sound].
  destruct (run_stage _ _ _ _ _) as [[[err pool1] st2] |] eqn:E2; cbn; [| discriminate].
  assert (sound st2) as H2.
  { eapply run_stage_sound; [| | exact E2]; [intros i0 s0 s1; apply prefix_suffix_task_2_sound | exact H1]. }
  case_bool_decide; [now apply finish_sound | now apply stage_5_sound].
Qed.

Lemma stage_3_5_sound pool st n st' :
  sound st -> stage_3_5 pool st = Some (n, st') -> sound st'.
Proof.
  intros Hs. unfold stage_3_5.
  destruct (keys_missing st); [| now apply stage_4_sound].
  destruct (run_stage _ _ _ _ _) as [[[err pool1] st1] |] eqn:E; cbn; [| discriminate].
  assert (sound st1) as H1.
  { eapply run_stage_sound; [| | exact E]; [intros i0 s0 s1; apply stage_3_5_task_sound | exact Hs]. }
  case_bool_decide; [now apply finish_sound | now apply stage_4_sound].
Qed.

Lemma stage_3_sound res pool st n st' :
  sound st -> stage_3 res pool st = Some (n, st') -> sound st'.
Proof.
  intros Hs. unfold stage_3.
  destruct (keys_missing st); [| now apply stage_3_5_sound].
  destruct (filter_resource_strings res st) as [st0 |] eqn:E0; cbn; [| discriminate].
  apply filter_resource_strings_table in E0.
  destruct (run_stage _ _ _ _ _) as [[[err pool1] st1] |] eqn:E; cbn; [| discriminate].
  assert (sound st1) as H1.
  { eapply run_stage_sound; [| | exact E]; [intros i0 s0 s1; apply prefix_suffix_task_2_sound |].
    change (sound st0). now rewrite E0. }
  case_bool_decide; [now apply finish_sound | now apply stage_3_5_sound].
Qed.

Lemma stage_2_sound res pool st n st' :
  sound st -> stage_2 res pool st = Some (n, st') -> sound st'.
Proof.
  intros Hs. unfold stage_2.
  match goal with |- context [if ?c then _ else _] => destruct c end;
    [| now apply stage_3_sound].
  destruct (run_stage _ _ _ _ _) as [[[err pool1] st1] |] eqn:E; cbn; [| discriminate].
  assert (sound st1) as H1.
  { eapply run_stage_sound; [| | exact E]; [intros i0 s0 s1; apply partial_task_sound | exact Hs]. }
  case_bool_decide; [now apply finish_sound | now apply stage_3_sound].
Qed.

Lemma run_sound hint_lines old_csv_lines res pool st n st' :
  sound st -> run hint_lines old_csv_lines res pool st = Some (n, st') -> sound st'.
Proof.
  intros Hs. unfold run.
  match goal with |- context [run_stage stage_1 ?d ?nm ?p ?s] =>
    destruct (run_stage stage_1 d nm p s) as [[[err pool1] st1] |] eqn:E; cbn;
      [| discriminate];
    assert (sound st1) as H1
  end.
  { eapply run_stage_sound; [| | exact E]; [intros i0 s0 s1; apply stage_1_sound |].
    apply (try_keys_sound _ (try_keys _ (set_cancel false st))).
    now apply (try_keys_sound _ (set_cancel false st)). }
  case_bool_decide; [now apply finish_sound |].
  apply stage_2_sound.
  assert (sound (try_keys (default_messages st1) st1)) as H2 by now apply try_keys_sound.
  destruct (keys_missing (try_keys (default_messages st1) st1)); [| exact H2].
  now apply (try_keys_sound _ (try_keys (default_messages st1) st1)).
Qed.

(** C2. Every entry of the Key Table is a key of the default translation
    together with its message, which is not empty: this holds for the empty
    table of a new [KeyWorker], it is kept by [try_key], by
    [try_key_multipart] and by each of their wrappers, and so it holds when
    [run] returns.  The multipart lookup of the translation, whose code is
    not part of the sources, is taken to be the lookup of the combined
    key. *)
Theorem key_table_sound :
  (forall default_messages previous_keys_found,
      sound (KeyWorker_new default_messages previous_keys_found))
  /\ (forall st, sound st ->
        (forall key, sound (snd (try_key key st)))
        /\ (forall p1 p2 p3 p4 p5 p6, sound (snd (try_key_multipart p1 p2 p3 p4 p5 p6 st)))
        /\ (forall prefix suffix, sound (snd (try_key_prefix prefix suffix st)))
        /\ (forall prefix suffix, sound (snd (try_key_suffix prefix suffix st)))
        /\ (forall prefix suffix suffix2,
               sound (snd (try_key_suffixes prefix suffix suffix2 st)))
        /\ (forall prefix key suffix,
               sound (snd (try_key_prefix_suffix prefix key suffix st)))
        /\ (forall res_s suffix skip st',
               try_num_suffix res_s suffix skip st = Some st' -> sound st'))
  /\ (forall default_messages previous_keys_found hint_lines old_csv_lines res_strings
             pool missing_keys st',
        run hint_lines old_csv_lines res_strings pool
          (KeyWorker_new default_messages previous_keys_found)
        = Some (missing_keys, st') ->
        sound st').
Proof.
  split; [apply sound_new |]. split.
  - intros st Hs.
    split; [intros; now apply try_key_sound |].
    split; [intros; now apply try_key_multipart_sound |].
    split; [intros; now apply try_key_prefix_sound |].
    split; [intros; now apply try_key_suffix_sound |].
    split; [intros; now apply try_key_suffixes_sound |].
    split; [intros; now apply try_key_prefix_suffix_sound |].
    intros res_s suffix skip st'. now apply try_num_suffix_sound.
  - intros dm pk hint csv res pool n st'. apply run_sound, sound_new.
Qed.

End Soundness.

Lemma combine_string_app (p1 p2 p3 p4 p5 p6 : String) :
  combine_string p1 p2 p3 p4 p5 p6 = p1 ++ p2 ++ p3 ++ p4 ++ p5 ++ p6.
Proof.
  unfold combine_string.
  destruct p2, p3, p4, p5, p6; cbn [is_empty negb];
    rewrite ?app_nil_r, <- ?app_assoc; reflexivity.
Qed.

Lemma translation_of_consistent (table : list (String * String)) :
  @multipart_consistent (Fixture.translation_of table).
Proof. intros p1 p2 p3 p4 p5 p6. cbn. now rewrite combine_string_app. Qed.

(** The two keys of a small translation are found by [run] among the
    resource strings; the table it ends with is sound. *)
Lemma key_table_sound_witness :
  let engine := Fixture.engine in
  let tr :=
    Fixture.translation_of [(lit "BTN_PLAY", lit "Play"); (lit "btn_quit", lit "Quit")] in
  let st := KeyWorker_new [lit "Play"; lit "Quit"; lit "Play"] [] in
  multipart_consistent
  /\ exists st',
       run None None [lit "btn_quit"; lit "BTN_PLAY"; lit "zzz"] [] st = Some (0, st')
       /\ key_to_message st'
          = [(lit "btn_quit", lit "Quit"); (lit "BTN_PLAY", lit "Play")]
       /\ keys st' = [lit "BTN_PLAY"; lit "btn_quit"; lit "BTN_PLAY"]
       /\ table_sound (key_to_message st').
Proof.
  intros engine tr st.
  assert (@multipart_consistent tr) as Hm by apply translation_of_consistent.
  split; [exact Hm |].
  destruct (run None None [lit "btn_quit"; lit "BTN_PLAY"; lit "zzz"] [] st)
    as [[n st'] |] eqn:E; [| vm_compute in E; discriminate].
  exists st'.
  pose proof (proj2 (proj2 (@key_table_sound engine tr Hm)) _ _ _ _ _ _ _ _ E) as Hsound.
  vm_compute in E. injection E as <- <-.
  split; [reflexivity |]. split; [reflexivity |]. split; [reflexivity |].
  exact Hsound.
Defined.

(** ** Numeric suffixes *)

Section NumSuffixFacts.
Context {eng : Engine} {tr : Translation}.
Implicit Types (st : KeyWorker) (res_s suffix : String).

Lemma set_key_probes key msg st :
  suffix_probes (snd (_set_key key msg st)) = suffix_probes st.
Proof.
  unfold _set_key. destruct (is_empty key); [reflexivity |].
  destruct (map_has _ _); [reflexivity |].
  unfold _set_key_stuff. repeat case_match; reflexivity.
Qed.

Lemma try_key_multipart_probes p1 p2 p3 p4 p5 p6 st :
  suffix_probes (snd (try_key_multipart p1 p2 p3 p4 p5 p6 st)) = suffix_probes st.
Proof.
  unfold try_key_multipart.
  destruct (negb _); [| reflexivity].
  pose proof (set_key_probes (combine_string p1 p2 p3 p4 p5 p6)
                (get_message_multipart_str p1 p2 p3 p4 p5 p6) st) as Hp.
  now destruct (_set_key _ _ st).
Qed.

Lemma try_each_punctuation_probes ps (probe : String -> KeyWorker -> bool * KeyWorker) st :
  (forall p st0, suffix_probes (snd (probe p st0)) = suffix_probes st0) ->
  suffix_probes (snd (try_each_punctuation ps probe st)) = suffix_probes st.
Proof.
  intros Hprobe. revert st.
  induction ps as [| p ps IH]; intros st; cbn [try_each_punctuation]; [reflexivity |].
  pose proof (Hprobe p st) as Hp.
  destruct (probe p st) as [hit st1]. cbn [snd] in Hp.
  destruct hit; [exact Hp | now rewrite IH].
Qed.

Lemma try_key_suffix_probes prefix suffix st :
  suffix_probes (snd (try_key_suffix prefix suffix st)) = suffix_probes st.
Proof.
  unfold try_key_suffix.
  pose proof (try_key_multipart_probes prefix suffix [] [] [] [] st) as Hp.
  destruct (try_key_multipart prefix suffix [] [] [] [] st) as [hit st1].
  cbn [snd] in Hp. destruct hit; [exact Hp |].
  rewrite try_each_punctuation_probes; [exact Hp |].
  intros p st0. apply try_key_multipart_probes.
Qed.

(** A call of [try_key_suffixes] is recorded with its result. *)
Lemma try_key_suffixes_probes res_s suffix (suffix2 : String) st :
  suffix_probes (snd (try_key_suffixes res_s suffix suffix2 st))
  = suffix_probes st ++ [(suffix2, fst (try_key_suffixes res_s suffix suffix2 st))].
Proof.
  unfold try_key_suffixes.
  assert (suffix_probes (snd (try_key_suffixes_body res_s suffix suffix2 st))
          = suffix_probes st) as Hb.
  { unfold try_key_suffixes_body.
    destruct (is_empty suffix); [apply try_key_suffix_probes |].
    pose proof (try_key_multipart_probes res_s suffix suffix2 [] [] [] st) as Hp.
    destruct (try_key_multipart res_s suffix suffix2 [] [] [] st) as [hit st1].
    cbn [snd] in Hp. destruct hit; [exact Hp |].
    rewrite try_each_punctuation_probes; [exact Hp |].
    intros p st0. apply try_key_multipart_probes. }
  destruct (try_key_suffixes_body res_s suffix suffix2 st) as [hit st1].
  cbn [fst snd] in *. change (suffix_probes st1 ++ [(suffix2, hit)] = suffix_probes st ++ [(suffix2, hit)]).
  now rewrite Hb.
Qed.

Lemma hits_cons (p : String * bool) (blk : list (String * bool)) :
  hits (p :: blk) = (if p.2 then 1 else 0) + hits blk.
Proof.
  unfold hits. rewrite filter_cons.
  destruct p as [s []]; cbn [snd]; destruct (decide _) as [E | E]; try done;
    cbn [length]; lia.
Qed.

Lemma try_numbers_probes n num res_s suffix z found st :
  exists blk,
    suffix_probes (snd (try_numbers n num res_s suffix z found st))
    = suffix_probes st ++ blk
    /\ blk.*1 = map (fun k => cs_num k z) (seqZ num (Z.of_nat n))
    /\ fst (try_numbers n num res_s suffix z found st) = found + hits blk.
Proof.
  revert num found st.
  induction n as [| n IH]; intros num found st; cbn [try_numbers].
  - exists []. rewrite app_nil_r. repeat split. unfold hits. simpl. lia.
  - pose proof (try_key_suffixes_probes res_s suffix (cs_num num z) st) as Hp.
    destruct (try_key_suffixes res_s suffix (cs_num num z) st) as [hit st1].
    cbn [fst snd] in Hp.
    destruct (IH (num + 1) (if hit then found + 1 else found) st1)
      as (blk & Hblk & Htok & Hfound).
    exists ((cs_num num z, hit) :: blk).
    split; [rewrite Hblk, Hp, <- app_assoc; reflexivity |].
    split.
    + rewrite seqZ_cons by lia. cbn [map fmap list_fmap fst]. f_equal.
      rewrite Htok. f_equal. f_equal; lia.
    + rewrite Hfound, hits_cons. cbn [snd]. destruct hit; lia.
Qed.

Lemma seqZ_to_nat (m d : Z) : seqZ m (Z.of_nat (Z.to_nat d)) = seqZ m d.
Proof. unfold seqZ. now rewrite Nat2Z.id. Qed.

Lemma widen_numbers_probes fuel res_s suffix z min_num max_num st st' :
  widen_numbers fuel res_s suffix z min_num max_num st = Some st' ->
  exists ranges,
    suffix_probes st' = suffix_probes st ++ ranges /\ widening z min_num max_num ranges.
Proof.
  revert min_num max_num st.
  induction fuel as [| fuel IH]; intros min_num max_num st; cbn [widen_numbers];
    [discriminate |].
  destruct (try_numbers_probes (Z.to_nat (max_num - min_num)) min_num res_s suffix z 0 st)
    as (blk & Hblk & Htok & Hfound).
  rewrite seqZ_to_nat in Htok.
  destruct (try_numbers _ min_num res_s suffix z 0 st) as [found st1].
  cbn [fst snd] in *. subst found.
  case_bool_decide as Hover; [discriminate |].
  case_bool_decide as Hmost.
  - intros E. destruct (IH _ _ _ E) as (rest & Hrest & Hw).
    exists (blk ++ rest). split; [rewrite Hrest, Hblk, <- app_assoc; reflexivity |].
    apply widening_more; [exact Htok | lia | exact Hw].
  - intros [= <-]. exists blk. split; [exact Hblk |].
    apply widening_stop; [exact Htok | lia].
Qed.

(** The fuel of [widen_numbers] never runs out before [max_num] overflows:
    any two amounts of fuel that outlast the doublings of [max_num] up to
    INT_MAX give the same result. *)
Lemma widen_numbers_fuel fuel1 fuel2 res_s suffix z min_num max_num st :
  1 <= max_num ->
  INT_MAX < max_num * 2 ^ Z.of_nat fuel1 ->
  INT_MAX < max_num * 2 ^ Z.of_nat fuel2 ->
  widen_numbers fuel1 res_s suffix z min_num max_num st
  = widen_numbers fuel2 res_s suffix z min_num max_num st.
Proof.
  unfold INT_MAX. revert fuel2 min_num max_num st.
  assert (forall fuel min_num max_num st,
             2147483647 < max_num ->
             widen_numbers fuel res_s suffix z min_num max_num st = None) as Hover.
  { intros [| fuel] min_num max_num st Hgt; cbn [widen_numbers]; [reflexivity |].
    destruct (try_numbers _ _ _ _ _ _ _) as [found st1].
    unfold INT_MAX. rewrite bool_decide_eq_true_2 by lia. reflexivity. }
  induction fuel1 as [| fuel1 IH]; intros fuel2 min_num max_num st Hpos H1 H2.
  - rewrite (Hover fuel2) by (cbn in H1; lia). reflexivity.
  - destruct fuel2 as [| fuel2].
    + rewrite (Hover (S fuel1)) by (cbn in H2; lia). reflexivity.
    + cbn [widen_numbers].
      destruct (try_numbers _ _ _ _ _ _ _) as [found st1].
      unfold INT_MAX.
      case_bool_decide; [reflexivity |].
      case_bool_decide; [| reflexivity].
      apply IH; [lia | |].
      * rewrite Nat2Z.inj_succ, Z.pow_succ_r in H1 by lia. lia.
      * rewrite Nat2Z.inj_succ, Z.pow_succ_r in H2 by lia. lia.
Qed.

(** C5, as the code has it.  [try_num_suffix] probes [1] first; without the
    magnitude hint it then probes [01] and, when neither [1] nor [01] was
    found, [001] and then [0001]; when nothing was found and there is no
    hint it stops; otherwise it probes [N], [n], [0] and the numbers of
    [0, 10) (with the hint) or [2, 4) (without), written with the padding
    that was detected, and after a range [min_num, max_num) it goes on with
    [max_num, 2 * max_num) exactly when at most one number of the range
    missed. *)
Theorem try_num_suffix_probes res_s suffix skip_magnitude_check st st' :
  try_num_suffix res_s suffix skip_magnitude_check st = Some st' ->
  exists probes,
    suffix_probes st' = suffix_probes st ++ probes
    /\ num_suffix_probes skip_magnitude_check probes.
Proof.
  unfold try_num_suffix.
  pose proof (try_key_suffixes_probes res_s suffix (lit "1") st) as H1.
  destruct (try_key_suffixes res_s suffix (lit "1") st) as [found_num st1].
  cbn [fst snd] in H1.
  assert (forall z st2 pre,
            suffix_probes st2 = suffix_probes st ++ pre ->
            (let '(_, st) := try_key_suffixes res_s suffix (lit "N") st2 in
             let '(_, st) := try_key_suffixes res_s suffix (lit "n") st in
             let '(_, st) := try_key_suffixes res_s suffix (lit "0") st in
             widen_numbers 32 res_s suffix z (if skip_magnitude_check then 0 else 2)
               (if skip_magnitude_check then 10 else 4) st) = Some st' ->
            exists tail,
              suffix_probes st' = suffix_probes st ++ pre ++ tail
              /\ numbered_probes skip_magnitude_check z tail) as Htail.
  { intros z st2 pre Hpre.
    pose proof (try_key_suffixes_probes res_s suffix (lit "N") st2) as HN.
    destruct (try_key_suffixes res_s suffix (lit "N") st2) as [hitN stN].
    pose proof (try_key_suffixes_probes res_s suffix (lit "n") stN) as Hn.
    destruct (try_key_suffixes res_s suffix (lit "n") stN) as [hitn stn].
    pose proof (try_key_suffixes_probes res_s suffix (lit "0") stn) as H0.
    destruct (try_key_suffixes res_s suffix (lit "0") stn) as [hit0 st0].
    cbn [fst snd] in *. intros E.
    destruct (widen_numbers_probes _ _ _ _ _ _ _ _ E) as (ranges & Hr & Hw).
    exists ([(lit "N", hitN); (lit "n", hitn); (lit "0", hit0)] ++ ranges).
    split.
    - rewrite Hr, H0, Hn, HN, Hpre. rewrite <- !app_assoc. reflexivity.
    - exists hitN, hitn, hit0, ranges. split; [reflexivity | exact Hw]. }
  destruct skip_magnitude_check; cbn [negb].
  - rewrite orb_true_r. intros E.
    destruct (Htail 0 st1 [(lit "1", found_num)] H1 E) as (tail & Hp & Hn).
    exists ((lit "1", found_num) :: tail). split; [exact Hp |].
    exists found_num, tail. split; [reflexivity | exact Hn].
  - pose proof (try_key_suffixes_probes res_s suffix (lit "01") st1) as H01.
    destruct (try_key_suffixes res_s suffix (lit "01") st1) as [hit01 st01].
    cbn [fst snd] in H01. rewrite H1, <- app_assoc in H01. cbn [app] in H01.
    destruct (found_num || hit01) eqn:Hor.
    + assert (forall z,
                z = (if hit01 then 1 else 0) ->
                (let '(_, st) := try_key_suffixes res_s suffix (lit "N") st01 in
                 let '(_, st) := try_key_suffixes res_s suffix (lit "n") st in
                 let '(_, st) := try_key_suffixes res_s suffix (lit "0") st in
                 widen_numbers 32 res_s suffix z 2 4 st) = Some st' ->
                exists probes,
                  suffix_probes st' = suffix_probes st ++ probes
                  /\ num_suffix_probes false probes) as Hfound.
      { intros z Hz E.
        destruct (Htail z st01 [(lit "1", found_num); (lit "01", hit01)] H01 E)
          as (tail & Hp & Hn).
        exists ((lit "1", found_num) :: (lit "01", hit01) :: tail). split; [exact Hp |].
        exists found_num, ((lit "01", hit01) :: tail). split; [reflexivity |].
        exists hit01, tail. split; [reflexivity |]. rewrite Hor, <- Hz. exact Hn. }
      destruct found_num, hit01; try discriminate;
        cbn [negb andb orb Z.eqb Z.ltb Z.compare Pos.compare];
        now apply Hfound.
    + apply orb_false_iff in Hor. destruct Hor as [-> ->].
      cbn [negb andb Z.eqb].
      pose proof (try_key_suffixes_probes res_s suffix (lit "001") st01) as H001.
      destruct (try_key_suffixes res_s suffix (lit "001") st01) as [hit001 st001].
      cbn [fst snd] in H001. rewrite H01, <- app_assoc in H001. cbn [app] in H001.
      destruct hit001; cbn [Z.eqb orb Z.ltb Z.compare Pos.compare].
      * intros E.
        destruct (Htail _ st001 [(lit "1", false); (lit "01", false); (lit "001", true)]
                    H001 E) as (tail & Hp & Hn).
        exists ((lit "1", false) :: (lit "01", false) :: (lit "001", true) :: tail).
        split; [exact Hp |].
        exists false, ((lit "01", false) :: (lit "001", true) :: tail).
        split; [reflexivity |].
        exists false, ((lit "001", true) :: tail). split; [reflexivity |]. cbn [orb].
        exists true, tail. split; [reflexivity | exact Hn].
      * pose proof (try_key_suffixes_probes res_s suffix (lit "0001") st001) as H0001.
        destruct (try_key_suffixes res_s suffix (lit "0001") st001) as [hit0001 st0001].
        cbn [fst snd] in H0001. rewrite H001, <- app_assoc in H0001. cbn [app] in H0001.
        destruct hit0001; cbn [Z.eqb orb Z.ltb Z.compare Pos.compare].
        -- intros E.
           destruct (Htail _ st0001
                       [(lit "1", false); (lit "01", false); (lit "001", false);
                        (lit "0001", true)] H0001 E) as (tail & Hp & Hn).
           exists ((lit "1", false) :: (lit "01", false) :: (lit "001", false)
                   :: (lit "0001", true) :: tail).
           split; [exact Hp |].
           exists false, ((lit "01", false) :: (lit "001", false) :: (lit "0001", true) :: tail).
           split; [reflexivity |].
           exists false, ((lit "001", false) :: (lit "0001", true) :: tail).
           split; [reflexivity |]. cbn [orb].
           exists false, ((lit "0001", true) :: tail). split; [reflexivity |].
           exists true, tail. split; [reflexivity | exact Hn].
        -- intros [= <-].
           exists [(lit "1", false); (lit "01", false); (lit "001", false);
                   (lit "0001", false)].
           split; [exact H0001 |].
           exists false, [(lit "01", false); (lit "001", false); (lit "0001", false)].
           split; [reflexivity |].
           exists false, [(lit "001", false); (lit "0001", false)].
           split; [reflexivity |]. cbn [orb].
           exists false, [(lit "0001", false)]. split; [reflexivity |].
           exists false, []. split; reflexivity.
Qed.

End NumSuffixFacts.

(** The 32 rounds of fuel that [try_num_suffix] gives the loop outlast the
    doublings of an [int] from 4 or from 10: more fuel changes nothing, so
    the result [None] stands for the overflow of [max_num] alone. *)
Lemma try_num_suffix_fuel {eng : Engine} {tr : Translation} (fuel : nat)
    (res_s suffix : String) (z min_num : Z) (skip : bool) (st : KeyWorker) :
  (32 <= fuel)%nat ->
  widen_numbers fuel res_s suffix z min_num (if skip then 10 else 4) st
  = widen_numbers 32 res_s suffix z min_num (if skip then 10 else 4) st.
Proof.
  intros Hfuel. apply widen_numbers_fuel.
  - destruct skip; lia.
  - assert (2 ^ 32 <= 2 ^ Z.of_nat fuel) by (apply Z.pow_le_mono_r; lia).
    unfold INT_MAX. destruct skip; lia.
  - unfold INT_MAX. destruct skip; vm_compute; reflexivity.
Qed.

(** The keys Item1 .. Item47: without a hint all of them are found, by the
    ranges [2, 4), [4, 8), [8, 16), [16, 32) and [32, 64); the last range
    has 16 hits out of 32 and ends the widening. *)
Lemma try_num_suffix_probes_witness :
  let engine := Fixture.engine in
  let tr := Fixture.translation_of (Fixture.numbered (lit "Item") (lit "m") 1 47) in
  exists st',
    try_num_suffix (lit "Item") [] false (KeyWorker_new [] []) = Some st'
    /\ length (key_to_message st') = 47%nat
    /\ last (suffix_probes st') = Some (lit "63", false)
    /\ num_suffix_probes false (suffix_probes st').
Proof.
  intros engine tr.
  destruct (try_num_suffix (lit "Item") [] false (KeyWorker_new [] []))
    as [st' |] eqn:E; [| vm_compute in E; discriminate].
  exists st'. split; [reflexivity |].
  destruct (@try_num_suffix_probes engine tr _ _ _ _ _ E) as (probes & Hp & Hspec).
  cbn [suffix_probes KeyWorker_new app] in Hp. rewrite <- Hp in Hspec.
  vm_compute in E. injection E as <-.
  split; [reflexivity |]. split; [reflexivity |]. exact Hspec.
Defined.

(** C5 as it is claimed fails on two counts.  Without a hint and with the
    single key Item1 the first range ends at 3: the numbers 4 to 9 are not
    probed.  With the hint and the keys Item0 .. Item5, six of the ten
    numbers of the first range are found, which is more than half, and the
    range is not doubled: 10 is not probed. *)
Lemma try_num_suffix_not_as_claimed :
  let engine := Fixture.engine in
  (let tr := Fixture.translation_of [(lit "Item1", lit "one")] in
   suffix_probes <$> try_num_suffix (lit "Item") [] false (KeyWorker_new [] [])
   = Some [(lit "1", true); (lit "01", false); (lit "N", false); (lit "n", false);
           (lit "0", false); (lit "2", false); (lit "3", false)])
  /\ (let tr := Fixture.translation_of (Fixture.numbered (lit "Item") (lit "m") 0 6) in
      suffix_probes <$> try_num_suffix (lit "Item") [] true (KeyWorker_new [] [])
      = Some [(lit "1", true); (lit "N", false); (lit "n", false); (lit "0", true);
              (lit "0", true); (lit "1", true); (lit "2", true); (lit "3", true);
              (lit "4", true); (lit "5", true); (lit "6", false); (lit "7", false);
              (lit "8", false); (lit "9", false)]).
Proof. split; vm_compute; reflexivity. Qed.

(** ** Affix discovery *)

Section AffixFacts.
Implicit Types (counts : list (String * Z)) (f part : String) (seen : list String).

Lemma count_prefixes_steps punct res_s inner prefix counts :
  count_prefixes punct res_s inner prefix counts
  = fold_left inc_counts (prefix_steps punct res_s inner prefix) counts.
Proof.
  revert prefix counts.
  induction inner as [| p inner IH]; intros prefix counts; [reflexivity |].
  cbn [count_prefixes prefix_steps fold_left]. apply IH.
Qed.

Lemma count_suffixes_steps punct res_s inner_rev end_pad suffix counts :
  count_suffixes punct res_s inner_rev end_pad suffix counts
  = fold_left inc_counts (suffix_steps punct res_s inner_rev end_pad suffix) counts.
Proof.
  revert suffix counts.
  induction inner_rev as [| p inner_rev IH]; intros suffix counts; [reflexivity |].
  cbn [count_suffixes suffix_steps fold_left]. apply IH.
Qed.

Lemma count_affixes_fragments punct prefix_counts suffix_counts res_s :
  count_affixes punct (prefix_counts, suffix_counts) res_s
  = (fold_left inc_counts (prefix_fragments punct res_s) prefix_counts,
     fold_left inc_counts (suffix_fragments punct res_s) suffix_counts).
Proof.
  unfold count_affixes, prefix_fragments, suffix_fragments.
  destruct (is_empty res_s); [reflexivity |].
  cbn [fold_left]. rewrite count_prefixes_steps.
  set (parts := gdre.split_multichar res_s punct false 0).
  destruct (is_empty (List.last parts [])) eqn:Hs; [reflexivity |].
  destruct (is_digit _).
  - destruct (strip_numeric_tail _ _ _) as [stripped end_pad].
    cbn [fold_left]. now rewrite count_suffixes_steps.
  - cbn [fold_left]. now rewrite count_suffixes_steps.
Qed.

Lemma fold_count_affixes punct corpus prefix_counts suffix_counts :
  fold_left (count_affixes punct) corpus (prefix_counts, suffix_counts)
  = (fold_left inc_counts (concat (map (prefix_fragments punct) corpus)) prefix_counts,
     fold_left inc_counts (concat (map (suffix_fragments punct) corpus)) suffix_counts).
Proof.
  revert prefix_counts suffix_counts.
  induction corpus as [| res_s corpus IH]; intros pc sc; [reflexivity |].
  cbn [fold_left map concat]. rewrite count_affixes_fragments, IH.
  now rewrite !fold_left_app.
Qed.

Lemma map_assign_elem counts key (v : Z) f c :
  NoDup counts.*1 -> key ∈ counts.*1 ->
  (f, c) ∈ map_assign counts key v <-> (f = key /\ c = v) \/ (f <> key /\ (f, c) ∈ counts).
Proof.
  induction counts as [| [k v0] counts IH]; intros Hnd Hin;
    [by apply elem_of_nil in Hin |].
  apply NoDup_cons in Hnd. destruct Hnd as [Hk Hnd].
  cbn [map_assign]. destruct (decide (k = key)) as [-> | Hne].
  - rewrite !elem_of_cons. split.
    + intros [[= -> ->] | Hc]; [now left |].
      right. split; [| now right].
      intros ->. apply Hk. apply list_elem_of_fmap. now exists (key, c).
    + intros [[-> ->] | [Hf [[= -> ->] | Hc]]]; [now left | done | now right].
  - apply elem_of_cons in Hin. destruct Hin as [-> | Hin]; [done |].
    rewrite !elem_of_cons, (IH Hnd Hin). split.
    + intros [[= -> ->] | [[-> ->] | [Hf Hc]]]; [right | left | right]; auto.
    + intros [[-> ->] | [Hf [[= -> ->] | Hc]]]; auto.
Qed.

Lemma occurrences_app_same f seen :
  occurrences f (seen ++ [f]) = occurrences f seen + 1.
Proof.
  unfold occurrences. rewrite filter_app, length_app, filter_cons, filter_nil.
  destruct (decide (f = f)); [cbn [length]; lia | done].
Qed.

Lemma occurrences_app_other f seen part :
  part <> f -> occurrences f (seen ++ [part]) = occurrences f seen.
Proof.
  intros Hne. unfold occurrences. rewrite filter_app, length_app, filter_cons, filter_nil.
  destruct (decide (part = f)); [done | cbn [length]; lia].
Qed.

Lemma occurrences_nonneg f seen : 0 <= occurrences f seen.
Proof. unfold occurrences. lia. Qed.


Lemma inc_counts_ok counts seen part :
  counts_ok counts seen -> counts_ok (inc_counts counts part) (seen ++ [part]).
Proof.
  intros [Hnd Hc]. unfold inc_counts.
  destruct (decide (part = [])) as [-> | Hpart].
  - cbn [is_empty]. split; [exact Hnd |]. intros f c. rewrite Hc.
    destruct (decide (f = [])) as [-> | Hf].
    + split; intros [Hf _]; done.
    + rewrite occurrences_app_other by done. tauto.
  - apply is_empty_false in Hpart as Hemp. rewrite Hemp.
    destruct (map_has counts part) eqn:Hhas.
    + apply map_has_true in Hhas as Hin.
      apply list_elem_of_fmap in Hin as Hex. destruct Hex as ([k c0] & Hk & Hin0).
      cbn in Hk. subst k.
      rewrite (map_index_present 0 _ _ _ Hnd Hin0). cbn [fst].
      split; [now rewrite map_assign_keys |].
      intros f c. rewrite (map_assign_elem _ _ _ _ _ Hnd Hin).
      apply Hc in Hin0 as (_ & Hc0 & Hge).
      destruct (decide (part = f)) as [<- | Hne].
      * rewrite occurrences_app_same. split.
        -- intros [[_ ->] | [Hf _]]; [| done]. split; [done | split; lia].
        -- intros (_ & -> & _). left. split; [reflexivity | lia].
      * rewrite occurrences_app_other by done. rewrite Hc. split.
        -- intros [[-> _] | [_ H]]; [done | exact H].
        -- intros H. right. split; [congruence | exact H].
    + apply map_has_false in Hhas as Hnot.
      rewrite (map_assign_fresh _ _ _ Hnot).
      assert (occurrences part seen = 0) as Hzero.
      { pose proof (occurrences_nonneg part seen).
        destruct (decide (occurrences part seen = 0)) as [E | E]; [exact E |].
        exfalso. apply Hnot. apply list_elem_of_fmap.
        exists (part, occurrences part seen). split; [reflexivity |].
        apply Hc. split; [exact Hpart | split; [reflexivity | lia]]. }
      split.
      * rewrite fmap_app. apply NoDup_app. split; [exact Hnd |]. split.
        -- intros k Hk Hk'. apply list_elem_of_singleton in Hk'. now subst.
        -- apply NoDup_singleton.
      * intros f c. rewrite elem_of_app, list_elem_of_singleton, Hc.
        destruct (decide (part = f)) as [<- | Hne].
        -- rewrite occurrences_app_same. split.
           ++ intros [(_ & -> & Hge) | [= ->]]; [lia |]. split; [done | split; lia].
           ++ intros (_ & -> & _). right. f_equal. lia.
        -- rewrite occurrences_app_other by done. split.
           ++ intros [H | [= -> ->]]; [exact H | done].
           ++ intros H. now left.
Qed.

Lemma tally_ok fragments counts seen :
  counts_ok counts seen ->
  counts_ok (fold_left inc_counts fragments counts) (seen ++ fragments).
Proof.
  revert counts seen.
  induction fragments as [| part fragments IH]; intros counts seen Hok.
  - now rewrite app_nil_r.
  - cbn [fold_left]. replace (seen ++ part :: fragments) with ((seen ++ [part]) ++ fragments)
      by now rewrite <- app_assoc.
    apply IH. now apply inc_counts_ok.
Qed.

Lemma counts_ok_nil : counts_ok [] [].
Proof.
  split; [constructor |]. intros f c. split.
  - intros Hin. by apply elem_of_nil in Hin.
  - intros (_ & -> & Hge). unfold occurrences in Hge. simpl in Hge. lia.
Qed.

Lemma retain_common_elem counts threshold common f :
  f ∈ retain_common counts threshold common
  <-> f ∈ common \/ exists c, (f, c) ∈ counts /\ threshold <= c.
Proof.
  unfold retain_common. revert common.
  induction counts as [| [k c0] counts IH]; intros common; cbn [fold_left].
  - split; [now left | intros [H | (c & Hin & _)]; [exact H | by apply elem_of_nil in Hin]].
  - rewrite IH. cbn [fst snd]. unfold set_has.
    case_bool_decide as Ht; case_bool_decide as Hk; cbn [andb negb].
    + split.
      * intros [H | (c & Hin & Hc)]; [now left |].
        right. exists c. split; [now apply list_elem_of_further | exact Hc].
      * intros [H | (c & Hin & Hc)]; [now left |].
        apply elem_of_cons in Hin. destruct Hin as [[= -> ->] | Hin]; [now left |].
        right. now exists c.
    + rewrite elem_of_app, list_elem_of_singleton. split.
      * intros [[H | ->] | (c & Hin & Hc)]; [now left | |].
        -- right. exists c0. split; [apply list_elem_of_here | exact Ht].
        -- right. exists c. split; [now apply list_elem_of_further | exact Hc].
      * intros [H | (c & Hin & Hc)]; [left; now left |].
        apply elem_of_cons in Hin. destruct Hin as [[= -> ->] | Hin]; [left; now right |].
        right. now exists c.
    + split.
      * intros [H | (c & Hin & Hc)]; [now left |].
        right. exists c. split; [now apply list_elem_of_further | exact Hc].
      * intros [H | (c & Hin & Hc)]; [now left |].
        apply elem_of_cons in Hin. destruct Hin as [[= -> ->] | Hin]; [done |].
        right. now exists c.
    + split.
      * intros [H | (c & Hin & Hc)]; [now left |].
        right. exists c. split; [now apply list_elem_of_further | exact Hc].
      * intros [H | (c & Hin & Hc)]; [now left |].
        apply elem_of_cons in Hin. destruct Hin as [[= -> ->] | Hin]; [done |].
        right. now exists c.
Qed.

(** The fragments retained from a tally: those seen at least once and at
    least [threshold] times. *)
Lemma retain_tally_elem fragments threshold common f :
  f ∈ retain_common (fold_left inc_counts fragments []) threshold common
  <-> f ∈ common
      \/ (f <> [] /\ 1 <= occurrences f fragments /\ threshold <= occurrences f fragments).
Proof.
  rewrite retain_common_elem.
  destruct (tally_ok fragments [] [] counts_ok_nil) as [_ Hc]. cbn [app] in Hc.
  split.
  - intros [H | (c & Hin & Ht)]; [now left |].
    apply Hc in Hin. destruct Hin as (Hf & -> & Hge). right. auto.
  - intros [H | (Hf & Hge & Ht)]; [now left |].
    right. exists (occurrences f fragments). split; [| exact Ht].
    apply Hc. auto.
Qed.

End AffixFacts.

Section AffixTheorem.
Context {eng : Engine}.
Hypothesis sort_contract : sorts_by_length_desc sort_custom_length_desc.

Lemma find_common_affixes_fields corpus threshold clear st :
  let st' := find_common_prefixes_and_suffixes corpus threshold clear st in
  common_prefixes st'
  = sort_custom_length_desc
      (retain_common
         (fold_left inc_counts (concat (map (prefix_fragments (punctuation st)) corpus)) [])
         threshold (if clear then [] else common_prefixes st))
  /\ common_suffixes st'
     = sort_custom_length_desc
         (retain_common
            (fold_left inc_counts (concat (map (suffix_fragments (punctuation st)) corpus)) [])
            threshold (if clear then [] else common_suffixes st)).
Proof.
  cbv zeta. unfold find_common_prefixes_and_suffixes.
  assert (punctuation
            (if clear then set_common_suffixes [] (set_common_prefixes [] st) else st)
          = punctuation st) as -> by now destruct clear.
  rewrite fold_count_affixes. destruct clear; split; reflexivity.
Qed.

(** C6, as the code has it.  After [find_common_prefixes_and_suffixes] a
    string is a common prefix exactly when it was one before (and the lists
    were not cleared) or it is a prefix fragment of the corpus that occurs
    at least once and at least [count_threshold] times; the same holds for
    suffixes; both lists are sorted by descending length.  A prefix
    fragment ends with a part of a string, never with punctuation: on the
    corpus Dialog_Title, Dialog_Body, Dialog_Footer, Menu_Title with the
    threshold 2 and the punctuation [_], Dialog is a common prefix, and
    Dialog_, Menu and Menu_ are not. *)
Theorem find_common_affixes_spec corpus count_threshold clear st :
  let st' := find_common_prefixes_and_suffixes corpus count_threshold clear st in
  (forall f,
      f ∈ common_prefixes st'
      <-> (clear = false /\ f ∈ common_prefixes st)
          \/ (f <> []
              /\ 1 <= occurrences f (concat (map (prefix_fragments (punctuation st)) corpus))
              /\ count_threshold
                 <= occurrences f (concat (map (prefix_fragments (punctuation st)) corpus))))
  /\ (forall f,
         f ∈ common_suffixes st'
         <-> (clear = false /\ f ∈ common_suffixes st)
             \/ (f <> []
                 /\ 1 <= occurrences f
                           (concat (map (suffix_fragments (punctuation st)) corpus))
                 /\ count_threshold
                    <= occurrences f
                         (concat (map (suffix_fragments (punctuation st)) corpus))))
  /\ StronglySorted (fun a b => (length b <= length a)%nat) (common_prefixes st')
  /\ StronglySorted (fun a b => (length b <= length a)%nat) (common_suffixes st')
  /\ (punctuation st = lit "_" ->
      let dialog := find_common_prefixes_and_suffixes dialog_corpus 2 true st in
      lit "Dialog" ∈ common_prefixes dialog
      /\ lit "Dialog_" ∉ common_prefixes dialog
      /\ lit "Menu" ∉ common_prefixes dialog
      /\ lit "Menu_" ∉ common_prefixes dialog).
Proof.
  cbv zeta.
  destruct (find_common_affixes_fields corpus count_threshold clear st) as [Hp Hs].
  assert (forall l f, f ∈ sort_custom_length_desc l <-> f ∈ l) as Hperm.
  { intros l f. destruct (sort_contract l) as [Hl _]. now rewrite Hl. }
  split; [| split; [| split; [| split]]].
  - intros f. rewrite Hp, Hperm, retain_tally_elem.
    destruct clear; [| tauto].
    split; [intros [H | H]; [by apply elem_of_nil in H | now right]
           | intros [[? _] | H]; [done | now right]].
  - intros f. rewrite Hs, Hperm, retain_tally_elem.
    destruct clear; [| tauto].
    split; [intros [H | H]; [by apply elem_of_nil in H | now right]
           | intros [[? _] | H]; [done | now right]].
  - rewrite Hp. apply sort_contract.
  - rewrite Hs. apply sort_contract.
  - intros Hpunct.
    destruct (find_common_affixes_fields dialog_corpus 2 true st) as [Hd _].
    rewrite Hd, Hpunct. clear Hd.
    rewrite !Hperm, !retain_tally_elem.
    assert (forall f : String, f ∈ @nil String <-> False) as Hnil
      by (intros f; apply elem_of_nil).
    repeat split.
    + right. vm_compute. repeat split; discriminate.
    + intros [H | (_ & H & _)]; [now apply Hnil in H | vm_compute in H; now apply H].
    + intros [H | (_ & _ & H)]; [now apply Hnil in H | vm_compute in H; now apply H].
    + intros [H | (_ & H & _)]; [now apply Hnil in H | vm_compute in H; now apply H].
Qed.

End AffixTheorem.

(** The insertion sort of the example engine meets the contract of
    [sort_custom]. *)
Lemma insert_by_length_perm (x : String) (l : list String) :
  Permutation (Fixture.insert_by_length x l) (x :: l).
Proof.
  induction l as [| y l IH]; cbn [Fixture.insert_by_length]; [reflexivity |].
  destruct (length y <? length x)%nat; [reflexivity |].
  rewrite IH. apply perm_swap.
Qed.

Lemma insert_by_length_sorted (x : String) (l : list String) :
  StronglySorted (fun a b => (length b <= length a)%nat) l ->
  StronglySorted (fun a b => (length b <= length a)%nat) (Fixture.insert_by_length x l).
Proof.
  induction l as [| y l IH]; intros Hs; cbn [Fixture.insert_by_length].
  - repeat constructor.
  - apply StronglySorted_inv in Hs. destruct Hs as [Hl Hy].
    destruct (Nat.ltb_spec (length y) (length x)) as [Hlt | Hge].
    + constructor; [constructor; assumption |].
      constructor; [lia |].
      eapply Forall_impl; [exact Hy |]. cbn. intros z Hz. lia.
    + constructor; [now apply IH |].
      rewrite insert_by_length_perm. constructor; assumption.
Qed.

Lemma sort_by_length_contract : sorts_by_length_desc Fixture.sort_by_length.
Proof.
  intros l. unfold Fixture.sort_by_length. induction l as [| x l [IHp IHs]]; cbn [fold_right].
  - split; constructor.
  - split; [rewrite insert_by_length_perm; now constructor |].
    now apply insert_by_length_sorted.
Qed.

Lemma find_common_affixes_spec_witness :
  let engine := Fixture.engine in
  let st := set_punctuation (lit "_") (KeyWorker_new [] []) in
  let dialog := find_common_prefixes_and_suffixes dialog_corpus 2 true st in
  sorts_by_length_desc sort_custom_length_desc
  /\ lit "Dialog" ∈ common_prefixes dialog
  /\ lit "Dialog_" ∉ common_prefixes dialog
  /\ lit "Menu" ∉ common_prefixes dialog
  /\ lit "Menu_" ∉ common_prefixes dialog.
Proof.
  intros engine st dialog.
  split; [exact sort_by_length_contract |].
  exact (proj2 (proj2 (proj2 (proj2
           (@find_common_affixes_spec engine sort_by_length_contract [] 0 false st))))
           eq_refl).
Defined.

(** C6 as it is claimed fails on its example: the common prefixes of the
    corpus are the single string Dialog, the common suffixes the single
    string Title; Dialog_ is not among the prefixes. *)
Lemma dialog_prefix_without_punctuation :
  let engine := Fixture.engine in
  let st := set_punctuation (lit "_") (KeyWorker_new [] []) in
  let dialog := find_common_prefixes_and_suffixes dialog_corpus 2 false st in
  common_prefixes dialog = [lit "Dialog"]
  /\ common_suffixes dialog = [lit "Title"]
  /\ lit "Dialog_" ∉ common_prefixes dialog.
Proof.
  intros engine st dialog.
  split; [vm_compute; reflexivity |]. split; [vm_compute; reflexivity |].
  by_decide.
Qed.

(** ** The force-set of the classification flags *)

(** C7, evaluated.  Nineteen of the twenty admitted keys are in upper case
    (95 percent), the flag [keys_are_all_upper] is down, and 8001 candidates
    pass the filter: the quotient 19 / 20 of the two unsigned integers is 0,
    which is not above 0.9, and the flag stays down. *)
Lemma force_set_misses_majority :
  let engine := Fixture.engine in
  let st := admit_all mostly_upper_keys (KeyWorker_new [] []) in
  keys_that_are_all_upper st = 19
  /\ length (key_to_message st) = 20%nat
  /\ keys_are_all_upper st = false
  /\ length (filtered_resource_strings (filter_things many_candidates st)) = 8001%nat
  /\ over_nine_tenths (keys_are_all_upper st) (keys_that_are_all_upper st) 20 = Some false
  /\ keys_are_all_upper <$> filter_resource_strings many_candidates st = Some false.
Proof.
  intros engine st.
  split; [vm_compute; reflexivity |]. split; [vm_compute; reflexivity |].
  split; [vm_compute; reflexivity |]. split; [vm_compute; reflexivity |].
  split; vm_compute; reflexivity.
Qed.

Section ForceSetFacts.
Context {eng : Engine}.
Implicit Types (st : KeyWorker).

Lemma over_nine_tenths_below flag count size :
  0 <= count -> (flag = false -> count < size) ->
  over_nine_tenths flag count size = Some false.
Proof.
  intros Hc Hlt. unfold over_nine_tenths. destruct flag; [reflexivity |].
  specialize (Hlt eq_refl).
  destruct (Z.eqb_spec size 0) as [-> | _]; [lia |].
  rewrite Z.div_small by lia. reflexivity.
Qed.

(** On consistent statistics the force-set changes nothing: a counter that
    is below the number of entries has the integer quotient 0. *)
Lemma force_set_flags_idle st : stats_consistent st -> force_set_flags st = Some st.
Proof.
  intros ((Hu & Hu') & (Hl & Hl') & (Ha & Ha')). unfold force_set_flags.
  rewrite (over_nine_tenths_below _ _ _ (proj1 Hu) Hu'). cbn [mbind option_bind].
  rewrite (over_nine_tenths_below _ _ _ (proj1 Hl) Hl'). cbn [mbind option_bind].
  rewrite (over_nine_tenths_below _ _ _ (proj1 Ha) Ha'). reflexivity.
Qed.

Lemma stats_consistent_new default_messages previous_keys_found :
  stats_consistent (KeyWorker_new default_messages previous_keys_found).
Proof. repeat split; cbn; try lia; discriminate. Qed.

Lemma wrap64_small x : 0 <= x < 2 ^ 64 -> wrap64 x = x.
Proof. intros Hx. unfold wrap64. now apply Z.mod_small. Qed.

Lemma set_key_stats key msg st :
  Z.of_nat (length (key_to_message st)) + 1 < 2 ^ 64 ->
  stats_consistent st -> stats_consistent (snd (_set_key key msg st)).
Proof.
  intros Hsize Hst. unfold _set_key.
  destruct (is_empty key); [exact Hst |].
  destruct (map_has (key_to_message st) key) eqn:Hhas; [exact Hst |].
  apply map_has_false in Hhas. cbn [snd].
  destruct (set_key_stuff_spec key st)
    as (_ & Hup & Hlo & Hasc & Hnup & Hnlo & Hnasc & _).
  destruct Hst as ((Hu & Hu') & (Hl & Hl') & (Ha & Ha')).
  unfold stats_consistent.
  rewrite key_to_message_set, set_key_stuff_table, (map_assign_fresh _ _ _ Hhas).
  rewrite length_app. cbn [length].
  change (keys_that_are_all_upper (set_key_to_message ?v ?s))
    with (keys_that_are_all_upper s).
  change (keys_that_are_all_lower (set_key_to_message ?v ?s))
    with (keys_that_are_all_lower s).
  change (keys_that_are_all_ascii (set_key_to_message ?v ?s))
    with (keys_that_are_all_ascii s).
  change (keys_are_all_upper (set_key_to_message ?v ?s)) with (keys_are_all_upper s).
  change (keys_are_all_lower (set_key_to_message ?v ?s)) with (keys_are_all_lower s).
  change (keys_are_all_ascii (set_key_to_message ?v ?s)) with (keys_are_all_ascii s).
  rewrite Hup, Hlo, Hasc, Hnup, Hnlo, Hnasc. cbv zeta.
  repeat split.
  all: repeat match goal with
         | |- context [bool_decide ?P] => destruct (bool_decide P)
         | |- context [gdre.string_is_ascii ?k] => destruct (gdre.string_is_ascii k)
         end.
  all: rewrite ?wrap64_small by lia.
  all: rewrite ?andb_true_r, ?andb_false_r.
  all: try lia.
  all: try (intros Hflag; first [specialize (Hu' Hflag) | specialize (Hl' Hflag)
                                | specialize (Ha' Hflag)]; lia).
Qed.

Lemma admit_all_stats entries st :
  Z.of_nat (length (key_to_message st)) + Z.of_nat (length entries) < 2 ^ 64 ->
  stats_consistent st -> stats_consistent (admit_all entries st).
Proof.
  unfold admit_all. revert st.
  induction entries as [| [k m] entries IH]; intros st Hsize Hst; cbn [fold_left];
    [exact Hst |].
  cbn [length] in Hsize. apply IH.
  - assert (length (key_to_message (snd (_set_key k m st)))
            <= S (length (key_to_message st)))%nat as Hlen.
    { unfold _set_key. destruct (is_empty k); [cbn; lia |].
      destruct (map_has (key_to_message st) k) eqn:Hhas; [cbn; lia |].
      apply map_has_false in Hhas. cbn [snd].
      rewrite key_to_message_set, set_key_stuff_table, (map_assign_fresh _ _ _ Hhas).
      rewrite length_app. cbn. lia. }
    cbn [fst snd]. lia.
  - apply set_key_stats; [lia | exact Hst].
Qed.

(** In every state that admissions reach from a new [KeyWorker], the
    force-set of stage 3 changes no flag. *)
Theorem force_set_never_fires default_messages previous_keys_found entries :
  Z.of_nat (length entries) < 2 ^ 64 ->
  let st := admit_all entries (KeyWorker_new default_messages previous_keys_found) in
  force_set_flags st = Some st.
Proof.
  intros Hsize st. apply force_set_flags_idle, admit_all_stats.
  - cbn [key_to_message KeyWorker_new length]. lia.
  - apply stats_consistent_new.
Qed.

End ForceSetFacts.

Lemma force_set_never_fires_witness :
  let engine := Fixture.engine in
  let st := admit_all mostly_upper_keys (KeyWorker_new [] []) in
  Z.of_nat (length mostly_upper_keys) < 2 ^ 64 /\ force_set_flags st = Some st.
Proof.
  intros engine st.
  assert (Z.of_nat (length mostly_upper_keys) < 2 ^ 64) as Hsize
    by (vm_compute; reflexivity).
  split; [exact Hsize |].
  exact (@force_set_never_fires engine [] [] mostly_upper_keys Hsize).
Defined.

(** ** Stage time-outs *)

Section DispatchFacts.
Context {eng : Engine} {tr : Translation}.
Variable d : list (String * Error).
Implicit Types (st : KeyWorker) (key msg : String).

(** The stages dispatched so far are [d]. *)
Notation kept st := (dispatched st = d).

Lemma set_key_kept key msg st : kept st -> kept (snd (_set_key key msg st)).
Proof.
  intros Hs. unfold _set_key.
  destruct (is_empty key); [exact Hs |].
  destruct (map_has _ _); [exact Hs |].
  unfold _set_key_stuff. repeat case_match; exact Hs.
Qed.

Lemma try_key_kept key st : kept st -> kept (snd (try_key key st)).
Proof.
  intros Hs. unfold try_key.
  destruct (is_empty key); [exact Hs |].
  destruct (is_empty (get_message_str key)); [exact Hs |].
  now apply set_key_kept.
Qed.

Lemma try_key_multipart_kept p1 p2 p3 p4 p5 p6 st :
  kept st -> kept (snd (try_key_multipart p1 p2 p3 p4 p5 p6 st)).
Proof.
  intros Hs. unfold try_key_multipart.
  destruct (negb _); [| exact Hs].
  pose proof (set_key_kept (combine_string p1 p2 p3 p4 p5 p6)
                (get_message_multipart_str p1 p2 p3 p4 p5 p6) st Hs) as Hp.
  now destruct (_set_key _ _ st).
Qed.

Lemma try_each_punctuation_kept ps (probe : String -> KeyWorker -> bool * KeyWorker) st :
  (forall p st, kept st -> kept (snd (probe p st))) ->
  kept st -> kept (snd (try_each_punctuation ps probe st)).
Proof.
  intros Hprobe. revert st.
  induction ps as [| p ps IH]; intros st Hs; simpl; [exact Hs |].
  pose proof (Hprobe p st Hs) as Hp.
  destruct (probe p st) as [hit st'] eqn:E. cbn [snd] in Hp.
  destruct hit; [exact Hp | now apply IH].
Qed.

Lemma try_key_prefix_kept prefix suffix st :
  kept st -> kept (snd (try_key_prefix prefix suffix st)).
Proof.
  intros Hs. unfold try_key_prefix.
  pose proof (try_key_multipart_kept prefix suffix [] [] [] [] st Hs) as Hp.
  destruct (try_key_multipart prefix suffix [] [] [] [] st) as [hit st'].
  cbn [snd] in Hp. destruct hit; [exact Hp |].
  apply try_each_punctuation_kept; [| exact Hp].
  intros p st0. apply try_key_multipart_kept.
Qed.

Lemma try_key_suffix_kept prefix suffix st :
  kept st -> kept (snd (try_key_suffix prefix suffix st)).
Proof. apply try_key_prefix_kept. Qed.

Lemma try_key_suffixes_kept prefix suffix suffix2 st :
  kept st -> kept (snd (try_key_suffixes prefix suffix suffix2 st)).
Proof.
  intros Hs. unfold try_key_suffixes.
  assert (kept (snd (try_key_suffixes_body prefix suffix suffix2 st))) as Hb.
  { unfold try_key_suffixes_body.
    destruct (is_empty suffix); [now apply try_key_suffix_kept |].
    pose proof (try_key_multipart_kept prefix suffix suffix2 [] [] [] st Hs) as Hp.
    destruct (try_key_multipart prefix suffix suffix2 [] [] [] st) as [hit st'].
    cbn [snd] in Hp. destruct hit; [exact Hp |].
    apply try_each_punctuation_kept; [| exact Hp].
    intros p st0. apply try_key_multipart_kept. }
  destruct (try_key_suffixes_body prefix suffix suffix2 st) as [hit st'].
  exact Hb.
Qed.

Lemma try_key_prefix_suffix_kept prefix key suffix st :
  kept st -> kept (snd (try_key_prefix_suffix prefix key suffix st)).
Proof.
  intros Hs. unfold try_key_prefix_suffix.
  pose proof (try_key_multipart_kept prefix key suffix [] [] [] st Hs) as Hp.
  destruct (try_key_multipart prefix key suffix [] [] [] st) as [hit st'].
  cbn [snd] in Hp. destruct hit; [exact Hp |].
  apply try_each_punctuation_kept; [| exact Hp].
  intros p st0. apply try_key_multipart_kept.
Qed.

Lemma try_numbers_kept n num res_s suffix z found st :
  kept st -> kept (snd (try_numbers n num res_s suffix z found st)).
Proof.
  revert num found st.
  induction n as [| n IH]; intros num found st Hs; simpl; [exact Hs |].
  pose proof (try_key_suffixes_kept res_s suffix (cs_num num z) st Hs) as Hp.
  destruct (try_key_suffixes res_s suffix (cs_num num z) st) as [hit st'].
  now apply IH.
Qed.

Lemma widen_numbers_kept fuel res_s suffix z min_num max_num st st' :
  kept st ->
  widen_numbers fuel res_s suffix z min_num max_num st = Some st' -> kept st'.
Proof.
  revert min_num max_num st.
  induction fuel as [| fuel IH]; intros min_num max_num st Hs; simpl; [discriminate |].
  pose proof (try_numbers_kept (Z.to_nat (max_num - min_num)) min_num res_s suffix z 0
                st Hs) as Hp.
  destruct (try_numbers _ min_num res_s suffix z 0 st) as [found st1].
  cbn [snd] in Hp.
  case_bool_decide; [discriminate |].
  case_bool_decide; [now apply IH |].
  now intros [= <-].
Qed.

Lemma try_num_suffix_kept res_s suffix skip st st' :
  kept st -> try_num_suffix res_s suffix skip st = Some st' -> kept st'.
Proof.
  intros Hs. unfold try_num_suffix.
  pose proof (try_key_suffixes_kept res_s suffix (lit "1") st Hs) as H1.
  destruct (try_key_suffixes res_s suffix (lit "1") st) as [found_num st1].
  cbn [snd] in H1.
  assert (forall z st2, kept st2 ->
            (let '(_, st) := try_key_suffixes res_s suffix (lit "N") st2 in
             let '(_, st) := try_key_suffixes res_s suffix (lit "n") st in
             let '(_, st) := try_key_suffixes res_s suffix (lit "0") st in
             widen_numbers 32 res_s suffix z (if skip then 0 else 2)
               (if skip then 10 else 4) st) = Some st' -> kept st') as Htail.
  { intros z st2 H2.
    pose proof (try_key_suffixes_kept res_s suffix (lit "N") st2 H2) as HN.
    destruct (try_key_suffixes res_s suffix (lit "N") st2) as [? stN]. cbn [snd] in HN.
    pose proof (try_key_suffixes_kept res_s suffix (lit "n") stN HN) as Hn.
    destruct (try_key_suffixes res_s suffix (lit "n") stN) as [? stn]. cbn [snd] in Hn.
    pose proof (try_key_suffixes_kept res_s suffix (lit "0") stn Hn) as H0.
    destruct (try_key_suffixes res_s suffix (lit "0") stn) as [? st0]. cbn [snd] in H0.
    now apply widen_numbers_kept. }
  destruct skip; cbn [negb].
  - rewrite orb_true_r. apply Htail, H1.
  - pose proof (try_key_suffixes_kept res_s suffix (lit "01") st1 H1) as H01.
    destruct (try_key_suffixes res_s suffix (lit "01") st1) as [hit01 st01].
    cbn [snd] in H01.
    destruct found_num, hit01; cbn [negb andb orb Z.eqb Z.ltb Z.compare];
      try (apply Htail, H01).
    pose proof (try_key_suffixes_kept res_s suffix (lit "001") st01 H01) as H001.
    destruct (try_key_suffixes res_s suffix (lit "001") st01) as [hit001 st001].
    cbn [snd] in H001.
    destruct hit001; cbn [negb andb orb Z.eqb Z.ltb Z.compare Pos.compare];
      [apply Htail, H001 |].
    pose proof (try_key_suffixes_kept res_s suffix (lit "0001") st001 H001) as H0001.
    destruct (try_key_suffixes res_s suffix (lit "0001") st001) as [hit0001 st0001].
    cbn [snd] in H0001.
    destruct hit0001; cbn [negb andb orb Z.eqb Z.ltb Z.compare Pos.compare];
      [apply Htail, H0001 | now intros [= <-]].
Qed.

Lemma for_each_kept {A} (l : list A) (body : A -> KeyWorker -> option KeyWorker) st st' :
  (forall x st0 st1, kept st0 -> body x st0 = Some st1 -> kept st1) ->
  kept st -> for_each l body st = Some st' -> kept st'.
Proof.
  intros Hbody. revert st.
  induction l as [| x l IH]; intros st Hs; cbn [for_each].
  - now intros [= <-].
  - destruct (body x st) as [st1 |] eqn:E; cbn; [| discriminate].
    apply IH. eapply Hbody; eassumption.
Qed.

Lemma try_keys_kept keys st : kept st -> kept (try_keys keys st).
Proof.
  unfold try_keys. revert st.
  induction keys as [| key keys IH]; intros st Hs; cbn [fold_left]; [exact Hs |].
  apply IH. now apply try_key_kept.
Qed.

Lemma stage_1_kept i data st st' :
  kept st -> stage_1 i data st = Some st' -> kept st'.
Proof. intros Hs [= <-]. now apply try_key_kept. Qed.

Lemma partial_task_kept i data st st' :
  kept st -> partial_task i data st = Some st' -> kept st'.
Proof.
  intros Hs. unfold partial_task.
  destruct (cancel st); [now intros [= <-] |].
  intros [= <-].
  destruct (negb (has_common_prefix st) || contains (nth i data []) (common_to_all_prefix st));
    [| exact Hs].
  destruct (word_regex st); [| exact Hs].
  now apply (try_keys_kept _ st).
Qed.

Lemma prefix_suffix_task_2_kept i data st st' :
  kept st -> prefix_suffix_task_2 i data st = Some st' -> kept st'.
Proof.
  intros Hs. unfold prefix_suffix_task_2.
  destruct (cancel st); [now intros [= <-] |].
  destruct (try_num_suffix (nth i data []) [] false st) as [st1 |] eqn:E1; cbn;
    [| discriminate].
  pose proof (try_num_suffix_kept _ _ _ _ _ Hs E1) as H1.
  destruct (for_each (common_suffixes_t st1) _ st1) as [st2 |] eqn:E2; cbn;
    [| discriminate].
  assert (kept st2) as H2.
  { eapply for_each_kept; [| exact H1 | exact E2].
    intros E st0 st0' H0 E0. eapply try_num_suffix_kept; [| exact E0].
    now apply try_key_suffix_kept. }
  destruct (for_each (common_prefixes_t st2) _ st2) as [st3 |] eqn:E3; cbn;
    [| discriminate].
  intros [= <-].
  eapply (for_each_kept _ _ st2 st3); [| exact H2 | exact E3].
  intros E st0 st0' H0 E0. eapply try_num_suffix_kept; [| exact E0].
  now apply try_key_prefix_kept.
Qed.

Lemma stage_3_5_task_kept i data st st' :
  kept st -> stage_3_5_task i data st = Some st' -> kept st'.
Proof.
  intros Hs. unfold stage_3_5_task.
  destruct (cancel st); [now intros [= <-] |].
  destruct (nth i data ([], -1)) as [res_s magnitude].
  destruct (try_num_suffix _ _ _ st) as [st1 |] eqn:E1; cbn; [| discriminate].
  intros [= <-]. exact (try_num_suffix_kept _ _ _ _ _ Hs E1).
Qed.

Lemma stage_5_task_2_kept i data st st' :
  kept st -> stage_5_task_2 i data st = Some st' -> kept st'.
Proof.
  intros Hs. unfold stage_5_task_2.
  destruct (cancel st); [now intros [= <-] |].
  intros [= <-].
  change (kept (fold_left (fun st res_s2 => snd (try_key_suffix (nth i data []) res_s2 st))
                   (take (length (filtered_resource_strings st)) data) st)).
  generalize (take (length (filtered_resource_strings st)) data). intros l.
  revert st Hs. induction l as [| x l IH]; intros st Hs; cbn [fold_left]; [exact Hs |].
  apply IH. now apply try_key_suffix_kept.
Qed.

End DispatchFacts.

Section StageFacts.
Context {eng : Engine} {tr : Translation}.
Implicit Types (st : KeyWorker) (pool : list StageRun).

Notation all_ok st := (Forall (fun e : String * Error => e.2 = OK) (dispatched st)).

(** [run] returned [n] and [st']: the result of [pop_keys] on a state with
    the same dispatched stages, none of which follows a stage that failed. *)
Notation soft_result n st' :=
  (stops_at_failure (dispatched st')
   /\ exists st1, dispatched st1 = dispatched st' /\ pop_keys st1 = (n, st')).

Lemma pop_keys_step_dispatched n st msg :
  dispatched (snd (pop_keys_step (n, st) msg)) = dispatched st.
Proof.
  unfold pop_keys_step.
  destruct (pop_keys_scan _ _ _ _ _) as [[[found has_match] matching_key] keys'].
  destruct found; [reflexivity |].
  destruct has_match; [| reflexivity].
  destruct (map_index _ _ _) as [matching_message m].
  destruct (negb _); reflexivity.
Qed.

Lemma pop_keys_dispatched st : dispatched (snd (pop_keys st)) = dispatched st.
Proof.
  unfold pop_keys.
  assert (forall msgs n st0,
            dispatched (snd (fold_left pop_keys_step msgs (n, st0))) = dispatched st0)
    as Hfold.
  { induction msgs as [| msg msgs IH]; intros n st0; cbn [fold_left]; [reflexivity |].
    pose proof (pop_keys_step_dispatched n st0 msg) as Hs.
    destruct (pop_keys_step (n, st0) msg) as [n1 st1]. rewrite IH. exact Hs. }
  now rewrite Hfold.
Qed.

Lemma force_set_flags_dispatched st st' :
  force_set_flags st = Some st' -> dispatched st' = dispatched st.
Proof.
  unfold force_set_flags.
  destruct (over_nine_tenths (keys_are_all_upper st) _ _) as [[] |]; cbn;
    [| | discriminate].
  - destruct (over_nine_tenths _ _ _) as [[] |]; cbn; [| | discriminate];
      now intros [= <-].
  - destruct (over_nine_tenths (keys_are_all_lower st) _ _) as [[] |]; cbn;
      [| | discriminate];
      (destruct (over_nine_tenths _ _ _) as [[] |]; cbn; [| | discriminate];
       now intros [= <-]).
Qed.

Lemma filter_resource_strings_dispatched res st st' :
  filter_resource_strings res st = Some st' -> dispatched st' = dispatched st.
Proof.
  unfold filter_resource_strings.
  match goal with |- context [if ?c then _ else _] => destruct c end.
  - destruct (force_set_flags (filter_things res st)) as [st1 |] eqn:E; cbn;
      [| discriminate].
    intros [= <-]. now apply force_set_flags_dispatched in E.
  - now intros [= <-].
Qed.

Lemma find_common_prefixes_and_suffixes_dispatched res_strings threshold clear st :
  dispatched (find_common_prefixes_and_suffixes res_strings threshold clear st)
  = dispatched st.
Proof.
  unfold find_common_prefixes_and_suffixes.
  destruct (fold_left _ res_strings ([], [])) as [prefix_counts suffix_counts].
  destruct clear; reflexivity.
Qed.

(** A stage adds its name and the answer of the task manager to the
    dispatched stages, whatever its tasks did. *)
Lemma run_stage_dispatched {A} (task : nat -> list A -> KeyWorker -> option KeyWorker)
    (data : list A) name pool st err pool' st' :
  (forall d i st0 st1, dispatched st0 = d -> task i data st0 = Some st1 ->
                       dispatched st1 = d) ->
  run_stage task data name pool st = Some (err, pool', st') ->
  dispatched st' = dispatched st ++ [(name, err)]
  /\ err = result (hd {| order := seq 0 (length data); result := OK |} pool)
  /\ pool' = tail pool.
Proof.
  intros Htask. unfold run_stage.
  destruct (for_each _ _ _) as [st1 |] eqn:E; cbn; [| discriminate].
  intros [= <- <- <-].
  eapply (for_each_kept (dispatched st) _ _ _ st1) in E.
  - cbn. now rewrite E.
  - intros i st0 st0'. apply Htask.
  - reflexivity.
Qed.

Lemma all_ok_stops (l : list (String * Error)) :
  Forall (fun e => e.2 = OK) l -> stops_at_failure l.
Proof.
  intros Hall i e Hi Hne. rewrite Forall_lookup in Hall. now apply Hall in Hi.
Qed.

Lemma failure_last_stops (l : list (String * Error)) e :
  Forall (fun e => e.2 = OK) l -> stops_at_failure (l ++ [e]).
Proof.
  intros Hall i e' Hi Hne. rewrite length_app. cbn [length].
  destruct (decide (i < length l)%nat) as [Hlt | Hge].
  - rewrite lookup_app_l in Hi by exact Hlt.
    rewrite Forall_lookup in Hall. now apply Hall in Hi.
  - apply lookup_lt_Some in Hi. rewrite length_app in Hi. cbn [length] in Hi. lia.
Qed.

Lemma finish_soft st n st' :
  stops_at_failure (dispatched st) -> finish st = Some (n, st') -> soft_result n st'.
Proof.
  intros Hs [= E].
  pose proof (pop_keys_dispatched st) as Hd. rewrite E in Hd. cbn [snd] in Hd.
  split; [now rewrite Hd |]. exists st. now split.
Qed.

(** After a stage: its failure is the last of the dispatched stages, its
    success keeps them all successful. *)
Lemma after_stage st st1 name err :
  all_ok st -> dispatched st1 = dispatched st ++ [(name, err)] ->
  stops_at_failure (dispatched st1) /\ (err = OK -> all_ok st1).
Proof.
  intros Hall ->. split; [now apply failure_last_stops |].
  intros ->. apply Forall_app. split; [exact Hall | now repeat constructor].
Qed.

Lemma stage_5_soft pool st n st' :
  all_ok st -> stage_5 pool st = Some (n, st') -> soft_result n st'.
Proof.
  intros Hs. unfold stage_5.
  match goal with |- context [if ?c then _ else _] => destruct c end;
    [| now apply finish_soft, all_ok_stops].
  destruct (run_stage _ _ _ _ _) as [[[err pool1] st1] |] eqn:E; cbn; [| discriminate].
  apply run_stage_dispatched in E;
    [| intros d0 i0 s0 s1; apply stage_5_task_2_kept].
  destruct E as (E & _ & _).
  apply finish_soft. eapply after_stage; [| exact E]. exact Hs.
Qed.

Lemma stage_4_soft pool st n st' :
  all_ok st -> stage_4 pool st = Some (n, st') -> soft_result n st'.
Proof.
  intros Hs. unfold stage_4.
  match goal with |- context [if ?c then _ else _] => destruct c end;
    [| now apply finish_soft, all_ok_stops].
  match goal with |- context [for_each ?l ?body ?s] =>
    assert (dispatched s = dispatched st) as Hs0;
      [| destruct (for_each l body s) as [st1 |] eqn:E1; cbn; [| discriminate];
         assert (dispatched st1 = dispatched st) as H1]
  end.
  { match goal with |- context [find_common_prefixes_and_suffixes ?ks ?n ?c ?s0] =>
      change (dispatched (find_common_prefixes_and_suffixes ks n c s0) = dispatched st);
      rewrite (find_common_prefixes_and_suffixes_dispatched ks n c s0)
    end.
    reflexivity. }
  { eapply for_each_kept; [| | exact E1]; [| exact Hs0].
    intros prefix st0 st0' H0. apply for_each_kept; [| exact H0].
    intros suffix st2 st2' H2 E2. eapply try_num_suffix_kept; [| exact E2].
    now apply try_key_suffix_kept. }
  assert (all_ok st1) as Hall1 by now rewrite H1.
  match goal with |- context [if ?c then _ else _] => destruct c end;
    [| now apply finish_soft, all_ok_stops].
  destruct (run_stage _ _ _ _ _) as [[[err pool1] st2] |] eqn:E2; cbn; [| discriminate].
  apply run_stage_dispatched in E2;
    [| intros d0 i0 s0 s1; apply prefix_suffix_task_2_kept].
  destruct E2 as (E2 & _ & _).
  destruct (after_stage st1 st2 _ err Hall1 E2) as [Hstop Hok].
  case_bool_decide as Herr; [now apply finish_soft |].
  apply stage_5_soft, Hok. now destruct (decide (err = OK)).
Qed.

Lemma stage_3_5_soft pool st n st' :
  all_ok st -> stage_3_5 pool st = Some (n, st') -> soft_result n st'.
Proof.
  intros Hs. unfold stage_3_5.
  destruct (keys_missing st); [| now apply stage_4_soft].
  destruct (run_stage _ _ _ _ _) as [[[err pool1] st1] |] eqn:E; cbn; [| discriminate].
  apply run_stage_dispatched in E;
    [| intros d0 i0 s0 s1; apply stage_3_5_task_kept].
  destruct E as (E & _ & _).
  destruct (after_stage st st1 _ err Hs E) as [Hstop Hok].
  case_bool_decide as Herr; [now apply finish_soft |].
  apply stage_4_soft, Hok. now destruct (decide (err = OK)).
Qed.

Lemma stage_3_soft res pool st n st' :
  all_ok st -> stage_3 res pool st = Some (n, st') -> soft_result n st'.
Proof.
  intros Hs. unfold stage_3.
  destruct (keys_missing st); [| now apply stage_3_5_soft].
  destruct (filter_resource_strings res st) as [st0 |] eqn:E0; cbn; [| discriminate].
  apply filter_resource_strings_dispatched in E0.
  destruct (run_stage _ _ _ _ _) as [[[err pool1] st1] |] eqn:E; cbn; [| discriminate].
  apply run_stage_dispatched in E;
    [| intros d0 i0 s0 s1; apply prefix_suffix_task_2_kept].
  destruct E as (E & _ & _).
  change (dispatched st1 = dispatched st0 ++ [(lit "Stage 3", err)]) in E.
  rewrite E0 in E.
  destruct (after_stage st st1 _ err Hs E) as [Hstop Hok].
  case_bool_decide as Herr; [now apply finish_soft |].
  apply stage_3_5_soft, Hok. now destruct (decide (err = OK)).
Qed.

Lemma stage_2_soft res pool st n st' :
  all_ok st -> stage_2 res pool st = Some (n, st') -> soft_result n st'.
Proof.
  intros Hs. unfold stage_2.
  match goal with |- context [if ?c then _ else _] => destruct c end;
    [| now apply stage_3_soft].
  destruct (run_stage _ _ _ _ _) as [[[err pool1] st1] |] eqn:E; cbn; [| discriminate].
  apply run_stage_dispatched in E;
    [| intros d0 i0 s0 s1; apply partial_task_kept].
  destruct E as (E & _ & _).
  destruct (after_stage st st1 _ err Hs E) as [Hstop Hok].
  case_bool_decide as Herr; [now apply finish_soft |].
  apply stage_3_soft, Hok. now destruct (decide (err = OK)).
Qed.

Lemma run_soft hint_lines old_csv_lines res pool st n st' :
  dispatched st = [] ->
  run hint_lines old_csv_lines res pool st = Some (n, st') ->
  soft_result n st'
  /\ (result (hd {| order := []; result := OK |} pool) <> OK ->
      dispatched st'
      = [(lit "Stage 1", result (hd {| order := []; result := OK |} pool))]).
Proof.
  intros Hs. unfold run.
  match goal with |- context [run_stage stage_1 ?d ?nm ?p ?s] =>
    assert (dispatched s = []) as Hs0;
      [| destruct (run_stage stage_1 d nm p s) as [[[err pool1] st1] |] eqn:E; cbn;
         [| discriminate];
         apply run_stage_dispatched in E;
         [| intros d0 i0 s0 s1 H0 [= <-]; now apply try_key_kept]]
  end.
  { apply try_keys_kept. apply (try_keys_kept _ _ (set_cancel false st)). exact Hs. }
  destruct E as (E & Herr & _).
  match type of E with dispatched _ = dispatched ?s ++ _ =>
    change (dispatched s) with ([] : list (String * Error)) in E || rewrite Hs0 in E
  end.
  cbn [app] in E.
  assert (err = result (hd {| order := []; result := OK |} pool)) as Herr'.
  { rewrite Herr. now destruct pool. }
  case_bool_decide as Hne.
  - intros Hfin. pose proof Hfin as [= Epop].
    pose proof (pop_keys_dispatched st1) as Hd. rewrite Epop in Hd. cbn [snd] in Hd.
    split.
    + apply (finish_soft st1); [| exact Hfin].
      rewrite E. apply (failure_last_stops []). constructor.
    + intros _. now rewrite Hd, E, Herr'.
  - intros Hrun. split.
    + apply stage_2_soft in Hrun; [exact Hrun |].
      assert (err = OK) as -> by now destruct (decide (err = OK)).
      assert (forall s, dispatched s = dispatched st1 -> all_ok s) as Hok.
      { intros s ->. rewrite E. now repeat constructor. }
      apply Hok.
      assert (dispatched (try_keys (default_messages st1) st1) = dispatched st1) as H2
        by now apply try_keys_kept.
      destruct (keys_missing (try_keys (default_messages st1) st1)); [| exact H2].
      now apply (try_keys_kept _ _ (try_keys (default_messages st1) st1)).
    + intros Hbad. now rewrite <- Herr' in Hbad.
Qed.

End StageFacts.

Section WaitFacts.
Implicit Types (st : KeyWorker) (completed : list bool) (ticks : list Z).

Notation poll := (DelayUsec 100000).

(** What a return of the loop of [wait_for_task] looks like. *)
Lemma wait_for_task_loop_spec completed ticks start_time max_time next_report events st
    err events' st' :
  wait_for_task_loop completed ticks start_time max_time next_report events st
  = Some (err, events', st') ->
  exists polls : nat,
    (err = OK /\ st' = st
     /\ events' = events ++ repeat poll polls ++ [WaitForGroupTaskCompletion])
    \/ (err = ERR_TIMEOUT /\ st' = set_cancel true st
        /\ events' = events ++ repeat poll (S polls)
                     ++ [SetCancel; WaitForGroupTaskCompletion]
        /\ exists now, now ∈ ticks /\ max_time < wrap64 (now - start_time)).
Proof.
  revert ticks next_report events.
  induction completed as [| c completed IH]; intros ticks next_report events;
    cbn [wait_for_task_loop]; [discriminate |].
  destruct c.
  { intros [= <- <- <-]. exists 0%nat. left. now repeat split. }
  destruct ticks as [| now ticks]; [discriminate |].
  destruct (Z.ltb_spec max_time (wrap64 (now - start_time))) as [Hlate | Hearly].
  { intros [= <- <- <-]. exists 0%nat. right.
    split; [reflexivity |]. split; [reflexivity |].
    split; [cbn [repeat app]; now rewrite <- app_assoc |].
    exists now. split; [apply list_elem_of_here | exact Hlate]. }
  destruct ticks as [| now' ticks]; [discriminate |].
  intros Hloop. apply IH in Hloop. destruct Hloop as [polls Hloop].
  exists (S polls).
  destruct Hloop as [(-> & -> & ->) | (-> & -> & -> & now0 & Hin & Hlate)].
  - left. split; [reflexivity |]. split; [reflexivity |].
    cbn [repeat app]. now rewrite <- app_assoc.
  - right. split; [reflexivity |]. split; [reflexivity |].
    split; [cbn [repeat app]; now rewrite <- app_assoc |].
    exists now0. split; [| exact Hlate].
    now apply list_elem_of_further, list_elem_of_further.
Qed.

(** The budget is found exceeded at poll [S n], before the group completed. *)
Lemma wait_for_task_loop_times_out (n : nat) completed quiet now ticks
    start_time max_time next_report events st :
  length quiet = (2 * n)%nat ->
  Forall (fun t => wrap64 (t - start_time) <= max_time) quiet ->
  max_time < wrap64 (now - start_time) ->
  wait_for_task_loop (repeat false (S n) ++ completed) (quiet ++ now :: ticks)
    start_time max_time next_report events st
  = Some (ERR_TIMEOUT,
          events ++ repeat poll (S n) ++ [SetCancel; WaitForGroupTaskCompletion],
          set_cancel true st).
Proof.
  revert quiet next_report events.
  induction n as [| n IH]; intros quiet next_report events Hlen Hquiet Hlate.
  - destruct quiet; [| discriminate]. cbn [repeat app wait_for_task_loop].
    destruct (Z.ltb_spec max_time (wrap64 (now - start_time))); [| lia].
    now rewrite <- app_assoc.
  - destruct quiet as [| t [| t' quiet]]; [discriminate | cbn in Hlen; lia |].
    cbn [length] in Hlen.
    apply Forall_cons in Hquiet. destruct Hquiet as [Ht Hquiet].
    apply Forall_cons in Hquiet. destruct Hquiet as [_ Hquiet].
    change (repeat false (S (S n)) ++ completed)
      with (false :: (repeat false (S n) ++ completed)).
    change ((t :: t' :: quiet) ++ now :: ticks) with (t :: t' :: (quiet ++ now :: ticks)).
    cbn [wait_for_task_loop].
    destruct (Z.ltb_spec max_time (wrap64 (t - start_time))); [lia |].
    rewrite IH by (first [lia | assumption]).
    change (repeat poll (S (S n))) with (poll :: repeat poll (S n)).
    cbn [app]. now rewrite <- app_assoc.
Qed.

(** The loop returns when the group completes and the clock was read often
    enough. *)
Lemma wait_for_task_loop_returns completed ticks start_time max_time next_report events st :
  true ∈ completed -> (2 * length completed <= length ticks)%nat ->
  is_Some (wait_for_task_loop completed ticks start_time max_time next_report events st).
Proof.
  revert ticks next_report events.
  induction completed as [| c completed IH]; intros ticks next_report events Hin Hlen.
  - by apply elem_of_nil in Hin.
  - cbn [wait_for_task_loop]. destruct c; [eauto |].
    apply elem_of_cons in Hin. destruct Hin as [Hin | Hin]; [discriminate |].
    cbn [length] in Hlen.
    destruct ticks as [| now [| now' ticks]]; cbn [length] in Hlen; try lia.
    destruct (max_time <? wrap64 (now - start_time)); [eauto |].
    apply IH; [exact Hin | lia].
Qed.

End WaitFacts.

(** [wait_for_task] polls with a delay of 100 ms; when a poll finds the
    elapsed time above [max_time], it sets [cancel], waits for the
    completion of the group and returns [ERR_TIMEOUT]; whenever it returns,
    it returns [OK] or [ERR_TIMEOUT], its last action is the wait for the
    completion of the group, and a time-out means that a reading of the
    clock was above [max_time]; it returns when the group completes and the
    clock could be read. *)
Theorem wait_for_task_contract :
  (forall (n : nat) completed quiet now ticks start_time max_time st,
      length quiet = (2 * n)%nat ->
      Forall (fun t => wrap64 (t - start_time) <= max_time) quiet ->
      max_time < wrap64 (now - start_time) ->
      wait_for_task (repeat false (S n) ++ completed)
        (start_time :: quiet ++ now :: ticks) max_time st
      = Some (ERR_TIMEOUT,
              repeat (DelayUsec 100000) (S n)
              ++ [SetCancel; WaitForGroupTaskCompletion],
              set_cancel true st))
  /\ (forall completed ticks max_time st err events st',
        wait_for_task completed ticks max_time st = Some (err, events, st') ->
        exists polls : nat,
          (err = OK /\ st' = st
           /\ events = repeat (DelayUsec 100000) polls ++ [WaitForGroupTaskCompletion])
          \/ (err = ERR_TIMEOUT /\ cancel st' = true
              /\ events = repeat (DelayUsec 100000) (S polls)
                          ++ [SetCancel; WaitForGroupTaskCompletion]
              /\ exists now, now ∈ tail ticks
                             /\ max_time < wrap64 (now - hd 0 ticks)))
  /\ (forall completed ticks max_time st,
        true ∈ completed -> (2 * length completed < length ticks)%nat ->
        is_Some (wait_for_task completed ticks max_time st)).
Proof.
  split.
  { intros n completed quiet now ticks start_time max_time st Hlen Hquiet Hlate.
    unfold wait_for_task.
    now rewrite (wait_for_task_loop_times_out n completed quiet now ticks start_time
                   max_time 5000 [] st Hlen Hquiet Hlate). }
  split.
  { intros completed ticks max_time st err events st'. unfold wait_for_task.
    destruct ticks as [| start_time ticks]; [discriminate |].
    intros Hloop. apply wait_for_task_loop_spec in Hloop.
    destruct Hloop as [polls [(-> & -> & ->) | (-> & -> & -> & Hnow)]];
      exists polls; [left | right]; repeat split; try reflexivity.
    exact Hnow. }
  intros completed ticks max_time st Hin Hlen. unfold wait_for_task.
  destruct ticks as [| start_time ticks]; [cbn in Hlen; lia |].
  apply wait_for_task_loop_returns; [exact Hin | cbn [length] in Hlen; lia].
Qed.

Lemma wait_for_task_contract_witness :
  let st := KeyWorker_new [lit "Play"; lit "Quit"] [] in
  wait_for_task [false; false; true] [0; 100; 100; 30101; 30101] MAX_STAGE_TIME st
  = Some (ERR_TIMEOUT,
          [DelayUsec 100000; DelayUsec 100000; SetCancel; WaitForGroupTaskCompletion],
          set_cancel true st).
Proof.
  intros st.
  apply (proj1 wait_for_task_contract 1%nat [true] [100; 100] 30101 [30101] 0
           MAX_STAGE_TIME st).
  - reflexivity.
  - repeat constructor; vm_compute; discriminate.
  - vm_compute. reflexivity.
Defined.

(** A stage that fails is the last stage of [run]: when [run] returns, no
    stage was dispatched after a stage that did not return [OK], and the
    result is the count and the state of [pop_keys], whatever the failure
    was; when the first stage fails, it is the only one dispatched. *)
Theorem stage_failure_is_soft {eng : Engine} {tr : Translation}
    hint_lines old_csv_lines res_strings pool (st : KeyWorker) n st' :
  dispatched st = [] ->
  run hint_lines old_csv_lines res_strings pool st = Some (n, st') ->
  stops_at_failure (dispatched st')
  /\ (exists st1, dispatched st1 = dispatched st' /\ pop_keys st1 = (n, st'))
  /\ (result (hd {| order := []; result := OK |} pool) <> OK ->
      dispatched st'
      = [(lit "Stage 1", result (hd {| order := []; result := OK |} pool))]).
Proof.
  intros Hd Hrun.
  destruct (run_soft _ _ _ _ _ _ _ Hd Hrun) as [[Hstop Hpop] Hfirst].
  split; [exact Hstop |]. split; [exact Hpop | exact Hfirst].
Qed.

Lemma stage_failure_is_soft_witness :
  let engine := Fixture.engine in
  let tr :=
    Fixture.translation_of [(lit "BTN_PLAY", lit "Play"); (lit "btn_quit", lit "Quit")] in
  let st := KeyWorker_new [lit "Play"; lit "Quit"] [] in
  dispatched st = []
  /\ exists st',
       run None None [lit "BTN_PLAY"; lit "btn_quit"] timed_out_pool st = Some (1, st')
       /\ keys st' = [lit "BTN_PLAY"; lit "<!MissingKey:Quit>"]
       /\ dispatched st' = [(lit "Stage 1", ERR_TIMEOUT)]
       /\ stops_at_failure (dispatched st').
Proof.
  intros engine tr st.
  split; [reflexivity |].
  destruct (run None None [lit "BTN_PLAY"; lit "btn_quit"] timed_out_pool st)
    as [[n st'] |] eqn:E; [| vm_compute in E; discriminate].
  exists st'.
  pose proof (@stage_failure_is_soft engine tr
                None None [lit "BTN_PLAY"; lit "btn_quit"] timed_out_pool st n st'
                eq_refl E) as (Hstop & _ & _).
  vm_compute in E. injection E as <- <-.
  split; [reflexivity |]. split; [reflexivity |]. split; [reflexivity |].
  exact Hstop.
Defined.

(** ** The budget of a stage *)

Section FrameFacts.
Context {eng : Engine} {tr : Translation}.
Variable d : list String.
Implicit Types (st : KeyWorker) (key msg : String).

(** [cancel] is down and the messages are [d]. *)
Notation framed st := (cancel st = false /\ default_messages st = d).

Lemma set_key_framed key msg st : framed st -> framed (snd (_set_key key msg st)).
Proof.
  intros Hs. unfold _set_key.
  destruct (is_empty key); [exact Hs |].
  destruct (map_has _ _); [exact Hs |].
  unfold _set_key_stuff. repeat case_match; exact Hs.
Qed.


Lemma try_key_multipart_framed p1 p2 p3 p4 p5 p6 st :
  framed st -> framed (snd (try_key_multipart p1 p2 p3 p4 p5 p6 st)).
Proof.
  intros Hs. unfold try_key_multipart.
  destruct (negb _); [| exact Hs].
  pose proof (set_key_framed (combine_string p1 p2 p3 p4 p5 p6)
                (get_message_multipart_str p1 p2 p3 p4 p5 p6) st Hs) as Hp.
  now destruct (_set_key _ _ st).
Qed.

Lemma try_each_punctuation_framed ps (probe : String -> KeyWorker -> bool * KeyWorker) st :
  (forall p st, framed st -> framed (snd (probe p st))) ->
  framed st -> framed (snd (try_each_punctuation ps probe st)).
Proof.
  intros Hprobe. revert st.
  induction ps as [| p ps IH]; intros st Hs; simpl; [exact Hs |].
  pose proof (Hprobe p st Hs) as Hp.
  destruct (probe p st) as [hit st'] eqn:E. cbn [snd] in Hp.
  destruct hit; [exact Hp | now apply IH].
Qed.




Lemma try_key_prefix_suffix_framed prefix key suffix st :
  framed st -> framed (snd (try_key_prefix_suffix prefix key suffix st)).
Proof.
  intros Hs. unfold try_key_prefix_suffix.
  pose proof (try_key_multipart_framed prefix key suffix [] [] [] st Hs) as Hp.
  destruct (try_key_multipart prefix key suffix [] [] [] st) as [hit st'].
  cbn [snd] in Hp. destruct hit; [exact Hp |].
  apply try_each_punctuation_framed; [| exact Hp].
  intros p st0. apply try_key_multipart_framed.
Qed.


























End FrameFacts.

Section CancelFacts.
Context {eng : Engine} {tr : Translation}.



End CancelFacts.



(** ** The order of the tasks of a stage *)

(** Two runs on the same messages and resource strings, none of whose
    stages fails: the tasks of stage 3 run in index order in the first and
    in the opposite order in the second.  The keys [a1] and [b1] of the
    message [Play] enter the table in the order of the tasks, and
    [pop_keys] emits the one that entered first. *)
Lemma run_depends_on_task_order :
  let engine := Fixture.engine in
  let tr := Fixture.translation_of shared_message_keys in
  let st := KeyWorker_new [lit "Play"; lit "Third"; lit "Fourth"; lit "Other"] [] in
  let res := [lit "a"; lit "b"; lit "cName"; lit "dTitle"] in
  (fun r => (keys r.2, (dispatched r.2).*2))
    <$> run None None res [in_order; in_order; in_order] st
  = Some ([lit "a1"; lit "cName"; lit "dTitle"; lit "<!MissingKey:Other>"], [OK; OK; OK])
  /\ (fun r => (keys r.2, (dispatched r.2).*2))
       <$> run None None res [in_order; in_order; reversed] st
     = Some ([lit "b1"; lit "cName"; lit "dTitle"; lit "<!MissingKey:Other>"],
             [OK; OK; OK]).
Proof. split; vm_compute; reflexivity. Qed.

(** ** More of the lexical utilities *)

Section SplitTheory.
Implicit Types (s rest current : String) (splitters : list char32) (ret : list String).

Notation clean splitters := (Forall (fun c : char32 => c ∉ splitters)).

Lemma set_has_elem {A} `{EqDecision A} (l : list A) (x : A) :
  set_has l x = true <-> x ∈ l.
Proof. unfold set_has. now rewrite bool_decide_eq_true. Qed.

Lemma set_has_not_elem {A} `{EqDecision A} (l : list A) (x : A) :
  set_has l x = false <-> x ∉ l.
Proof. unfold set_has. now rewrite bool_decide_eq_false. Qed.

Lemma remove_chars_cons_in c s splitters :
  c ∈ splitters -> gdre.remove_chars (c :: s) splitters = gdre.remove_chars s splitters.
Proof.
  intros Hin. unfold gdre.remove_chars. change String with (list char32).
  rewrite filter_cons. apply set_has_elem in Hin. rewrite Hin. cbn [negb].
  now rewrite decide_False by tauto.
Qed.

Lemma remove_chars_cons_out c s splitters :
  c ∉ splitters ->
  gdre.remove_chars (c :: s) splitters = c :: gdre.remove_chars s splitters.
Proof.
  intros Hin. unfold gdre.remove_chars. change String with (list char32).
  rewrite filter_cons. apply set_has_not_elem in Hin. rewrite Hin. cbn [negb].
  now rewrite decide_True by exact I.
Qed.

Lemma count_in_cons_in c s splitters :
  c ∈ splitters -> count_in splitters (c :: s) = S (count_in splitters s).
Proof. intros Hin. unfold count_in. now rewrite filter_cons, decide_True by exact Hin. Qed.

Lemma count_in_cons_out c s splitters :
  c ∉ splitters -> count_in splitters (c :: s) = count_in splitters s.
Proof. intros Hin. unfold count_in. now rewrite filter_cons, decide_False by exact Hin. Qed.

Lemma len_pos s : (0 <? len s) = negb (is_empty s).
Proof. destruct s; [reflexivity |]. unfold len. cbn [length is_empty negb]. apply Z.ltb_lt. lia. Qed.

(** The loop without a limit: nothing is lost but the splitters, no part
    holds one, and parts are counted. *)
Lemma split_loop_unlimited splitters allow_empty maxsplit rest ret current :
  maxsplit <= 0 ->
  let r := gdre.split_multichar_loop splitters allow_empty maxsplit rest ret current in
  concat r.1 ++ r.2 = concat ret ++ current ++ gdre.remove_chars rest splitters
  /\ (Forall (clean splitters) ret -> clean splitters current ->
      Forall (clean splitters) r.1 /\ clean splitters r.2)
  /\ (allow_empty = true ->
      length r.1 = (length ret + count_in splitters rest)%nat).
Proof.
  intros Hmax. revert ret current.
  induction rest as [| c rest IH]; intros ret current; cbn [gdre.split_multichar_loop].
  - cbn. split; [now rewrite app_nil_r |]. split; [tauto | intros _; lia].
  - destruct (set_has splitters c) eqn:Hc.
    + apply set_has_elem in Hc.
      rewrite (remove_chars_cons_in _ _ _ Hc), (count_in_cons_in _ _ _ Hc).
      destruct ((0 <? len current) || allow_empty) eqn:Hpush.
      * assert ((0 <? maxsplit) = false) as -> by (apply Z.ltb_ge; lia).
        cbn [andb].
        destruct (IH (ret ++ [current]) []) as (Hcat & Hclean & Hcount).
        split; [rewrite Hcat, concat_app; cbn; now rewrite !app_nil_r, <- app_assoc |].
        split.
        -- intros Hret Hcur. apply Hclean; [| constructor].
           apply Forall_app. split; [exact Hret | now repeat constructor].
        -- intros Ha. rewrite (Hcount Ha), length_app. cbn [length]. lia.
      * destruct (IH ret current) as (Hcat & Hclean & Hcount).
        apply orb_false_iff in Hpush. destruct Hpush as [Hlen ->].
        split; [exact Hcat |]. split; [exact Hclean | discriminate].
    + apply set_has_not_elem in Hc.
      rewrite (remove_chars_cons_out _ _ _ Hc), (count_in_cons_out _ _ _ Hc).
      destruct (IH ret (current ++ [c])) as (Hcat & Hclean & Hcount).
      split; [rewrite Hcat, <- !app_assoc; reflexivity |].
      split; [| exact Hcount].
      intros Hret Hcur. apply Hclean; [exact Hret |].
      apply Forall_app. split; [exact Hcur | now repeat constructor].
Qed.

(** Without [allow_empty] no part is empty, with or without a limit. *)
Lemma split_loop_nonempty splitters maxsplit rest ret current :
  Forall (fun p => p <> []) ret ->
  Forall (fun p => p <> [])
    (gdre.split_multichar_loop splitters false maxsplit rest ret current).1.
Proof.
  revert ret current.
  induction rest as [| c rest IH]; intros ret current Hret;
    cbn [gdre.split_multichar_loop]; [exact Hret |].
  destruct (set_has splitters c); [| now apply IH].
  rewrite orb_false_r, len_pos.
  destruct current as [| c0 current]; cbn [is_empty negb]; [now apply IH |].
  assert (Forall (fun p => p <> []) (ret ++ [c0 :: current])) as Hret'.
  { apply Forall_app. split; [exact Hret | now repeat constructor]. }
  destruct ((0 <? maxsplit) && _); [exact Hret' | now apply IH].
Qed.

(** What the loop returns with [allow_empty], with or without a limit: the
    text is the parts with one splitter between two of them. *)
Lemma split_loop_interleave splitters maxsplit rest ret current seps :
  length ret = length seps -> Forall (fun c => c ∈ splitters) seps ->
  let r := gdre.split_multichar_loop splitters true maxsplit rest ret current in
  exists seps',
    length r.1 = length seps' /\ Forall (fun c => c ∈ splitters) seps'
    /\ interleave (r.1 ++ [r.2]) seps' = interleave (ret ++ [current ++ rest]) seps.
Proof.
  revert ret current seps.
  induction rest as [| c rest IH]; intros ret current seps Hlen Hseps;
    cbn [gdre.split_multichar_loop].
  - exists seps. cbn [fst snd]. rewrite app_nil_r. now repeat split.
  - destruct (set_has splitters c) eqn:Hc.
    + apply set_has_elem in Hc. rewrite orb_true_r.
      assert (forall (ps : list String) (cs : list char32) p q x,
                length ps = length cs ->
                interleave ((ps ++ [p]) ++ [q]) (cs ++ [x])
                = interleave (ps ++ [p ++ x :: q]) cs) as Hweave.
      { induction ps as [| p0 ps IHps]; intros [| c0 cs] p q x Hl; try discriminate.
        - reflexivity.
        - cbn. cbn in Hl. f_equal. f_equal. apply IHps. lia. }
      assert (length (ret ++ [current]) = length (seps ++ [c])) as Hlen'
        by (rewrite !length_app; cbn; lia).
      assert (Forall (fun c => c ∈ splitters) (seps ++ [c])) as Hseps'
        by (apply Forall_app; split; [exact Hseps | now repeat constructor]).
      destruct ((0 <? maxsplit) && _).
      * exists (seps ++ [c]). cbn [fst snd].
        split; [exact Hlen' |]. split; [exact Hseps' |]. now apply Hweave.
      * destruct (IH (ret ++ [current]) [] (seps ++ [c]) Hlen' Hseps')
          as (seps' & Hl & Hs & Hw).
        exists seps'. split; [exact Hl |]. split; [exact Hs |].
        rewrite Hw. cbn [app]. now apply Hweave.
    + destruct (IH ret (current ++ [c]) seps Hlen Hseps) as (seps' & Hl & Hs & Hw).
      exists seps'. split; [exact Hl |]. split; [exact Hs |].
      rewrite Hw, <- app_assoc. reflexivity.
Qed.

(** With a limit the loop stops at [max 1 (maxsplit - 1)] parts. *)
Lemma split_loop_bound splitters allow_empty maxsplit rest ret current :
  0 < maxsplit -> Z.of_nat (length ret) < Z.max 1 (maxsplit - 1) ->
  Z.of_nat (length (gdre.split_multichar_loop splitters allow_empty maxsplit rest ret
                      current).1)
  <= Z.max 1 (maxsplit - 1).
Proof.
  intros Hmax. revert ret current.
  induction rest as [| c rest IH]; intros ret current Hret;
    cbn [gdre.split_multichar_loop]; [cbn; lia |].
  destruct (set_has splitters c); [| now apply IH].
  destruct ((0 <? len current) || allow_empty); [| now apply IH].
  assert ((0 <? maxsplit) = true) as -> by (apply Z.ltb_lt; lia). cbn [andb].
  destruct (Z.leb_spec (maxsplit - 1) (Z.of_nat (length (ret ++ [current]))))
    as [Hstop | Hgo].
  - cbn [fst]. rewrite length_app in *. cbn [length] in *. lia.
  - apply IH. rewrite length_app in *. cbn [length] in *. lia.
Qed.

Lemma interleave_app_head (a b : String) (l : list String) (cs : list char32) :
  interleave ((a ++ b) :: l) cs = a ++ interleave (b :: l) cs.
Proof. destruct cs; cbn; [reflexivity | now rewrite <- app_assoc]. Qed.

(** The loop of [rsplit_multichar] with [allow_empty]: the same, read from
    the right. *)
Lemma rsplit_loop_interleave splitters maxsplit rrest ret current seps :
  length ret = length seps -> Forall (fun c => c ∈ splitters) seps ->
  let r := gdre.rsplit_multichar_loop splitters true maxsplit rrest ret current in
  exists seps',
    length r.1 = length seps' /\ Forall (fun c => c ∈ splitters) seps'
    /\ interleave (rev (r.1 ++ [r.2])) (rev seps')
       = interleave (rev (ret ++ [rev rrest ++ current])) (rev seps).
Proof.
  revert ret current seps.
  induction rrest as [| c rrest IH]; intros ret current seps Hlen Hseps;
    cbn [gdre.rsplit_multichar_loop].
  - exists seps. cbn [fst snd rev app]. now repeat split.
  - destruct (set_has splitters c) eqn:Hc.
    + apply set_has_elem in Hc. rewrite orb_true_r.
      assert (forall (q : String),
                interleave (rev ((ret ++ [current]) ++ [q])) (rev (seps ++ [c]))
                = interleave (rev (ret ++ [q ++ c :: current])) (rev seps)) as Hweave.
      { intros q. rewrite !rev_app_distr. cbn [rev app].
        rewrite (interleave_app_head q (c :: current)).
        cbn [interleave]. f_equal. now destruct (rev seps). }
      assert (length (ret ++ [current]) = length (seps ++ [c])) as Hlen'
        by (rewrite !length_app; cbn; lia).
      assert (Forall (fun c => c ∈ splitters) (seps ++ [c])) as Hseps'
        by (apply Forall_app; split; [exact Hseps | now repeat constructor]).
      destruct ((0 <? maxsplit) && _).
      * exists (seps ++ [c]). cbn [fst snd].
        split; [exact Hlen' |]. split; [exact Hseps' |].
        rewrite Hweave. cbn [rev]. now rewrite <- app_assoc.
      * destruct (IH (ret ++ [current]) [] (seps ++ [c]) Hlen' Hseps')
          as (seps' & Hl & Hs & Hw).
        exists seps'. split; [exact Hl |]. split; [exact Hs |].
        rewrite Hw, app_nil_r, Hweave. cbn [rev]. now rewrite <- app_assoc.
    + destruct (IH ret (c :: current) seps Hlen Hseps) as (seps' & Hl & Hs & Hw).
      exists seps'. split; [exact Hl |]. split; [exact Hs |].
      rewrite Hw. cbn [rev]. now rewrite <- app_assoc.
Qed.

Lemma rsplit_loop_clean splitters allow_empty maxsplit rrest ret current :
  maxsplit <= 0 ->
  Forall (clean splitters) ret -> clean splitters current ->
  let r := gdre.rsplit_multichar_loop splitters allow_empty maxsplit rrest ret current in
  Forall (clean splitters) r.1 /\ clean splitters r.2.
Proof.
  intros Hmax. revert ret current.
  induction rrest as [| c rrest IH]; intros ret current Hret Hcur;
    cbn [gdre.rsplit_multichar_loop]; [now split |].
  destruct (set_has splitters c) eqn:Hc.
  - destruct ((0 <? len current) || allow_empty); [| now apply IH].
    assert ((0 <? maxsplit) = false) as -> by (apply Z.ltb_ge; lia). cbn [andb].
    apply IH; [| constructor].
    apply Forall_app. split; [exact Hret | now repeat constructor].
  - apply set_has_not_elem in Hc. apply IH; [exact Hret | now constructor].
Qed.

Lemma rsplit_loop_nonempty splitters maxsplit rrest ret current :
  Forall (fun p => p <> []) ret ->
  Forall (fun p => p <> [])
    (gdre.rsplit_multichar_loop splitters false maxsplit rrest ret current).1.
Proof.
  revert ret current.
  induction rrest as [| c rrest IH]; intros ret current Hret;
    cbn [gdre.rsplit_multichar_loop]; [exact Hret |].
  destruct (set_has splitters c); [| now apply IH].
  rewrite orb_false_r, len_pos.
  destruct current as [| c0 current]; cbn [is_empty negb]; [now apply IH |].
  assert (Forall (fun p => p <> []) (ret ++ [c0 :: current])) as Hret'.
  { apply Forall_app. split; [exact Hret | now repeat constructor]. }
  destruct ((0 <? maxsplit) && _); [exact Hret' | now apply IH].
Qed.

Lemma rsplit_loop_bound splitters allow_empty maxsplit rrest ret current :
  0 < maxsplit -> Z.of_nat (length ret) < Z.max 1 (maxsplit - 1) ->
  Z.of_nat (length (gdre.rsplit_multichar_loop splitters allow_empty maxsplit rrest ret
                      current).1)
  <= Z.max 1 (maxsplit - 1).
Proof.
  intros Hmax. revert ret current.
  induction rrest as [| c rrest IH]; intros ret current Hret;
    cbn [gdre.rsplit_multichar_loop]; [cbn; lia |].
  destruct (set_has splitters c); [| now apply IH].
  destruct ((0 <? len current) || allow_empty); [| now apply IH].
  assert ((0 <? maxsplit) = true) as -> by (apply Z.ltb_lt; lia). cbn [andb].
  destruct (Z.leb_spec (maxsplit - 1) (Z.of_nat (length (ret ++ [current]))))
    as [Hstop | Hgo].
  - cbn [fst]. rewrite length_app in *. cbn [length] in *. lia.
  - apply IH. rewrite length_app in *. cbn [length] in *. lia.
Qed.

(** Without a limit, the loops without [allow_empty] return the parts of
    the loops with [allow_empty] that are not empty. *)
Lemma split_loop_filter splitters maxsplit rest ret current :
  maxsplit <= 0 ->
  let r := gdre.split_multichar_loop splitters true maxsplit rest ret current in
  gdre.split_multichar_loop splitters false maxsplit rest
    (filter (fun p => p <> []) ret) current
  = (filter (fun p => p <> []) r.1, r.2).
Proof.
  intros Hmax. revert ret current.
  induction rest as [| c rest IH]; intros ret current;
    cbn [gdre.split_multichar_loop]; [reflexivity |].
  destruct (set_has splitters c); [| apply IH].
  rewrite orb_true_r, orb_false_r, len_pos.
  assert ((0 <? maxsplit) = false) as -> by (apply Z.ltb_ge; lia). cbn [andb].
  rewrite <- IH, filter_app, filter_cons, filter_nil.
  destruct current as [| c0 current]; cbn [is_empty negb].
  - rewrite decide_False by tauto. now rewrite app_nil_r.
  - now rewrite decide_True by discriminate.
Qed.

Lemma rsplit_loop_filter splitters maxsplit rrest ret current :
  maxsplit <= 0 ->
  let r := gdre.rsplit_multichar_loop splitters true maxsplit rrest ret current in
  gdre.rsplit_multichar_loop splitters false maxsplit rrest
    (filter (fun p => p <> []) ret) current
  = (filter (fun p => p <> []) r.1, r.2).
Proof.
  intros Hmax. revert ret current.
  induction rrest as [| c rrest IH]; intros ret current;
    cbn [gdre.rsplit_multichar_loop]; [reflexivity |].
  destruct (set_has splitters c); [| apply IH].
  rewrite orb_true_r, orb_false_r, len_pos.
  assert ((0 <? maxsplit) = false) as -> by (apply Z.ltb_ge; lia). cbn [andb].
  rewrite <- IH, filter_app, filter_cons, filter_nil.
  destruct current as [| c0 current]; cbn [is_empty negb].
  - rewrite decide_False by tauto. now rewrite app_nil_r.
  - now rewrite decide_True by discriminate.
Qed.

(** A text has one reading as parts without splitters with one splitter
    between two of them. *)
Lemma interleave_unique splitters (ps qs : list String) (cs ds : list char32) :
  length ps = S (length cs) -> length qs = S (length ds) ->
  Forall (clean splitters) ps -> Forall (clean splitters) qs ->
  Forall (fun c => c ∈ splitters) cs -> Forall (fun c => c ∈ splitters) ds ->
  interleave ps cs = interleave qs ds -> ps = qs.
Proof.
  assert (forall (p q : String) (x y : char32) (u v : String),
            clean splitters p -> clean splitters q ->
            x ∈ splitters -> y ∈ splitters ->
            p ++ x :: u = q ++ y :: v -> p = q /\ u = v) as Hhead.
  { induction p as [| a p IHp]; intros [| b q] x y u v Hp Hq Hx Hy Heq; cbn in Heq.
    - injection Heq as _ ->. now split.
    - injection Heq as -> _. apply Forall_cons in Hq. tauto.
    - injection Heq as -> _. apply Forall_cons in Hp. tauto.
    - injection Heq as -> Heq. apply Forall_cons in Hp, Hq.
      destruct (IHp q x y u v) as [-> ->]; tauto. }
  assert (forall (p q : String) (y : char32) (v : String),
            clean splitters p -> y ∈ splitters -> p = q ++ y :: v -> False) as Hend.
  { intros p q y v Hp Hy ->. apply Forall_app in Hp. destruct Hp as [_ Hp].
    apply Forall_cons in Hp. tauto. }
  revert qs cs ds.
  induction ps as [| p ps IH]; intros [| q qs] cs ds Hlp Hlq Hps Hqs Hcs Hds Heq;
    try discriminate.
  apply Forall_cons in Hps, Hqs. destruct Hps as [Hp Hps], Hqs as [Hq Hqs].
  destruct cs as [| x cs], ds as [| y ds]; cbn [length] in Hlp, Hlq.
  - destruct ps, qs; try discriminate. cbn in Heq. now subst.
  - destruct ps; [| discriminate]. cbn in Heq. destruct qs; [discriminate |].
    exfalso. eapply Hend; [exact Hp | | exact Heq]. apply Forall_cons in Hds. tauto.
  - destruct qs; [| discriminate]. cbn in Heq. destruct ps; [discriminate |].
    exfalso. eapply Hend; [exact Hq | | symmetry; exact Heq].
    apply Forall_cons in Hcs. tauto.
  - destruct ps as [| p1 ps]; [discriminate |]. destruct qs as [| q1 qs]; [discriminate |].
    cbn [interleave] in Heq. fold (interleave (p1 :: ps) cs) in Heq.
    fold (interleave (q1 :: qs) ds) in Heq.
    apply Forall_cons in Hcs, Hds.
    destruct (Hhead p q x y _ _ Hp Hq (proj1 Hcs) (proj1 Hds) Heq) as [-> Hrest].
    f_equal. cbn [length] in Hlp, Hlq.
    apply (IH (q1 :: qs) cs ds);
      [cbn [length]; lia | cbn [length]; lia | exact Hps | exact Hqs | tauto | tauto
      | exact Hrest].
Qed.

Lemma filter_rev {A} (P : A -> Prop) `{forall x, Decision (P x)} (l : list A) :
  filter P (rev l) = rev (filter P l).
Proof.
  induction l as [| x l IH]; [reflexivity |].
  cbn [rev]. rewrite filter_app, IH, filter_cons, filter_cons, filter_nil.
  destruct (decide (P x)); [reflexivity | now rewrite app_nil_r].
Qed.

Lemma splitter_chars_of_elem (splitters : list String) (acc chars : list char32) :
  gdre.splitter_chars_of splitters acc = Some chars ->
  forall c, c ∈ chars <-> c ∈ acc \/ exists sp, sp ∈ splitters /\ c = char_at sp 0.
Proof.
  revert acc.
  induction splitters as [| sp splitters IH]; intros acc; cbn [gdre.splitter_chars_of].
  - intros [= <-] c. split; [tauto |].
    intros [Hc | (sp & Hsp & _)]; [exact Hc | by apply elem_of_nil in Hsp].
  - destruct (1 <? len sp); [discriminate |].
    intros Hrest c. rewrite (IH _ Hrest c), elem_of_set_insert. split.
    + intros [[Hc | ->] | (sp' & Hsp & ->)].
      * now left.
      * right. exists sp. split; [apply list_elem_of_here | reflexivity].
      * right. exists sp'. split; [now apply list_elem_of_further | reflexivity].
    + intros [Hc | (sp' & Hsp & ->)]; [tauto |].
      apply elem_of_cons in Hsp. destruct Hsp as [-> | Hsp]; [tauto |].
      right. now exists sp'.
Qed.

End SplitTheory.

(** Without a limit ([maxsplit <= 0]) [split_multichar] loses nothing but
    the splitters: the parts put one after the other are the text without
    its splitter characters, and no part holds a splitter.  Without
    [allow_empty] no part is empty; with it there is one part more than
    there are splitter characters in the text. *)
Theorem split_multichar_unlimited (s : String) (splitters : list char32)
    (allow_empty : bool) (maxsplit : Z) :
  maxsplit <= 0 ->
  let parts := gdre.split_multichar s splitters allow_empty maxsplit in
  concat parts = gdre.remove_chars s splitters
  /\ Forall (Forall (fun c => c ∉ splitters)) parts
  /\ (allow_empty = false -> Forall (fun p => p <> []) parts)
  /\ (allow_empty = true -> length parts = S (count_in splitters s)).
Proof.
  intros Hmax. unfold gdre.split_multichar.
  destruct (split_loop_unlimited splitters allow_empty maxsplit s [] [] Hmax)
    as (Hcat & Hclean & Hcount).
  pose proof (split_loop_nonempty splitters maxsplit s [] [] (Forall_nil_2 _)) as Hne.
  destruct (gdre.split_multichar_loop splitters allow_empty maxsplit s [] [])
    as [ret current] eqn:E.
  cbn [fst snd concat app] in *.
  destruct (Hclean (Forall_nil_2 _) (Forall_nil_2 _)) as [Hret Hcur].
  rewrite len_pos.
  destruct current as [| c0 current]; cbn [is_empty negb orb].
  - destruct allow_empty.
    + split; [rewrite concat_app; cbn [concat app]; exact Hcat |].
      split; [apply Forall_app; split; [exact Hret | now repeat constructor] |].
      split; [discriminate |].
      intros _. rewrite length_app, (Hcount eq_refl). cbn [length]. lia.
    + rewrite app_nil_r in Hcat.
      split; [exact Hcat |]. split; [exact Hret |].
      split; [| discriminate]. intros _. now rewrite E in Hne.
  - split; [rewrite concat_app; cbn; now rewrite app_nil_r |].
    split; [apply Forall_app; split; [exact Hret | now apply Forall_singleton] |].
    split.
    + intros ->. rewrite E in Hne. apply Forall_app. split; [exact Hne |].
      now apply Forall_singleton.
    + intros Ha. rewrite length_app, (Hcount Ha). cbn [length]. lia.
Qed.

Lemma split_multichar_unlimited_witness :
  0 <= 0
  /\ gdre.split_multichar (lit "key.with__parts") (lit "._") false 0
     = [lit "key"; lit "with"; lit "parts"]
  /\ concat (gdre.split_multichar (lit "key.with__parts") (lit "._") false 0)
     = gdre.remove_chars (lit "key.with__parts") (lit "._").
Proof.
  split; [lia |]. split; [reflexivity |].
  exact (proj1 (split_multichar_unlimited (lit "key.with__parts") (lit "._") false 0
                  (Z.le_refl 0))).
Defined.

(** With [allow_empty], for every limit, the text is the parts of
    [split_multichar], and of [rsplit_multichar], with one splitter
    character between two parts; without [allow_empty], for every limit, no
    part of either is empty. *)
Theorem split_multichar_round_trip (s : String) (splitters : list char32) (maxsplit : Z) :
  (exists seps,
      length (gdre.split_multichar s splitters true maxsplit) = S (length seps)
      /\ Forall (fun c => c ∈ splitters) seps
      /\ interleave (gdre.split_multichar s splitters true maxsplit) seps = s)
  /\ (exists seps,
        length (gdre.rsplit_multichar s splitters true maxsplit) = S (length seps)
        /\ Forall (fun c => c ∈ splitters) seps
        /\ interleave (gdre.rsplit_multichar s splitters true maxsplit) seps = s)
  /\ Forall (fun p => p <> []) (gdre.split_multichar s splitters false maxsplit)
  /\ Forall (fun p => p <> []) (gdre.rsplit_multichar s splitters false maxsplit).
Proof.
  split; [| split; [| split]].
  - unfold gdre.split_multichar.
    destruct (split_loop_interleave splitters maxsplit s [] [] [] eq_refl (Forall_nil_2 _))
      as (seps & Hlen & Hseps & Hweave).
    destruct (gdre.split_multichar_loop splitters true maxsplit s [] [])
      as [ret current].
    cbn [fst snd] in *. rewrite orb_true_r. exists seps.
    split; [rewrite length_app; cbn [length]; lia |].
    split; [exact Hseps | exact Hweave].
  - unfold gdre.rsplit_multichar.
    destruct (rsplit_loop_interleave splitters maxsplit (rev s) [] [] [] eq_refl
                (Forall_nil_2 _)) as (seps & Hlen & Hseps & Hweave).
    destruct (gdre.rsplit_multichar_loop splitters true maxsplit (rev s) [] [])
      as [ret current].
    cbn [fst snd] in *. rewrite orb_true_r. exists (rev seps).
    split; [rewrite length_rev, length_app, length_rev; cbn [length]; lia |].
    split; [now apply Forall_rev |].
    rewrite Hweave. cbn. now rewrite app_nil_r, rev_involutive.
  - unfold gdre.split_multichar.
    pose proof (split_loop_nonempty splitters maxsplit s [] [] (Forall_nil_2 _)) as Hne.
    destruct (gdre.split_multichar_loop splitters false maxsplit s [] [])
      as [ret current].
    cbn [fst] in Hne. rewrite orb_false_r, len_pos.
    destruct current; cbn [is_empty negb]; [exact Hne |].
    apply Forall_app. split; [exact Hne | now repeat constructor].
  - unfold gdre.rsplit_multichar.
    pose proof (rsplit_loop_nonempty splitters maxsplit (rev s) [] [] (Forall_nil_2 _))
      as Hne.
    destruct (gdre.rsplit_multichar_loop splitters false maxsplit (rev s) [] [])
      as [ret current].
    cbn [fst] in Hne. rewrite orb_false_r, len_pos. apply Forall_rev.
    destruct current; cbn [is_empty negb]; [exact Hne |].
    apply Forall_app. split; [exact Hne | now repeat constructor].
Qed.

(** With a limit ([0 < maxsplit]) [split_multichar] and [rsplit_multichar]
    return at most [maxsplit] parts, and at most two for the limit 1: the
    loop stops after the push that brings the parts to [maxsplit - 1], which
    the first push does for the limits 1 and 2 alike, so that each of the
    two functions returns the same parts for the limit 1 as for the
    limit 2. *)
Theorem split_multichar_limit (s : String) (splitters : list char32)
    (allow_empty : bool) (maxsplit : Z) :
  0 < maxsplit ->
  Z.of_nat (length (gdre.split_multichar s splitters allow_empty maxsplit))
  <= Z.max 2 maxsplit
  /\ Z.of_nat (length (gdre.rsplit_multichar s splitters allow_empty maxsplit))
     <= Z.max 2 maxsplit
  /\ gdre.split_multichar s splitters allow_empty 1
     = gdre.split_multichar s splitters allow_empty 2
  /\ gdre.rsplit_multichar s splitters allow_empty 1
     = gdre.rsplit_multichar s splitters allow_empty 2.
Proof.
  intros Hmax. split; [| split; [| split]].
  - unfold gdre.split_multichar.
    pose proof (split_loop_bound splitters allow_empty maxsplit s [] [] Hmax) as Hb.
    destruct (gdre.split_multichar_loop splitters allow_empty maxsplit s [] [])
      as [ret current].
    cbn [fst length] in Hb.
    destruct ((0 <? len current) || allow_empty);
      rewrite ?length_app; cbn [length]; lia.
  - unfold gdre.rsplit_multichar.
    pose proof (rsplit_loop_bound splitters allow_empty maxsplit (rev s) [] [] Hmax) as Hb.
    destruct (gdre.rsplit_multichar_loop splitters allow_empty maxsplit (rev s) [] [])
      as [ret current].
    cbn [fst length] in Hb. rewrite length_rev.
    destruct ((0 <? len current) || allow_empty);
      rewrite ?length_app; cbn [length]; lia.
  - unfold gdre.split_multichar. f_equal.
    assert (forall rest ret current,
              ret = [] ->
              gdre.split_multichar_loop splitters allow_empty 1 rest ret current
              = gdre.split_multichar_loop splitters allow_empty 2 rest ret current)
      as Hsame.
    { induction rest as [| c rest IH]; intros ret current ->;
        cbn [gdre.split_multichar_loop]; [reflexivity |].
      destruct (set_has splitters c); [| now apply IH].
      destruct ((0 <? len current) || allow_empty); [reflexivity | now apply IH]. }
    now rewrite Hsame.
  - unfold gdre.rsplit_multichar.
    assert (forall rrest ret current,
              ret = [] ->
              gdre.rsplit_multichar_loop splitters allow_empty 1 rrest ret current
              = gdre.rsplit_multichar_loop splitters allow_empty 2 rrest ret current)
      as Hsame.
    { induction rrest as [| c rrest IH]; intros ret current ->;
        cbn [gdre.rsplit_multichar_loop]; [reflexivity |].
      destruct (set_has splitters c); [| now apply IH].
      destruct ((0 <? len current) || allow_empty); [reflexivity | now apply IH]. }
    now rewrite Hsame.
Qed.

Lemma split_multichar_limit_witness :
  0 < 2
  /\ gdre.split_multichar (lit "a_b_c") (lit "_") false 2 = [lit "a"; lit "b_c"]
  /\ gdre.rsplit_multichar (lit "a_b_c") (lit "_") false 2 = [lit "a_b"; lit "c"]
  /\ Z.of_nat (length (gdre.split_multichar (lit "a_b_c") (lit "_") false 2)) <= Z.max 2 2.
Proof.
  split; [lia |]. split; [reflexivity |]. split; [reflexivity |].
  exact (proj1 (split_multichar_limit (lit "a_b_c") (lit "_") false 2 eq_refl)).
Defined.

(** Without a limit [rsplit_multichar] returns what [split_multichar]
    returns. *)
Theorem rsplit_multichar_unlimited (s : String) (splitters : list char32)
    (allow_empty : bool) (maxsplit : Z) :
  maxsplit <= 0 ->
  gdre.rsplit_multichar s splitters allow_empty maxsplit
  = gdre.split_multichar s splitters allow_empty maxsplit.
Proof.
  intros Hmax.
  assert (gdre.rsplit_multichar s splitters true maxsplit
          = gdre.split_multichar s splitters true maxsplit) as Htrue.
  { assert (Forall (Forall (fun c => c ∉ splitters))
              (gdre.split_multichar s splitters true maxsplit)) as Hclean.
    { unfold gdre.split_multichar.
      destruct (split_loop_unlimited splitters true maxsplit s [] [] Hmax)
        as (_ & Hc & _).
      destruct (Hc (Forall_nil_2 _) (Forall_nil_2 _)) as [Hret Hcur].
      destruct (gdre.split_multichar_loop splitters true maxsplit s [] [])
        as [ret current].
      cbn [fst snd] in *. rewrite orb_true_r.
      apply Forall_app. split; [exact Hret | now apply Forall_singleton]. }
    pose proof (split_loop_interleave splitters maxsplit s [] [] [] eq_refl
                  (Forall_nil_2 _)) as (seps & Hlen & Hseps & Hweave).
    pose proof (rsplit_loop_interleave splitters maxsplit (rev s) [] [] [] eq_refl
                  (Forall_nil_2 _)) as (rseps & Hrlen & Hrseps & Hrweave).
    pose proof (rsplit_loop_clean splitters true maxsplit (rev s) [] [] Hmax
                  (Forall_nil_2 _) (Forall_nil_2 _)) as [Hrclean Hrcur].
    revert Hclean. unfold gdre.rsplit_multichar, gdre.split_multichar.
    destruct (gdre.split_multichar_loop splitters true maxsplit s [] [])
      as [ret current].
    destruct (gdre.rsplit_multichar_loop splitters true maxsplit (rev s) [] [])
      as [rret rcurrent].
    cbn [fst snd] in *. rewrite !orb_true_r. intros Hclean.
    apply (interleave_unique splitters _ _ (rev rseps) seps).
    - rewrite length_rev, length_app, length_rev. cbn [length]. lia.
    - rewrite length_app. cbn [length]. lia.
    - apply Forall_rev, Forall_app. split; [exact Hrclean | now repeat constructor].
    - exact Hclean.
    - now apply Forall_rev.
    - exact Hseps.
    - rewrite Hrweave, Hweave. cbn. now rewrite app_nil_r, rev_involutive. }
  destruct allow_empty; [exact Htrue |].
  revert Htrue. unfold gdre.rsplit_multichar, gdre.split_multichar.
  assert (gdre.split_multichar_loop splitters false maxsplit s [] []
          = (filter (fun p => p <> [])
               (gdre.split_multichar_loop splitters true maxsplit s [] []).1,
             (gdre.split_multichar_loop splitters true maxsplit s [] []).2)) as Hf
    by exact (split_loop_filter splitters maxsplit s [] [] Hmax).
  assert (gdre.rsplit_multichar_loop splitters false maxsplit (rev s) [] []
          = (filter (fun p => p <> [])
               (gdre.rsplit_multichar_loop splitters true maxsplit (rev s) [] []).1,
             (gdre.rsplit_multichar_loop splitters true maxsplit (rev s) [] []).2))
    as Hrf by exact (rsplit_loop_filter splitters maxsplit (rev s) [] [] Hmax).
  rewrite Hf, Hrf.
  destruct (gdre.split_multichar_loop splitters true maxsplit s [] [])
    as [ret current].
  destruct (gdre.rsplit_multichar_loop splitters true maxsplit (rev s) [] [])
    as [rret rcurrent].
  cbn [fst snd]. rewrite !orb_true_r, !orb_false_r, !len_pos. intros Htrue.
  assert (forall (l : list String) (x : String),
            (if negb (is_empty x) then filter (fun p => p <> []) l ++ [x]
             else filter (fun p => p <> []) l)
            = filter (fun p => p <> []) (l ++ [x])) as Hlast.
  { intros l x. rewrite filter_app, filter_cons, filter_nil.
    destruct x; cbn [is_empty negb].
    - rewrite decide_False by tauto. now rewrite app_nil_r.
    - now rewrite decide_True by discriminate. }
  rewrite !Hlast, <- filter_rev. now rewrite Htrue.
Qed.

Lemma rsplit_multichar_unlimited_witness :
  -1 <= 0
  /\ gdre.rsplit_multichar (lit "a.b_c") (lit "._") true (-1)
     = gdre.split_multichar (lit "a.b_c") (lit "._") true (-1).
Proof.
  split; [lia |].
  apply (rsplit_multichar_unlimited (lit "a.b_c") (lit "._") true (-1)). lia.
Defined.

(** With splitters of at most one character each, [_split_multichar] and
    [_rsplit_multichar] split at the first characters of the splitters; an
    empty splitter stands for the character NUL, which [operator[]] reads
    at the end of a string. *)
Theorem split_single_character_splitters (s : String) (splitters : list String)
    (allow_empty : bool) (maxsplit : Z) :
  Forall (fun sp => len sp <= 1) splitters ->
  exists chars,
    (forall c, c ∈ chars <-> exists sp, sp ∈ splitters /\ c = char_at sp 0)
    /\ gdre._split_multichar s splitters allow_empty maxsplit
       = gdre.split_multichar s chars allow_empty maxsplit
    /\ gdre._rsplit_multichar s splitters allow_empty maxsplit
       = gdre.rsplit_multichar s chars allow_empty maxsplit.
Proof.
  intros Hshort.
  destruct (SplitFacts.splitter_chars_of_short splitters [] Hshort) as [chars Hchars].
  exists chars. split.
  - intros c. rewrite (splitter_chars_of_elem _ _ _ Hchars c). split; [| tauto].
    intros [Hc | Hc]; [by apply elem_of_nil in Hc | exact Hc].
  - unfold gdre._split_multichar, gdre._rsplit_multichar. now rewrite Hchars.
Qed.

Lemma split_single_character_splitters_witness :
  Forall (fun sp => len sp <= 1) [lit "_"; lit "."]
  /\ exists chars,
       (forall c, c ∈ chars <-> exists sp, sp ∈ [lit "_"; lit "."] /\ c = char_at sp 0)
       /\ gdre._split_multichar (lit "a_b.c") [lit "_"; lit "."] false 0
          = gdre.split_multichar (lit "a_b.c") chars false 0
       /\ gdre._rsplit_multichar (lit "a_b.c") [lit "_"; lit "."] false 0
          = gdre.rsplit_multichar (lit "a_b.c") chars false 0.
Proof.
  assert (Forall (fun sp => len sp <= 1) [lit "_"; lit "."]) as Hshort
    by (repeat constructor; vm_compute; discriminate).
  split; [exact Hshort |].
  exact (split_single_character_splitters (lit "a_b.c") [lit "_"; lit "."] false 0 Hshort).
Defined.

Section CharSetFacts.
Implicit Types (s : String) (chars ret : list char32).

Lemma has_chars_in_set_elem s chars :
  gdre.has_chars_in_set s chars = true <-> exists c, c ∈ s /\ c ∈ chars.
Proof.
  unfold gdre.has_chars_in_set. rewrite existsb_exists. split.
  - intros (c & Hin & Hc). exists c. split; [now apply list_elem_of_In | now apply set_has_elem].
  - intros (c & Hin & Hc). exists c. split; [now apply list_elem_of_In | now apply set_has_elem].
Qed.

Lemma remove_chars_elem s chars c :
  c ∈ gdre.remove_chars s chars <-> c ∈ s /\ c ∉ chars.
Proof.
  unfold gdre.remove_chars. change String with (list char32) in *.
  rewrite list_elem_of_filter. destruct (set_has chars c) eqn:Hc; cbn [negb].
  - apply set_has_elem in Hc. split; [intros [[] _] | tauto].
  - apply set_has_not_elem in Hc. split; [tauto | intros [? _]; now split].
Qed.

Lemma get_chars_in_set_grows s chars ret :
  exists new, gdre.get_chars_in_set s chars ret = ret ++ new
              /\ (NoDup ret -> NoDup (ret ++ new)).
Proof.
  revert ret. induction s as [| c s IH]; intros ret; cbn [gdre.get_chars_in_set].
  - exists []. rewrite app_nil_r. tauto.
  - destruct (set_has chars c); [| apply IH].
    unfold set_insert. destruct (set_has ret c) eqn:Hc; [apply IH |].
    apply set_has_not_elem in Hc.
    destruct (IH (ret ++ [c])) as (new & Heq & Hnd).
    exists (c :: new). rewrite Heq, <- app_assoc. split; [reflexivity |].
    intros Hret. change (ret ++ c :: new) with (ret ++ [c] ++ new).
    rewrite app_assoc. apply Hnd, NoDup_app. split; [exact Hret |].
    split; [| apply NoDup_singleton].
    intros x Hx Hx'. apply list_elem_of_singleton in Hx'. now subst.
Qed.

End CharSetFacts.

(** [remove_chars] leaves nothing for [has_chars_in_set] and
    [get_chars_in_set] to find and keeps the other characters in their
    order; it changes a string exactly when [has_chars_in_set] finds a
    character. *)
Theorem remove_chars_clears (s : String) (chars : list char32) :
  gdre.has_chars_in_set (gdre.remove_chars s chars) chars = false
  /\ (forall ret, gdre.get_chars_in_set (gdre.remove_chars s chars) chars ret = ret)
  /\ gdre.remove_chars (gdre.remove_chars s chars) chars = gdre.remove_chars s chars
  /\ (gdre.has_chars_in_set s chars = false <-> gdre.remove_chars s chars = s)
  /\ gdre.remove_chars s chars `sublist_of` s.
Proof.
  assert (forall s0 : String,
             gdre.has_chars_in_set s0 chars = false -> gdre.remove_chars s0 chars = s0)
    as Hkeep.
  { induction s0 as [| c s0 IH]; [reflexivity |].
    unfold gdre.has_chars_in_set. cbn [existsb]. intros Hnone.
    apply orb_false_iff in Hnone. destruct Hnone as [Hc Hnone].
    apply set_has_not_elem in Hc. rewrite (remove_chars_cons_out _ _ _ Hc).
    f_equal. now apply IH. }
  assert (gdre.has_chars_in_set (gdre.remove_chars s chars) chars = false) as Hnone.
  { apply not_true_is_false. intros Hhas. apply has_chars_in_set_elem in Hhas.
    destruct Hhas as (c & Hin & Hc). apply remove_chars_elem in Hin. tauto. }
  split; [exact Hnone |]. split; [| split; [| split]].
  - generalize (gdre.remove_chars s chars) Hnone. clear.
    induction s as [| c s IH]; intros Hnone ret; [reflexivity |].
    unfold gdre.has_chars_in_set in Hnone. cbn [existsb] in Hnone.
    apply orb_false_iff in Hnone. destruct Hnone as [Hc Hnone].
    cbn [gdre.get_chars_in_set]. rewrite Hc. now apply IH.
  - now apply Hkeep.
  - split; [apply Hkeep |]. intros Heq. now rewrite <- Heq.
  - unfold gdre.remove_chars. change String with (list char32). apply sublist_filter.
Qed.

(** [get_chars_in_set] collects into [ret] exactly the characters of [s]
    that are in [chars]: what was in [ret] stays in front, in its order,
    the set keeps being free of duplicates, and something is found exactly
    when [has_chars_in_set] says so. *)
Theorem get_chars_in_set_collects (s : String) (chars ret : list char32) :
  (forall c, c ∈ gdre.get_chars_in_set s chars ret <-> c ∈ ret \/ (c ∈ s /\ c ∈ chars))
  /\ ret `prefix_of` gdre.get_chars_in_set s chars ret
  /\ (NoDup ret -> NoDup (gdre.get_chars_in_set s chars ret))
  /\ (gdre.has_chars_in_set s chars = true <-> gdre.get_chars_in_set s chars [] <> []).
Proof.
  split; [intros c; apply get_chars_in_set_spec |].
  destruct (get_chars_in_set_grows s chars ret) as (new & Heq & Hnd).
  split; [rewrite Heq; now exists new |]. split; [now rewrite Heq |].
  rewrite has_chars_in_set_elem. split.
  - intros (c & Hs & Hc) Hnil.
    assert (c ∈ gdre.get_chars_in_set s chars []) as Hin
      by (apply get_chars_in_set_spec; tauto).
    rewrite Hnil in Hin. by apply elem_of_nil in Hin.
  - intros Hne. destruct (gdre.get_chars_in_set s chars []) as [| c l] eqn:E; [done |].
    assert (c ∈ gdre.get_chars_in_set s chars []) as Hin
      by (rewrite E; apply list_elem_of_here).
    apply get_chars_in_set_spec in Hin. destruct Hin as [Hin | Hin].
    + by apply elem_of_nil in Hin.
    + now exists c.
Qed.

(** After [remove_whitespace] the test [string_has_whitespace] fails, and a
    second [remove_whitespace] changes nothing.  The two do not agree on
    what whitespace is: a carriage return is removed by the first and not
    seen by the second. *)
Theorem remove_whitespace_clears (s : String) :
  gdre.string_has_whitespace (gdre.remove_whitespace s) = false
  /\ gdre.remove_whitespace (gdre.remove_whitespace s) = gdre.remove_whitespace s
  /\ gdre.remove_whitespace s `sublist_of` s
  /\ gdre.string_has_whitespace [13%N] = false
  /\ gdre.remove_whitespace [13%N] = [].
Proof.
  assert (forall c : char32,
             negb ((c =? 32)%N || (c =? 9)%N || (c =? 10)%N || (c =? 13)%N) = true ->
             ((c =? 32)%N || (c =? 9)%N || (c =? 10)%N) = false) as Hws.
  { intros c. destruct (c =? 32)%N, (c =? 9)%N, (c =? 10)%N; cbn; congruence. }
  split; [| split; [| split; [| split; reflexivity]]].
  - unfold gdre.string_has_whitespace, gdre.remove_whitespace.
    change String with (list char32).
    induction s as [| c s IH]; [reflexivity |].
    rewrite filter_cons. case_decide as Hc; [| exact IH].
    cbn [existsb]. apply orb_false_iff.
    split; [apply Hws; now apply Is_true_true | exact IH].
  - unfold gdre.remove_whitespace. change String with (list char32).
    induction s as [| c s IH]; [reflexivity |].
    rewrite filter_cons. case_decide as Hc; [| exact IH].
    rewrite filter_cons, decide_True by exact Hc. f_equal. exact IH.
  - unfold gdre.remove_whitespace. change String with (list char32). apply sublist_filter.
Qed.

(** [check_header] accepts exactly the buffers that begin with the first
    [p_expected_len] characters of the header; a length that is not positive
    accepts every buffer. *)
Theorem check_header_prefix (p_buffer p_expected_header : list Z) (p_expected_len : Z) :
  p_expected_len <= len_bytes p_expected_header ->
  gdre.check_header p_buffer p_expected_header p_expected_len
  = Some (bool_decide (take (Z.to_nat p_expected_len) p_expected_header
                         `prefix_of` p_buffer)).
Proof.
  unfold gdre.check_header, len_bytes. intros Hlen.
  destruct (Z.ltb_spec (Z.of_nat (length p_buffer)) p_expected_len) as [Hshort | Hlong].
  - apply f_equal. symmetry. apply bool_decide_eq_false. intros Hpre.
    apply prefix_length in Hpre. rewrite length_take in Hpre. lia.
  - assert (forall (n : nat) (buffer header : list Z),
              (n <= length header)%nat -> (n <= length buffer)%nat ->
              gdre.check_header_loop n buffer header
              = Some (bool_decide (take n header `prefix_of` buffer))) as Hloop.
    { induction n as [| n IH]; intros buffer header Hh Hb;
        cbn [gdre.check_header_loop take].
      - apply f_equal. symmetry. apply bool_decide_eq_true, prefix_nil.
      - destruct header as [| h header]; [cbn in Hh; lia |].
        destruct buffer as [| b buffer]; [cbn in Hb; lia |].
        cbn [length] in Hh, Hb. cbn [take].
        destruct (Z.eqb_spec b h) as [-> | Hne]; cbn [negb].
        + rewrite IH by lia. apply f_equal, bool_decide_ext. split.
          * now apply prefix_cons.
          * now apply prefix_cons_inv_2.
        + apply f_equal. symmetry. apply bool_decide_eq_false. intros Hpre.
          apply prefix_cons_inv_1 in Hpre. congruence. }
    apply Hloop; lia.
Qed.

Lemma check_header_prefix_witness :
  4 <= len_bytes [71; 68; 80; 67]
  /\ gdre.check_header [71; 68; 80; 67; 1; 0] [71; 68; 80; 67] 4 = Some true
  /\ gdre.check_header [71; 68; 80] [71; 68; 80; 67] 4 = Some false.
Proof.
  assert (4 <= len_bytes [71; 68; 80; 67]) as Hlen by (vm_compute; discriminate).
  split; [exact Hlen |]. split.
  - rewrite (check_header_prefix [71; 68; 80; 67; 1; 0] [71; 68; 80; 67] 4 Hlen).
    reflexivity.
  - reflexivity.
Defined.

(** ** Detection of UTF-8 *)

Section Utf8Facts.
Implicit Types (c cp skip c_start unichar : Z) (bytes rest : list Z).

Lemma byte_forall (P : Z -> bool) :
  forallb P (seqZ 0 256) = true -> forall c, 0 <= c < 256 -> P c = true.
Proof.
  intros Hall c Hc. rewrite forallb_forall in Hall. apply Hall.
  apply list_elem_of_In, elem_of_seqZ. lia.
Qed.

Lemma utf8_skip_lead c :
  0 <= c < 256 ->
  gdre.utf8_skip c
  = if c <? 128 then Some 0
    else if c <? 192 then None
    else if c <? 224 then Some 1
    else if c <? 240 then Some 2
    else if c <? 248 then Some 3
    else if c <? 252 then Some 4
    else if c <? 254 then Some 5
    else None.
Proof.
  intros Hc.
  pose proof (byte_forall
    (fun c => bool_decide
       (gdre.utf8_skip c
        = if c <? 128 then Some 0
          else if c <? 192 then None
          else if c <? 224 then Some 1
          else if c <? 240 then Some 2
          else if c <? 248 then Some 3
          else if c <? 252 then Some 4
          else if c <? 254 then Some 5
          else None)) eq_refl c Hc) as Hb.
  now apply bool_decide_eq_true in Hb.
Qed.

Lemma overlong_two_bytes c :
  0 <= c < 256 -> 192 <= c < 224 -> (Z.land c 30 =? 0) = (c <? 194).
Proof.
  intros Hc Hr.
  pose proof (byte_forall
    (fun c => if (192 <=? c) && (c <? 224)
              then bool_decide ((Z.land c 30 =? 0) = (c <? 194)) else true)
    eq_refl c Hc) as Hb.
  cbv beta in Hb.
  destruct (Z.leb_spec 192 c); [| lia]. destruct (Z.ltb_spec c 224); [| lia].
  now apply bool_decide_eq_true in Hb.
Qed.

Lemma lead_bits c :
  0 <= c < 256 ->
  (192 <= c < 224 -> gdre.utf8_lead_bits 1 c = c - 192)
  /\ (224 <= c < 240 -> gdre.utf8_lead_bits 2 c = c - 224)
  /\ (240 <= c < 248 -> gdre.utf8_lead_bits 3 c = c - 240).
Proof.
  intros Hc.
  pose proof (byte_forall
    (fun c => bool_decide
       ((if (192 <=? c) && (c <? 224) then gdre.utf8_lead_bits 1 c else c - 192)
        = c - 192
        /\ (if (224 <=? c) && (c <? 240) then gdre.utf8_lead_bits 2 c else c - 224)
           = c - 224
        /\ (if (240 <=? c) && (c <? 248) then gdre.utf8_lead_bits 3 c else c - 240)
           = c - 240))
    eq_refl c Hc) as Hb.
  apply bool_decide_eq_true in Hb. destruct Hb as (H1 & H2 & H3).
  repeat split; intros Hr.
  - destruct (Z.leb_spec 192 c); [| lia]. destruct (Z.ltb_spec c 224); [| lia]. exact H1.
  - destruct (Z.leb_spec 224 c); [| lia]. destruct (Z.ltb_spec c 240); [| lia]. exact H2.
  - destruct (Z.leb_spec 240 c); [| lia]. destruct (Z.ltb_spec c 248); [| lia]. exact H3.
Qed.

Lemma continuation_bits c : 128 <= c < 192 -> Z.land c 63 = c - 128.
Proof.
  intros Hr.
  pose proof (byte_forall
    (fun c => if (128 <=? c) && (c <? 192)
              then bool_decide (Z.land c 63 = c - 128) else true)
    eq_refl c ltac:(lia)) as Hb.
  cbv beta in Hb.
  destruct (Z.leb_spec 128 c); [| lia]. destruct (Z.ltb_spec c 192); [| lia].
  now apply bool_decide_eq_true in Hb.
Qed.

Lemma lor_low a b : 0 <= b < 64 -> Z.lor (a * 64) b = a * 64 + b.
Proof.
  intros Hb. symmetry. apply Z.add_nocarry_lor.
  assert (b = Z.land (Z.ones 6) b) as ->.
  { rewrite Z.land_comm, Z.land_ones by lia. change (2 ^ 6) with 64.
    now rewrite Z.mod_small. }
  rewrite Z.land_assoc, (Z.land_ones (a * 64)) by lia.
  change (2 ^ 6) with 64. rewrite Z.mod_mul by lia. apply Z.land_0_l.
Qed.

Lemma surrogate_test unichar :
  0 <= unichar < 2 ^ 32 ->
  (Z.land unichar 4294965248 =? 55296) = (55296 <=? unichar) && (unichar <=? 57343).
Proof.
  intros Hu.
  assert (Z.land unichar 4294965248 = unichar / 2048 * 2048) as ->.
  { change 4294965248 with (Z.land (Z.ones 32) (Z.lnot (Z.ones 11))).
    rewrite Z.land_assoc, Z.land_ones, Z.mod_small by lia.
    rewrite <- Z.ldiff_land, Z.ldiff_ones_r, Z.shiftr_div_pow2, Z.shiftl_mul_pow2 by lia.
    reflexivity. }
  change (2 ^ 11) with 2048.
  destruct (Z.eqb_spec (unichar / 2048 * 2048) 55296) as [He | Hne];
    destruct (Z.leb_spec 55296 unichar); destruct (Z.leb_spec unichar 57343);
    cbn [andb]; try reflexivity; exfalso; Z.div_mod_to_equations; lia.
Qed.

(** One step of the first loop on a leading byte, and on a continuation
    byte. *)
Lemma scan_lead c k bytes c_start n m :
  c <> 0 -> gdre.utf8_skip c = Some k -> (k = 1 -> Z.land c 30 <> 0) ->
  gdre.detect_utf8_scan (c :: bytes) 0 c_start n m
  = gdre.detect_utf8_scan bytes k c (n + 1) (m + 1).
Proof.
  intros Hc Hk Hlong. cbn [gdre.detect_utf8_scan].
  destruct (Z.eqb_spec c 0); [done |]. cbn [Z.eqb]. rewrite Hk.
  destruct (Z.eqb_spec k 1) as [-> | _]; [| reflexivity].
  destruct (Z.eqb_spec (Z.land c 30) 0); [now apply Hlong in e | reflexivity].
Qed.

Lemma scan_continuation c bytes skip c_start n m :
  128 <= c < 192 -> skip <> 0 -> ~ announces_overlong c_start skip c ->
  gdre.detect_utf8_scan (c :: bytes) skip c_start n m
  = gdre.detect_utf8_scan bytes (skip - 1) c_start (n + 1) m.
Proof.
  intros Hc Hskip Hlong. cbn [gdre.detect_utf8_scan].
  destruct (Z.eqb_spec c 0); [lia |].
  destruct (Z.eqb_spec skip 0); [done |].
  assert (((c_start =? 224) && (skip =? 2) && (c <? 160)
           || (c_start =? 240) && (skip =? 3) && (c <? 144)
           || (c_start =? 248) && (skip =? 4) && (c <? 136)
           || (c_start =? 252) && (skip =? 5) && (c <? 132)) = false) as ->.
  { apply not_true_is_false. intros Ht. apply Hlong. unfold announces_overlong.
    repeat (apply orb_true_iff in Ht; destruct Ht as [Ht | Ht]);
      repeat (apply andb_true_iff in Ht; destruct Ht as [Ht ?]);
      repeat match goal with
        | H : (_ =? _) = true |- _ => apply Z.eqb_eq in H
        | H : (_ <? _) = true |- _ => apply Z.ltb_lt in H
        end; tauto. }
  destruct (Z.ltb_spec c 128); [lia |]. destruct (Z.ltb_spec 191 c); [lia |].
  reflexivity.
Qed.

(** One step of the second loop. *)
Lemma decode_lead c k bytes unichar :
  gdre.utf8_skip c = Some k ->
  gdre.detect_utf8_decode (c :: bytes) 0 unichar
  = gdre.detect_utf8_decode bytes k (gdre.utf8_lead_bits k c).
Proof. intros Hk. cbn [gdre.detect_utf8_decode Z.eqb]. now rewrite Hk. Qed.

Lemma decode_continuation c bytes skip unichar :
  128 <= c < 192 -> skip <> 0 -> 0 <= unichar < 2 ^ 26 ->
  gdre.detect_utf8_decode (c :: bytes) skip unichar
  = let unichar' := unichar * 64 + (c - 128) in
    if skip - 1 =? 0 then
      if unichar' =? 0 then false
      else if (55296 <=? unichar') && (unichar' <=? 57343) then false
      else if 1114111 <? unichar' then false
      else gdre.detect_utf8_decode bytes (skip - 1) unichar'
    else gdre.detect_utf8_decode bytes (skip - 1) unichar'.
Proof.
  intros Hc Hskip Hu. cbn [gdre.detect_utf8_decode].
  destruct (Z.eqb_spec skip 0); [done |].
  destruct (Z.ltb_spec c 128); [lia |]. destruct (Z.ltb_spec 191 c); [lia |].
  cbn [orb]. rewrite Z.shiftl_mul_pow2 by lia. change (2 ^ 6) with 64.
  rewrite Z.mod_small by lia.
  rewrite (continuation_bits c Hc), lor_low by lia. cbv zeta.
  rewrite surrogate_test by lia. reflexivity.
Qed.

Lemma encode_char_length cp : 1 <= len_bytes (utf8_encode_char cp) <= 4.
Proof.
  unfold utf8_encode_char.
  destruct (cp <? 128), (cp <? 2048), (cp <? 65536); vm_compute; split; discriminate.
Qed.

(** The first loop walks over the encoding of a code point. *)
Lemma scan_encoded cp rest c_start n m :
  0 < cp <= 1114111 ->
  exists c_start',
    gdre.detect_utf8_scan (utf8_encode_char cp ++ rest) 0 c_start n m
    = gdre.detect_utf8_scan rest 0 c_start' (n + len_bytes (utf8_encode_char cp)) (m + 1).
Proof.
  intros Hcp. unfold utf8_encode_char.
  destruct (Z.ltb_spec cp 128) as [H1 | H1];
    [| destruct (Z.ltb_spec cp 2048) as [H2 | H2];
       [| destruct (Z.ltb_spec cp 65536) as [H3 | H3]]].
  - exists cp. cbn [app]. apply scan_lead; [lia | | discriminate].
    rewrite utf8_skip_lead by lia. destruct (Z.ltb_spec cp 128); [reflexivity | lia].
  - exists (192 + cp / 64). cbn [app].
    assert (194 <= 192 + cp / 64 < 224) as Hlead by (Z.div_mod_to_equations; lia).
    assert (128 <= 128 + cp mod 64 < 192) as Hc2 by (Z.div_mod_to_equations; lia).
    rewrite (scan_lead _ 1).
    + rewrite scan_continuation; [| exact Hc2 | lia |].
      * f_equal; unfold len_bytes; cbn [length]; lia.
      * unfold announces_overlong. lia.
    + lia.
    + rewrite utf8_skip_lead by lia.
      repeat match goal with |- context [?a <? ?b] => destruct (Z.ltb_spec a b); try lia end.
      reflexivity.
    + intros _ Hzero. apply Z.eqb_eq in Hzero.
      rewrite overlong_two_bytes in Hzero by lia. apply Z.ltb_lt in Hzero. lia.
  - exists (224 + cp / 4096). cbn [app].
    assert (224 <= 224 + cp / 4096 < 240) as Hlead by (Z.div_mod_to_equations; lia).
    assert (128 <= 128 + (cp / 64) mod 64 < 192) as Hc2 by (Z.div_mod_to_equations; lia).
    assert (128 <= 128 + cp mod 64 < 192) as Hc3 by (Z.div_mod_to_equations; lia).
    rewrite (scan_lead _ 2).
    + rewrite scan_continuation; [| exact Hc2 | lia |].
      * rewrite scan_continuation; [| exact Hc3 | lia |].
        -- f_equal; unfold len_bytes; cbn [length]; lia.
        -- unfold announces_overlong. lia.
      * unfold announces_overlong. Z.div_mod_to_equations. lia.
    + lia.
    + rewrite utf8_skip_lead by lia.
      repeat match goal with |- context [?a <? ?b] => destruct (Z.ltb_spec a b); try lia end.
      reflexivity.
    + discriminate.
  - exists (240 + cp / 262144). cbn [app].
    assert (240 <= 240 + cp / 262144 < 245) as Hlead by (Z.div_mod_to_equations; lia).
    assert (128 <= 128 + (cp / 4096) mod 64 < 192) as Hc2
      by (Z.div_mod_to_equations; lia).
    assert (128 <= 128 + (cp / 64) mod 64 < 192) as Hc3 by (Z.div_mod_to_equations; lia).
    assert (128 <= 128 + cp mod 64 < 192) as Hc4 by (Z.div_mod_to_equations; lia).
    rewrite (scan_lead _ 3).
    + rewrite scan_continuation; [| exact Hc2 | lia |].
      * rewrite scan_continuation; [| exact Hc3 | lia |].
        -- rewrite scan_continuation; [| exact Hc4 | lia |].
           ++ f_equal; unfold len_bytes; cbn [length]; lia.
           ++ unfold announces_overlong. lia.
        -- unfold announces_overlong. lia.
      * unfold announces_overlong. Z.div_mod_to_equations. lia.
    + lia.
    + rewrite utf8_skip_lead by lia.
      repeat match goal with |- context [?a <? ?b] => destruct (Z.ltb_spec a b); try lia end.
      reflexivity.
    + discriminate.
Qed.

(** The second loop decodes the encoding of a scalar value to the value and
    goes on. *)
Lemma decode_encoded cp rest unichar :
  unicode_scalar cp ->
  exists unichar',
    gdre.detect_utf8_decode (utf8_encode_char cp ++ rest) 0 unichar
    = gdre.detect_utf8_decode rest 0 unichar'.
Proof.
  intros [Hcp Hsur]. unfold utf8_encode_char.
  assert (forall u : Z, u = cp ->
            (if u =? 0 then false
             else if (55296 <=? u) && (u <=? 57343) then false
             else if 1114111 <? u then false
             else gdre.detect_utf8_decode rest 0 u)
            = gdre.detect_utf8_decode rest 0 cp) as Hlast.
  { intros u ->. destruct (Z.eqb_spec cp 0); [lia |].
    destruct (Z.leb_spec 55296 cp), (Z.leb_spec cp 57343); cbn [andb]; try lia;
      destruct (Z.ltb_spec 1114111 cp); try lia; reflexivity. }
  destruct (Z.ltb_spec cp 128) as [H1 | H1];
    [| destruct (Z.ltb_spec cp 2048) as [H2 | H2];
       [| destruct (Z.ltb_spec cp 65536) as [H3 | H3]]].
  - eexists. cbn [app]. apply (decode_lead _ 0).
    rewrite utf8_skip_lead by lia. destruct (Z.ltb_spec cp 128); [reflexivity | lia].
  - exists cp. cbn [app].
    assert (194 <= 192 + cp / 64 < 224) as Hlead by (Z.div_mod_to_equations; lia).
    assert (128 <= 128 + cp mod 64 < 192) as Hc2 by (Z.div_mod_to_equations; lia).
    rewrite (decode_lead _ 1).
    + rewrite (proj1 (lead_bits (192 + cp / 64) ltac:(lia))) by lia.
      rewrite decode_continuation; [| exact Hc2 | lia | Z.div_mod_to_equations; lia].
      cbv zeta. change (1 - 1 =? 0) with true. cbv iota.
      apply Hlast. Z.div_mod_to_equations. lia.
    + rewrite utf8_skip_lead by lia.
      repeat match goal with |- context [?a <? ?b] => destruct (Z.ltb_spec a b); try lia end.
      reflexivity.
  - exists cp. cbn [app].
    assert (224 <= 224 + cp / 4096 < 240) as Hlead by (Z.div_mod_to_equations; lia).
    assert (128 <= 128 + (cp / 64) mod 64 < 192) as Hc2 by (Z.div_mod_to_equations; lia).
    assert (128 <= 128 + cp mod 64 < 192) as Hc3 by (Z.div_mod_to_equations; lia).
    rewrite (decode_lead _ 2).
    + rewrite (proj1 (proj2 (lead_bits (224 + cp / 4096) ltac:(lia)))) by lia.
      rewrite decode_continuation; [| exact Hc2 | lia | Z.div_mod_to_equations; lia].
      cbv zeta. change (2 - 1 =? 0) with false. cbv iota.
      rewrite decode_continuation;
        [| exact Hc3 | lia | Z.div_mod_to_equations; lia].
      cbv zeta. change (2 - 1 - 1 =? 0) with true. cbv iota.
      apply Hlast. Z.div_mod_to_equations. lia.
    + rewrite utf8_skip_lead by lia.
      repeat match goal with |- context [?a <? ?b] => destruct (Z.ltb_spec a b); try lia end.
      reflexivity.
  - exists cp. cbn [app].
    assert (240 <= 240 + cp / 262144 < 245) as Hlead by (Z.div_mod_to_equations; lia).
    assert (128 <= 128 + (cp / 4096) mod 64 < 192) as Hc2
      by (Z.div_mod_to_equations; lia).
    assert (128 <= 128 + (cp / 64) mod 64 < 192) as Hc3 by (Z.div_mod_to_equations; lia).
    assert (128 <= 128 + cp mod 64 < 192) as Hc4 by (Z.div_mod_to_equations; lia).
    rewrite (decode_lead _ 3).
    + rewrite (proj2 (proj2 (lead_bits (240 + cp / 262144) ltac:(lia)))) by lia.
      rewrite decode_continuation; [| exact Hc2 | lia | Z.div_mod_to_equations; lia].
      cbv zeta. change (3 - 1 =? 0) with false. cbv iota.
      rewrite decode_continuation;
        [| exact Hc3 | lia | Z.div_mod_to_equations; lia].
      cbv zeta. change (3 - 1 - 1 =? 0) with false. cbv iota.
      rewrite decode_continuation;
        [| exact Hc4 | lia | Z.div_mod_to_equations; lia].
      cbv zeta. change (3 - 1 - 1 - 1 =? 0) with true. cbv iota.
      apply Hlast. Z.div_mod_to_equations. lia.
    + rewrite utf8_skip_lead by lia.
      repeat match goal with |- context [?a <? ?b] => destruct (Z.ltb_spec a b); try lia end.
      reflexivity.
Qed.

Lemma encode_cons cp cps : utf8_encode (cp :: cps) = utf8_encode_char cp ++ utf8_encode cps.
Proof. reflexivity. Qed.

Lemma scan_encode cps c_start n m :
  Forall (fun cp => 0 < cp <= 1114111) cps ->
  gdre.detect_utf8_scan (utf8_encode cps) 0 c_start n m
  = Some (n + len_bytes (utf8_encode cps), m + Z.of_nat (length cps)).
Proof.
  intros Hall. revert c_start n m.
  induction Hall as [| cp cps Hcp _ IH]; intros c_start n m.
  - change (Some (n, m) = Some (n + 0, m + 0)). now rewrite !Z.add_0_r.
  - rewrite encode_cons.
    destruct (scan_encoded cp (utf8_encode cps) c_start n m Hcp) as [c' ->].
    rewrite IH. unfold len_bytes. rewrite length_app. cbn [length]. f_equal. f_equal; lia.
Qed.

Lemma decode_encode cps unichar :
  Forall unicode_scalar cps -> gdre.detect_utf8_decode (utf8_encode cps) 0 unichar = true.
Proof.
  intros Hall. revert unichar.
  induction Hall as [| cp cps Hcp _ IH]; intros unichar; [reflexivity |].
  rewrite encode_cons.
  destruct (decode_encoded cp (utf8_encode cps) unichar Hcp) as [u' ->]. apply IH.
Qed.

Lemma detect_utf8_unfold p_utf8_buf :
  gdre.detect_utf8 p_utf8_buf
  = if len_bytes p_utf8_buf =? 0 then true
    else detect_utf8_body (if has_bom p_utf8_buf then drop 3 p_utf8_buf else p_utf8_buf).
Proof. reflexivity. Qed.

Lemma body_encode cps : Forall unicode_scalar cps -> detect_utf8_body (utf8_encode cps) = true.
Proof.
  intros Hall. unfold detect_utf8_body.
  rewrite scan_encode by (eapply Forall_impl; [exact Hall | intros cp [Hcp _]; exact Hcp]).
  destruct (_ =? 0); [reflexivity |].
  rewrite take_ge by (unfold len_bytes; lia). now apply decode_encode.
Qed.

End Utf8Facts.

(** [detect_utf8] accepts the UTF-8 encoding of every sequence of Unicode
    scalar values other than NUL, with or without a byte order mark in
    front. *)
Theorem detect_utf8_accepts_encoded (cps : list Z) :
  Forall unicode_scalar cps ->
  gdre.detect_utf8 (utf8_encode cps) = true
  /\ gdre.detect_utf8 (BOM ++ utf8_encode cps) = true.
Proof.
  assert (forall cps0, Forall unicode_scalar cps0 ->
            gdre.detect_utf8 (utf8_encode cps0) = true) as Hmain.
  { intros cps0 Hall. rewrite detect_utf8_unfold.
    destruct (len_bytes (utf8_encode cps0) =? 0); [reflexivity |].
    destruct (has_bom (utf8_encode cps0)) eqn:Hbom; [| now apply body_encode].
    unfold has_bom in Hbom.
    destruct Hall as [| cp cps1 Hcp Hall]; [discriminate |].
    rewrite encode_cons in *.
    apply andb_true_iff in Hbom. destruct Hbom as [Hbom _].
    apply andb_true_iff in Hbom. destruct Hbom as [Hbom _].
    apply andb_true_iff in Hbom. destruct Hbom as [_ Hfirst].
    apply Z.eqb_eq in Hfirst.
    assert (length (utf8_encode_char cp) = 3%nat) as Hlen.
    { destruct Hcp as [Hcp _]. revert Hfirst. unfold utf8_encode_char.
      destruct (Z.ltb_spec cp 128); [cbn; lia |].
      destruct (Z.ltb_spec cp 2048); [cbn; Z.div_mod_to_equations; lia |].
      destruct (Z.ltb_spec cp 65536); [reflexivity |].
      cbn. Z.div_mod_to_equations. lia. }
    rewrite drop_app_length' by (symmetry; exact Hlen). now apply body_encode. }
  intros Hall. split; [now apply Hmain |].
  change (BOM ++ utf8_encode cps) with (utf8_encode (65279 :: cps)).
  apply Hmain. constructor; [| exact Hall]. unfold unicode_scalar. lia.
Qed.

Lemma detect_utf8_accepts_encoded_witness :
  Forall unicode_scalar [75; 233; 8364; 128512]
  /\ utf8_encode [75; 233; 8364; 128512]
     = [75; 195; 169; 226; 130; 172; 240; 159; 152; 128]
  /\ gdre.detect_utf8 (utf8_encode [75; 233; 8364; 128512]) = true.
Proof.
  assert (Forall unicode_scalar [75; 233; 8364; 128512]) as Hall
    by (repeat constructor; lia).
  split; [exact Hall |]. split; [reflexivity |].
  exact (proj1 (detect_utf8_accepts_encoded [75; 233; 8364; 128512] Hall)).
Defined.

Section Utf8Rejects.
Implicit Types (c skip c_start : Z) (bytes pre post : list Z).

(** The first loop does not get past a byte that is never valid. *)
Lemma scan_never_valid pre b post skip c_start n m :
  0 ∉ pre -> never_valid b ->
  gdre.detect_utf8_scan (pre ++ b :: post) skip c_start n m = None.
Proof.
  intros Hpre Hb. revert skip c_start n m.
  induction pre as [| c pre IH]; intros skip c_start n m; cbn [app gdre.detect_utf8_scan].
  - assert (b <> 0) as Hb0 by (destruct Hb as [-> | [-> | [-> | ->]]]; discriminate).
    destruct (Z.eqb_spec b 0); [done |].
    destruct (skip =? 0).
    + destruct Hb as [-> | [-> | [-> | ->]]]; reflexivity.
    + destruct (_ || _); [reflexivity |].
      assert (((b <? 128) || (191 <? b)) = true) as ->; [| reflexivity].
      destruct Hb as [-> | [-> | [-> | ->]]]; reflexivity.
  - assert (c <> 0) as Hc by (intros ->; apply Hpre, list_elem_of_here).
    assert (0 ∉ pre) as Hpre' by (intros Hin; now apply Hpre, list_elem_of_further).
    destruct (Z.eqb_spec c 0); [done |].
    destruct (skip =? 0).
    + destruct (gdre.utf8_skip c) as [skip' |]; [| reflexivity].
      destruct (_ && _); [reflexivity | now apply IH].
    + destruct (_ || _); [reflexivity |].
      destruct (_ || _); [reflexivity | now apply IH].
Qed.

(** The result of the first loop: the bytes counted are bytes of the
    buffer, and the characters counted are among them. *)
Lemma scan_bounds bytes skip c_start n m n' m' :
  gdre.detect_utf8_scan bytes skip c_start n m = Some (n', m') ->
  n <= n' <= n + len_bytes bytes /\ m <= m'.
Proof.
  revert skip c_start n m.
  induction bytes as [| c bytes IH]; intros skip c_start n m; cbn [gdre.detect_utf8_scan].
  - intros [= <- <-]. unfold len_bytes. cbn. lia.
  - unfold len_bytes in *. cbn [length].
    destruct (c =? 0); [intros [= <- <-]; lia |].
    destruct (skip =? 0).
    + destruct (gdre.utf8_skip c) as [skip' |]; [| discriminate].
      destruct (_ && _); [discriminate |]. intros Hs. apply IH in Hs. lia.
    + destruct (_ || _); [discriminate |].
      destruct (_ || _); [discriminate |]. intros Hs. apply IH in Hs. lia.
Qed.

(** The first loop on a part of the buffer: it stops where it stops on the
    whole buffer, or at the end of the part. *)
Lemma scan_prefix x y skip c_start n m n' m' :
  gdre.detect_utf8_scan (x ++ y) skip c_start n m = Some (n', m') ->
  exists n1 m1,
    gdre.detect_utf8_scan x skip c_start n m = Some (n1, m1)
    /\ n1 <= n' /\ m1 <= m'.
Proof.
  revert skip c_start n m.
  induction x as [| c x IH]; intros skip c_start n m; cbn [app gdre.detect_utf8_scan].
  - intros Hs. apply scan_bounds in Hs. exists n, m. split; [reflexivity | lia].
  - destruct (c =? 0); [intros [= <- <-]; exists n, m; split; [reflexivity | lia] |].
    destruct (skip =? 0).
    + destruct (gdre.utf8_skip c) as [skip' |]; [| discriminate].
      destruct (_ && _); [discriminate | apply IH].
    + destruct (_ || _); [discriminate |].
      destruct (_ || _); [discriminate | apply IH].
Qed.

(** The second loop accepts every part of what it accepts. *)
Lemma decode_prefix u v skip unichar :
  gdre.detect_utf8_decode (u ++ v) skip unichar = true ->
  gdre.detect_utf8_decode u skip unichar = true.
Proof.
  revert skip unichar.
  induction u as [| c u IH]; intros skip unichar; [reflexivity |].
  cbn [app gdre.detect_utf8_decode].
  destruct (skip =? 0).
  - destruct (gdre.utf8_skip c) as [skip' |]; [apply IH | discriminate].
  - destruct (_ || _); [apply IH |].
    destruct (skip - 1 =? 0); [| apply IH].
    destruct (_ =? 0); [discriminate |].
    destruct (_ =? 55296); [discriminate |].
    destruct (1114111 <? _); [discriminate | apply IH].
Qed.

Lemma body_prefix x y : detect_utf8_body (x ++ y) = true -> detect_utf8_body x = true.
Proof.
  unfold detect_utf8_body.
  destruct (gdre.detect_utf8_scan (x ++ y) 0 0 0 0) as [[n' m'] |] eqn:Hs;
    [| discriminate].
  destruct (scan_prefix x y 0 0 0 0 n' m' Hs) as (n1 & m1 & Hx & Hn & Hm).
  rewrite Hx. pose proof (scan_bounds _ _ _ _ _ _ _ Hx) as [Hb1 Hb2].
  destruct (Z.eqb_spec m' 0) as [-> | _].
  - intros _. assert (m1 = 0) as -> by lia. reflexivity.
  - intros Hd. destruct (m1 =? 0); [reflexivity |].
    apply (decode_prefix _ (drop (Z.to_nat n1) (take (Z.to_nat n') (x ++ y)))).
    assert (take (Z.to_nat n1) x = take (Z.to_nat n1) (take (Z.to_nat n') (x ++ y)))
      as ->.
    { rewrite take_take, Nat.min_l by lia. rewrite take_app_le; [reflexivity |].
      unfold len_bytes in Hb1. lia. }
    now rewrite take_drop.
Qed.

(** The first loop stops at a NUL byte whatever comes after it. *)
Lemma scan_nul x y y' skip c_start n m :
  gdre.detect_utf8_scan (x ++ 0 :: y) skip c_start n m
  = gdre.detect_utf8_scan (x ++ 0 :: y') skip c_start n m.
Proof.
  revert skip c_start n m.
  induction x as [| c x IH]; intros skip c_start n m; cbn [app gdre.detect_utf8_scan].
  - reflexivity.
  - destruct (c =? 0); [reflexivity |].
    destruct (skip =? 0).
    + destruct (gdre.utf8_skip c) as [skip' |]; [| reflexivity].
      destruct (_ && _); [reflexivity | apply IH].
    + destruct (_ || _); [reflexivity |].
      destruct (_ || _); [reflexivity | apply IH].
Qed.

Lemma scan_nul_bound x y skip c_start n m n' m' :
  gdre.detect_utf8_scan (x ++ 0 :: y) skip c_start n m = Some (n', m') ->
  n <= n' <= n + len_bytes x.
Proof.
  revert skip c_start n m.
  induction x as [| c x IH]; intros skip c_start n m; cbn [app gdre.detect_utf8_scan].
  - intros [= <- <-]. unfold len_bytes. cbn. lia.
  - unfold len_bytes in *. cbn [length].
    destruct (c =? 0); [intros [= <- <-]; lia |].
    destruct (skip =? 0).
    + destruct (gdre.utf8_skip c) as [skip' |]; [| discriminate].
      destruct (_ && _); [discriminate |]. intros Hs. apply IH in Hs. lia.
    + destruct (_ || _); [discriminate |].
      destruct (_ || _); [discriminate |]. intros Hs. apply IH in Hs. lia.
Qed.

Lemma body_nul x y : detect_utf8_body (x ++ 0 :: y) = detect_utf8_body (x ++ [0]).
Proof.
  unfold detect_utf8_body. rewrite (scan_nul x y []).
  destruct (gdre.detect_utf8_scan (x ++ [0]) 0 0 0 0) as [[n' m'] |] eqn:Hs;
    [| reflexivity].
  apply scan_nul_bound in Hs. unfold len_bytes in Hs.
  destruct (m' =? 0); [reflexivity |].
  now rewrite !take_app_le by lia.
Qed.

Lemma has_bom_take buf : has_bom buf = true -> take 3 buf = BOM.
Proof.
  unfold has_bom, len_bytes. intros Hb.
  repeat (apply andb_true_iff in Hb; destruct Hb as [Hb ?]).
  repeat match goal with H : (_ =? _) = true |- _ => apply Z.eqb_eq in H end.
  apply Z.leb_le in Hb.
  destruct buf as [| a [| b [| c buf]]]; cbn [length] in Hb; try lia.
  cbn in *. now subst.
Qed.

Lemma has_bom_of_take buf : take 3 buf = BOM -> has_bom buf = true.
Proof.
  destruct buf as [| a [| b [| c buf]]]; try discriminate.
  cbn [take]. intros [= -> -> ->]. unfold has_bom, len_bytes. cbn [length nth].
  rewrite !Z.eqb_refl, !andb_true_r. apply Z.leb_le. lia.
Qed.

Lemma has_bom_app x y : (3 <= length x)%nat -> has_bom (x ++ y) = has_bom x.
Proof.
  intros Hlen.
  destruct (has_bom x) eqn:Hx.
  - apply has_bom_of_take. rewrite take_app_le by lia. now apply has_bom_take.
  - apply not_true_is_false. intros Hxy. apply has_bom_take in Hxy.
    rewrite take_app_le in Hxy by lia. apply has_bom_of_take in Hxy. congruence.
Qed.

End Utf8Rejects.

(** [detect_utf8] rejects every buffer that holds, before its first NUL
    byte, one of the bytes 0xC0, 0xC1, 0xFE and 0xFF. *)
Theorem detect_utf8_rejects_never_valid (pre : list Z) (b : Z) (post : list Z) :
  0 ∉ pre -> never_valid b -> gdre.detect_utf8 (pre ++ b :: post) = false.
Proof.
  intros Hpre Hb. rewrite detect_utf8_unfold.
  assert (len_bytes (pre ++ b :: post) =? 0 = false) as ->.
  { apply Z.eqb_neq. unfold len_bytes. rewrite length_app. cbn [length]. lia. }
  assert (forall x, 0 ∉ x -> detect_utf8_body (x ++ b :: post) = false) as Hbody.
  { intros x Hx. unfold detect_utf8_body. now rewrite scan_never_valid. }
  destruct (has_bom (pre ++ b :: post)) eqn:Hbom; [| now apply Hbody].
  apply has_bom_take in Hbom.
  assert (3 <= length pre)%nat as Hlen.
  { destruct pre as [| p0 [| p1 [| p2 pre]]]; cbn in Hbom; [| | | cbn; lia];
      injection Hbom as; subst;
      destruct Hb as [Hb | [Hb | [Hb | Hb]]]; discriminate. }
  rewrite drop_app_le by exact Hlen. apply Hbody.
  intros Hin. apply Hpre. eapply elem_of_sublist; [exact Hin | apply sublist_drop].
Qed.

Lemma detect_utf8_rejects_never_valid_witness :
  0 ∉ [104; 105] /\ never_valid 255
  /\ gdre.detect_utf8 ([104; 105] ++ 255 :: [33]) = false.
Proof.
  assert (0 ∉ [104; 105]) as Hpre by by_decide.
  assert (never_valid 255) as Hb by (unfold never_valid; tauto).
  split; [exact Hpre |]. split; [exact Hb |].
  exact (detect_utf8_rejects_never_valid [104; 105] 255 [33] Hpre Hb).
Defined.

(** [detect_utf8] accepts every beginning of a buffer that it accepts, so a
    buffer that was cut in the middle of a character passes. *)
Theorem detect_utf8_prefix_closed (a b : list Z) :
  gdre.detect_utf8 (a ++ b) = true -> gdre.detect_utf8 a = true.
Proof.
  rewrite !detect_utf8_unfold.
  destruct (Z.eqb_spec (len_bytes a) 0) as [_ | Ha]; [reflexivity |].
  assert (len_bytes (a ++ b) =? 0 = false) as ->.
  { apply Z.eqb_neq. unfold len_bytes in *. rewrite length_app. lia. }
  destruct (decide (3 <= length a)%nat) as [Hlong | Hshort].
  - rewrite (has_bom_app a b Hlong).
    destruct (has_bom a); [| apply body_prefix].
    rewrite drop_app_le by exact Hlong. apply body_prefix.
  - assert (has_bom a = false) as ->.
    { unfold has_bom, len_bytes. destruct (Z.leb_spec 3 (Z.of_nat (length a))); [lia |].
      reflexivity. }
    destruct (has_bom (a ++ b)) eqn:Hbom; [| apply body_prefix].
    apply has_bom_take in Hbom. intros _.
    destruct a as [| a0 [| a1 [| a2 a]]]; cbn [length] in *; try lia.
    + unfold len_bytes in Ha. cbn in Ha. lia.
    + injection Hbom as -> _. reflexivity.
    + injection Hbom as -> -> _. reflexivity.
Qed.

Lemma detect_utf8_prefix_closed_witness :
  gdre.detect_utf8 ([226; 130] ++ [172]) = true /\ gdre.detect_utf8 [226; 130] = true.
Proof.
  assert (gdre.detect_utf8 ([226; 130] ++ [172]) = true) as Hall by reflexivity.
  split; [exact Hall |].
  exact (detect_utf8_prefix_closed [226; 130] [172] Hall).
Defined.

(** [detect_utf8] does not look beyond the first NUL byte: what follows it
    does not change the answer, and bytes that are not UTF-8 pass behind
    it. *)
Theorem detect_utf8_stops_at_nul (a b : list Z) :
  gdre.detect_utf8 (a ++ 0 :: b) = gdre.detect_utf8 (a ++ [0])
  /\ gdre.detect_utf8 (utf8_encode [75] ++ 0 :: [255; 254]) = true.
Proof.
  split; [| reflexivity].
  rewrite !detect_utf8_unfold.
  assert (forall y, len_bytes (a ++ 0 :: y) =? 0 = false) as Hlen.
  { intros y. apply Z.eqb_neq. unfold len_bytes. rewrite length_app. cbn [length]. lia. }
  rewrite !Hlen.
  destruct (decide (3 <= length a)%nat) as [Hlong | Hshort].
  - rewrite !(has_bom_app a _ Hlong).
    destruct (has_bom a); [| apply body_nul].
    rewrite !drop_app_le by exact Hlong. apply body_nul.
  - assert (forall y, has_bom (a ++ 0 :: y) = false) as Hno.
    { intros y. apply not_true_is_false. intros Hbom. apply has_bom_take in Hbom.
      destruct a as [| a0 [| a1 [| a2 a]]]; cbn [length] in *; try lia;
        discriminate. }
    rewrite !Hno. apply body_nul.
Qed.

(** ** The prefix common to all keys *)

Section CommonPrefixFacts.
Implicit Types (keys : list String) (prefix s : String) (i : Z) (c : char32).

Notation common keys prefix :=
  (forall s, s ∈ keys -> s <> [] -> prefix `prefix_of` s).

Lemma char_at_app prefix c rest : char_at (prefix ++ c :: rest) (len prefix) = c.
Proof.
  unfold char_at, len. rewrite Nat2Z.id. rewrite app_nth2 by lia.
  now rewrite Nat.sub_diag.
Qed.

Lemma prefix_snoc prefix s :
  prefix `prefix_of` s -> len prefix < len s ->
  (prefix ++ [char_at s (len prefix)]) `prefix_of` s.
Proof.
  intros [rest ->] Hlen. unfold len in Hlen. rewrite length_app in Hlen.
  destruct rest as [| c rest]; [cbn in Hlen; lia |].
  rewrite char_at_app. exists rest. now rewrite <- app_assoc.
Qed.

(** [add_to_prefix_func] finds the character that follows the prefix in
    every key, if there is one. *)
Lemma add_to_prefix_func_some keys prefix c :
  common keys prefix ->
  add_to_prefix_func keys (len prefix) = Some c ->
  c <> 0%N /\ common keys (prefix ++ [c]).
Proof.
  intros Hcommon. unfold add_to_prefix_func.
  match goal with |- context [list_find ?P keys] =>
    destruct (list_find P keys) as [[j s0] |]; [| discriminate] end.
  destruct (len s0 - 1 <? len prefix); [discriminate |].
  destruct (N.eqb_spec (char_at s0 (len prefix)) 0); [discriminate |].
  destruct (forallb _ keys) eqn:Hall; [| discriminate].
  intros [= <-]. split; [assumption |].
  intros s Hs Hne. rewrite forallb_forall in Hall.
  specialize (Hall s (proj1 (list_elem_of_In _ _) Hs)).
  destruct s as [| c1 s]; [done |]. cbn [is_empty orb] in Hall.
  apply negb_true_iff, orb_false_iff in Hall. destruct Hall as [Hlen Hc].
  apply Z.ltb_ge in Hlen. apply negb_false_iff, N.eqb_eq in Hc.
  rewrite <- Hc. apply prefix_snoc; [now apply Hcommon | lia].
Qed.

Lemma add_to_prefix_func_none keys prefix c :
  add_to_prefix_func keys (len prefix) = None ->
  c <> 0%N -> (exists s, s ∈ keys /\ s <> []) -> ~ common keys (prefix ++ [c]).
Proof.
  unfold add_to_prefix_func. intros Hnone Hc (s1 & Hs1 & Hne1) Hcommon.
  assert (forall s, s ∈ keys -> s <> [] ->
            len prefix <= len s - 1 /\ char_at s (len prefix) = c) as Hat.
  { intros s Hs Hne. destruct (Hcommon s Hs Hne) as [rest ->].
    rewrite <- app_assoc. cbn [app]. rewrite char_at_app. split; [| reflexivity].
    unfold len. rewrite length_app. cbn [length]. lia. }
  match type of Hnone with context [list_find ?P keys] =>
    destruct (list_find P keys) as [[j s0] |] eqn:Hfind end.
  - apply list_find_Some in Hfind. destruct Hfind as (Hj & Hne0 & _).
    apply list_elem_of_lookup_2 in Hj.
    destruct (Hat s0 Hj Hne0) as [Hlen0 Hc0].
    destruct (Z.ltb_spec (len s0 - 1) (len prefix)); [lia |].
    rewrite Hc0 in Hnone. destruct (N.eqb_spec c 0); [done |].
    destruct (forallb _ keys) eqn:Hall; [discriminate |].
    apply not_true_iff_false in Hall. apply Hall, forallb_forall. intros s Hs.
    apply list_elem_of_In in Hs. destruct s as [| c1 s]; [reflexivity |].
    cbn [is_empty orb]. destruct (Hat (c1 :: s) Hs ltac:(discriminate)) as [Hlen Hcs].
    apply negb_true_iff, orb_false_iff. split.
    + apply Z.ltb_ge. lia.
    + apply negb_false_iff, N.eqb_eq. exact Hcs.
  - apply list_find_None in Hfind. rewrite Forall_forall in Hfind.
    now apply (Hfind s1 Hs1).
Qed.

Lemma find_common_prefix_from_spec (n : nat) keys prefix :
  common keys prefix -> 0%N ∉ prefix ->
  let r := find_common_prefix_from n (len prefix) keys prefix in
  common keys r /\ 0%N ∉ r /\ len prefix <= len r <= len prefix + Z.of_nat n
  /\ (len r < len prefix + Z.of_nat n ->
      forall c, c <> 0%N -> (exists s, s ∈ keys /\ s <> []) -> ~ common keys (r ++ [c])).
Proof.
  revert prefix. induction n as [| n IH]; intros prefix Hcommon Hnul;
    cbn [find_common_prefix_from].
  - cbv zeta. split; [exact Hcommon |]. split; [exact Hnul |]. split; lia.
  - destruct (add_to_prefix_func keys (len prefix)) as [c |] eqn:Hadd.
    + destruct (add_to_prefix_func_some keys prefix c Hcommon Hadd) as [Hc Hcommon'].
      assert (len (prefix ++ [c]) = len prefix + 1) as Hlen
        by (unfold len; rewrite length_app; cbn [length]; lia).
      rewrite <- Hlen.
      assert (0%N ∉ prefix ++ [c]) as Hnul'.
      { intros Hin. apply elem_of_app in Hin. destruct Hin as [Hin | Hin]; [tauto |].
        apply list_elem_of_singleton in Hin. congruence. }
      destruct (IH (prefix ++ [c]) Hcommon' Hnul') as (H1 & H2 & H3 & H4).
      split; [exact H1 |]. split; [exact H2 |]. split; [lia |].
      intros Hlt. apply H4. lia.
    + cbv zeta. split; [exact Hcommon |]. split; [exact Hnul |]. split; [lia |].
      intros _ c Hc Hex. now apply add_to_prefix_func_none.
Qed.

End CommonPrefixFacts.

(** [find_common_prefix] returns a prefix of every key of the table that is
    not empty, of at most 100 characters and without a NUL character, and
    the longest such: when it is shorter than 100 characters, no character
    but NUL can be added to it. *)
Theorem find_common_prefix_longest (key_to_msg : list (String * String)) :
  let prefix := find_common_prefix key_to_msg in
  (forall key, key ∈ key_to_msg.*1 -> key <> [] -> prefix `prefix_of` key)
  /\ len prefix <= 100
  /\ 0%N ∉ prefix
  /\ (len prefix < 100 ->
      forall c, c <> 0%N -> (exists key, key ∈ key_to_msg.*1 /\ key <> []) ->
                ~ forall key, key ∈ key_to_msg.*1 -> key <> [] ->
                              (prefix ++ [c]) `prefix_of` key).
Proof.
  unfold find_common_prefix.
  destruct key_to_msg as [| e key_to_msg]; cbn [length Nat.eqb].
  - cbv zeta. split; [intros key Hin; by apply elem_of_nil in Hin |].
    split; [unfold len; cbn [length]; lia |]. split; [apply not_elem_of_nil |].
    intros _ c _ (key & Hin & _). by apply elem_of_nil in Hin.
  - destruct (find_common_prefix_from_spec 100 (e :: key_to_msg).*1 [])
      as (H1 & H2 & H3 & H4).
    + intros s _ _. apply prefix_nil.
    + apply not_elem_of_nil.
    + change (len []) with 0 in *. cbv zeta in *.
      split; [exact H1 |]. split; [lia |]. split; [exact H2 |].
      intros Hlt. apply H4. lia.
Qed.

(** ** Numeric suffixes *)

Section NumberFacts.
Implicit Types (s base num : String) (n : Z).

Notation digit c := (is_digit c = true).

Lemma lit_uint_digits (d : Decimal.uint) : Forall (fun c => digit c) (lit (NilEmpty.string_of_uint d)).
Proof. induction d; cbn; constructor; first [reflexivity | assumption]. Qed.

Lemma digits_all n : Forall (fun c => digit c) (digits n).
Proof. apply lit_uint_digits. Qed.

Lemma digits_nonempty n : digits n <> [].
Proof.
  unfold digits. destruct (Z.to_N n) as [| p]; [discriminate |].
  cbn [N.to_uint]. pose proof (DecimalPos.Unsigned.to_uint_nonnil p) as Hnil.
  destruct (Pos.to_uint p); [done | discriminate ..].
Qed.

Lemma repeat_zero_digits (k : nat) : Forall (fun c => digit c) (repeat 48%N k).
Proof. induction k; cbn; constructor; first [reflexivity | assumption]. Qed.

Lemma to_number_zeros (k : nat) s : to_number (repeat 48%N k ++ s) = to_number s.
Proof.
  unfold to_number. induction k as [| k IH]; [reflexivity |].
  cbn [repeat app map string_of_list_ascii]. change (ascii_of_N 48) with "0"%char.
  cbn [NilEmpty.uint_of_string]. revert IH.
  destruct (NilEmpty.uint_of_string _) as [d |]; cbn; [| now intros <-].
  now intros <-.
Qed.

Lemma to_number_digits n : 0 <= n -> to_number (digits n) = Some (Z.to_N n).
Proof.
  intros _. unfold to_number, digits, lit.
  rewrite map_map.
  rewrite (map_ext _ id) by (intros a; apply ascii_N_embedding).
  rewrite map_id, string_of_list_ascii_of_string, NilEmpty.usu. cbn.
  now rewrite DecimalN.Unsigned.of_to.
Qed.

Lemma zero_pad_spec w n :
  0 <= n ->
  zero_pad w n = repeat 48%N (Z.to_nat (w - len (digits n))) ++ digits n
  /\ len (zero_pad w n) = Z.max w (len (digits n)).
Proof.
  intros Hn. unfold zero_pad. destruct (Z.ltb_spec n 0); [lia |].
  split; [reflexivity |]. unfold len. rewrite length_app, repeat_length.
  change char32 with N in *. lia.
Qed.

Lemma cs_num_zero_pad n z : cs_num n z = zero_pad (cs_num_width z) n.
Proof.
  unfold cs_num, cs_num_width.
  destruct (Z.ltb_spec 0 z); [| reflexivity].
  repeat match goal with |- context [?a =? ?b] => destruct (Z.eqb_spec a b); [subst; reflexivity |] end.
  rewrite Z.min_r by lia. reflexivity.
Qed.

(** The loop of [try_strip_numeric_suffix] after its first round. *)
Lemma strip_digits_spec s (fuel : nat) (nl : nat) :
  (1 <= nl <= length s)%nat -> (nl <= fuel)%nat ->
  Forall (fun c => digit c) (drop nl s) ->
  let r := strip_digits fuel s (Z.of_nat nl) (char_at s (Z.of_nat nl - 1)) true in
  (r = (false, 0) /\ Forall (fun c => digit c) s)
  \/ (exists k : nat,
        r = (true, Z.of_nat k) /\ (1 <= k <= nl)%nat
        /\ Forall (fun c => digit c) (drop k s)
        /\ is_digit (char_at s (Z.of_nat k - 1)) = false).
Proof.
  revert nl. induction fuel as [| fuel IH]; intros nl Hnl Hfuel Hdig; [lia |].
  cbn [strip_digits].
  destruct (is_digit (char_at s (Z.of_nat nl - 1))) eqn:Hlast.
  - assert (drop (nl - 1) s = char_at s (Z.of_nat nl - 1) :: drop nl s) as Hdrop.
    { unfold char_at. replace (Z.to_nat (Z.of_nat nl - 1)) with (nl - 1)%nat by lia.
      destruct (lookup_lt_is_Some_2 s (nl - 1)) as [c Hc]; [lia |].
      rewrite (drop_S _ c _ Hc). replace (S (nl - 1)) with nl by lia.
      f_equal. symmetry. now apply nth_lookup_Some. }
    destruct (Z.eqb_spec (Z.of_nat nl - 1) 0) as [Hz | Hnz].
    + left. split; [now rewrite Hz |].
      assert (nl = 1)%nat as -> by lia. cbn [Nat.sub] in Hdrop.
      change (Forall (fun c => digit c) (drop 0 s)). rewrite Hdrop.
      constructor; assumption.
    + replace (Z.of_nat nl - 1) with (Z.of_nat (nl - 1)) by lia.
      destruct (IH (nl - 1)%nat) as [Hall | (k & Hr & Hk & Hd & Hl)].
      * lia.
      * lia.
      * rewrite Hdrop. constructor; assumption.
      * now left.
      * right. exists k. split; [exact Hr |]. split; [lia |]. now split.
  - right. exists nl. split; [reflexivity |]. split; [lia |]. now split.
Qed.

End NumberFacts.

(** The two ways [try_strip_numeric_suffix] returns. *)
Lemma try_strip_numeric_suffix_cases (s : String) (magnitude : Z) :
  let r := try_strip_numeric_suffix s magnitude in
  (r = (s, if is_empty s then magnitude else -1)
   /\ (s = [] \/ is_digit (char_at s (len s - 1)) = false
       \/ Forall (fun c => is_digit c = true) s))
  \/ (exists num,
        s = r.1 ++ num /\ num <> [] /\ Forall (fun c => is_digit c = true) num
        /\ r.1 <> [] /\ is_digit (char_at r.1 (len r.1 - 1)) = false
        /\ r.2 = leading_zeros num /\ 0 <= r.2 <= len num).
Proof.
  unfold try_strip_numeric_suffix, String_size.
  destruct s as [| c0 s0]; [left; split; [reflexivity | now left] |].
  remember (c0 :: s0) as s eqn:Hs. cbn [is_empty].
  assert (1 <= length s)%nat as Hlen by (subst s; cbn; lia).
  assert (is_empty s = false) as -> by now subst s.
  destruct (Z.ltb_spec (len s + 1) 2) as [Hshort | _]; [unfold len in Hshort; lia |].
  replace (len s + 1 - 2) with (len s - 1) by lia.
  cbn [strip_digits].
  destruct (is_digit (char_at s (len s - 1))) eqn:Hlast;
    [| left; split; [reflexivity | tauto]].
  replace (len s + 1 - 1) with (len s) by lia.
  destruct (Z.eqb_spec (len s) 0) as [Hz | _]; [unfold len in Hz; lia |].
  unfold len in *.
  destruct (strip_digits_spec s (length s) (length s))
    as [[Hr Hall] | (k & Hr & Hk & Hd & Hl)].
  - lia.
  - lia.
  - rewrite drop_all. constructor.
  - cbv zeta in Hr. rewrite Hr. left. split; [reflexivity | tauto].
  - cbv zeta in Hr. rewrite Hr. right. cbv beta iota. rewrite Nat2Z.id. cbn [fst snd].
    exists (drop k s).
    assert (k < length s)%nat as Hlt.
    { destruct (decide (k = length s)) as [-> | Hne]; [| lia]. congruence. }
    split; [now rewrite take_drop |].
    split; [intros Hnil; apply (f_equal length) in Hnil; rewrite length_drop in Hnil;
            cbn in Hnil; lia |].
    split; [exact Hd |].
    split; [intros Hnil; apply (f_equal length) in Hnil; rewrite length_take in Hnil;
            cbn in Hnil; lia |].
    split.
    + rewrite length_take, Nat.min_l by lia.
      unfold char_at in *. replace (Z.to_nat (Z.of_nat k - 1)) with (k - 1)%nat in * by lia.
      rewrite <- Hl. rewrite <- (take_drop k s) at 2. rewrite app_nth1; [reflexivity |].
      rewrite length_take. lia.
    + split; [reflexivity |].
      generalize (drop k s). intros l. induction l as [| a l IH]; cbn [leading_zeros].
      * cbn. lia.
      * cbn [length]. destruct (a =? 48)%N; lia.
Qed.

(** [try_strip_numeric_suffix] cuts the digits at the end of a string: the
    string is the result followed by digits, the result does not end in a
    digit, and [magnitude] is the number of zeros at the front of the
    digits.  A string that does not end in a digit, or that is all digits,
    is returned as it is, with the magnitude -1 (the empty string leaves
    [magnitude] as it was). *)
Theorem try_strip_numeric_suffix_spec (s : String) (magnitude : Z) :
  let r := try_strip_numeric_suffix s magnitude in
  (r = (s, if is_empty s then magnitude else -1)
   /\ (s = [] \/ is_digit (char_at s (len s - 1)) = false
       \/ Forall (fun c => is_digit c = true) s))
  \/ (exists num,
        s = r.1 ++ num /\ num <> [] /\ Forall (fun c => is_digit c = true) num
        /\ r.1 <> [] /\ is_digit (char_at r.1 (len r.1 - 1)) = false
        /\ r.2 = leading_zeros num /\ 0 <= r.2 <= len num).
Proof. apply try_strip_numeric_suffix_cases. Qed.

Section StripFacts.
Implicit Types (s base num l : String).

Lemma char_at_last (x l : String) :
  l <> [] -> char_at (x ++ l) (len (x ++ l) - 1) ∈ l.
Proof.
  intros Hl. unfold char_at, len. rewrite length_app.
  assert (0 < length l)%nat as Hpos by (destruct l; [done | cbn; lia]).
  replace (Z.to_nat (Z.of_nat (length x + length l) - 1))
    with (length x + (length l - 1))%nat by lia.
  rewrite app_nth2_plus. apply list_elem_of_In, nth_In. lia.
Qed.

Lemma leading_zeros_prefix num :
  exists rest, num = repeat 48%N (Z.to_nat (leading_zeros num)) ++ rest
               /\ 0 <= leading_zeros num.
Proof.
  induction num as [| c num (rest & IH & Hpos)]; cbn [leading_zeros].
  - exists []. split; [reflexivity | lia].
  - destruct (N.eqb_spec c 48) as [-> | _].
    + exists rest. replace (Z.to_nat (1 + leading_zeros num))
        with (S (Z.to_nat (leading_zeros num))) by lia.
      cbn [repeat app]. split; [now rewrite <- IH | lia].
    + exists (c :: num). split; [reflexivity | lia].
Qed.

End StripFacts.

(** Stripping gives back what a number was appended to: for a string that
    does not end in a digit and digits after it, [try_strip_numeric_suffix]
    returns the string and the number of zeros at the front of the digits;
    so it does for the text that [cs_num] writes for a number that is not
    negative. *)
Theorem strip_appended_number (base num : String) (magnitude : Z) :
  base <> [] -> is_digit (char_at base (len base - 1)) = false ->
  num <> [] -> Forall (fun c => is_digit c = true) num ->
  try_strip_numeric_suffix (base ++ num) magnitude = (base, leading_zeros num)
  /\ forall n z, 0 <= n ->
       try_strip_numeric_suffix (base ++ cs_num n z) magnitude
       = (base, leading_zeros (cs_num n z)).
Proof.
  intros Hbase Hlast.
  assert (forall num0, num0 <> [] -> Forall (fun c => is_digit c = true) num0 ->
            try_strip_numeric_suffix (base ++ num0) magnitude
            = (base, leading_zeros num0)) as Hmain.
  { clear num. intros num Hnum Hdig.
    assert (forall x l l', l <> [] -> Forall (fun c => is_digit c = true) (l ++ l') ->
              is_digit (char_at (x ++ l) (len (x ++ l) - 1)) = false -> False) as Hclash.
    { intros x l l' Hl Hall Hnd. pose proof (char_at_last x l Hl) as Hin.
      rewrite Forall_forall in Hall. rewrite Hall in Hnd; [discriminate |].
      apply elem_of_app. now left. }
    destruct (try_strip_numeric_suffix_cases (base ++ num) magnitude)
      as [[_ Hcase] | (num' & Heq & Hnum' & Hdig' & Hr & Hrlast & Hmag & _)].
    - exfalso. destruct Hcase as [Hnil | [Hnd | Hall]].
      + apply app_eq_nil in Hnil. tauto.
      + apply (Hclash base num [] Hnum); [now rewrite app_nil_r | exact Hnd].
      + apply Forall_app in Hall. destruct Hall as [Hall _].
        pose proof (char_at_last [] base Hbase) as Hin. cbn [app] in Hin.
        rewrite Forall_forall in Hall. rewrite Hall in Hlast; [discriminate | exact Hin].
    - destruct (try_strip_numeric_suffix (base ++ num) magnitude) as [r1 m1].
      cbn [fst snd] in *.
      apply app_eq_app in Heq. destruct Heq as [l [[Hb Hn] | [Hr1 Hn]]].
      + destruct l as [| c l].
        * rewrite app_nil_r in Hb. cbn [app] in Hn. now subst.
        * exfalso. subst base. apply (Hclash r1 (c :: l) num); [done | | exact Hlast].
          now rewrite <- Hn.
      + destruct l as [| c l].
        * rewrite app_nil_r in Hr1. cbn [app] in Hn. now subst.
        * exfalso. subst r1. apply (Hclash base (c :: l) num'); [done | | exact Hrlast].
          now rewrite <- Hn. }
  intros Hnum Hdig. split; [now apply Hmain |].
  intros n z Hn. apply Hmain.
  - rewrite cs_num_zero_pad, (proj1 (zero_pad_spec _ n Hn)).
    intros Hnil. apply app_eq_nil in Hnil. now apply (digits_nonempty n).
  - rewrite cs_num_zero_pad, (proj1 (zero_pad_spec _ n Hn)).
    apply Forall_app. split; [apply repeat_zero_digits | apply digits_all].
Qed.

Lemma strip_appended_number_witness :
  lit "Item" <> [] /\ is_digit (char_at (lit "Item") (len (lit "Item") - 1)) = false
  /\ lit "007" <> [] /\ Forall (fun c => is_digit c = true) (lit "007")
  /\ try_strip_numeric_suffix (lit "Item" ++ lit "007") (-1) = (lit "Item", 2)
  /\ try_strip_numeric_suffix (lit "Item" ++ cs_num 7 2) (-1) = (lit "Item", 2).
Proof.
  assert (lit "Item" <> []) as H1 by discriminate.
  assert (is_digit (char_at (lit "Item") (len (lit "Item") - 1)) = false) as H2
    by reflexivity.
  assert (lit "007" <> []) as H3 by discriminate.
  assert (Forall (fun c => is_digit c = true) (lit "007")) as H4
    by (repeat constructor).
  split; [exact H1 |]. split; [exact H2 |]. split; [exact H3 |]. split; [exact H4 |].
  destruct (strip_appended_number (lit "Item") (lit "007") (-1) H1 H2 H3 H4) as [Ha Hb].
  split; [exact Ha | exact (Hb 7 2 ltac:(lia))].
Defined.

(** [cs_num] writes a number that is not negative in decimal digits, with
    zeros in front up to the width [zero_prefix_len + 1], and up to 8 for
    every [zero_prefix_len] above 6; the text denotes the number. *)
Theorem cs_num_round_trip (num zero_prefix_len : Z) :
  0 <= num ->
  to_number (cs_num num zero_prefix_len) = Some (Z.to_N num)
  /\ Forall (fun c => is_digit c = true) (cs_num num zero_prefix_len)
  /\ len (cs_num num zero_prefix_len)
     = Z.max (cs_num_width zero_prefix_len) (len (digits num))
  /\ exists k : nat, cs_num num zero_prefix_len = repeat 48%N k ++ digits num.
Proof.
  intros Hn. rewrite cs_num_zero_pad.
  destruct (zero_pad_spec (cs_num_width zero_prefix_len) num Hn) as [Heq Hlen].
  split; [rewrite Heq, to_number_zeros; now apply to_number_digits |].
  split; [rewrite Heq; apply Forall_app; split;
          [apply repeat_zero_digits | apply digits_all] |].
  split; [exact Hlen |]. eexists. exact Heq.
Qed.

Lemma cs_num_round_trip_witness :
  0 <= 42
  /\ cs_num 42 3 = lit "0042" /\ cs_num 42 9 = lit "00000042" /\ cs_num 42 0 = lit "42"
  /\ to_number (cs_num 42 3) = Some 42%N.
Proof.
  assert (0 <= 42) as Hn by lia.
  split; [exact Hn |]. split; [reflexivity |]. split; [reflexivity |].
  split; [reflexivity |].
  exact (proj1 (cs_num_round_trip 42 3 Hn)).
Defined.

(** Stage 3.5 probes a stripped string with the zeros that
    [get_magnitude_prefix] writes for its magnitude: the stripped string
    followed by these zeros is a beginning of the string that was
    stripped. *)
Theorem magnitude_prefix_restores (s : String) :
  let r := try_strip_numeric_suffix s (-1) in
  (r.1 ++ get_magnitude_prefix r.2) `prefix_of` s /\ -1 <= r.2.
Proof.
  cbv zeta. split.
  - destruct (try_strip_numeric_suffix_cases s (-1))
      as [[Hr _] | (num & Heq & _ & _ & _ & _ & Hmag & _)].
    + rewrite Hr. cbn [fst snd]. destruct (is_empty s); cbn; rewrite app_nil_r; done.
    + unfold get_magnitude_prefix.
      destruct ((0 <=? _) && _); [| rewrite app_nil_r; exists num; exact Heq].
      destruct (leading_zeros_prefix num) as (rest & Hnum & _).
      rewrite Hmag. exists rest. rewrite <- app_assoc.
      etransitivity; [exact Heq |]. f_equal. exact Hnum.
  - destruct (try_strip_numeric_suffix_cases s (-1))
      as [[Hr _] | (num & _ & _ & _ & _ & _ & _ & Hpos)].
    + rewrite Hr. cbn [snd]. destruct (is_empty s); lia.
    + lia.
Qed.

(** ** Invariants of the Key Table *)

Section TableInvariant.
Context {eng : Engine} {tr : Translation}.
Variable Q : list (String * String) -> Prop.
Hypothesis Q_admit :
  forall t key msg, key <> [] -> key ∉ t.*1 -> Q t -> Q (t ++ [(key, msg)]).
Implicit Types (st : KeyWorker) (key msg : String).

(** A property of the table that admissions keep. *)
Notation inv st := (Q (key_to_message st)).

Lemma set_key_inv key msg st : inv st -> inv (snd (_set_key key msg st)).
Proof.
  intros Hs. unfold _set_key.
  destruct (is_empty key) eqn:Hkey; [exact Hs |].
  destruct (map_has (key_to_message st) key) eqn:Hhas; [exact Hs |].
  apply map_has_false in Hhas. cbn [snd].
  rewrite key_to_message_set, set_key_stuff_table, (map_assign_fresh _ _ _ Hhas).
  apply Q_admit; [now apply is_empty_false | exact Hhas | exact Hs].
Qed.

Lemma try_key_inv key st : inv st -> inv (snd (try_key key st)).
Proof.
  intros Hs. unfold try_key.
  destruct (is_empty key); [exact Hs |].
  destruct (is_empty (get_message_str key)); [exact Hs |].
  now apply set_key_inv.
Qed.

Lemma try_key_multipart_inv p1 p2 p3 p4 p5 p6 st :
  inv st -> inv (snd (try_key_multipart p1 p2 p3 p4 p5 p6 st)).
Proof.
  intros Hs. unfold try_key_multipart.
  destruct (negb _); [| exact Hs].
  pose proof (set_key_inv (combine_string p1 p2 p3 p4 p5 p6)
                (get_message_multipart_str p1 p2 p3 p4 p5 p6) st Hs) as Hp.
  now destruct (_set_key _ _ st).
Qed.

Lemma try_each_punctuation_inv ps (probe : String -> KeyWorker -> bool * KeyWorker) st :
  (forall p st, inv st -> inv (snd (probe p st))) ->
  inv st -> inv (snd (try_each_punctuation ps probe st)).
Proof.
  intros Hprobe. revert st.
  induction ps as [| p ps IH]; intros st Hs; simpl; [exact Hs |].
  pose proof (Hprobe p st Hs) as Hp.
  destruct (probe p st) as [hit st'] eqn:E. cbn [snd] in Hp.
  destruct hit; [exact Hp | now apply IH].
Qed.

Lemma try_key_prefix_inv prefix suffix st :
  inv st -> inv (snd (try_key_prefix prefix suffix st)).
Proof.
  intros Hs. unfold try_key_prefix.
  pose proof (try_key_multipart_inv prefix suffix [] [] [] [] st Hs) as Hp.
  destruct (try_key_multipart prefix suffix [] [] [] [] st) as [hit st'].
  cbn [snd] in Hp. destruct hit; [exact Hp |].
  apply try_each_punctuation_inv; [| exact Hp].
  intros p st0. apply try_key_multipart_inv.
Qed.

Lemma try_key_suffix_inv prefix suffix st :
  inv st -> inv (snd (try_key_suffix prefix suffix st)).
Proof. apply try_key_prefix_inv. Qed.

Lemma try_key_suffixes_inv prefix suffix suffix2 st :
  inv st -> inv (snd (try_key_suffixes prefix suffix suffix2 st)).
Proof.
  intros Hs. unfold try_key_suffixes.
  assert (inv (snd (try_key_suffixes_body prefix suffix suffix2 st))) as Hb.
  { unfold try_key_suffixes_body.
    destruct (is_empty suffix); [now apply try_key_suffix_inv |].
    pose proof (try_key_multipart_inv prefix suffix suffix2 [] [] [] st Hs) as Hp.
    destruct (try_key_multipart prefix suffix suffix2 [] [] [] st) as [hit st'].
    cbn [snd] in Hp. destruct hit; [exact Hp |].
    apply try_each_punctuation_inv; [| exact Hp].
    intros p st0. apply try_key_multipart_inv. }
  destruct (try_key_suffixes_body prefix suffix suffix2 st) as [hit st'].
  exact Hb.
Qed.

Lemma try_key_prefix_suffix_inv prefix key suffix st :
  inv st -> inv (snd (try_key_prefix_suffix prefix key suffix st)).
Proof.
  intros Hs. unfold try_key_prefix_suffix.
  pose proof (try_key_multipart_inv prefix key suffix [] [] [] st Hs) as Hp.
  destruct (try_key_multipart prefix key suffix [] [] [] st) as [hit st'].
  cbn [snd] in Hp. destruct hit; [exact Hp |].
  apply try_each_punctuation_inv; [| exact Hp].
  intros p st0. apply try_key_multipart_inv.
Qed.

Lemma try_numbers_inv n num res_s suffix z found st :
  inv st -> inv (snd (try_numbers n num res_s suffix z found st)).
Proof.
  revert num found st.
  induction n as [| n IH]; intros num found st Hs; simpl; [exact Hs |].
  pose proof (try_key_suffixes_inv res_s suffix (cs_num num z) st Hs) as Hp.
  destruct (try_key_suffixes res_s suffix (cs_num num z) st) as [hit st'].
  now apply IH.
Qed.

Lemma widen_numbers_inv fuel res_s suffix z min_num max_num st st' :
  inv st ->
  widen_numbers fuel res_s suffix z min_num max_num st = Some st' -> inv st'.
Proof.
  revert min_num max_num st.
  induction fuel as [| fuel IH]; intros min_num max_num st Hs; simpl; [discriminate |].
  pose proof (try_numbers_inv (Z.to_nat (max_num - min_num)) min_num res_s suffix z 0
                st Hs) as Hp.
  destruct (try_numbers _ min_num res_s suffix z 0 st) as [found st1].
  cbn [snd] in Hp.
  case_bool_decide; [discriminate |].
  case_bool_decide; [now apply IH |].
  now intros [= <-].
Qed.

Lemma try_num_suffix_inv res_s suffix skip st st' :
  inv st -> try_num_suffix res_s suffix skip st = Some st' -> inv st'.
Proof.
  intros Hs. unfold try_num_suffix.
  pose proof (try_key_suffixes_inv res_s suffix (lit "1") st Hs) as H1.
  destruct (try_key_suffixes res_s suffix (lit "1") st) as [found_num st1].
  cbn [snd] in H1.
  assert (forall z st2, inv st2 ->
            (let '(_, st) := try_key_suffixes res_s suffix (lit "N") st2 in
             let '(_, st) := try_key_suffixes res_s suffix (lit "n") st in
             let '(_, st) := try_key_suffixes res_s suffix (lit "0") st in
             widen_numbers 32 res_s suffix z (if skip then 0 else 2)
               (if skip then 10 else 4) st) = Some st' -> inv st') as Htail.
  { intros z st2 H2.
    pose proof (try_key_suffixes_inv res_s suffix (lit "N") st2 H2) as HN.
    destruct (try_key_suffixes res_s suffix (lit "N") st2) as [? stN]. cbn [snd] in HN.
    pose proof (try_key_suffixes_inv res_s suffix (lit "n") stN HN) as Hn.
    destruct (try_key_suffixes res_s suffix (lit "n") stN) as [? stn]. cbn [snd] in Hn.
    pose proof (try_key_suffixes_inv res_s suffix (lit "0") stn Hn) as H0.
    destruct (try_key_suffixes res_s suffix (lit "0") stn) as [? st0]. cbn [snd] in H0.
    now apply widen_numbers_inv. }
  destruct skip; cbn [negb].
  - rewrite orb_true_r. apply Htail, H1.
  - pose proof (try_key_suffixes_inv res_s suffix (lit "01") st1 H1) as H01.
    destruct (try_key_suffixes res_s suffix (lit "01") st1) as [hit01 st01].
    cbn [snd] in H01.
    destruct found_num, hit01; cbn [negb andb orb Z.eqb Z.ltb Z.compare];
      try (apply Htail, H01).
    pose proof (try_key_suffixes_inv res_s suffix (lit "001") st01 H01) as H001.
    destruct (try_key_suffixes res_s suffix (lit "001") st01) as [hit001 st001].
    cbn [snd] in H001.
    destruct hit001; cbn [negb andb orb Z.eqb Z.ltb Z.compare Pos.compare];
      [apply Htail, H001 |].
    pose proof (try_key_suffixes_inv res_s suffix (lit "0001") st001 H001) as H0001.
    destruct (try_key_suffixes res_s suffix (lit "0001") st001) as [hit0001 st0001].
    cbn [snd] in H0001.
    destruct hit0001; cbn [negb andb orb Z.eqb Z.ltb Z.compare Pos.compare];
      [apply Htail, H0001 | now intros [= <-]].
Qed.

Lemma for_each_inv {A} (l : list A) (body : A -> KeyWorker -> option KeyWorker) st st' :
  (forall x st0 st1, inv st0 -> body x st0 = Some st1 -> inv st1) ->
  inv st -> for_each l body st = Some st' -> inv st'.
Proof.
  intros Hbody. revert st.
  induction l as [| x l IH]; intros st Hs; cbn [for_each].
  - now intros [= <-].
  - destruct (body x st) as [st1 |] eqn:E; cbn; [| discriminate].
    apply IH. eapply Hbody; eassumption.
Qed.

Lemma try_keys_inv keys st : inv st -> inv (try_keys keys st).
Proof.
  unfold try_keys. revert st.
  induction keys as [| key keys IH]; intros st Hs; cbn [fold_left]; [exact Hs |].
  apply IH. now apply try_key_inv.
Qed.

Lemma stage_1_inv i data st st' :
  inv st -> stage_1 i data st = Some st' -> inv st'.
Proof. intros Hs [= <-]. now apply try_key_inv. Qed.

Lemma partial_task_inv i data st st' :
  inv st -> partial_task i data st = Some st' -> inv st'.
Proof.
  intros Hs. unfold partial_task.
  destruct (cancel st); [now intros [= <-] |].
  intros [= <-].
  destruct (negb (has_common_prefix st) || contains (nth i data []) (common_to_all_prefix st));
    [| exact Hs].
  destruct (word_regex st); [| exact Hs].
  now apply (try_keys_inv _ st).
Qed.

Lemma prefix_suffix_task_2_inv i data st st' :
  inv st -> prefix_suffix_task_2 i data st = Some st' -> inv st'.
Proof.
  intros Hs. unfold prefix_suffix_task_2.
  destruct (cancel st); [now intros [= <-] |].
  destruct (try_num_suffix (nth i data []) [] false st) as [st1 |] eqn:E1; cbn;
    [| discriminate].
  pose proof (try_num_suffix_inv _ _ _ _ _ Hs E1) as H1.
  destruct (for_each (common_suffixes_t st1) _ st1) as [st2 |] eqn:E2; cbn;
    [| discriminate].
  assert (inv st2) as H2.
  { eapply for_each_inv; [| exact H1 | exact E2].
    intros E st0 st0' H0 E0. eapply try_num_suffix_inv; [| exact E0].
    now apply try_key_suffix_inv. }
  destruct (for_each (common_prefixes_t st2) _ st2) as [st3 |] eqn:E3; cbn;
    [| discriminate].
  intros [= <-].
  eapply (for_each_inv _ _ st2 st3); [| exact H2 | exact E3].
  intros E st0 st0' H0 E0. eapply try_num_suffix_inv; [| exact E0].
  now apply try_key_prefix_inv.
Qed.

Lemma stage_3_5_task_inv i data st st' :
  inv st -> stage_3_5_task i data st = Some st' -> inv st'.
Proof.
  intros Hs. unfold stage_3_5_task.
  destruct (cancel st); [now intros [= <-] |].
  destruct (nth i data ([], -1)) as [res_s magnitude].
  destruct (try_num_suffix _ _ _ st) as [st1 |] eqn:E1; cbn; [| discriminate].
  intros [= <-]. exact (try_num_suffix_inv _ _ _ _ _ Hs E1).
Qed.

Lemma stage_5_task_2_inv i data st st' :
  inv st -> stage_5_task_2 i data st = Some st' -> inv st'.
Proof.
  intros Hs. unfold stage_5_task_2.
  destruct (cancel st); [now intros [= <-] |].
  intros [= <-].
  change (inv (fold_left (fun st res_s2 => snd (try_key_suffix (nth i data []) res_s2 st))
                   (take (length (filtered_resource_strings st)) data) st)).
  generalize (take (length (filtered_resource_strings st)) data). intros l.
  revert st Hs. induction l as [| x l IH]; intros st Hs; cbn [fold_left]; [exact Hs |].
  apply IH. now apply try_key_suffix_inv.
Qed.

Lemma run_stage_inv {A} (task : nat -> list A -> KeyWorker -> option KeyWorker)
    (data : list A) name pool st err pool' st' :
  (forall i st0 st1, inv st0 -> task i data st0 = Some st1 -> inv st1) ->
  inv st -> run_stage task data name pool st = Some (err, pool', st') -> inv st'.
Proof.
  intros Htask Hs. unfold run_stage.
  destruct (for_each _ _ _) as [st1 |] eqn:E; cbn; [| discriminate].
  intros [= _ _ <-].
  eapply (for_each_inv _ _ _ st1) in E; [exact E | | exact Hs].
  intros i st0 st0'. apply Htask.
Qed.

Lemma finish_inv st n st' : inv st -> finish st = Some (n, st') -> inv st'.
Proof.
  intros Hs. unfold finish. intros [= E].
  pose proof (pop_keys_table st) as Ht. rewrite E in Ht. cbn [snd] in Ht.
  now rewrite Ht.
Qed.

Lemma stage_5_inv pool st n st' :
  inv st -> stage_5 pool st = Some (n, st') -> inv st'.
Proof.
  intros Hs. unfold stage_5.
  match goal with |- context [if ?c then _ else _] => destruct c end;
    [| now apply finish_inv].
  destruct (run_stage _ _ _ _ _) as [[[err pool1] st1] |] eqn:E; cbn; [| discriminate].
  apply finish_inv.
  eapply run_stage_inv; [| | exact E]; [intros i0 s0 s1; apply stage_5_task_2_inv | exact Hs].
Qed.

Lemma stage_4_inv pool st n st' :
  inv st -> stage_4 pool st = Some (n, st') -> inv st'.
Proof.
  intros Hs. unfold stage_4.
  match goal with |- context [if ?c then _ else _] => destruct c end;
    [| now apply finish_inv].
  match goal with |- context [for_each ?l ?body ?s] =>
    assert (inv s) as Hs0;
      [| destruct (for_each l body s) as [st1 |] eqn:E1; cbn; [| discriminate];
         assert (inv st1) as H1]
  end.
  { match goal with |- context [find_common_prefixes_and_suffixes ?ks ?n ?c ?s0] =>
      change (inv (find_common_prefixes_and_suffixes ks n c s0));
      rewrite (find_common_prefixes_and_suffixes_table ks n c s0)
    end.
    exact Hs. }
  { eapply for_each_inv; [| | exact E1]; [| exact Hs0].
    intros prefix st0 st0' H0. apply for_each_inv; [| exact H0].
    intros suffix st2 st2' H2 E2. eapply try_num_suffix_inv; [| exact E2].
    now apply try_key_suffix_inv. }
  match goal with |- context [if ?c then _ else _] => destruct c end;
    [| now apply finish_inv].
  destruct (run_stage _ _ _ _ _) as [[[err pool1] st2] |] eqn:E2; cbn; [| discriminate].
  assert (inv st2) as H2.
  { eapply run_stage_inv; [| | exact E2]; [intros i0 s0 s1; apply prefix_suffix_task_2_inv | exact H1]. }
  case_bool_decide; [now apply finish_inv | now apply stage_5_inv].
Qed.

Lemma stage_3_5_inv pool st n st' :
  inv st -> stage_3_5 pool st = Some (n, st') -> inv st'.
Proof.
  intros Hs. unfold stage_3_5.
  destruct (keys_missing st); [| now apply stage_4_inv].
  destruct (run_stage _ _ _ _ _) as [[[err pool1] st1] |] eqn:E; cbn; [| discriminate].
  assert (inv st1) as H1.
  { eapply run_stage_inv; [| | exact E]; [intros i0 s0 s1; apply stage_3_5_task_inv | exact Hs]. }
  case_bool_decide; [now apply finish_inv | now apply stage_4_inv].
Qed.

Lemma stage_3_inv res pool st n st' :
  inv st -> stage_3 res pool st = Some (n, st') -> inv st'.
Proof.
  intros Hs. unfold stage_3.
  destruct (keys_missing st); [| now apply stage_3_5_inv].
  destruct (filter_resource_strings res st) as [st0 |] eqn:E0; cbn; [| discriminate].
  apply filter_resource_strings_table in E0.
  destruct (run_stage _ _ _ _ _) as [[[err pool1] st1] |] eqn:E; cbn; [| discriminate].
  assert (inv st1) as H1.
  { eapply run_stage_inv; [| | exact E]; [intros i0 s0 s1; apply prefix_suffix_task_2_inv |].
    change (inv st0). now rewrite E0. }
  case_bool_decide; [now apply finish_inv | now apply stage_3_5_inv].
Qed.

Lemma stage_2_inv res pool st n st' :
  inv st -> stage_2 res pool st = Some (n, st') -> inv st'.
Proof.
  intros Hs. unfold stage_2.
  match goal with |- context [if ?c then _ else _] => destruct c end;
    [| now apply stage_3_inv].
  destruct (run_stage _ _ _ _ _) as [[[err pool1] st1] |] eqn:E; cbn; [| discriminate].
  assert (inv st1) as H1.
  { eapply run_stage_inv; [| | exact E]; [intros i0 s0 s1; apply partial_task_inv | exact Hs]. }
  case_bool_decide; [now apply finish_inv | now apply stage_3_inv].
Qed.

Lemma run_inv hint_lines old_csv_lines res pool st n st' :
  inv st -> run hint_lines old_csv_lines res pool st = Some (n, st') -> inv st'.
Proof.
  intros Hs. unfold run.
  match goal with |- context [run_stage stage_1 ?d ?nm ?p ?s] =>
    destruct (run_stage stage_1 d nm p s) as [[[err pool1] st1] |] eqn:E; cbn;
      [| discriminate];
    assert (inv st1) as H1
  end.
  { eapply run_stage_inv; [| | exact E]; [intros i0 s0 s1; apply stage_1_inv |].
    apply (try_keys_inv _ (try_keys _ (set_cancel false st))).
    now apply (try_keys_inv _ (set_cancel false st)). }
  case_bool_decide; [now apply finish_inv |].
  apply stage_2_inv.
  assert (inv (try_keys (default_messages st1) st1)) as H2 by now apply try_keys_inv.
  destruct (keys_missing (try_keys (default_messages st1) st1)); [| exact H2].
  now apply (try_keys_inv _ (try_keys (default_messages st1) st1)).
Qed.


End TableInvariant.

Lemma run_nodup {eng : Engine} {tr : Translation}
    hint_lines old_csv_lines res_strings pool (st : KeyWorker) n st' :
  run hint_lines old_csv_lines res_strings pool st = Some (n, st') ->
  NoDup (key_to_message st).*1 -> NoDup (key_to_message st').*1.
Proof.
  intros Hrun Hnd.
  apply (run_inv (fun t => NoDup t.*1)) in Hrun; [exact Hrun | | exact Hnd].
  intros t key msg _ Hnew Ht. rewrite fmap_app. apply NoDup_app.
  split; [exact Ht |]. split; [| apply NoDup_singleton].
  intros x Hx Hx'. apply list_elem_of_singleton in Hx'. now subst.
Qed.

(** [run] only adds to the Key Table: the entries it starts with stay in
    front, in their order; keys that are unique stay unique, and no empty
    key comes in. *)
Theorem run_table_grows {eng : Engine} {tr : Translation}
    hint_lines old_csv_lines res_strings pool (st : KeyWorker) n st' :
  run hint_lines old_csv_lines res_strings pool st = Some (n, st') ->
  key_to_message st `prefix_of` key_to_message st'
  /\ (NoDup (key_to_message st).*1 -> NoDup (key_to_message st').*1)
  /\ ([] ∉ (key_to_message st).*1 -> [] ∉ (key_to_message st').*1).
Proof.
  intros Hrun. split; [| split].
  - apply (run_inv (fun t => key_to_message st `prefix_of` t)) in Hrun;
      [exact Hrun | | reflexivity].
    intros t key msg _ _ Hpre. now apply prefix_app_r.
  - now apply (run_nodup _ _ _ _ _ _ _ Hrun).
  - intros Hne.
    apply (run_inv (fun t => [] ∉ t.*1)) in Hrun; [exact Hrun | | exact Hne].
    intros t key msg Hkey _ Ht. rewrite fmap_app. intros Hin.
    apply elem_of_app in Hin. destruct Hin as [Hin | Hin]; [tauto |].
    apply list_elem_of_singleton in Hin. now apply Hkey.
Qed.

Lemma run_table_grows_witness :
  let engine := Fixture.engine in
  let tr :=
    Fixture.translation_of [(lit "BTN_PLAY", lit "Play"); (lit "btn_quit", lit "Quit")] in
  let st :=
    set_key_to_message [(lit "seed", lit "Seed")] (KeyWorker_new [lit "Play"; lit "Quit"] []) in
  exists st',
    run None None [lit "btn_quit"; lit "BTN_PLAY"] [] st = Some (0, st')
    /\ key_to_message st'
       = [(lit "seed", lit "Seed"); (lit "btn_quit", lit "Quit"); (lit "BTN_PLAY", lit "Play")]
    /\ key_to_message st `prefix_of` key_to_message st'.
Proof.
  intros engine tr st.
  destruct (run None None [lit "btn_quit"; lit "BTN_PLAY"] [] st) as [[n st'] |] eqn:E;
    [| vm_compute in E; discriminate].
  exists st'.
  pose proof (proj1 (@run_table_grows engine tr _ _ _ _ _ _ _ E)) as Hpre.
  vm_compute in E. injection E as <- <-.
  split; [reflexivity |]. split; [reflexivity | exact Hpre].
Defined.

(** What [run] returns is reconciled with the table it leaves, whichever
    stage was the last: one key per message of [default_messages], in their
    order, a key of the table for a message that the table holds and the
    placeholder for the others, and the number returned is the number of
    the others. *)
Theorem run_reconciles {eng : Engine} {tr : Translation}
    hint_lines old_csv_lines res_strings pool (st : KeyWorker) n st' :
  NoDup (key_to_message st).*1 -> dispatched st = [] ->
  run hint_lines old_csv_lines res_strings pool st = Some (n, st') ->
  length (keys st') = length (default_messages st')
  /\ Forall2 (reconciled (key_to_message st')) (default_messages st') (keys st')
  /\ n = Z.of_nat (length (filter (fun msg => msg ∉ (key_to_message st').*2)
                             (default_messages st')))
  /\ 0 <= n <= Z.of_nat (length (default_messages st')).
Proof.
  intros Hnd Hd Hrun.
  pose proof (run_nodup _ _ _ _ _ _ _ Hrun Hnd) as Hnd'.
  destruct (run_soft _ _ _ _ _ _ _ Hd Hrun) as [[_ (st1 & _ & Hpop)] _].
  pose proof (pop_keys_table st1) as Htable. rewrite Hpop in Htable. cbn [snd] in Htable.
  rewrite Htable in Hnd'.
  destruct (pop_keys_fold_spec (default_messages st1) 0 (set_keys [] st1) Hnd')
    as (_ & Hmsgs & (ks & Hks & Hall) & Hn & _).
  unfold pop_keys in Hpop. rewrite Hpop in Hmsgs, Hks, Hn. cbn [fst snd] in *.
  change (default_messages (set_keys [] st1)) with (default_messages st1) in *.
  change (key_to_message (set_keys [] st1)) with (key_to_message st1) in *.
  cbn [keys set_keys app] in Hks.
  rewrite Hmsgs, Hks, Htable.
  split; [symmetry; eapply Forall2_length, Hall |].
  split; [exact Hall |]. split; [lia |].
  rewrite Hn. pose proof (length_filter (fun msg => msg ∉ (key_to_message st1).*2)
                            (default_messages st1)). lia.
Qed.

Lemma run_reconciles_witness :
  let engine := Fixture.engine in
  let tr :=
    Fixture.translation_of [(lit "BTN_PLAY", lit "Play"); (lit "btn_quit", lit "Quit")] in
  let st := KeyWorker_new [lit "Play"; lit "Quit"; lit "Other"] [] in
  NoDup (key_to_message st).*1 /\ dispatched st = []
  /\ exists st',
       run None None [lit "btn_quit"; lit "BTN_PLAY"] timed_out_pool st = Some (2, st')
       /\ keys st' = [lit "<!MissingKey:Play>"; lit "btn_quit"; lit "<!MissingKey:Other>"]
       /\ length (keys st') = length (default_messages st').
Proof.
  intros engine tr st.
  assert (NoDup (key_to_message st).*1) as Hnd by constructor.
  split; [exact Hnd |]. split; [reflexivity |].
  destruct (run None None [lit "btn_quit"; lit "BTN_PLAY"] timed_out_pool st)
    as [[n st'] |] eqn:E; [| vm_compute in E; discriminate].
  exists st'.
  pose proof (proj1 (@run_reconciles engine tr _ _ _ _ _ _ _ Hnd eq_refl E)) as Hlen.
  vm_compute in E. injection E as <- <-.
  split; [reflexivity |]. split; [reflexivity | exact Hlen].
Defined.

(** ** Two runs on the same inputs *)

Section ScheduleFacts.
Context {eng : Engine} {tr : Translation}.
Hypothesis multipart : multipart_consistent.


End ScheduleFacts.




(** ** Probes *)

(** [try_key] answers whether the translation has a message for the key;
    when it does, the key is in the table afterwards, and when it does not,
    nothing changes.  Trying the same key again gives the same answer and
    changes nothing more. *)
Theorem try_key_idempotent {eng : Engine} {tr : Translation} (key : String)
    (st : KeyWorker) :
  let r := try_key key st in
  try_key key r.2 = r
  /\ (r.1 = true <-> key <> [] /\ get_message_str key <> [])
  /\ (r.1 = true -> key ∈ (key_to_message r.2).*1)
  /\ (r.1 = false -> r.2 = st).
Proof.
  unfold try_key.
  destruct key as [| c key]; cbn [is_empty].
  { cbn. repeat split; try tauto; try discriminate. }
  destruct (get_message_str (c :: key)) as [| m msg] eqn:Hmsg; cbn [is_empty negb].
  { cbn. repeat split; try tauto; try discriminate. }
  unfold _set_key. cbn [is_empty].
  destruct (map_has (key_to_message st) (c :: key)) eqn:Hhas.
  - cbn [fst snd]. rewrite Hhas.
    split; [reflexivity |]. split; [split; [intros _; split; discriminate | reflexivity] |].
    split; [intros _; now apply map_has_true | discriminate].
  - apply map_has_false in Hhas. cbn [fst snd].
    assert ((c :: key)
            ∈ (key_to_message
                 (set_key_to_message
                    (map_assign (key_to_message (_set_key_stuff (c :: key) st)) (c :: key)
                       (m :: msg))
                    (_set_key_stuff (c :: key) st))).*1) as Hin.
    { rewrite key_to_message_set, set_key_stuff_table, (map_assign_fresh _ _ _ Hhas).
      rewrite fmap_app. apply elem_of_app. right. apply list_elem_of_here. }
    apply map_has_true in Hin. rewrite Hin.
    split; [reflexivity |]. split; [split; [intros _; split; discriminate | reflexivity] |].
    split; [intros _; now apply map_has_true | discriminate].
Qed.

(** ** Candidates *)

Section FreshFacts.
Context {eng : Engine}.
Implicit Types (st : KeyWorker) (base out start hs : list String).

Lemma fold_set_insert_elem {A} `{EqDecision A} (v acc : list A) (x : A) :
  x ∈ fold_left set_insert v acc <-> x ∈ acc \/ x ∈ v.
Proof.
  revert acc. induction v as [| a v IH]; intros acc; cbn [fold_left].
  - rewrite elem_of_nil. tauto.
  - rewrite IH, elem_of_set_insert, elem_of_cons. intuition congruence.
Qed.

Lemma fold_set_insert_nodup {A} `{EqDecision A} (v acc : list A) :
  NoDup acc -> NoDup (fold_left set_insert v acc).
Proof.
  revert acc. induction v as [| a v IH]; intros acc Hacc; cbn [fold_left]; [exact Hacc |].
  apply IH. unfold set_insert. destruct (set_has acc a) eqn:Ha; [exact Hacc |].
  apply set_has_not_elem in Ha. apply NoDup_app. split; [exact Hacc |].
  split; [| apply NoDup_singleton].
  intros x Hx Hx'. apply list_elem_of_singleton in Hx'. now subst.
Qed.

Lemma vector_to_hashset_elem {A} `{EqDecision A} (v : list A) (x : A) :
  x ∈ vector_to_hashset v <-> x ∈ v.
Proof.
  unfold vector_to_hashset. rewrite fold_set_insert_elem, elem_of_nil. tauto.
Qed.

Lemma tracks_start base start : tracks base start (vector_to_hashset base, start).
Proof.
  exists []. cbn [fst snd]. rewrite app_nil_r.
  split; [reflexivity |]. split; [constructor |]. split; [constructor |].
  intros x. rewrite vector_to_hashset_elem, elem_of_nil. tauto.
Qed.

Lemma tracks_insert base start acc s :
  tracks base start acc -> tracks base start (insert_into_hashset acc s).2.
Proof.
  intros (added & Hout & Hnd & Hfresh & Hhs). unfold insert_into_hashset.
  destruct (set_has acc.1 s) eqn:Hs; cbn [snd]; [now exists added |].
  apply set_has_not_elem in Hs. rewrite Hhs in Hs.
  exists (added ++ [s]). cbn [fst snd].
  split; [now rewrite Hout, app_assoc |].
  split.
  { apply NoDup_app. split; [exact Hnd |]. split; [| apply NoDup_singleton].
    intros x Hx Hx'. apply list_elem_of_singleton in Hx'. subst. tauto. }
  split; [apply Forall_app; split; [exact Hfresh | apply Forall_singleton; tauto] |].
  intros x. rewrite !elem_of_app, Hhs, list_elem_of_singleton. tauto.
Qed.

Lemma tracks_fold {A} base start (l : list A)
    (step : list String * list String -> A -> list String * list String) acc :
  (forall acc0 a, tracks base start acc0 -> tracks base start (step acc0 a)) ->
  tracks base start acc -> tracks base start (fold_left step l acc).
Proof.
  intros Hstep. revert acc.
  induction l as [| a l IH]; intros acc Hacc; cbn [fold_left]; [exact Hacc |].
  apply IH, Hstep, Hacc.
Qed.

Lemma tracks_grows base start acc : tracks base start acc -> grows_fresh base start acc.2.
Proof. intros (added & Hout & Hnd & Hfresh & _). now exists added. Qed.

End FreshFacts.

(** The candidates that stages 3 and 4 add to the filtered resource strings
    are new: [get_sanitized_message_strings] appends to [new_strings], and
    [extract_middles] to [middles], only strings that are not among the
    filtered resource strings, and none twice; [get_sanitized_strings]
    returns no string twice. *)
Theorem candidates_fresh {eng : Engine} (st : KeyWorker)
    (new_strings frs middles messages : list String) :
  grows_fresh (filtered_resource_strings st) new_strings
    (get_sanitized_message_strings st new_strings)
  /\ grows_fresh frs middles (extract_middles st frs middles)
  /\ NoDup (get_sanitized_strings st messages).
Proof.
  split; [| split].
  - unfold get_sanitized_message_strings. apply tracks_grows, tracks_fold.
    + intros [hshset out] msg_str (added & Hout & Hnd & Hfresh & Hhs).
      cbn [fst snd] in *.
      destruct (set_has hshset msg_str) eqn:Hs; [now exists added |].
      apply set_has_not_elem in Hs. rewrite Hhs in Hs.
      exists (added ++ [msg_str]). cbn [fst snd].
      split; [now rewrite Hout, app_assoc |].
      split.
      { apply NoDup_app. split; [exact Hnd |]. split; [| apply NoDup_singleton].
        intros x Hx Hx'. apply list_elem_of_singleton in Hx'. subst. tauto. }
      split; [apply Forall_app; split; [exact Hfresh | apply Forall_singleton; tauto] |].
      intros x. rewrite !elem_of_app, Hhs, list_elem_of_singleton. tauto.
    + apply tracks_start.
  - unfold extract_middles. apply tracks_grows, tracks_fold; [| apply tracks_start].
    intros acc res_s Hacc. unfold extract_middles_of.
    apply tracks_fold.
    + intros acc0 suffix H0. destruct (_ && _); [| exact H0]. now apply tracks_insert.
    + apply tracks_fold; [| exact Hacc].
      intros acc0 prefix H0. destruct (_ && _); [| exact H0].
      pose proof (tracks_insert frs middles acc0
                    (trim_punctuation st (drop (length prefix) res_s)) H0) as H1.
      destruct (insert_into_hashset acc0 _) as [fresh acc1]. cbn [snd] in H1.
      destruct fresh; cbn [negb]; [| exact H1].
      apply tracks_fold; [| exact H1].
      intros acc2 suffix H2. destruct (_ && _); [| exact H2]. now apply tracks_insert.
  - unfold get_sanitized_strings.
    assert (forall l acc, NoDup acc -> NoDup (fold_left (sanitize_into st) l acc)) as Hfold.
    { induction l as [| msg l IH]; intros acc Hacc; cbn [fold_left]; [exact Hacc |].
      apply IH. unfold sanitize_into.
      destruct (has_nonspace_and_std_punctuation st _); [exact Hacc |].
      destruct (_ && _); [exact Hacc |].
      destruct (contains _ _).
      - generalize (punctuation st). intros ps. revert acc Hacc.
        induction ps as [| p ps IHp]; intros acc Hacc; cbn [fold_left]; [exact Hacc |].
        apply IHp. now apply (fold_set_insert_nodup [_]).
      - now apply (fold_set_insert_nodup [_]). }
    apply Hfold. constructor.
Qed.

(** ** The exported table *)

Section RemoveEmptyFacts.

Lemma remove_empty_messages_from_spec (front back : list String) :
  remove_empty_messages_from (length front) (front ++ back)
  = Some (filter (fun m => is_empty m = false) front ++ back).
Proof.
  revert back. induction front as [| m front IH] using rev_ind; intros back.
  - reflexivity.
  - rewrite length_app, Nat.add_1_r. cbn [remove_empty_messages_from].
    rewrite <- app_assoc. cbn [app].
    rewrite lookup_app_r by lia. rewrite Nat.sub_diag. cbn [lookup list_lookup mbind option_bind].
    rewrite filter_app.
    destruct (is_empty m) eqn:Hm.
    + replace (delete (length front) (front ++ m :: back)) with (front ++ back).
      2:{ rewrite delete_middle. reflexivity. }
      rewrite IH.
      rewrite filter_cons_False by (rewrite Hm; discriminate).
      now rewrite filter_nil, app_nil_r.
    + rewrite IH.
      rewrite filter_cons_True by exact Hm.
      now rewrite filter_nil, <- app_assoc.
Qed.

Lemma remove_empty_rows_from_spec (kfront front kback back : list String) :
  length kfront = length front ->
  remove_empty_rows_from (length front) (kfront ++ kback) (front ++ back)
  = Some ((kept_rows (zip kfront front)).*1 ++ kback,
          (kept_rows (zip kfront front)).*2 ++ back).
Proof.
  revert kfront kback back.
  induction front as [| m front IH] using rev_ind; intros kfront kback back Hlen.
  - destruct kfront; [reflexivity | discriminate].
  - destruct kfront as [| k kfront _] using rev_ind.
    { rewrite length_app in Hlen. cbn in Hlen. lia. }
    rewrite !length_app in Hlen. cbn [length] in Hlen.
    assert (length kfront = length front) as Hl by lia.
    rewrite length_app, Nat.add_1_r. cbn [remove_empty_rows_from].
    rewrite <- !app_assoc. cbn [app].
    rewrite (lookup_app_r front) by lia. rewrite Nat.sub_diag.
    cbn [lookup list_lookup mbind option_bind].
    rewrite zip_with_app by exact Hl. cbn [zip_with].
    unfold kept_rows. rewrite filter_app. fold (kept_rows (zip kfront front)).
    destruct (is_empty m) eqn:Hm.
    + rewrite (lookup_app_r kfront) by lia.
      replace (length front - length kfront)%nat with 0%nat by lia.
      cbn [lookup list_lookup mbind option_bind].
      destruct (is_empty k) eqn:Hk.
      * replace (delete (length front) (kfront ++ k :: kback)) with (kfront ++ kback)
          by (rewrite <- Hl; now rewrite delete_middle).
        rewrite delete_middle. rewrite IH by exact Hl.
        rewrite filter_cons_False by (cbn; rewrite Hm, Hk; discriminate).
        now rewrite filter_nil, app_nil_r.
      * rewrite IH by exact Hl.
        rewrite filter_cons_True by (cbn; rewrite Hm, Hk; reflexivity).
        rewrite filter_nil, !fmap_app. cbn. now rewrite <- !app_assoc.
    + rewrite IH by exact Hl.
      rewrite filter_cons_True by (cbn; rewrite Hm; reflexivity).
      rewrite filter_nil, !fmap_app. cbn. now rewrite <- !app_assoc.
Qed.

Lemma kept_rows_all (keys translation_message : list String) :
  [] ∉ keys -> kept_rows (zip keys translation_message) = zip keys translation_message.
Proof.
  revert translation_message.
  induction keys as [| k keys IH]; intros [| m tm] Hne; try reflexivity.
  cbn [zip_with]. unfold kept_rows.
  assert (is_empty k = false) as Hk.
  { destruct k; [| reflexivity]. exfalso. apply Hne. left. }
  rewrite filter_cons_True by (cbn; rewrite Hk; apply andb_false_r).
  fold (kept_rows (zip keys tm)). rewrite IH; [reflexivity |].
  intros Hin. apply Hne. now right.
Qed.

Lemma remove_empty_rows_unchanged (keys : list String)
    (translation_messages : list (list String)) :
  [] ∉ keys ->
  Forall (fun translation_message => length translation_message = length keys)
    translation_messages ->
  remove_empty_rows keys translation_messages = Some (keys, translation_messages).
Proof.
  intros Hne. induction 1 as [| tm tms Hlen _ IH]; [reflexivity |].
  cbn [remove_empty_rows].
  pose proof (remove_empty_rows_from_spec keys tm [] [] (eq_sym Hlen)) as Hrow.
  rewrite !app_nil_r in Hrow. rewrite Hrow.
  rewrite kept_rows_all by exact Hne.
  rewrite fst_zip, snd_zip by lia.
  cbn [mbind option_bind]. rewrite IH. reflexivity.
Qed.

End RemoveEmptyFacts.

(** In the optimized case, where there are no keys, the removal of empty
    strings leaves of every translation its non-empty messages, in order,
    and it reads no index that is out of range. *)
Theorem remove_empty_strings_optimized (translation_messages : list (list String)) :
  remove_empty_strings [] translation_messages
  = Some ([], map (filter (fun m => is_empty m = false)) translation_messages).
Proof.
  unfold remove_empty_strings.
  assert (mapM (fun tm => remove_empty_messages_from (length tm) tm) translation_messages
          = Some (map (filter (fun m => is_empty m = false)) translation_messages)) as ->;
    [| reflexivity].
  apply mapM_Some. induction translation_messages as [| tm tms IH]; constructor; [| exact IH].
  pose proof (remove_empty_messages_from_spec tm []) as H.
  now rewrite !app_nil_r in H.
Qed.

(** When there are keys, the removal of empty strings removes from one
    translation with a message per key the rows in which the key and the
    message are both empty, and nothing else; and when no key is empty it
    changes nothing, for any number of translations. *)
Theorem remove_empty_strings_rows (keys : list String)
    (translation_messages : list (list String)) :
  keys <> [] ->
  Forall (fun translation_message => length translation_message = length keys)
    translation_messages ->
  (forall translation_message, translation_messages = [translation_message] ->
     let rows := kept_rows (zip keys translation_message) in
     remove_empty_strings keys translation_messages = Some (rows.*1, [rows.*2]))
  /\ ([] ∉ keys ->
      remove_empty_strings keys translation_messages = Some (keys, translation_messages)).
Proof.
  intros Hkeys Hlen.
  assert (remove_empty_strings keys translation_messages
          = remove_empty_rows keys translation_messages) as ->.
  { unfold remove_empty_strings. destruct keys; [congruence | reflexivity]. }
  split.
  - intros tm ->. apply (proj1 (Forall_singleton _ _)) in Hlen. cbn [remove_empty_rows].
    pose proof (remove_empty_rows_from_spec keys tm [] [] (eq_sym Hlen)) as Hrow.
    rewrite !app_nil_r in Hrow. rewrite Hrow. reflexivity.
  - intros Hne. now apply remove_empty_rows_unchanged.
Qed.

Lemma remove_empty_strings_rows_witness :
  remove_empty_strings [lit "A"; []; lit "B"] [[lit "x"; []; []]]
  = Some ([lit "A"; lit "B"], [[lit "x"; []]]).
Proof.
  exact (proj1 (remove_empty_strings_rows [lit "A"; []; lit "B"] [[lit "x"; []; []]]
                  ltac:(discriminate) ltac:(repeat constructor))
           _ eq_refl).
Defined.

Section ExportFacts.
Implicit Types (keys kept rest : list String) (tm ck cr : list String)
  (tms : list (list String)).

Notation keep_first :=
  (fun (acc : list (String * String)) (row : String * String) =>
     if set_has acc.*1 row.1 then acc else acc ++ [row]).

Lemma zip_snoc {A B} (l : list A) (k : list B) (a : A) (b : B) :
  length l = length k -> zip (l ++ [a]) (k ++ [b]) = zip l k ++ [(a, b)].
Proof.
  revert k. induction l as [| x l IH]; intros [| y k] Hlen; try discriminate.
  - reflexivity.
  - cbn. f_equal. apply IH. cbn in Hlen. lia.
Qed.

Lemma remove_duplicate_keys_from_spec rest kept tms :
  let r := remove_duplicate_keys_from rest (length kept) kept kept tms in
  r.1 = fold_left set_insert rest kept
  /\ Forall2
       (fun tm tm' =>
          forall ck cr,
            tm = ck ++ cr -> length ck = length kept -> length cr = length rest ->
            length tm' = length r.1
            /\ zip r.1 tm' = fold_left keep_first (zip rest cr) (zip kept ck))
       tms r.2.
Proof.
  revert kept tms. induction rest as [| key rest IH]; intros kept tms;
    cbn [remove_duplicate_keys_from fold_left].
  - cbv zeta. cbn [fst snd]. split; [reflexivity |].
    apply Forall2_same_length_lookup_2; [reflexivity |].
    intros j tm tm' Hj Hj' ck cr -> Hck Hcr. rewrite Hj in Hj'. injection Hj' as <-.
    destruct cr; [| discriminate]. rewrite app_nil_r. split; [exact Hck | reflexivity].
  - destruct (set_has kept key) eqn:Hkey; cbn [negb].
    + destruct (IH kept (map (delete (length kept)) tms)) as [Hkeys Hcols].
      unfold set_insert at 2. rewrite Hkey.
      split; [exact Hkeys |].
      apply Forall2_fmap_l in Hcols. eapply Forall2_impl; [exact Hcols |].
      intros tm tm' Hcol ck cr -> Hck Hcr.
      destruct cr as [| c cr]; [discriminate |]. cbn [length] in Hcr.
      destruct (Hcol ck cr) as [Hl Hz]; [| exact Hck | lia |].
      * cbn. rewrite <- Hck. apply delete_middle.
      * split; [exact Hl |]. rewrite Hz. cbn [zip zip_with fold_left fst].
        rewrite fst_zip by lia. now rewrite Hkey.
    + assert (set_insert kept key = kept ++ [key]) as Hins
        by (unfold set_insert; now rewrite Hkey).
      rewrite Hins.
      assert (S (length kept) = length (kept ++ [key])) as ->
        by (rewrite length_app; cbn; lia).
      destruct (IH (kept ++ [key]) tms) as [Hkeys Hcols].
      split; [exact Hkeys |].
      eapply Forall2_impl; [exact Hcols |].
      intros tm tm' Hcol ck cr -> Hck Hcr.
      destruct cr as [| c cr]; [discriminate |]. cbn [length] in Hcr.
      destruct (Hcol (ck ++ [c]) cr) as [Hl Hz].
      * now rewrite <- app_assoc.
      * rewrite !length_app. cbn. lia.
      * lia.
      * split; [exact Hl |]. rewrite Hz. cbn [zip zip_with fold_left fst].
        rewrite fst_zip by lia. rewrite Hkey. now rewrite zip_snoc.
Qed.

End ExportFacts.

(** The removal of duplicate keys after [run] keeps the first occurrence of
    every key, in order, and removes from each translation the messages at
    the indices of the other occurrences: for a translation with one
    message per key, the pairs of key and message that are left are the
    first pair of each key. *)
Theorem remove_duplicate_keys_rows (keys : list String)
    (translation_messages : list (list String)) :
  let r := remove_duplicate_keys keys translation_messages in
  NoDup r.1
  /\ (forall key, key ∈ r.1 <-> key ∈ keys)
  /\ Forall2
       (fun tm tm' =>
          length tm = length keys ->
          length tm' = length r.1 /\ zip r.1 tm' = first_rows (zip keys tm))
       translation_messages r.2.
Proof.
  unfold remove_duplicate_keys.
  destruct (remove_duplicate_keys_from_spec keys [] translation_messages)
    as [Hkeys Hcols].
  cbn [length] in Hkeys, Hcols. cbv zeta in *. rewrite Hkeys in *.
  split; [apply fold_set_insert_nodup; constructor |].
  split; [intros key; rewrite fold_set_insert_elem, elem_of_nil; tauto |].
  eapply Forall2_impl; [exact Hcols |].
  intros tm tm' Hcol Hlen. now apply (Hcol [] tm).
Qed.

(** The three marks of a line of the diff file: none when the new and the
    old message are the same, and one otherwise: [is_add] when there was no
    old message, [is_remove] when there is no new one, [is_update] when
    both are there. *)
Theorem diff_flags_exclusive (new_message old_message : String) :
  diff_flags new_message old_message
  = if bool_decide (new_message = old_message) then ([], [], [])
    else if is_empty old_message then (lit "1", [], [])
    else if is_empty new_message then ([], [], lit "1")
    else ([], lit "1", []).
Proof.
  unfold diff_flags.
  destruct new_message as [| a n], old_message as [| b o]; cbn [is_empty negb andb];
    case_bool_decide; try reflexivity; congruence.
Qed.

Section SortFacts.

Variable keys : list String.
Variable translation_messages : list (list String).
Hypothesis keys_nodup : NoDup keys.
Hypothesis one_message_per_key :
  Forall (fun translation_message => length translation_message = length keys)
    translation_messages.

Lemma append_messages_map (idx : option nat) (row : list String -> list String)
    (cell : list String -> String) :
  Forall (fun tm => match idx with
                    | Some idx => tm !! idx = Some (cell tm)
                    | None => cell tm = []
                    end) translation_messages ->
  append_messages idx translation_messages (map row translation_messages)
  = Some (map (fun tm => row tm ++ [cell tm]) translation_messages).
Proof.
  clear one_message_per_key. unfold append_messages.
  induction 1 as [| tm tms Htm _ IH]; [reflexivity |].
  cbn [map zip_with]. apply mapM_Some. constructor.
  - cbn [fst snd]. destruct idx as [i |]; [now rewrite Htm | now rewrite Htm].
  - apply mapM_Some. exact IH.
Qed.

Lemma find_at (i : nat) (key : String) :
  keys !! i = Some key -> list_find (fun k => k = key) keys = Some (i, key).
Proof.
  intros Hi. apply list_find_Some. split; [exact Hi |]. split; [reflexivity |].
  intros j y Hj Hlt ->.
  pose proof (NoDup_lookup keys j i key keys_nodup Hj Hi). lia.
Qed.

Lemma message_at (i : nat) (key : String) (tm : list String) :
  keys !! i = Some key -> length tm = length keys ->
  tm !! i = Some (message_of keys tm key).
Proof.
  intros Hi Hlen. unfold message_of. rewrite (find_at i key Hi).
  destruct (tm !! i) eqn:E; [reflexivity |].
  apply lookup_ge_None in E. apply lookup_lt_Some in Hi. lia.
Qed.

Lemma list_find_blank (found : list String) (key : String) :
  key ∉ found -> key <> [] ->
  fst <$> list_find (fun k => k = key) (blank found keys)
  = fst <$> list_find (fun k => k = key) keys.
Proof.
  clear keys_nodup one_message_per_key.
  intros Hnot Hne. unfold blank.
  induction keys as [| k ks IH]; [reflexivity |].
  cbn [map list_find].
  destruct (decide (k = key)) as [-> | Hk].
  - rewrite bool_decide_eq_false_2 by exact Hnot.
    now rewrite decide_True by reflexivity.
  - rewrite decide_False.
    2:{ case_bool_decide; congruence. }
    rewrite <- !option_fmap_compose.
    transitivity (S <$> (fst <$> list_find (fun k0 => k0 = key)
                                   (map (fun k0 => if bool_decide (k0 ∈ found) then [] else k0) ks))).
    { rewrite <- option_fmap_compose. now apply option_fmap_ext; intros []. }
    rewrite IH. rewrite <- option_fmap_compose. now apply option_fmap_ext; intros [].
Qed.

Lemma elem_of_snoc_ne (found : list String) (k key : String) :
  k <> key -> k ∈ found ++ [key] <-> k ∈ found.
Proof. intros Hne. rewrite elem_of_app, list_elem_of_singleton. tauto. Qed.

Lemma blank_insert (found : list String) (i : nat) (key : String) :
  keys !! i = Some key ->
  <[i := []]> (blank found keys) = blank (found ++ [key]) keys.
Proof.
  intros Hi. apply list_eq. intros j. unfold blank.
  destruct (decide (j = i)) as [-> | Hj].
  - rewrite list_lookup_insert_eq by (rewrite length_map; now apply lookup_lt_Some in Hi).
    rewrite list_lookup_fmap. change String with (list char32) in *. rewrite Hi. cbn.
    rewrite bool_decide_eq_true_2; [reflexivity |].
    apply elem_of_app. right. now left.
  - rewrite list_lookup_insert_ne by congruence.
    rewrite !list_lookup_fmap. change String with (list char32) in *.
    destruct (keys !! j) as [k |] eqn:Hk; [| reflexivity].
    cbn. f_equal.
    assert (k <> key) as Hne.
    { intros ->. apply Hj. exact (NoDup_lookup keys j i key keys_nodup Hk Hi). }
    now rewrite (bool_decide_ext _ _ (elem_of_snoc_ne found k key Hne)).
Qed.

Lemma blank_absent (found : list String) (key : String) :
  key ∉ keys -> blank (found ++ [key]) keys = blank found keys.
Proof.
  clear keys_nodup one_message_per_key.
  intros Hnot. unfold blank. apply map_ext_in. intros k Hk.
  apply list_elem_of_In in Hk.
  assert (k <> key) as Hne by (intros ->; tauto).
  now rewrite (bool_decide_ext _ _ (elem_of_snoc_ne found k key Hne)).
Qed.

Notation rows_of sorted_keys :=
  (map (fun tm => map (message_of keys tm) sorted_keys) translation_messages).

Lemma rows_snoc (sorted_keys : list String) (key : String) :
  map (fun tm => map (message_of keys tm) sorted_keys ++ [message_of keys tm key])
    translation_messages
  = rows_of (sorted_keys ++ [key]).
Proof. apply map_ext. intros tm. now rewrite map_app. Qed.

Lemma merge_old_keys_spec (rest found : list String) :
  NoDup (found ++ rest) -> [] ∉ rest ->
  merge_old_keys translation_messages rest (blank found keys, found, rows_of found)
  = Some (blank (found ++ rest) keys, found ++ rest, rows_of (found ++ rest)).
Proof.
  revert found. induction rest as [| key rest IH]; intros found Hnd Hne.
  - now rewrite app_nil_r.
  - assert (key ∉ found) as Hfresh.
    { apply NoDup_app in Hnd. destruct Hnd as (_ & Hdis & _).
      intros Hin. apply (Hdis key Hin). now left. }
    assert (key <> []) as Hkey by (intros ->; apply Hne; now left).
    cbn [merge_old_keys]. unfold merge_old_key.
    rewrite (list_find_blank found key Hfresh Hkey).
    destruct (list_find (fun k => k = key) keys) as [[i k] |] eqn:Hfind; cbn [fmap option_fmap option_map fst].
    + apply list_find_Some in Hfind. destruct Hfind as (Hi & -> & _).
      rewrite (append_messages_map (Some i) _ (fun tm => message_of keys tm key)).
      2:{ eapply Forall_impl; [exact one_message_per_key |]. intros tm Hlen.
          now apply message_at. }
      cbn [mbind option_bind]. rewrite rows_snoc, (blank_insert found i key Hi).
      rewrite IH.
      * now rewrite <- !app_assoc.
      * now rewrite <- app_assoc.
      * intros Hin. apply Hne. now right.
    + apply list_find_None in Hfind.
      rewrite (append_messages_map None _ (fun tm => message_of keys tm key)).
      2:{ apply Forall_forall. intros tm _. unfold message_of.
          destruct (list_find (fun k => k = key) keys) as [[j k] |] eqn:E; [| reflexivity].
          apply list_find_Some in E. destruct E as (Hj & -> & _).
          apply list_elem_of_lookup_2 in Hj.
          exfalso. eapply Forall_forall in Hfind; [| exact Hj]. now apply Hfind. }
      cbn [mbind option_bind]. rewrite rows_snoc.
      rewrite <- (blank_absent found key).
      2:{ intros Hin. eapply Forall_forall in Hfind; [| exact Hin]. now apply Hfind. }
      rewrite IH.
      * now rewrite <- !app_assoc.
      * now rewrite <- app_assoc.
      * intros Hin. apply Hne. now right.
Qed.

Lemma merge_new_keys_spec (rest : list String) (idx : nat) (sorted_keys : list String) :
  (forall i key, rest !! i = Some key -> key <> [] -> keys !! (idx + i)%nat = Some key) ->
  merge_new_keys translation_messages idx rest (sorted_keys, rows_of sorted_keys)
  = Some (sorted_keys ++ filter (fun k => k <> []) rest,
          rows_of (sorted_keys ++ filter (fun k => k <> []) rest)).
Proof.
  revert idx sorted_keys. induction rest as [| key rest IH]; intros idx sorted_keys Hrest.
  - cbn. now rewrite app_nil_r.
  - cbn [merge_new_keys].
    assert (forall i k, rest !! i = Some k -> k <> [] -> keys !! (S idx + i)%nat = Some k)
      as Hrest'.
    { intros i k Hi Hk. specialize (Hrest (S i) k Hi Hk).
      now replace (S idx + i)%nat with (idx + S i)%nat by lia. }
    destruct key as [| c key]; cbn [is_empty].
    + rewrite filter_cons_False by tauto. now apply IH.
    + rewrite filter_cons_True by discriminate.
      cbn [fst snd].
      rewrite (append_messages_map (Some idx) _ (fun tm => message_of keys tm (c :: key))).
      2:{ eapply Forall_impl; [exact one_message_per_key |]. intros tm Hlen.
          apply message_at; [| exact Hlen].
          specialize (Hrest 0%nat (c :: key) eq_refl). rewrite Nat.add_0_r in Hrest.
          now apply Hrest. }
      cbn [mbind option_bind]. rewrite rows_snoc.
      rewrite (IH (S idx) _ Hrest'). now rewrite <- !app_assoc.
Qed.

Lemma filter_blank (found : list String) :
  filter (fun k => k <> []) (blank found keys)
  = filter (fun k => k <> [] /\ k ∉ found) keys.
Proof.
  clear keys_nodup one_message_per_key. unfold blank.
  induction keys as [| k ks IH]; [reflexivity |].
  cbn [map]. case_bool_decide as Hk.
  - rewrite filter_cons_False by tauto.
    rewrite filter_cons_False by tauto. exact IH.
  - destruct (decide (k = [])) as [-> | Hne].
    + rewrite filter_cons_False by tauto.
      rewrite filter_cons_False by tauto. exact IH.
    + rewrite filter_cons_True by exact Hne.
      rewrite filter_cons_True by tauto. apply (f_equal (cons k)). exact IH.
Qed.

Lemma blank_lookup (found : list String) (i : nat) (key : String) :
  blank found keys !! i = Some key -> key <> [] -> keys !! i = Some key.
Proof.
  clear keys_nodup one_message_per_key. unfold blank.
  intros H Hne. rewrite list_lookup_fmap in H. change String with (list char32) in *.
  destruct (keys !! i) as [k |]; [| discriminate].
  cbn in H. case_bool_decide; congruence.
Qed.

End SortFacts.

(** The table of the diff file starts with the keys of the old CSV file, in
    their order, followed by the keys that the old file does not have, in
    the order of [keys]; every row holds, for each translation, the message
    of its key, and the empty string for a key of the old file that is no
    longer among the keys.  No index out of range is read. *)
Theorem sort_by_old_keys_rows (old_translation_csv_keys keys : list String)
    (translation_messages : list (list String)) :
  NoDup old_translation_csv_keys -> [] ∉ old_translation_csv_keys ->
  NoDup keys ->
  Forall (fun translation_message => length translation_message = length keys)
    translation_messages ->
  let sorted_keys :=
    old_translation_csv_keys
    ++ filter (fun k => k <> [] /\ k ∉ old_translation_csv_keys) keys in
  sort_by_old_keys old_translation_csv_keys keys translation_messages
  = Some (sorted_keys,
          map (fun translation_message =>
                 map (message_of keys translation_message) sorted_keys)
            translation_messages).
Proof.
  intros Hold Hne Hkeys Hlen sorted_keys. unfold sort_by_old_keys.
  pose proof (merge_old_keys_spec keys translation_messages Hkeys Hlen
                old_translation_csv_keys [] Hold Hne) as H1.
  cbn [app map] in H1.
  assert (blank [] keys = keys) as Hb.
  { unfold blank. rewrite <- (map_id keys) at 2. apply map_ext. intros k.
    rewrite bool_decide_eq_false_2; [reflexivity | apply not_elem_of_nil]. }
  rewrite Hb in H1. rewrite H1. cbn [mbind option_bind].
  rewrite (merge_new_keys_spec keys translation_messages Hkeys Hlen).
  - now rewrite filter_blank.
  - intros i key Hi Hk. cbn [Nat.add]. eapply blank_lookup; eassumption.
Qed.

Lemma sort_by_old_keys_rows_witness :
  sort_by_old_keys [lit "B"; lit "X"] [lit "A"; lit "B"; lit "C"]
    [[lit "a"; lit "b"; lit "c"]]
  = Some ([lit "B"; lit "X"; lit "A"; lit "C"], [[lit "b"; []; lit "a"; lit "c"]]).
Proof.
  apply (sort_by_old_keys_rows [lit "B"; lit "X"] [lit "A"; lit "B"; lit "C"]
           [[lit "a"; lit "b"; lit "c"]]).
  - by_decide.
  - by_decide.
  - by_decide.
  - repeat constructor.
Defined.
